(** * Garbage collector core (UnObjGC.cpp): a shallow embedding and its properties

    The development follows the layout of the source file:
    - [PageAllocator]   : FPageAllocator, the cache of 4 KiB scratch pages;
    - [WorkStealing]    : FBoundedWorkstealingQueue and FWorkstealingQueue;
    - [ObjectFlags]     : the internal flag word of an object-table entry;
    - [Reachability]    : TReachabilityProcessor;
    - [MarkPhase]       : FRealtimeGC::MarkObjectsAsUnreachable;
    - [Gather]          : GatherUnreachableObjects;
    - [Purge]           : UnhashUnreachableObjects, IncrementalDestroyGarbage,
                          IncrementalPurgeGarbage and FAsyncPurge;
    - [Coordinator]     : CollectGarbage, TryCollectGarbage, CollectGarbageImpl;
    - [Stripes]         : the ranges that ParallelFor hands to the workers.
    The definitions come first, module by module; the properties follow in
    modules of the same names with the suffix [Proofs].

    Pointers are integers ([Z], 0 is nullptr); TArray is [list]; fixed C arrays
    are lists of constant length updated in place with stdpp's list insert;
    memory cells that the collector overwrites are a [gmap] from addresses to
    values.  Cursors into arrays are [nat] (TArray::Num() is an int32, so the
    lengths met here stay below 2^31); counters that the code lets grow without
    a bound are [Z] with the int32 wrap-around written out. *)

From Stdlib Require Import ZArith Bool List Lia ZifyNat Permutation.
From stdpp Require Import base tactics option list gmap.

Local Open Scope Z_scope.

(** int32 arithmetic, as the hardware performs it. *)
Definition wrap32 (x : Z) : Z := (x + 2^31) mod 2^32 - 2^31.

(* ===================================================================== *)
(** ** FPageAllocator *)
(* ===================================================================== *)

Module PageAllocator.

Definition MaxWorkers : nat := 16.

(** [static constexpr uint32 Capacity = 512 / MaxWorkers;] *)
Definition Capacity : nat := Nat.div 512 MaxWorkers.

(** [FWorkerCache]: a fixed array [Pages[Capacity]] and the fill count. *)
Record FWorkerCache := mkWorkerCache {
  Num : nat;
  Pages : list Z
}.

(** [FWorkerCache::Push] *)
Definition WorkerCache_Push (Page : Z) (W : FWorkerCache) : FWorkerCache * bool :=
  if (Num W <? Capacity)%nat
  then (mkWorkerCache (S (Num W)) (<[Num W := Page]> (Pages W)), true)
  else (W, false).

(** [FWorkerCache::Pop]: [Num > 0 ? Pages[--Num] : nullptr] *)
Definition WorkerCache_Pop (W : FWorkerCache) : FWorkerCache * Z :=
  match Num W with
  | O => (W, 0)
  | S n => (mkWorkerCache n (Pages W), default 0 (Pages W !! n))
  end.

(** The allocator: the shared pool ([FSharedCache::Pages], guarded by a
    critical section in the source), one cache per worker, and the calls
    made to the system allocator ([FMemory::Free]) so far. *)
Record FPageAllocator := mkAllocator {
  SharedCache : list Z;
  WorkerCaches : list FWorkerCache;
  Freed : list Z
}.

(** [FSharedCache::Push] *)
Definition SharedCache_Push (Page : Z) (A : FPageAllocator) : FPageAllocator :=
  mkAllocator (SharedCache A ++ [Page]) (WorkerCaches A) (Freed A).

(** [FSharedCache::Pop]: [Pages.IsEmpty() ? nullptr : Pages.Pop(false)] *)
Definition SharedCache_Pop (A : FPageAllocator) : FPageAllocator * Z :=
  match last (SharedCache A) with
  | None => (A, 0)
  | Some p =>
      (mkAllocator (removelast (SharedCache A)) (WorkerCaches A) (Freed A), p)
  end.

(** [FSharedCache::PushSurplus], with [NumWorkerInitialPages = 2 + GetNumSlowAROs()] *)
Definition PushSurplus (NumSlowAROs : nat) (WorkerIdx : nat) (A : FPageAllocator)
  : option FPageAllocator :=
  W ← WorkerCaches A !! WorkerIdx;
  let NumWorkerInitialPages := (2 + NumSlowAROs)%nat in
  if (NumWorkerInitialPages <? Num W)%nat
  then Some (mkAllocator
               (SharedCache A ++
                take (Num W - NumWorkerInitialPages) (drop NumWorkerInitialPages (Pages W)))
               (<[WorkerIdx := mkWorkerCache NumWorkerInitialPages (Pages W)]> (WorkerCaches A))
               (Freed A))
  else Some A.

(** [FPageAllocator::FreePage] *)
Definition FreePage (Page : Z) (A : FPageAllocator) : FPageAllocator :=
  mkAllocator (SharedCache A) (WorkerCaches A) (Freed A ++ [Page]).

(** [FPageAllocator::AllocatePage]; [NewPage] is what [FMemory::Malloc]
    would return if it were called.  [None]: the index check fails. *)
Definition AllocatePage (NewPage : Z) (WorkerIdx : nat) (A : FPageAllocator)
  : option (FPageAllocator * Z) :=
  W ← WorkerCaches A !! WorkerIdx;
  let '(W', WorkerPage) := WorkerCache_Pop W in
  if negb (WorkerPage =? 0) then
    Some (mkAllocator (SharedCache A) (<[WorkerIdx := W']> (WorkerCaches A)) (Freed A),
          WorkerPage)
  else
    let '(A', SharedPage) := SharedCache_Pop A in
    if negb (SharedPage =? 0) then Some (A', SharedPage)
    else Some (A, NewPage).

(** [FPageAllocator::ReturnWorkerPage]:
    [if (!WorkerCaches[WorkerIdx].Push(Page)) { FreePage(Page); }] *)
Definition ReturnWorkerPage (WorkerIdx : nat) (Page : Z) (A : FPageAllocator)
  : option FPageAllocator :=
  W ← WorkerCaches A !! WorkerIdx;
  let '(W', bPushed) := WorkerCache_Push Page W in
  if negb bPushed
  then Some (FreePage Page A)
  else Some (mkAllocator (SharedCache A) (<[WorkerIdx := W']> (WorkerCaches A)) (Freed A)).

(** [FPageAllocator::ReturnSharedPage] *)
Definition ReturnSharedPage (Page : Z) (A : FPageAllocator) : FPageAllocator :=
  SharedCache_Push Page A.

(** A collector in the middle of a cycle: worker 0 has filled its cache. *)
Definition full_cache : FWorkerCache :=
  mkWorkerCache Capacity (map (fun i => 4096 * Z.of_nat (S i)) (seq 0 Capacity)).

Definition empty_cache : FWorkerCache :=
  mkWorkerCache 0 (replicate Capacity 0).

Definition busy_allocator : FPageAllocator :=
  mkAllocator [] (full_cache :: replicate (MaxWorkers - 1) empty_cache) [].

End PageAllocator.

(* ===================================================================== *)
(** ** The purge pipeline: unhash, FinishDestroy, destruction *)
(* ===================================================================== *)

Module Purge.

(** The multicast delegates the collector broadcasts to. *)
Inductive Delegate :=
| PreGarbageCollect
| TraceExternalRootsForReachabilityAnalysis
| PostReachabilityAnalysis
| PostGarbageCollect
| PostPurgeGarbage
| PreGarbageCollectConditionalBeginDestroy
| PostGarbageCollectConditionalBeginDestroy.

(** What the collector does to the world outside it: the lifecycle hooks it
    calls on an object (named by its FUObjectItem pointer), the delegates it
    broadcasts, the allocator calls, and the operations on the GC lock. *)
Inductive Event :=
| ConditionalBeginDestroy (Object : Z)
| ConditionalFinishDestroy (Object : Z)
| Destructor (Object : Z)
| FreeUObject (Object : Z)
| Broadcast (D : Delegate)
| MemoryTrim
| FlushAsyncLoading
| EvGCLock
| EvTryGCLock (bSuccess : bool)
| EvGCUnlock.

(** [FAsyncPurge] without its worker thread ([Thread == nullptr]): the
    configuration in which [bMultithreadedPurge] is false and destruction runs
    on the game thread.  [FinishedPurgeEvent] is the state of the event. *)
Record FAsyncPurge := mkAsyncPurge {
  ObjCurrentPurgeObjectIndex : nat;
  NumObjectsToDestroyOnGameThread : nat;
  NumObjectsDestroyedOnGameThread : nat;
  ObjCurrentPurgeObjectIndexOnGameThread : nat;
  LastUnreachableObjectsCount : nat;
  ObjectsDestroyedSinceLastMarkPhase : nat;
  FinishedPurgeEvent : bool
}.

(** The file-scope variables of the purge pipeline, and the collector's view
    of its environment: how often it has compared the clock with the time
    limit, how often it has asked an object whether it is ready for
    FinishDestroy, and the calls it has made. *)
Record GCState := mkGCState {
  GObjIncrementalPurgeIsInProgress : bool;
  GObjFinishDestroyHasBeenRoutedToAllObjects : bool;
  GGCObjectsPendingDestruction : list Z;
  GGCObjectsPendingDestructionCount : nat;
  GObjPurgeIsRequired : bool;
  GObjCurrentPurgeObjectIndex : nat;
  GObjCurrentPurgeObjectIndexNeedsReset : bool;
  GUnreachableObjects : list Z;
  GUnrechableObjectIndex : nat;
  GAsyncPurge : option FAsyncPurge;
  ClockReads : nat;
  ReadyQueries : nat;
  Trace : list Event
}.

Definition set_InProgress (v : bool) (s : GCState) : GCState :=
  mkGCState v (GObjFinishDestroyHasBeenRoutedToAllObjects s)
    (GGCObjectsPendingDestruction s) (GGCObjectsPendingDestructionCount s)
    (GObjPurgeIsRequired s) (GObjCurrentPurgeObjectIndex s)
    (GObjCurrentPurgeObjectIndexNeedsReset s) (GUnreachableObjects s)
    (GUnrechableObjectIndex s) (GAsyncPurge s) (ClockReads s) (ReadyQueries s) (Trace s).

Definition set_Routed (v : bool) (s : GCState) : GCState :=
  mkGCState (GObjIncrementalPurgeIsInProgress s) v
    (GGCObjectsPendingDestruction s) (GGCObjectsPendingDestructionCount s)
    (GObjPurgeIsRequired s) (GObjCurrentPurgeObjectIndex s)
    (GObjCurrentPurgeObjectIndexNeedsReset s) (GUnreachableObjects s)
    (GUnrechableObjectIndex s) (GAsyncPurge s) (ClockReads s) (ReadyQueries s) (Trace s).

Definition set_Pending (l : list Z) (n : nat) (s : GCState) : GCState :=
  mkGCState (GObjIncrementalPurgeIsInProgress s) (GObjFinishDestroyHasBeenRoutedToAllObjects s)
    l n
    (GObjPurgeIsRequired s) (GObjCurrentPurgeObjectIndex s)
    (GObjCurrentPurgeObjectIndexNeedsReset s) (GUnreachableObjects s)
    (GUnrechableObjectIndex s) (GAsyncPurge s) (ClockReads s) (ReadyQueries s) (Trace s).

Definition set_PurgeIsRequired (v : bool) (s : GCState) : GCState :=
  mkGCState (GObjIncrementalPurgeIsInProgress s) (GObjFinishDestroyHasBeenRoutedToAllObjects s)
    (GGCObjectsPendingDestruction s) (GGCObjectsPendingDestructionCount s)
    v (GObjCurrentPurgeObjectIndex s)
    (GObjCurrentPurgeObjectIndexNeedsReset s) (GUnreachableObjects s)
    (GUnrechableObjectIndex s) (GAsyncPurge s) (ClockReads s) (ReadyQueries s) (Trace s).

Definition set_PurgeIndex (v : nat) (s : GCState) : GCState :=
  mkGCState (GObjIncrementalPurgeIsInProgress s) (GObjFinishDestroyHasBeenRoutedToAllObjects s)
    (GGCObjectsPendingDestruction s) (GGCObjectsPendingDestructionCount s)
    (GObjPurgeIsRequired s) v
    (GObjCurrentPurgeObjectIndexNeedsReset s) (GUnreachableObjects s)
    (GUnrechableObjectIndex s) (GAsyncPurge s) (ClockReads s) (ReadyQueries s) (Trace s).

Definition set_NeedsReset (v : bool) (s : GCState) : GCState :=
  mkGCState (GObjIncrementalPurgeIsInProgress s) (GObjFinishDestroyHasBeenRoutedToAllObjects s)
    (GGCObjectsPendingDestruction s) (GGCObjectsPendingDestructionCount s)
    (GObjPurgeIsRequired s) (GObjCurrentPurgeObjectIndex s)
    v (GUnreachableObjects s)
    (GUnrechableObjectIndex s) (GAsyncPurge s) (ClockReads s) (ReadyQueries s) (Trace s).

Definition set_UnreachableObjects (v : list Z) (s : GCState) : GCState :=
  mkGCState (GObjIncrementalPurgeIsInProgress s) (GObjFinishDestroyHasBeenRoutedToAllObjects s)
    (GGCObjectsPendingDestruction s) (GGCObjectsPendingDestructionCount s)
    (GObjPurgeIsRequired s) (GObjCurrentPurgeObjectIndex s)
    (GObjCurrentPurgeObjectIndexNeedsReset s) v
    (GUnrechableObjectIndex s) (GAsyncPurge s) (ClockReads s) (ReadyQueries s) (Trace s).

Definition set_UnreachableIndex (v : nat) (s : GCState) : GCState :=
  mkGCState (GObjIncrementalPurgeIsInProgress s) (GObjFinishDestroyHasBeenRoutedToAllObjects s)
    (GGCObjectsPendingDestruction s) (GGCObjectsPendingDestructionCount s)
    (GObjPurgeIsRequired s) (GObjCurrentPurgeObjectIndex s)
    (GObjCurrentPurgeObjectIndexNeedsReset s) (GUnreachableObjects s)
    v (GAsyncPurge s) (ClockReads s) (ReadyQueries s) (Trace s).

Definition set_AsyncPurge (v : option FAsyncPurge) (s : GCState) : GCState :=
  mkGCState (GObjIncrementalPurgeIsInProgress s) (GObjFinishDestroyHasBeenRoutedToAllObjects s)
    (GGCObjectsPendingDestruction s) (GGCObjectsPendingDestructionCount s)
    (GObjPurgeIsRequired s) (GObjCurrentPurgeObjectIndex s)
    (GObjCurrentPurgeObjectIndexNeedsReset s) (GUnreachableObjects s)
    (GUnrechableObjectIndex s) v (ClockReads s) (ReadyQueries s) (Trace s).

Definition set_ClockReads (v : nat) (s : GCState) : GCState :=
  mkGCState (GObjIncrementalPurgeIsInProgress s) (GObjFinishDestroyHasBeenRoutedToAllObjects s)
    (GGCObjectsPendingDestruction s) (GGCObjectsPendingDestructionCount s)
    (GObjPurgeIsRequired s) (GObjCurrentPurgeObjectIndex s)
    (GObjCurrentPurgeObjectIndexNeedsReset s) (GUnreachableObjects s)
    (GUnrechableObjectIndex s) (GAsyncPurge s) v (ReadyQueries s) (Trace s).

Definition set_ReadyQueries (v : nat) (s : GCState) : GCState :=
  mkGCState (GObjIncrementalPurgeIsInProgress s) (GObjFinishDestroyHasBeenRoutedToAllObjects s)
    (GGCObjectsPendingDestruction s) (GGCObjectsPendingDestructionCount s)
    (GObjPurgeIsRequired s) (GObjCurrentPurgeObjectIndex s)
    (GObjCurrentPurgeObjectIndexNeedsReset s) (GUnreachableObjects s)
    (GUnrechableObjectIndex s) (GAsyncPurge s) (ClockReads s) v (Trace s).

(** A call into the world outside the collector is appended to the trace. *)
Definition emit (e : Event) (s : GCState) : GCState :=
  mkGCState (GObjIncrementalPurgeIsInProgress s) (GObjFinishDestroyHasBeenRoutedToAllObjects s)
    (GGCObjectsPendingDestruction s) (GGCObjectsPendingDestructionCount s)
    (GObjPurgeIsRequired s) (GObjCurrentPurgeObjectIndex s)
    (GObjCurrentPurgeObjectIndexNeedsReset s) (GUnreachableObjects s)
    (GUnrechableObjectIndex s) (GAsyncPurge s) (ClockReads s) (ReadyQueries s)
    (Trace s ++ [e]).

(** What the loop over the deferred objects reads when it checks, between
    two passes without a time limit, whether FinishDestroy has stalled: the
    platform ([FPlatformProperties::RequiresCookedData()], and the macros
    PLATFORM_IOS || PLATFORM_ANDROID and PLATFORM_DESKTOP), the console
    variable, and the clock.  [MaxTimeForFinishDestroyExceeded e k] is the
    outcome of the comparison
    [(FPlatformTime::Seconds() - GCStartTime) > MaxTimeForFinishDestroy] made
    when [k] readiness queries have been answered; [e] says whether
    [MaxTimeForFinishDestroy] has been extended from 10 seconds to
    [GAdditionalFinishDestroyTimeGC]. *)
Record FinishDestroyTimeout := mkTimeout {
  RequiresCookedData : bool;
  bPlatformIOSOrAndroid : bool;
  bPlatformDesktop : bool;
  GEnableTimeoutOnPendingDestroyedObjectGC : bool;
  MaxTimeForFinishDestroyExceeded : bool -> nat -> bool
}.

Section Pipeline.

(** The environment.  [TimeLimitExceeded k] is the outcome of the [k]-th
    comparison [(FPlatformTime::Seconds() - StartTime) > TimeLimit] the
    collector makes; [IsReadyForFinishDestroy o k] is the answer of object [o]
    to the [k]-th readiness query; [GExitPurge] is the engine's global;
    [Timeout] is what the stall check of FinishDestroy reads.

    The flags of the objects (Unreachable, RF_BeginDestroyed,
    RF_FinishDestroyed) are not part of the state: the checks on them are
    not modelled.  An entry of [GUnreachableObjects] that is nullptr where
    the code dereferences it ends the run ([None]). *)
Variable TimeLimitExceeded : nat -> bool.
Variable IsReadyForFinishDestroy : Z -> nat -> bool.
Variable GExitPurge : bool.
Variable Timeout : FinishDestroyTimeout.

Definition PollTimeLimit (s : GCState) : bool * GCState :=
  (TimeLimitExceeded (ClockReads s), set_ClockReads (S (ClockReads s)) s).

Definition QueryReady (Object : Z) (s : GCState) : bool * GCState :=
  (IsReadyForFinishDestroy Object (ReadyQueries s), set_ReadyQueries (S (ReadyQueries s)) s).

Definition TimeLimitEnforcementGranularityForBeginDestroy : nat := 10.
Definition TimeLimitEnforcementGranularityForDestroy : nat := 10.
Definition TimeLimitEnforcementGranularityForDeletion : nat := 100.

(** The loop of [UnhashUnreachableObjects]; [n] bounds the iterations and is
    [GUnreachableObjects.Num() - GUnrechableObjectIndex] at the call. *)
Fixpoint UnhashLoop (bUseTimeLimit : bool) (n : nat) (TimePollCounter : nat)
    (s : GCState) : GCState :=
  match n with
  | O => s
  | S n' =>
    if (GUnrechableObjectIndex s <? length (GUnreachableObjects s))%nat then
      let ObjectItem := nth (GUnrechableObjectIndex s) (GUnreachableObjects s) 0 in
      let s1 := set_UnreachableIndex (S (GUnrechableObjectIndex s)) s in
      let s2 := emit (ConditionalBeginDestroy ObjectItem) s1 in
      let bPollTimeLimit :=
        (TimePollCounter mod TimeLimitEnforcementGranularityForBeginDestroy =? 0)%nat in
      if bUseTimeLimit && bPollTimeLimit then
        let '(bExceeded, s3) := PollTimeLimit s2 in
        if bExceeded then s3 else UnhashLoop bUseTimeLimit n' (S TimePollCounter) s3
      else UnhashLoop bUseTimeLimit n' (S TimePollCounter) s2
    else s
  end.

(** [UnhashUnreachableObjects(bUseTimeLimit, TimeLimit)] *)
Definition UnhashUnreachableObjects (bUseTimeLimit : bool) (s : GCState)
  : GCState * bool :=
  let s1 := emit (Broadcast PreGarbageCollectConditionalBeginDestroy) s in
  let s2 := UnhashLoop bUseTimeLimit
              (length (GUnreachableObjects s1) - GUnrechableObjectIndex s1) 0 s1 in
  let bTimeLimitReached :=
    (GUnrechableObjectIndex s2 <? length (GUnreachableObjects s2))%nat in
  let s3 := emit (Broadcast PostGarbageCollectConditionalBeginDestroy) s2 in
  (s3, bTimeLimitReached).

(** The first loop of [IncrementalDestroyGarbage]: FinishDestroy is routed to
    every unreachable object that is ready for it; the others are appended to
    [GGCObjectsPendingDestruction].  An object is named by its table entry.
    The result carries [TimeLimitTimePollCounter] and [bTimeLimitReached].
    [None]: the entry is nullptr, which [check(ObjectItem->IsUnreachable())]
    dereferences. *)
Fixpoint FinishDestroyLoop (bUseTimeLimit : bool) (n : nat) (TimeLimitTimePollCounter : nat)
    (s : GCState) : option (GCState * nat * bool) :=
  match n with
  | O => Some (s, TimeLimitTimePollCounter, false)
  | S n' =>
    if (GObjCurrentPurgeObjectIndex s <? length (GUnreachableObjects s))%nat then
      let ObjectItem := nth (GObjCurrentPurgeObjectIndex s) (GUnreachableObjects s) 0 in
      if ObjectItem =? 0 then None
      else
        let '(bReady, s1) := QueryReady ObjectItem s in
        let s2 :=
          if bReady then emit (ConditionalFinishDestroy ObjectItem) s1
          else set_Pending (GGCObjectsPendingDestruction s1 ++ [ObjectItem])
                           (S (GGCObjectsPendingDestructionCount s1)) s1 in
        let s3 := set_PurgeIndex (S (GObjCurrentPurgeObjectIndex s2)) s2 in
        let bPollTimeLimit :=
          (TimeLimitTimePollCounter mod TimeLimitEnforcementGranularityForDestroy =? 0)%nat in
        if bUseTimeLimit && bPollTimeLimit then
          let '(bExceeded, s4) := PollTimeLimit s3 in
          if bExceeded then Some (s4, S TimeLimitTimePollCounter, true)
          else FinishDestroyLoop bUseTimeLimit n' (S TimeLimitTimePollCounter) s4
        else FinishDestroyLoop bUseTimeLimit n' (S TimeLimitTimePollCounter) s3
    else Some (s, TimeLimitTimePollCounter, false)
  end.

(** One pass over the deferred objects (the inner [while] of the second
    loop): a ready object gets FinishDestroy and is overwritten by the last
    live entry; [n] is [GGCObjectsPendingDestructionCount - CurPendingObjIndex].
    [None]: [check(Object != NULL && Object->IsUnreachable())] fails on a
    nullptr. *)
Fixpoint PendingPass (bUseTimeLimit : bool) (n : nat) (CurPendingObjIndex : nat)
    (TimeLimitTimePollCounter : nat) (s : GCState) : option (GCState * nat * bool) :=
  match n with
  | O => Some (s, TimeLimitTimePollCounter, false)
  | S n' =>
    if (CurPendingObjIndex <? GGCObjectsPendingDestructionCount s)%nat then
      let Object := nth CurPendingObjIndex (GGCObjectsPendingDestruction s) 0 in
      if Object =? 0 then None
      else
        let '(bReady, s1) := QueryReady Object s in
        let '(s2, Cur') :=
          if bReady then
            let Count := GGCObjectsPendingDestructionCount s1 in
            let Last := nth (Count - 1) (GGCObjectsPendingDestruction s1) 0 in
            (set_Pending (<[CurPendingObjIndex := Last]> (GGCObjectsPendingDestruction s1))
                         (Count - 1)
                         (emit (ConditionalFinishDestroy Object) s1),
             CurPendingObjIndex)
          else (s1, S CurPendingObjIndex) in
        let bPollTimeLimit :=
          (TimeLimitTimePollCounter mod TimeLimitEnforcementGranularityForDestroy =? 0)%nat in
        if bUseTimeLimit && bPollTimeLimit then
          let '(bExceeded, s3) := PollTimeLimit s2 in
          if bExceeded then Some (s3, S TimeLimitTimePollCounter, true)
          else PendingPass bUseTimeLimit n' Cur' (S TimeLimitTimePollCounter) s3
        else PendingPass bUseTimeLimit n' Cur' (S TimeLimitTimePollCounter) s2
    else Some (s, TimeLimitTimePollCounter, false)
  end.

(** The check between two passes over the deferred objects, made without a
    time limit while objects are left.  On platforms that require cooked
    data, every tenth check compares the clock with MaxTimeForFinishDestroy:
    on iOS and Android the first excess only extends the time; otherwise,
    when the last pass made no progress and the time is exceeded, the
    readiness of every deferred object is queried for the log, and then
    desktop platforms report ([ensureMsgf]) and go on, while the others
    abort ([AbortInsideMemberFunction] or a Fatal log): [None].  With
    [GEnableTimeoutOnPendingDestroyedObjectGC] off there is only a warning.
    The result carries [FinishDestroyTimePollCounter] and
    [bFinishDestroyTimeExtended]. *)
Definition FinishDestroyStallCheck (FinishDestroyTimePollCounter : nat)
    (bFinishDestroyTimeExtended : bool) (LastLoopObjectsPendingDestructionCount : nat)
    (s : GCState) : option (GCState * nat * bool) :=
  if RequiresCookedData Timeout then
    let bPollTimeLimit :=
      (FinishDestroyTimePollCounter mod TimeLimitEnforcementGranularityForDestroy =? 0)%nat in
    let Counter1 := S FinishDestroyTimePollCounter in
    if bPlatformIOSOrAndroid Timeout && bPollTimeLimit && negb bFinishDestroyTimeExtended
       && MaxTimeForFinishDestroyExceeded Timeout false (ReadyQueries s)
    then Some (s, Counter1, true)
    else if (LastLoopObjectsPendingDestructionCount =? GGCObjectsPendingDestructionCount s)%nat
            && bPollTimeLimit
            && MaxTimeForFinishDestroyExceeded Timeout bFinishDestroyTimeExtended
                 (ReadyQueries s)
    then
      if GEnableTimeoutOnPendingDestroyedObjectGC Timeout then
        let s1 := set_ReadyQueries
                    (ReadyQueries s + GGCObjectsPendingDestructionCount s) s in
        if bPlatformDesktop Timeout then Some (s1, Counter1, bFinishDestroyTimeExtended)
        else None
      else Some (s, Counter1, bFinishDestroyTimeExtended)
    else Some (s, Counter1, bFinishDestroyTimeExtended)
  else Some (s, FinishDestroyTimePollCounter, bFinishDestroyTimeExtended).

(** The second loop, [while (GGCObjectsPendingDestructionCount > 0)]: with a
    time limit it leaves after one pass; without one it repeats the pass,
    with the stall check in between, until every deferred object was ready.
    [fuel] bounds the repetitions ([None]: not enough of it, a failed check
    of the pass, or the abort of the stall check). *)
Fixpoint FinishDestroyDeferred (bUseTimeLimit : bool) (fuel : nat)
    (TimeLimitTimePollCounter FinishDestroyTimePollCounter : nat)
    (bFinishDestroyTimeExtended : bool) (LastLoopObjectsPendingDestructionCount : nat)
    (bTimeLimitReached : bool) (s : GCState) : option (GCState * bool) :=
  if (GGCObjectsPendingDestructionCount s =? 0)%nat then Some (s, bTimeLimitReached)
  else
    '(s1, Counter1, bReached) ←
      PendingPass bUseTimeLimit (GGCObjectsPendingDestructionCount s) 0
                  TimeLimitTimePollCounter s;
    if bUseTimeLimit then Some (s1, bTimeLimitReached || bReached)
    else
      '(s2, FinishDestroyCounter1, bExtended1) ←
        (if (0 <? GGCObjectsPendingDestructionCount s1)%nat
         then FinishDestroyStallCheck FinishDestroyTimePollCounter
                bFinishDestroyTimeExtended LastLoopObjectsPendingDestructionCount s1
         else Some (s1, FinishDestroyTimePollCounter, bFinishDestroyTimeExtended));
      match fuel with
      | O => None
      | S fuel' =>
          FinishDestroyDeferred bUseTimeLimit fuel' Counter1 FinishDestroyCounter1
                                bExtended1 (GGCObjectsPendingDestructionCount s2)
                                (bTimeLimitReached || bReached) s2
      end.

(** [FAsyncPurge::FAsyncPurge(false)] *)
Definition NewAsyncPurge : FAsyncPurge := mkAsyncPurge 0 0 0 0 0 0 true.

(** [FAsyncPurge::IsFinished], the branch for [Thread == nullptr]. *)
Definition IsFinished (P : FAsyncPurge) : bool :=
  (LastUnreachableObjectsCount P <=? ObjCurrentPurgeObjectIndex P)%nat
  && (NumObjectsToDestroyOnGameThread P =? NumObjectsDestroyedOnGameThread P)%nat.

(** [FAsyncPurge::BeginPurge].  [None]: [check(IsFinished())] fails, or the
    event is reset: [FinishedPurgeEvent->Wait()] returns once the event is
    triggered, and on the game thread nobody else triggers it, so that the
    call never returns. *)
Definition BeginPurge (P : FAsyncPurge) : option FAsyncPurge :=
  if IsFinished P then
    if FinishedPurgeEvent P
    then Some (mkAsyncPurge 0 0 0 0 (LastUnreachableObjectsCount P) 0 false)
    else None
  else None.

(** [FAsyncPurge::TickDestroyObjects<false>]: with [bMultithreaded] false
    every object is destroyed here.  [n] is the number of objects left.
    [None]: the entry is nullptr, which [check(ObjectItem->IsUnreachable())]
    dereferences. *)
Fixpoint TickDestroyObjects (bUseTimeLimit : bool) (n : nat) (ProcessedObjectsCount : nat)
    (P : FAsyncPurge) (s : GCState) : option (FAsyncPurge * GCState * bool) :=
  match n with
  | O => Some (P, s, true)
  | S n' =>
    if (ObjCurrentPurgeObjectIndex P <? length (GUnreachableObjects s))%nat then
      let ObjectItem := nth (ObjCurrentPurgeObjectIndex P) (GUnreachableObjects s) 0 in
      if ObjectItem =? 0 then None
      else
        let s1 := emit (FreeUObject ObjectItem) (emit (Destructor ObjectItem) s) in
        let s2 := set_UnreachableObjects
                    (<[ObjCurrentPurgeObjectIndex P := 0]> (GUnreachableObjects s1)) s1 in
        let Processed := S ProcessedObjectsCount in
        let P1 := mkAsyncPurge (S (ObjCurrentPurgeObjectIndex P))
                    (NumObjectsToDestroyOnGameThread P) (NumObjectsDestroyedOnGameThread P)
                    (ObjCurrentPurgeObjectIndexOnGameThread P) (LastUnreachableObjectsCount P)
                    (S (ObjectsDestroyedSinceLastMarkPhase P)) (FinishedPurgeEvent P) in
        if bUseTimeLimit
           && (Processed =? TimeLimitEnforcementGranularityForDeletion)%nat
           && (ObjCurrentPurgeObjectIndex P1 <? length (GUnreachableObjects s2))%nat
        then
          let '(bExceeded, s3) := PollTimeLimit s2 in
          if bExceeded then Some (P1, s3, false)
          else TickDestroyObjects bUseTimeLimit n' 0 P1 s3
        else TickDestroyObjects bUseTimeLimit n' Processed P1 s2
    else Some (P, s, true)
  end.

(** The loop of [FAsyncPurge::TickDestroyGameThreadObjects]; [n] is the
    number of slots from [ObjCurrentPurgeObjectIndexOnGameThread] to the end
    of the list. *)
Fixpoint DestroyGameThreadObjectsLoop (bUseTimeLimit : bool) (n : nat)
    (ProcessedObjectsCount : nat) (LocalNumObjectsToDestroyOnGameThread : nat)
    (P : FAsyncPurge) (s : GCState) : FAsyncPurge * GCState * bool :=
  match n with
  | O => (P, s, true)
  | S n' =>
    if (NumObjectsDestroyedOnGameThread P <? LocalNumObjectsToDestroyOnGameThread)%nat
       && (ObjCurrentPurgeObjectIndexOnGameThread P <? length (GUnreachableObjects s))%nat
    then
      let Idx := ObjCurrentPurgeObjectIndexOnGameThread P in
      let ObjectItem := nth Idx (GUnreachableObjects s) 0 in
      let Next (Q : FAsyncPurge) :=
        mkAsyncPurge (ObjCurrentPurgeObjectIndex Q)
          (NumObjectsToDestroyOnGameThread Q) (NumObjectsDestroyedOnGameThread Q)
          (S (ObjCurrentPurgeObjectIndexOnGameThread Q)) (LastUnreachableObjectsCount Q)
          (ObjectsDestroyedSinceLastMarkPhase Q) (FinishedPurgeEvent Q) in
      if negb (ObjectItem =? 0) then
        let s1 := set_UnreachableObjects (<[Idx := 0]> (GUnreachableObjects s)) s in
        let s2 := emit (FreeUObject ObjectItem) (emit (Destructor ObjectItem) s1) in
        let Processed := S ProcessedObjectsCount in
        let P1 := mkAsyncPurge (ObjCurrentPurgeObjectIndex P)
                    (NumObjectsToDestroyOnGameThread P) (S (NumObjectsDestroyedOnGameThread P))
                    (ObjCurrentPurgeObjectIndexOnGameThread P) (LastUnreachableObjectsCount P)
                    (ObjectsDestroyedSinceLastMarkPhase P) (FinishedPurgeEvent P) in
        if bUseTimeLimit
           && (Processed =? TimeLimitEnforcementGranularityForDeletion)%nat
           && (NumObjectsDestroyedOnGameThread P1 <? LocalNumObjectsToDestroyOnGameThread)%nat
        then
          let '(bExceeded, s3) := PollTimeLimit s2 in
          if bExceeded then (P1, s3, false)
          else DestroyGameThreadObjectsLoop bUseTimeLimit n' 0
                 LocalNumObjectsToDestroyOnGameThread (Next P1) s3
        else DestroyGameThreadObjectsLoop bUseTimeLimit n' Processed
               LocalNumObjectsToDestroyOnGameThread (Next P1) s2
      else DestroyGameThreadObjectsLoop bUseTimeLimit n' ProcessedObjectsCount
             LocalNumObjectsToDestroyOnGameThread (Next P) s
    else (P, s, true)
  end.

(** [FAsyncPurge::TickDestroyGameThreadObjects]; [None]: the check at its
    end fails, that no object is left to destroy when the loop has come to
    the end of the list. *)
Definition TickDestroyGameThreadObjects (bUseTimeLimit : bool) (P : FAsyncPurge)
    (s : GCState) : option (FAsyncPurge * GCState * bool) :=
  let LocalNumObjectsToDestroyOnGameThread := NumObjectsToDestroyOnGameThread P in
  let '(P1, s1, bFinishedDestroyingObjects) :=
    DestroyGameThreadObjectsLoop bUseTimeLimit
      (length (GUnreachableObjects s) - ObjCurrentPurgeObjectIndexOnGameThread P) 0
      LocalNumObjectsToDestroyOnGameThread P s in
  if negb bFinishedDestroyingObjects
     || (NumObjectsDestroyedOnGameThread P1 =? LocalNumObjectsToDestroyOnGameThread)%nat
  then Some (P1, s1, bFinishedDestroyingObjects)
  else None.

(** The [do ... while (!bUseTimeLimit && !IsFinished())] of [TickPurge]. *)
Fixpoint TickPurgeGameThread (bUseTimeLimit : bool) (fuel : nat) (P : FAsyncPurge)
    (s : GCState) : option (FAsyncPurge * GCState) :=
  '(P1, s1, bFinishedDestroyingObjectsOnGameThread) ←
    TickDestroyGameThreadObjects bUseTimeLimit P s;
  let P2 :=
    if (bFinishedDestroyingObjectsOnGameThread : bool)
    then mkAsyncPurge (ObjCurrentPurgeObjectIndex P1)
           (NumObjectsToDestroyOnGameThread P1) (NumObjectsDestroyedOnGameThread P1)
           (ObjCurrentPurgeObjectIndexOnGameThread P1) (LastUnreachableObjectsCount P1)
           (ObjectsDestroyedSinceLastMarkPhase P1) true
    else P1 in
  if negb bUseTimeLimit && negb (IsFinished P2) then
    match fuel with
    | O => None
    | S fuel' => TickPurgeGameThread bUseTimeLimit fuel' P2 s1
    end
  else Some (P2, s1).

(** [FAsyncPurge::TickPurge] *)
Definition TickPurge (bUseTimeLimit : bool) (fuel : nat) (P : FAsyncPurge) (s : GCState)
  : option (FAsyncPurge * GCState) :=
  let P0 := mkAsyncPurge (ObjCurrentPurgeObjectIndex P)
              (NumObjectsToDestroyOnGameThread P) (NumObjectsDestroyedOnGameThread P)
              (ObjCurrentPurgeObjectIndexOnGameThread P) (length (GUnreachableObjects s))
              (ObjectsDestroyedSinceLastMarkPhase P) (FinishedPurgeEvent P) in
  '(P1, s1, bCanStartDestroyingGameThreadObjects) ←
    TickDestroyObjects bUseTimeLimit
      (length (GUnreachableObjects s) - ObjCurrentPurgeObjectIndex P0) 0 P0 s;
  if (bCanStartDestroyingGameThreadObjects : bool)
  then TickPurgeGameThread bUseTimeLimit fuel P1 s1
  else Some (P1, s1).

(** The first block of [IncrementalDestroyGarbage], entered while
    [GObjFinishDestroyHasBeenRoutedToAllObjects] is false: the two loops
    above.  The result carries [bTimeLimitReached].  [None] also when
    [check(GUnrechableObjectIndex >= GUnreachableObjects.Num())] fails. *)
Definition RouteFinishDestroy (bUseTimeLimit : bool) (fuel : nat) (s0 : GCState)
  : option (GCState * bool) :=
  if (length (GUnreachableObjects s0) <=? GUnrechableObjectIndex s0)%nat then
    let sa := if GObjCurrentPurgeObjectIndexNeedsReset s0
              then set_NeedsReset false (set_PurgeIndex 0 s0) else s0 in
    '(sb, Counter, bReached) ←
      FinishDestroyLoop bUseTimeLimit
        (length (GUnreachableObjects sa) - GObjCurrentPurgeObjectIndex sa) 0 sa;
    if (length (GUnreachableObjects sb) <=? GObjCurrentPurgeObjectIndex sb)%nat then
      '(sc, bReached') ←
        FinishDestroyDeferred bUseTimeLimit fuel Counter 0 false
                              (GGCObjectsPendingDestructionCount sb) bReached sb;
      if (GGCObjectsPendingDestructionCount sc =? 0)%nat
      then Some (set_NeedsReset true (set_Routed true (set_Pending [] 0 sc)), bReached')
      else Some (sc, bReached')
    else Some (sb, bReached)
  else None.

(** The second block, entered when FinishDestroy has been routed to all
    objects and the time limit was not reached: the objects are destroyed
    and freed.  The result carries [bCompleted]. *)
Definition PerformDeletion (bUseTimeLimit : bool) (fuel : nat) (s1 : GCState)
  : option (GCState * bool) :=
  P ← GAsyncPurge s1;
  '(P1, s2) ←
    (if GObjCurrentPurgeObjectIndexNeedsReset s1
     then P' ← BeginPurge P; Some (P', set_NeedsReset false s1)
     else Some (P, s1));
  '(P2, s3) ← TickPurge bUseTimeLimit fuel P1 s2;
  if IsFinished P2 then
    let P3 := mkAsyncPurge (ObjCurrentPurgeObjectIndex P2)
                (NumObjectsToDestroyOnGameThread P2) (NumObjectsDestroyedOnGameThread P2)
                (ObjCurrentPurgeObjectIndexOnGameThread P2) (LastUnreachableObjectsCount P2)
                0 (FinishedPurgeEvent P2) in
    Some (set_AsyncPurge (Some P3)
            (set_NeedsReset true (set_PurgeIsRequired false (set_Routed false s3))), true)
  else Some (set_AsyncPurge (Some P2) s3, false).

(** [IncrementalDestroyGarbage(bUseTimeLimit, TimeLimit)]; [GAsyncPurge] is
    created on the first call, and is never replaced, since
    [bMultithreadedPurge] stays false. *)
Definition IncrementalDestroyGarbage (bUseTimeLimit : bool) (fuel : nat) (s : GCState)
  : option (GCState * bool) :=
  let s0 := match GAsyncPurge s with
            | None => set_AsyncPurge (Some NewAsyncPurge) s
            | Some _ => s
            end in
  '(s1, bTimeLimitReached) ←
    (if negb (GObjFinishDestroyHasBeenRoutedToAllObjects s0)
     then RouteFinishDestroy bUseTimeLimit fuel s0
     else Some (s0, false));
  if GObjFinishDestroyHasBeenRoutedToAllObjects s1 && negb bTimeLimitReached
  then PerformDeletion bUseTimeLimit fuel s1
  else Some (s1, false).

(** [IncrementalPurgeGarbage(bUseTimeLimit, TimeLimit)].  The scope guard
    [FResetPurgeProgress] sets [GObjIncrementalPurgeIsInProgress] on entry and
    clears it on exit when [bCompleted]. *)
Definition IncrementalPurgeGarbage (bUseTimeLimit : bool) (fuel : nat) (s : GCState)
  : option GCState :=
  let s0 := if GExitPurge
            then set_NeedsReset true (set_PurgeIsRequired true s) else s in
  if negb (GObjPurgeIsRequired s0) && negb (GObjIncrementalPurgeIsInProgress s0)
  then Some s0
  else
    let s1 := set_InProgress true s0 in
    if negb (GObjPurgeIsRequired s1) then
      Some (set_InProgress false (emit MemoryTrim s1))
    else
      let '(s2, bTimeLimitReached) :=
        if (GUnrechableObjectIndex s1 <? length (GUnreachableObjects s1))%nat
        then UnhashUnreachableObjects bUseTimeLimit s1
        else (s1, false) in
      '(s3, bCompleted) ←
        (if negb bTimeLimitReached
         then IncrementalDestroyGarbage bUseTimeLimit fuel s2
         else Some (s2, false));
      let s4 := if (bCompleted : bool) then emit (Broadcast PostPurgeGarbage) s3 else s3 in
      if bCompleted && negb bUseTimeLimit
      then Some (set_InProgress false s4)
      else Some s4.

(** [IsIncrementalUnhashPending] *)
Definition IsIncrementalUnhashPending (s : GCState) : bool :=
  (GUnrechableObjectIndex s <? length (GUnreachableObjects s))%nat.

(** [IsIncrementalPurgePending] *)
Definition IsIncrementalPurgePending (s : GCState) : bool :=
  GObjIncrementalPurgeIsInProgress s || GObjPurgeIsRequired s.


(** The unhash phase resumed with a time limit until it reports that no
    object is left. *)
Fixpoint UnhashResumed (calls : nat) (s : GCState) : option GCState :=
  match calls with
  | O => None
  | S calls' =>
      let '(s', bTimeLimitReached) := UnhashUnreachableObjects true s in
      if bTimeLimitReached then UnhashResumed calls' s' else Some s'
  end.

End Pipeline.

(** *** Vocabulary of the statements about the pipeline *)

(** Several calls into the world at once. *)
Definition emits (evs : list Event) (s : GCState) : GCState :=
  mkGCState (GObjIncrementalPurgeIsInProgress s) (GObjFinishDestroyHasBeenRoutedToAllObjects s)
    (GGCObjectsPendingDestruction s) (GGCObjectsPendingDestructionCount s)
    (GObjPurgeIsRequired s) (GObjCurrentPurgeObjectIndex s)
    (GObjCurrentPurgeObjectIndexNeedsReset s) (GUnreachableObjects s)
    (GUnrechableObjectIndex s) (GAsyncPurge s) (ClockReads s) (ReadyQueries s)
    (Trace s ++ evs).

(** The objects that received each of the four lifecycle calls, in order. *)
Definition cbd_of (t : list Event) : list Z :=
  omap (fun e => match e with ConditionalBeginDestroy o => Some o | _ => None end) t.

Definition cfd_of (t : list Event) : list Z :=
  omap (fun e => match e with ConditionalFinishDestroy o => Some o | _ => None end) t.

Definition dtor_of (t : list Event) : list Z :=
  omap (fun e => match e with Destructor o => Some o | _ => None end) t.

Definition free_of (t : list Event) : list Z :=
  omap (fun e => match e with FreeUObject o => Some o | _ => None end) t.

(** What a run from [s] to [s'] added to the trace. *)
Definition new_events (s s' : GCState) : list Event :=
  drop (length (Trace s)) (Trace s').


(** How often the loops compare the clock with the limit while their poll
    counter runs from [ctr] over [k] iterations: once per multiple of 10. *)
Definition polls (ctr k : nat) : nat :=
  length (List.filter (fun j => (j mod 10 =? 0)%nat) (seq ctr k)).

(** The destructor call and the release of the storage of each object. *)
Definition destroy_events (l : list Z) : list Event :=
  flat_map (fun o => [Destructor o; FreeUObject o]) l.














(** The calls that the purge pipeline itself makes into the world: the
    lifecycle calls, the memory trim and the broadcasts of its own. *)
Definition pipeline_event (e : Event) : bool :=
  match e with
  | ConditionalBeginDestroy _ | ConditionalFinishDestroy _
  | Destructor _ | FreeUObject _ | MemoryTrim => true
  | Broadcast PreGarbageCollectConditionalBeginDestroy
  | Broadcast PostGarbageCollectConditionalBeginDestroy
  | Broadcast PostPurgeGarbage => true
  | _ => false
  end.

(** [t'] is [t] followed by calls of the pipeline only. *)
Definition pipeline_extends (t t' : list Event) : Prop :=
  exists new, t' = t ++ new /\ forallb pipeline_event new = true.

(** The state [s] comes after the trace [t0], with calls of the pipeline
    only in between, and its [GObjIncrementalPurgeIsInProgress] is [ip0]. *)
Definition quiet_from (t0 : list Event) (ip0 : bool) (s : GCState) : Prop :=
  pipeline_extends t0 (Trace s) /\ GObjIncrementalPurgeIsInProgress s = ip0.

(** *** Sample states and environments *)

(** The pipeline at engine start: no purge is required. *)
Definition no_purge : GCState :=
  mkGCState false false [] 0 false 0 true [] 0 None 0 0 [].

(** The state a collection leaves behind: the purge of the unreachable
    objects [L] is required and nothing of it has been done. *)
Definition fresh_purge (L : list Z) : GCState :=
  mkGCState false false [] 0 true 0 true L 0 None 0 0 [].

(** A clock that never, and one that always, is past the limit. *)
Definition never_exceeded : nat -> bool := fun _ => false.


(** Objects that are ready for FinishDestroy at once, and objects that are
    ready from the [N0]-th query on. *)
Definition always_ready : Z -> nat -> bool := fun _ _ => true.



(** A desktop platform running uncooked data, where the stall check of
    FinishDestroy does nothing, and a console with cooked data on which the
    wait for FinishDestroy is always found to have taken too long. *)
Definition editor_timeout : FinishDestroyTimeout :=
  mkTimeout false false true true (fun _ _ => false).




(** The state a time-limited call leaves behind when it finishes the purge
    of an empty list. *)
Definition exit_settled (cr rq : nat) (tr : list Event) : GCState :=
  mkGCState true false [] 0 false 0 true [] 0 (Some (mkAsyncPurge 0 0 0 0 0 0 true)) cr rq tr.

End Purge.

(* ===================================================================== *)
(** ** The top-level coordinator: CollectGarbage and TryCollectGarbage *)
(* ===================================================================== *)

Module Coordinator.
Import Purge.

(** Modelled from the spec: FGCCSyncObject (declared in GCScopeLock.h, which
    is not among the sources) is "the global gate separating mutator
    operations from collector operations".  [AsyncCounter] counts the other
    threads that hold the gate, [GCCounter] is 1 while the collector holds it. *)
Record FGCCSyncObject := mkSync {
  AsyncCounter : nat;
  GCCounter : nat
}.

(** The coordinator's variables on top of the purge pipeline's. *)
Record Engine := mkEngine {
  GC : GCState;
  GCSync : FGCCSyncObject;
  GNumAttemptsSinceLastGC : Z
}.

(** Globals and console variables that a collection reads and never writes,
    and what the cycle's reachability analysis finds: the entries that
    [GatherUnreachableObjects] puts into [GUnreachableObjects] (mark, tracing
    and gather are embedded in the modules of their own), and whether the
    analysis is run a second time to track garbage references; and what the
    stall check of FinishDestroy reads.  [IsLoading] and [IsAsyncLoading]
    are what the functions of these names return. *)
Record Config := mkConfig {
  GIsInitialLoad : bool;
  GNumRetriesBeforeForcingGC : Z;
  GFlushStreamingOnGC : bool;
  IsAsyncLoading : bool;
  IsLoading : bool;
  GIncrementalBeginDestroyEnabled : bool;
  GExitPurge : bool;
  bRerunForGarbageReferences : bool;
  GatheredUnreachableObjects : list Z;
  Timeout : FinishDestroyTimeout
}.

Definition on_GC (f : GCState -> GCState) (E : Engine) : Engine :=
  mkEngine (f (GC E)) (GCSync E) (GNumAttemptsSinceLastGC E).

(** Modelled from the spec: FGCCSyncObject::TryGCLock, "acquire GC lock
    non-blocking": it succeeds when no other thread holds the gate. *)
Definition TryGCLock (E : Engine) : Engine * bool :=
  match AsyncCounter (GCSync E) with
  | O => (mkEngine (emit (EvTryGCLock true) (GC E))
                   (mkSync 0 (S (GCCounter (GCSync E))))
                   (GNumAttemptsSinceLastGC E), true)
  | S _ => (on_GC (emit (EvTryGCLock false)) E, false)
  end.

(** Modelled from the spec: FGCCSyncObject::GCLock, "block-acquire": the call
    returns once the other threads have left the gate, with the collector
    holding it.  [AcquireGCLock] of the source wraps it with a timing log. *)
Definition AcquireGCLock (E : Engine) : Engine :=
  mkEngine (emit EvGCLock (GC E)) (mkSync 0 (S (GCCounter (GCSync E))))
           (GNumAttemptsSinceLastGC E).

(** Modelled from the spec: FGCCSyncObject::GCUnlock, behind [ReleaseGCLock]. *)
Definition ReleaseGCLock (E : Engine) : Engine :=
  mkEngine (emit EvGCUnlock (GC E))
           (mkSync (AsyncCounter (GCSync E)) (Nat.pred (GCCounter (GCSync E))))
           (GNumAttemptsSinceLastGC E).

Section Collect.

Variable TimeLimitExceeded : nat -> bool.
Variable IsReadyForFinishDestroy : Z -> nat -> bool.
Variable C : Config.

Definition Purge_ (bUseTimeLimit : bool) (fuel : nat) (E : Engine) : option Engine :=
  g ← IncrementalPurgeGarbage TimeLimitExceeded IsReadyForFinishDestroy (GExitPurge C)
        (Timeout C) bUseTimeLimit fuel (GC E);
  Some (mkEngine g (GCSync E) (GNumAttemptsSinceLastGC E)).

(** The scope of [CollectGarbageImpl] that holds the hash-table lock:
    reachability analysis (which broadcasts
    TraceExternalRootsForReachabilityAnalysis at its end), an optional second
    run, and [GatherUnreachableObjects], which resets [GUnreachableObjects]
    and [GUnrechableObjectIndex]. *)
Definition ReachabilityScope (g : GCState) : GCState :=
  let g1 := emit (Broadcast TraceExternalRootsForReachabilityAnalysis) g in
  let g2 := if bRerunForGarbageReferences C
            then emit (Broadcast TraceExternalRootsForReachabilityAnalysis) g1 else g1 in
  set_UnreachableIndex 0 (set_UnreachableObjects (GatheredUnreachableObjects C) g2).

(** [CollectGarbageImpl<bPerformFullPurge>(KeepFlags)]; [None] also when
    [check(!IsLoading())] fails at entry, or
    [check(!GObjIncrementalPurgeIsInProgress)] or [check(!GObjPurgeIsRequired)]
    at the start of the reachability scope. *)
Definition CollectGarbageImpl (bPerformFullPurge : bool) (KeepFlags : Z) (fuel : nat)
    (E : Engine) : option Engine :=
  if IsLoading C then None else
  let E0 := mkEngine (GC E) (GCSync E) 0 in
  let E1 := if GFlushStreamingOnGC C && IsAsyncLoading C
            then AcquireGCLock (on_GC (emit FlushAsyncLoading) (ReleaseGCLock E0))
            else E0 in
  let E2 := on_GC (emit (Broadcast PreGarbageCollect)) E1 in
  E3 ← (if GObjIncrementalPurgeIsInProgress (GC E2) || GObjPurgeIsRequired (GC E2)
        then
          E' ← Purge_ false fuel E2;
          Some (if negb bPerformFullPurge then on_GC (emit MemoryTrim) E' else E')
        else Some E2);
  if GObjIncrementalPurgeIsInProgress (GC E3) || GObjPurgeIsRequired (GC E3) then None
  else
    let E4 := on_GC ReachabilityScope E3 in
    let E5 := ReleaseGCLock E4 in
    let E6 := on_GC (emit (Broadcast PostReachabilityAnalysis)) E5 in
    let E7 := if bPerformFullPurge || negb (GIncrementalBeginDestroyEnabled C)
              then on_GC (fun g => fst (UnhashUnreachableObjects TimeLimitExceeded false g)) E6
              else E6 in
    let E8 := on_GC (set_PurgeIsRequired true) E7 in
    E9 ← (if bPerformFullPurge then Purge_ false fuel E8 else Some E8);
    let E10 := if bPerformFullPurge then on_GC (emit MemoryTrim) E9 else E9 in
    Some (on_GC (emit (Broadcast PostGarbageCollect)) E10).

(** [CollectGarbageInternal] only selects the instance of the template. *)
Definition CollectGarbageInternal (KeepFlags : Z) (bPerformFullPurge : bool) (fuel : nat)
    (E : Engine) : option Engine :=
  CollectGarbageImpl bPerformFullPurge KeepFlags fuel E.

(** [CollectGarbage(KeepFlags, bPerformFullPurge)] *)
Definition CollectGarbage (KeepFlags : Z) (bPerformFullPurge : bool) (fuel : nat)
    (E : Engine) : option Engine :=
  if GIsInitialLoad C then Some E
  else CollectGarbageInternal KeepFlags bPerformFullPurge fuel (AcquireGCLock E).

(** [TryCollectGarbage(KeepFlags, bPerformFullPurge)] *)
Definition TryCollectGarbage (KeepFlags : Z) (bPerformFullPurge : bool) (fuel : nat)
    (E : Engine) : option (Engine * bool) :=
  if GIsInitialLoad C then Some (E, false)
  else
    let '(E1, bLocked) := TryGCLock E in
    let '(E2, bCanRunGC) :=
      if negb bLocked then
        if (0 <? GNumRetriesBeforeForcingGC C)
           && (GNumRetriesBeforeForcingGC C <? GNumAttemptsSinceLastGC E1)
        then (AcquireGCLock (mkEngine (GC E1) (GCSync E1) 0), true)
        else (E1, false)
      else (E1, true) in
    if bCanRunGC then
      E3 ← CollectGarbageInternal KeepFlags bPerformFullPurge fuel E2;
      Some (E3, true)
    else
      Some (mkEngine (GC E2) (GCSync E2) (wrap32 (GNumAttemptsSinceLastGC E2 + 1)), false).

End Collect.

(** Whether the collector holds the GC lock after the events of a trace,
    given whether it held it before. *)
Definition lock_after (bHeld : bool) (t : list Event) : bool :=
  fold_left (fun h e =>
               match e with
               | EvGCLock => true
               | EvTryGCLock true => true
               | EvGCUnlock => false
               | _ => h
               end) t bHeld.

(** The delegates that run after a phase of the cycle. *)
Definition is_post_phase (D : Delegate) : bool :=
  match D with
  | PostReachabilityAnalysis | PostGarbageCollect | PostPurgeGarbage => true
  | _ => false
  end.

(** [D] is broadcast at some point of [t] at which the lock is held. *)
Definition broadcast_under_lock (bHeld : bool) (D : Delegate) (t : list Event) : Prop :=
  exists pre post, t = pre ++ Broadcast D :: post /\ lock_after bHeld pre = true.

(** The delegates of [is_post_phase], the post-purge one only when
    [bPurge]. *)
Definition post_phase (bPurge : bool) (D : Delegate) : bool :=
  match D with
  | PostReachabilityAnalysis | PostGarbageCollect => true
  | PostPurgeGarbage => bPurge
  | _ => false
  end.

(** No delegate selected by [p] is broadcast in [t] while the lock is held:
    the decision procedure for [broadcast_under_lock]. *)
Fixpoint no_broadcast_under_lock (p : Delegate -> bool) (bHeld : bool) (t : list Event)
  : bool :=
  match t with
  | [] => true
  | e :: t' =>
      match e with
      | Broadcast D => negb (bHeld && p D)
      | _ => true
      end && no_broadcast_under_lock p (lock_after bHeld [e]) t'
  end.

(** [t'] is [t] followed by events among which no delegate selected by [p]
    is broadcast under the lock, when the lock is held as [h] says at the end
    of [t]; [h'] says whether it is held at the end of [t']. *)
Definition lock_safe (p : Delegate -> bool) (h : bool) (t : list Event)
    (h' : bool) (t' : list Event) : Prop :=
  exists new, t' = t ++ new
              /\ no_broadcast_under_lock p h new = true /\ lock_after h new = h'.

(** Whether the call of [IncrementalPurgeGarbage(false)] that a cycle makes
    before reachability analysis has a purge to finish: the call is made
    when a purge is required or in progress, and it purges when a purge is
    required, which during the exit purge it always is; otherwise it only
    trims the memory. *)
Definition purge_before_reachability (C : Config) (g : GCState) : bool :=
  (GObjIncrementalPurgeIsInProgress g || GObjPurgeIsRequired g)
  && (GExitPurge C || GObjPurgeIsRequired g).

(** *** Sample engines and configurations *)


(** The shipped values of the console variables, outside initial load, with
    a collection that finds the entries 21 and 22 unreachable. *)
Definition default_config : Config :=
  mkConfig false 10 false false false true false false [21; 22] editor_timeout.

(** The same during initial load. *)
Definition initial_load_config : Config :=
  mkConfig true 10 false false false true false false [21; 22] editor_timeout.




(** An engine on which nobody holds the gate, and one on which another
    thread holds it, after [n] skipped attempts. *)
Definition idle_engine (g : GCState) : Engine := mkEngine g (mkSync 0 0) 0.

Definition busy_engine (g : GCState) (n : Z) : Engine := mkEngine g (mkSync 1 0) n.

End Coordinator.

(* ===================================================================== *)
(** ** FBoundedWorkstealingQueue and FWorkstealingQueue *)
(* ===================================================================== *)

Module WorkStealing.

Definition Capacity : Z := 16.
Definition FreeSlot : Z := 0.
Definition TakenSlot : Z := 1.

(** uint32 arithmetic: [Head] starts at [~0u] and wraps. *)
Definition uint32 (x : Z) : Z := x mod 2^32.

(** The bounded queue: [Head] is the owner's, [Tail] the thieves' cursor;
    a slot holds [FreeSlot], [TakenSlot] or the address of a work block. *)
Record FBoundedWorkstealingQueue := mkBounded {
  Head : Z;
  Tail : Z;
  Slots : list Z
}.

Definition NewBounded : FBoundedWorkstealingQueue :=
  mkBounded (2^32 - 1) 0 (replicate (Z.to_nat Capacity) FreeSlot).

Definition LoadSlot (Q : FBoundedWorkstealingQueue) (Idx : Z) : Z :=
  default FreeSlot (Slots Q !! Z.to_nat Idx).

Definition StoreSlot (Idx : Z) (v : Z) (Q : FBoundedWorkstealingQueue)
  : FBoundedWorkstealingQueue :=
  mkBounded (Head Q) (Tail Q) (<[Z.to_nat Idx := v]> (Slots Q)).

(** [FBoundedWorkstealingQueue::Push] *)
Definition BoundedPush (Block : Z) (Q : FBoundedWorkstealingQueue)
  : FBoundedWorkstealingQueue * bool :=
  let Idx := uint32 (Head Q + 1) mod Capacity in
  let Slot := LoadSlot Q Idx in
  if Slot =? FreeSlot then
    let Q1 := StoreSlot Idx Block Q in
    (mkBounded (uint32 (Head Q1 + 1)) (Tail Q1) (Slots Q1), true)
  else (Q, false).

(** [FBoundedWorkstealingQueue::Pop]; executed alone, the compare-exchange
    finds the value it has just loaded. *)
Definition BoundedPop (Q : FBoundedWorkstealingQueue) : FBoundedWorkstealingQueue * Z :=
  let Idx := Head Q mod Capacity in
  let Slot := LoadSlot Q Idx in
  if TakenSlot <? Slot then
    let Q1 := StoreSlot Idx FreeSlot Q in
    (mkBounded (uint32 (Head Q1 - 1)) (Tail Q1) (Slots Q1), Slot)
  else (Q, 0).

(** [FBoundedWorkstealingQueue::Steal], executed with no other thread
    running: each round of the [while (true)] either returns or finds the
    slot taken by a thief and tries again; [fuel] bounds the rounds. *)
Fixpoint BoundedSteal (fuel : nat) (Q : FBoundedWorkstealingQueue)
  : option (FBoundedWorkstealingQueue * Z) :=
  match fuel with
  | O => None
  | S fuel' =>
    let IdxVer := Tail Q in
    let Idx := IdxVer mod Capacity in
    let Slot := LoadSlot Q Idx in
    if Slot =? FreeSlot then Some (Q, 0)
    else if negb (Slot =? TakenSlot) then
      let Q1 := StoreSlot Idx TakenSlot Q in
      if IdxVer =? Tail Q1 then
        let Q2 := mkBounded (Head Q1) (uint32 (Tail Q1 + 1)) (Slots Q1) in
        Some (StoreSlot Idx FreeSlot Q2, Slot)
      else BoundedSteal fuel' (StoreSlot Idx Slot Q1)
    else BoundedSteal fuel' Q
  end.

(** [FBoundedWorkstealingQueue::CheckEmpty], as a test. *)
Definition BoundedIsEmpty (Q : FBoundedWorkstealingQueue) : bool :=
  forallb (fun Slot => Slot =? FreeSlot) (Slots Q).

(** The unbounded queue: the stealable part and the owner's overflow. *)
Record FWorkstealingQueue := mkQueue {
  SharedBlocks : FBoundedWorkstealingQueue;
  LocalBlocks : list Z
}.

Definition NewQueue : FWorkstealingQueue := mkQueue NewBounded [].

(** [FWorkstealingQueue::Push] *)
Definition Push (Block : Z) (Q : FWorkstealingQueue) : FWorkstealingQueue :=
  let '(Shared, bPushed) := BoundedPush Block (SharedBlocks Q) in
  if bPushed then mkQueue Shared (LocalBlocks Q)
  else mkQueue (SharedBlocks Q) (LocalBlocks Q ++ [Block]).

(** [while (LocalNum > 0 && SharedBlocks.Push(LocalBlocks[LocalNum - 1])) --LocalNum;] *)
Fixpoint Refill (LocalNum : nat) (Local : list Z) (Shared : FBoundedWorkstealingQueue)
  : nat * FBoundedWorkstealingQueue :=
  match LocalNum with
  | O => (O, Shared)
  | S k =>
    let '(Shared', bPushed) := BoundedPush (nth k Local 0) Shared in
    if bPushed then Refill k Local Shared' else (LocalNum, Shared)
  end.

(** [FWorkstealingQueue::Pop] *)
Definition Pop (Q : FWorkstealingQueue) : FWorkstealingQueue * Z :=
  match length (LocalBlocks Q) with
  | O => let '(Shared, Out) := BoundedPop (SharedBlocks Q) in
         (mkQueue Shared (LocalBlocks Q), Out)
  | S LocalNum =>
    let Out := nth LocalNum (LocalBlocks Q) 0 in
    let '(LocalNum', Shared) := Refill LocalNum (LocalBlocks Q) (SharedBlocks Q) in
    (mkQueue Shared (take LocalNum' (LocalBlocks Q)), Out)
  end.

(** [FWorkstealingQueue::Steal] *)
Definition Steal (fuel : nat) (Q : FWorkstealingQueue) : option (FWorkstealingQueue * Z) :=
  '(Shared, Out) ← BoundedSteal fuel (SharedBlocks Q);
  Some (mkQueue Shared (LocalBlocks Q), Out).

(** [FWorkstealingQueue::CheckEmpty], as a test. *)
Definition IsEmpty (Q : FWorkstealingQueue) : bool :=
  BoundedIsEmpty (SharedBlocks Q) && bool_decide (LocalBlocks Q = []).

(** What the owner does to its queue, and the blocks its pops return. *)
Inductive OwnerOp :=
| OpPush (Block : Z)
| OpPop.

Fixpoint run (ops : list OwnerOp) (Q : FWorkstealingQueue) : FWorkstealingQueue * list Z :=
  match ops with
  | [] => (Q, [])
  | OpPush Block :: ops' => run ops' (Push Block Q)
  | OpPop :: ops' =>
      let '(Q1, Out) := Pop Q in
      let '(Q2, Outs) := run ops' Q1 in
      (Q2, Out :: Outs)
  end.

(** The same operations on a stack of blocks, the most recent one last;
    popping the empty stack gives nullptr. *)
Fixpoint run_stack (ops : list OwnerOp) (st : list Z) : list Z * list Z :=
  match ops with
  | [] => (st, [])
  | OpPush Block :: ops' => run_stack ops' (st ++ [Block])
  | OpPop :: ops' =>
      let '(st2, Outs) := run_stack ops' (removelast st) in
      (st2, List.last st 0 :: Outs)
  end.

(** The queue that holds the stack [st] when only the owner has used it: the
    first [Capacity] blocks in the bounded queue, from slot 0 on, the others
    in the owner's overflow. *)
Definition queue_of (st : list Z) : FWorkstealingQueue :=
  mkQueue
    (mkBounded (uint32 (Z.of_nat (Nat.min (length st) 16) - 1)) 0
       (take 16 st ++ replicate (16 - length st) FreeSlot))
    (drop 16 st).

(** A work block lives in a page: its address is neither of the two
    sentinels (the source asserts it in [Push]). *)
Definition is_block (Block : Z) : Prop := TakenSlot < Block.

Definition valid_op (op : OwnerOp) : Prop :=
  match op with
  | OpPush Block => is_block Block
  | OpPop => True
  end.

(** Eighteen pushes, two more than the bounded queue holds, then pops with
    a push in between. *)
Definition owner_ops : list OwnerOp :=
  map (fun k => OpPush (Z.of_nat k)) (seq 100 18)
  ++ [OpPop; OpPop; OpPop; OpPush 7; OpPop; OpPop].

End WorkStealing.

(* ===================================================================== *)
(** ** Object-table entries and their flag word *)
(* ===================================================================== *)

Module ObjectFlags.

(** EInternalObjectFlags is declared in ObjectMacros.h, which is not among
    the sources: the masks the collector names are parameters. *)
Class EInternalObjectFlags := mkInternalFlags {
  Garbage : Z;
  ReachableInCluster : Z;
  ClusterRoot : Z;
  Unreachable : Z;
  PendingKill : Z;
  RootSet : Z;
  GarbageCollectionKeepFlags : Z
}.

(** One assignment of the masks, single bits 21 to 30 as the engine lays
    them out, and the keep mask Native | Async | AsyncLoading | LoaderImport. *)
Definition EngineFlags : EInternalObjectFlags :=
  mkInternalFlags (2^21) (2^23) (2^24) (2^28) (2^29) (2^30) (2^25 + 2^26 + 2^27 + 2^20).

(** What the theorems need of the masks: the ones the collector sets and
    clears are not empty and do not overlap. *)
Definition masks_separate (F : EInternalObjectFlags) : Prop :=
  Unreachable <> 0
  /\ Z.land Unreachable ReachableInCluster = 0
  /\ Z.land Unreachable ClusterRoot = 0
  /\ Z.land ReachableInCluster ClusterRoot = 0.

(** Modelled from the spec: FUObjectItem (UObjectArray.h is not among the
    sources).  "Each entry holds: the raw object pointer, a 32-bit atomic
    Flags word, an OwnerIndex": positive for a cluster member (the index of
    its root), negative for a cluster root ("OwnerIndex = -clusterIndex"). *)
Record FUObjectItem := mkItem {
  Object : Z;
  Flags : Z;
  ClusterRootIndex : Z
}.

Definition HasAnyFlags (Item : FUObjectItem) (InFlags : Z) : bool :=
  negb (Z.land (Flags Item) InFlags =? 0).

Definition SetFlags (InFlags : Z) (Item : FUObjectItem) : FUObjectItem :=
  mkItem (Object Item) (Z.lor (Flags Item) InFlags) (ClusterRootIndex Item).

Definition ClearFlags (InFlags : Z) (Item : FUObjectItem) : FUObjectItem :=
  mkItem (Object Item) (Z.land (Flags Item) (Z.lnot InFlags)) (ClusterRootIndex Item).

Definition GetOwnerIndex (Item : FUObjectItem) : Z := ClusterRootIndex Item.

Definition SetOwnerIndex (OwnerIndex : Z) (Item : FUObjectItem) : FUObjectItem :=
  mkItem (Object Item) (Flags Item) OwnerIndex.

Definition GetClusterIndex (Item : FUObjectItem) : Z := - ClusterRootIndex Item.

Definition IsUnreachable `{EInternalObjectFlags} (Item : FUObjectItem) : bool :=
  HasAnyFlags Item Unreachable.

Definition IsRootSet `{EInternalObjectFlags} (Item : FUObjectItem) : bool :=
  HasAnyFlags Item RootSet.

Definition IsPendingKill `{EInternalObjectFlags} (Item : FUObjectItem) : bool :=
  HasAnyFlags Item PendingKill.

(** Modelled from the spec: FUObjectCluster (UObjectClusters.h is not among
    the sources): "its member indices, references-to-other-clusters,
    references to mutable (non-clustered) objects, and a needs-dissolving bit". *)
Record FUObjectCluster := mkCluster {
  Objects : list Z;
  ReferencedClusters : list Z;
  MutableObjects : list Z;
  bNeedsDissolving : bool
}.

Definition EmptyCluster : FUObjectCluster := mkCluster [] [] [] false.

(** The object table ([GUObjectArray]) and the cluster container
    ([GUObjectClusters]); an entry is addressed by its index. *)
Record ObjectTables := mkTables {
  GUObjectArray : list FUObjectItem;
  GUObjectClusters : gmap Z FUObjectCluster;
  bClustersNeedDissolving : bool
}.

Definition IndexToObject (T : ObjectTables) (Index : Z) : option FUObjectItem :=
  if Index <? 0 then None else GUObjectArray T !! Z.to_nat Index.

Definition update_item (Index : Z) (f : FUObjectItem -> FUObjectItem) (T : ObjectTables)
  : ObjectTables :=
  if Index <? 0 then T
  else mkTables (alter f (Z.to_nat Index) (GUObjectArray T)) (GUObjectClusters T)
                (bClustersNeedDissolving T).

Definition cluster_at (T : ObjectTables) (ClusterIndex : Z) : FUObjectCluster :=
  default EmptyCluster (GUObjectClusters T !! ClusterIndex).

Definition update_cluster (ClusterIndex : Z) (f : FUObjectCluster -> FUObjectCluster)
    (T : ObjectTables) : ObjectTables :=
  mkTables (GUObjectArray T) (alter f ClusterIndex (GUObjectClusters T))
           (bClustersNeedDissolving T).

End ObjectFlags.

(* ===================================================================== *)
(** ** TReachabilityProcessor *)
(* ===================================================================== *)

Module Reachability.
Import ObjectFlags.

(** [EGCOptions], the two bits the processor is instantiated with. *)
Record EGCOptions := mkOptions {
  Parallel : bool;
  WithPendingKill : bool
}.

(** [enum class EKillable { No, Yes }] *)
Inductive EKillable := KillableNo | KillableYes.

(** [EOrigin] *)
Inductive EOrigin := Other | Blueprint.

(** [FReferenceMetadata]: the snapshot of the flag word taken when the
    metadata is built, and the entry it was taken from. *)
Record FReferenceMetadata := mkMetadata {
  MetaFlags : Z;
  ObjectIndex : Z
}.

(** [FReferenceMetadata::Has] *)
Definition Has (M : FReferenceMetadata) (InFlags : Z) : bool :=
  negb (Z.land (MetaFlags M) InFlags =? 0).

(** [FResolvedMutableReference]: the pointer read from the slot, and the slot. *)
Record FResolvedMutableReference := mkMutableRef {
  RefObject : Z;
  Mutable : Z
}.

(** What the processor reads and writes: the object and cluster tables, the
    reference slots ([Memory] maps the address of a slot to the pointer in
    it), and of the worker context the queue of objects to serialize and the
    garbage-reference statistic. *)
Record ReachState := mkReach {
  Tables : ObjectTables;
  Memory : gmap Z Z;
  ObjectsToSerialize : list Z;
  bFoundGarbageRef : bool
}.

Definition with_Tables (T : ObjectTables) (st : ReachState) : ReachState :=
  mkReach T (Memory st) (ObjectsToSerialize st) (bFoundGarbageRef st).

(** [ObjectsToSerialize.Add(Object)] *)
Definition AddObject (Obj : Z) (st : ReachState) : ReachState :=
  mkReach (Tables st) (Memory st) (ObjectsToSerialize st ++ [Obj]) (bFoundGarbageRef st).

(** [KillReference(Object)]: [Object = nullptr] through the reference. *)
Definition KillReference (Slot : Z) (st : ReachState) : ReachState :=
  mkReach (Tables st) (<[Slot := 0]> (Memory st)) (ObjectsToSerialize st)
          (bFoundGarbageRef st).

Section Processor.

Context {F : EInternalObjectFlags}.

(** [Options] is the template argument.  The permanent object pool, the
    object handles and [GUObjectArray.ObjectToIndex] (which reads the index
    stored in the object) belong to other parts of the engine. *)
Variable Options : EGCOptions.
Variable PermanentPoolContains : Z -> bool.
Variable IsObjectHandleResolved : Z -> bool.
Variable ObjectToIndex : Z -> Z.

(** [KillFlag = IsWithPendingKill() ? PendingKill : Garbage] *)
Definition KillFlag : Z := if WithPendingKill Options then PendingKill else Garbage.

(** [MayKill<Options>(Origin, bAllowKill)] *)
Definition MayKill (Origin : EOrigin) (bAllowKill : bool) : EKillable :=
  if bAllowKill
     && (WithPendingKill Options || match Origin with Blueprint => true | Other => false end)
  then KillableYes else KillableNo.

(** [ValidateReference], without the fatal diagnostics of checked builds. *)
Definition ValidateReference (Obj : Z) : bool :=
  negb (PermanentPoolContains Obj) && negb (Obj =? 0) && IsObjectHandleResolved Obj.

(** [FReferenceMetadata(ObjectIndex)]; [None]: no such entry. *)
Definition MakeMetadata (Index : Z) (st : ReachState) : option FReferenceMetadata :=
  Item ← IndexToObject (Tables st) Index;
  Some (mkMetadata (Flags Item) Index).

Definition GarbageMask : Z := Z.lor PendingKill Garbage.

(** The first loop of [MarkReferencedClustersAsReachable], at position [k]
    of [Cluster.ReferencedClusters]. *)
Definition MarkReferencedCluster (ClusterIndex : Z) (k : nat)
    (acc : ReachState * bool) : option (ReachState * bool) :=
  let '(st, bAdd) := acc in
  let Entry := nth k (ReferencedClusters (cluster_at (Tables st) ClusterIndex)) (-1) in
  if 0 <=? Entry then
    Root ← IndexToObject (Tables st) Entry;
    if negb (HasAnyFlags Root GarbageMask) then
      if IsUnreachable Root
      then Some (with_Tables (update_item Entry (ClearFlags Unreachable) (Tables st)) st, bAdd)
      else Some (st, bAdd)
    else
      Some (with_Tables
              (update_cluster ClusterIndex
                 (fun Cl => mkCluster (Objects Cl) (<[k := -1]> (ReferencedClusters Cl))
                                      (MutableObjects Cl) (bNeedsDissolving Cl))
                 (Tables st)) st, true)
  else Some (st, bAdd).

(** [MarkClusterMutableObjectsAsReachable], at position [k] of
    [Cluster.MutableObjects]; [rec] is [MarkReferencedClustersAsReachable].
    Run by one thread, the atomic flag operations of the parallel instance
    do what the plain ones of the serial instance do. *)
Definition MarkMutableObject (rec : Z -> ReachState -> option ReachState)
    (ClusterIndex : Z) (k : nat) (acc : ReachState * bool) : option (ReachState * bool) :=
  let '(st, bAdd) := acc in
  let Entry := nth k (MutableObjects (cluster_at (Tables st) ClusterIndex)) (-1) in
  if 0 <=? Entry then
    Item ← IndexToObject (Tables st) Entry;
    if negb (HasAnyFlags Item GarbageMask) then
      if IsUnreachable Item then
        let st1 := AddObject (Object Item)
                     (with_Tables (update_item Entry (ClearFlags Unreachable) (Tables st)) st) in
        if GetOwnerIndex Item <? 0
        then st2 ← rec (GetClusterIndex Item) st1; Some (st2, bAdd)
        else Some (st1, bAdd)
      else if (0 <? GetOwnerIndex Item) && negb (HasAnyFlags Item ReachableInCluster) then
        let st1 := with_Tables (update_item Entry (SetFlags ReachableInCluster) (Tables st)) st in
        Root ← IndexToObject (Tables st1) (GetOwnerIndex Item);
        if IsUnreachable Root then
          st2 ← rec (GetClusterIndex Root)
                  (with_Tables (update_item (GetOwnerIndex Item) (ClearFlags Unreachable)
                                            (Tables st1)) st1);
          Some (st2, bAdd)
        else Some (st1, bAdd)
      else Some (st, bAdd)
    else
      Some (with_Tables
              (update_cluster ClusterIndex
                 (fun Cl => mkCluster (Objects Cl) (ReferencedClusters Cl)
                                      (<[k := -1]> (MutableObjects Cl)) (bNeedsDissolving Cl))
                 (Tables st)) st, true)
  else Some (st, bAdd).

(** [MarkReferencedClustersAsReachable<Options>(ClusterIndex, ObjectsToSerialize)];
    [fuel] bounds the depth of the recursion through the clusters. *)
Fixpoint MarkReferencedClustersAsReachable (fuel : nat) (ClusterIndex : Z)
    (st : ReachState) : option ReachState :=
  match fuel with
  | O => None
  | S fuel' =>
    let Cluster := cluster_at (Tables st) ClusterIndex in
    acc1 ← foldl (fun acc k => acc ≫= MarkReferencedCluster ClusterIndex k)
                 (Some (st, false)) (seq 0 (length (ReferencedClusters Cluster)));
    '(st2, bAddClusterObjectsToSerialize) ←
       foldl (fun acc k =>
                acc ≫= MarkMutableObject (MarkReferencedClustersAsReachable fuel')
                                         ClusterIndex k)
             (Some acc1) (seq 0 (length (MutableObjects Cluster)));
    if (bAddClusterObjectsToSerialize : bool) then
      Members ← mapM (fun i => Object <$> IndexToObject (Tables st2) i)
                     (Objects (cluster_at (Tables st2) ClusterIndex));
      let T3 := update_cluster ClusterIndex
                  (fun Cl => mkCluster (Objects Cl) (ReferencedClusters Cl)
                                       (MutableObjects Cl) true) (Tables st2) in
      Some (mkReach (mkTables (GUObjectArray T3) (GUObjectClusters T3) true)
                    (Memory st2) (ObjectsToSerialize st2 ++ Members) (bFoundGarbageRef st2))
    else Some st2
  end.

(** [DetectGarbageReference]: [Stats.TrackPotentialGarbageReference] sets the
    statistic when its argument is true. *)
Definition DetectGarbageReference (M : FReferenceMetadata) (st : ReachState) : ReachState :=
  mkReach (Tables st) (Memory st) (ObjectsToSerialize st)
          (bFoundGarbageRef st || (negb (WithPendingKill Options) && Has M KillFlag)).

(** [HandleValidReference(Context, Reference, Metadata)] *)
Definition HandleValidReference (fuel : nat) (RefObj : Z) (M : FReferenceMetadata)
    (st : ReachState) : option (ReachState * bool) :=
  Item ← IndexToObject (Tables st) (ObjectIndex M);
  if IsUnreachable Item then
    let st1 := with_Tables (update_item (ObjectIndex M) (ClearFlags Unreachable) (Tables st)) st in
    if negb (Has M ClusterRoot) then Some (AddObject RefObj st1, true)
    else
      st2 ← MarkReferencedClustersAsReachable fuel (GetClusterIndex Item) st1;
      Some (st2, true)
  else if (0 <? GetOwnerIndex Item) && negb (Has M ReachableInCluster) then
    Root ← IndexToObject (Tables st) (GetOwnerIndex Item);
    let bNeedsDoing :=
      if Parallel Options then negb (HasAnyFlags Item ReachableInCluster) else true in
    let st1 := with_Tables (update_item (ObjectIndex M) (SetFlags ReachableInCluster)
                                        (Tables st)) st in
    if bNeedsDoing && IsUnreachable Root then
      st2 ← MarkReferencedClustersAsReachable fuel (GetClusterIndex Root)
              (with_Tables (update_item (GetOwnerIndex Item) (ClearFlags Unreachable)
                                        (Tables st1)) st1);
      Some (st2, false)
    else Some (st1, false)
  else Some (st, false).

(** [ProcessReferenceDirectly<Killable>(Context, PermanentPool,
    ReferencingObject, Object, MemberId)]; [Slot] is the address of the
    reference [Object] and [ReferencingObject] the pointer to the object that
    owns it, 0 for nullptr.  [None]: a slot or a table entry that does not
    exist, or the failed [check(ReferencingObject || IsWithPendingKill())] of
    the branch that kills the reference.  The [checkSlow] lines, which only
    debug builds compile, are left out. *)
Definition ProcessReferenceDirectly (Killable : EKillable) (fuel : nat)
    (ReferencingObject : Z) (Slot : Z) (st : ReachState) : option ReachState :=
  Obj ← Memory st !! Slot;
  if ValidateReference Obj then
    M ← MakeMetadata (ObjectToIndex Obj) st;
    let bKillable := match Killable with KillableYes => true | KillableNo => false end in
    if Has M KillFlag && bKillable then
      if negb (ReferencingObject =? 0) || WithPendingKill Options
      then Some (KillReference Slot st)
      else None
    else fst <$> HandleValidReference fuel Obj M (DetectGarbageReference M st)
  else Some st.

(** [HandleBatchedReference(Context, FResolvedMutableReference, Metadata)] *)
Definition HandleBatchedMutableReference (fuel : nat) (Reference : FResolvedMutableReference)
    (M : FReferenceMetadata) (st : ReachState) : option ReachState :=
  if Has M KillFlag then Some (KillReference (Mutable Reference) st)
  else fst <$> HandleValidReference fuel (RefObject Reference) M st.

(** [HandleBatchedReference(Context, FImmutableReference, Metadata)] *)
Definition HandleBatchedImmutableReference (fuel : nat) (RefObj : Z)
    (M : FReferenceMetadata) (st : ReachState) : option ReachState :=
  fst <$> HandleValidReference fuel RefObj M (DetectGarbageReference M st).

End Processor.


End Reachability.

(* ===================================================================== *)
(** ** The stripes of the parallel sweeps over the object table *)
(* ===================================================================== *)

Module Stripes.

(** [ParallelFor] hands [ThreadIndex = 0 .. NumThreads - 1] to its workers;
    mark and gather both cut [FirstIndex .. ArrayNum - 1] like this. *)
Section Stripe.

Variable ArrayNum : Z.
Variable FirstIndex : Z.
Variable NumThreads : Z.

Definition MaxNumberOfObjects : Z := ArrayNum - FirstIndex.

Definition NumberOfObjectsPerThread : Z := Z.quot MaxNumberOfObjects NumThreads + 1.

Definition FirstObjectIndex (ThreadIndex : Z) : Z :=
  ThreadIndex * NumberOfObjectsPerThread + FirstIndex.

Definition NumObjects (ThreadIndex : Z) : Z :=
  if ThreadIndex <? NumThreads - 1 then NumberOfObjectsPerThread
  else MaxNumberOfObjects - (NumThreads - 1) * NumberOfObjectsPerThread.

Definition LastObjectIndex (ThreadIndex : Z) : Z :=
  Z.min (ArrayNum - 1) (FirstObjectIndex ThreadIndex + NumObjects ThreadIndex - 1).

(** The values [ObjectIndex] takes in
    [for (ObjectIndex = First; ObjectIndex <= Last; ++ObjectIndex)]. *)
Definition indices (ThreadIndex : Z) : list Z :=
  map (fun k => FirstObjectIndex ThreadIndex + Z.of_nat k)
      (seq 0 (Z.to_nat (LastObjectIndex ThreadIndex - FirstObjectIndex ThreadIndex + 1))).

End Stripe.

(** The slots in the order in which a schedule visits them, each with the
    worker that visits it. *)
Definition slots (ArrayNum FirstIndex NumThreads : Z) (schedule : list Z) : list (Z * Z) :=
  flat_map (fun t => map (pair t) (indices ArrayNum FirstIndex NumThreads t)) schedule.

(** An order in which the workers can run their stripes: every thread index
    once. *)
Definition is_schedule (NumThreads : Z) (schedule : list Z) : Prop :=
  Permutation schedule (map Z.of_nat (seq 0 (Z.to_nat NumThreads))).

End Stripes.

(* ===================================================================== *)
(** ** FRealtimeGC::MarkObjectsAsUnreachable, the parallel sweep *)
(* ===================================================================== *)

Module MarkPhase.
Import ObjectFlags.

(** The variables the sweep writes: the table, the per-thread arrays of
    objects to serialize, the two lock-free lists (of table indices) and the
    object count. *)
Record MarkState := mkMark {
  Table : list FUObjectItem;
  ObjectsToSerializeArrays : list (list Z);
  ClustersToDissolveList : list Z;
  KeepClusterRefsList : list Z;
  GObjectCountDuringLastMarkPhase : Z
}.

Section Mark.

Context {F : EInternalObjectFlags}.

(** [GetObjectFlags o] is [o->GetFlags()], the EObjectFlags stored in the
    object; [KeepFlags] is the caller's; [RF_NoFlags] is 0. *)
Variable GetObjectFlags : Z -> Z.
Variable KeepFlags : Z.
Variable FirstGCIndex : Z.
Variable NumThreads : Z.

Definition RF_NoFlags : Z := 0.

Definition ObjectHasAnyFlags (Obj : Z) (InFlags : Z) : bool :=
  negb (Z.land (GetObjectFlags Obj) InFlags =? 0).

Definition LocalAdd (ThreadIndex : Z) (Obj : Z) (st : MarkState) : MarkState :=
  mkMark (Table st)
         (alter (fun l => l ++ [Obj]) (Z.to_nat ThreadIndex) (ObjectsToSerializeArrays st))
         (ClustersToDissolveList st) (KeepClusterRefsList st)
         (GObjectCountDuringLastMarkPhase st).

Definition KeepPush (Index : Z) (st : MarkState) : MarkState :=
  mkMark (Table st) (ObjectsToSerializeArrays st) (ClustersToDissolveList st)
         (KeepClusterRefsList st ++ [Index]) (GObjectCountDuringLastMarkPhase st).

Definition DissolvePush (Index : Z) (st : MarkState) : MarkState :=
  mkMark (Table st) (ObjectsToSerializeArrays st) (ClustersToDissolveList st ++ [Index])
         (KeepClusterRefsList st) (GObjectCountDuringLastMarkPhase st).

Definition StoreItem (Index : Z) (Item : FUObjectItem) (st : MarkState) : MarkState :=
  mkMark (<[Z.to_nat Index := Item]> (Table st)) (ObjectsToSerializeArrays st)
         (ClustersToDissolveList st) (KeepClusterRefsList st)
         (GObjectCountDuringLastMarkPhase st).

Definition TableAt (st : MarkState) (Index : Z) : option FUObjectItem :=
  if Index <? 0 then None else Table st !! Z.to_nat Index.

Definition CountObject (st : MarkState) : MarkState :=
  mkMark (Table st) (ObjectsToSerializeArrays st) (ClustersToDissolveList st)
         (KeepClusterRefsList st) (GObjectCountDuringLastMarkPhase st + 1).

(** The branch for "regular objects or cluster root objects": the value of
    [bMarkAsUnreachable] and whether the entry is pushed for dissolution. *)
Definition ClassifyRegular (Item : FUObjectItem) : bool * bool :=
  if HasAnyFlags Item GarbageCollectionKeepFlags then (false, false)
  else if negb (IsPendingKill Item) && negb (KeepFlags =? RF_NoFlags)
          && ObjectHasAnyFlags (Object Item) KeepFlags then (false, false)
  else if HasAnyFlags Item (Z.lor PendingKill Garbage) && HasAnyFlags Item ClusterRoot
  then (true, true)
  else (true, false).

(** The body of the loop over the stripe, for one [ObjectIndex]. *)
Definition MarkSlot (ThreadIndex : Z) (ObjectIndex : Z) (st : MarkState) : MarkState :=
  match TableAt st ObjectIndex with
  | None => st
  | Some Item0 =>
    if negb (Object Item0 =? 0) then
      let Item := ClearFlags ReachableInCluster Item0 in
      let st1 := StoreItem ObjectIndex Item (CountObject st) in
      if IsRootSet Item then
        let st2 := if HasAnyFlags Item ClusterRoot || (0 <? GetOwnerIndex Item)
                   then KeepPush ObjectIndex st1 else st1 in
        LocalAdd ThreadIndex (Object Item) st2
      else if 0 <? GetOwnerIndex Item then
        if HasAnyFlags Item GarbageCollectionKeepFlags
        then LocalAdd ThreadIndex (Object Item) (KeepPush ObjectIndex st1)
        else st1
      else
        let '(bMarkAsUnreachable, bDissolve) := ClassifyRegular Item in
        let st2 := if bDissolve then DissolvePush ObjectIndex st1 else st1 in
        if negb bMarkAsUnreachable then
          let st3 := LocalAdd ThreadIndex (Object Item) st2 in
          if HasAnyFlags Item ClusterRoot then KeepPush ObjectIndex st3 else st3
        else StoreItem ObjectIndex (SetFlags Unreachable Item) st2
    else st
  end.

(** The task of one worker. *)
Definition MarkStripe (st : MarkState) (ThreadIndex : Z) : MarkState :=
  foldl (fun s i => MarkSlot ThreadIndex i s) st
        (Stripes.indices (Z.of_nat (length (Table st))) FirstGCIndex NumThreads ThreadIndex).

(** The [ParallelFor] of [MarkObjectsAsUnreachable], for a schedule that
    runs the stripes one after the other: the stripes write disjoint slots
    and disjoint arrays, and the two shared lists are only pushed to. *)
Definition MarkSweep (schedule : list Z) (T : list FUObjectItem) : MarkState :=
  foldl MarkStripe
        (mkMark T (replicate (Z.to_nat NumThreads) []) [] [] 0)
        schedule.

(** The sweep as the sequence of its visits, each of one slot by one worker. *)
Definition MarkVisit (st : MarkState) (q : Z * Z) : MarkState := MarkSlot q.1 q.2 st.

(** "Collect all objects to serialize from all threads and put them into a
    single array": what the sweep appends to [InitialObjects]. *)
Definition InitialObjects (st : MarkState) : list Z :=
  concat (ObjectsToSerializeArrays st).

End Mark.

(** Three entries that are neither in the root set nor cluster members: a
    plain object, an object that is PendingKill, and a cluster root that is
    PendingKill; the second object carries the object flag 1. *)
Definition marked_table : list FUObjectItem :=
  [mkItem 5000 0 0; mkItem 5001 (2^29) 0; mkItem 5002 (2^29 + 2^24) (-1)].

Definition marked_object_flags (Obj : Z) : Z := if Obj =? 5001 then 1 else 0.

End MarkPhase.

(* ===================================================================== *)
(** ** GatherUnreachableObjects *)
(* ===================================================================== *)

Module Gather.
Import ObjectFlags.

(** [GUnreachableObjects] and [ClusterItemsToDestroy] hold table indices. *)
Record GatherState := mkGather {
  Tables : ObjectTables;
  GUnreachableObjects : list Z;
  ClusterItemsToDestroy : list Z
}.

Section Gather.

Context {F : EInternalObjectFlags}.

Variable GExitPurge : bool.
Variable FirstGCIndex : Z.
Variable NumThreads : Z.

Definition FirstIndex : Z := if GExitPurge then 0 else FirstGCIndex.

(** The loop of one worker over its stripe: the two local arrays. *)
Definition GatherSlot (T : ObjectTables) (acc : list Z * list Z) (ObjectIndex : Z)
  : list Z * list Z :=
  match IndexToObject T ObjectIndex with
  | None => acc
  | Some Item =>
    if IsUnreachable Item then
      (fst acc ++ [ObjectIndex],
       if HasAnyFlags Item ClusterRoot then snd acc ++ [ObjectIndex] else snd acc)
    else acc
  end.

(** The task of one worker: it appends its arrays under the lock. *)
Definition GatherStripe (st : GatherState) (ThreadIndex : Z) : GatherState :=
  let '(ThisThreadUnreachableObjects, ThisThreadClusterItemsToDestroy) :=
    foldl (GatherSlot (Tables st)) ([], [])
          (Stripes.indices (Z.of_nat (length (GUObjectArray (Tables st))))
                           FirstIndex NumThreads ThreadIndex) in
  match ThisThreadUnreachableObjects with
  | [] => st
  | _ => mkGather (Tables st)
                  (GUnreachableObjects st ++ ThisThreadUnreachableObjects)
                  (ClusterItemsToDestroy st ++ ThisThreadClusterItemsToDestroy)
  end.

(** Modelled from the spec: FUObjectClusterContainer::FreeCluster is defined
    outside the sources; the cluster "is freed": it leaves the container. *)
Definition FreeCluster (ClusterIndex : Z) (T : ObjectTables) : ObjectTables :=
  mkTables (GUObjectArray T) (delete ClusterIndex (GUObjectClusters T))
           (bClustersNeedDissolving T).

(** The body of the loop over [Cluster.Objects]. *)
Definition GatherClusterObject (st : GatherState) (ClusterObjectIndex : Z) : GatherState :=
  let T1 := update_item ClusterObjectIndex (SetOwnerIndex 0) (Tables st) in
  match IndexToObject T1 ClusterObjectIndex with
  | Some Item =>
    if negb (HasAnyFlags Item ReachableInCluster) then
      mkGather (update_item ClusterObjectIndex (SetFlags Unreachable) T1)
               (GUnreachableObjects st ++ [ClusterObjectIndex])
               (ClusterItemsToDestroy st)
    else mkGather T1 (GUnreachableObjects st) (ClusterItemsToDestroy st)
  | None => mkGather T1 (GUnreachableObjects st) (ClusterItemsToDestroy st)
  end.

(** The body of the loop over [ClusterItemsToDestroy]. *)
Definition DestroyCluster (st : GatherState) (ClusterRootIndex : Z) : GatherState :=
  let T1 := update_item ClusterRootIndex (ClearFlags ClusterRoot) (Tables st) in
  match IndexToObject T1 ClusterRootIndex with
  | Some Root =>
    let ClusterIndex := GetClusterIndex Root in
    let st2 := foldl GatherClusterObject
                     (mkGather T1 (GUnreachableObjects st) (ClusterItemsToDestroy st))
                     (Objects (cluster_at T1 ClusterIndex)) in
    mkGather (FreeCluster ClusterIndex (Tables st2)) (GUnreachableObjects st2)
             (ClusterItemsToDestroy st2)
  | None => st
  end.

(** [GatherUnreachableObjects(bForceSingleThreaded)], for a schedule of the
    stripes: the workers only read the table, and each appends its arrays
    while it holds [GUnreachableObjectsCritical]. *)
Definition GatherUnreachableObjects (schedule : list Z) (T : ObjectTables) : GatherState :=
  let st1 := foldl GatherStripe (mkGather T [] []) schedule in
  foldl DestroyCluster st1 (ClusterItemsToDestroy st1).

(** An entry with the Unreachable flag; an entry that, moreover, is a
    cluster root; the cluster of a root, and its members. *)
Definition unreachable_at (T : ObjectTables) (Index : Z) : bool :=
  match IndexToObject T Index with
  | Some Item => IsUnreachable Item
  | None => false
  end.

Definition unreachable_root_at (T : ObjectTables) (Index : Z) : bool :=
  match IndexToObject T Index with
  | Some Item => IsUnreachable Item && HasAnyFlags Item ClusterRoot
  | None => false
  end.

Definition cluster_of (T : ObjectTables) (Index : Z) : Z :=
  match IndexToObject T Index with
  | Some Root => GetClusterIndex Root
  | None => 0
  end.

Definition members_of (T : ObjectTables) (Index : Z) : list Z :=
  Objects (cluster_at T (cluster_of T Index)).

(** The clusters of the roots selected by [P] are apart: no root is a
    member of one of them, and two roots have two clusters. *)
Definition clusters_apart (T : ObjectTables) (P : Z -> Prop) : Prop :=
  (forall r r', P r -> P r' -> ~ In r (members_of T r'))
  /\ (forall r r', P r -> P r' -> r <> r' -> cluster_of T r <> cluster_of T r').

(** The unreachable cluster roots among the entries that the stripes visit. *)
Definition destroyed_root (T : ObjectTables) (r : Z) : Prop :=
  FirstIndex <= r < Z.of_nat (length (GUObjectArray T)) /\ unreachable_root_at T r = true.

(** What the loop over the clusters reads of an entry: whether it is
    ReachableInCluster, whether it is Unreachable, and its owner index. *)
Definition ric_at (T : ObjectTables) (Index : Z) : option bool :=
  (fun Item => HasAnyFlags Item ReachableInCluster) <$> IndexToObject T Index.

Definition unr_at (T : ObjectTables) (Index : Z) : option bool :=
  IsUnreachable <$> IndexToObject T Index.

Definition owner_at (T : ObjectTables) (Index : Z) : option Z :=
  GetOwnerIndex <$> IndexToObject T Index.

(** The table as reachability analysis leaves it.  The mark phase sets
    Unreachable only from the first index of the stripes on; the members of
    a cluster carry the index of its root, a positive number, as their owner
    index; and wherever the processor flags a member ReachableInCluster it
    clears Unreachable on the root of the member, so that no member of an
    unreachable root is flagged. *)
Definition after_reachability (T : ObjectTables) : Prop :=
  (forall i, 0 <= i < FirstIndex -> unreachable_at T i = false)
  /\ (forall r m, destroyed_root T r -> In m (members_of T r) ->
                  0 < r /\ owner_at T m = Some r)
  /\ (forall m Item, IndexToObject T m = Some Item ->
                     0 < GetOwnerIndex Item ->
                     HasAnyFlags Item ReachableInCluster = true ->
                     unreachable_at T (GetOwnerIndex Item) = false).

(** What the loop over the clusters keeps of the table [T] and of the list
    [U1] it starts from: the ReachableInCluster flags; of an entry that is
    ReachableInCluster, the Unreachable flag and whether it is listed; and
    the entries that are listed. *)
Definition gather_inv (T : ObjectTables) (U1 : list Z) (st : GatherState) : Prop :=
  (forall j, ric_at (Tables st) j = ric_at T j)
  /\ (forall j, ric_at T j = Some true ->
                unr_at (Tables st) j = unr_at T j
                /\ (In j (GUnreachableObjects st) <-> In j U1))
  /\ (forall j, In j U1 -> In j (GUnreachableObjects st)).

(** The member [m] of a destroyed cluster has been dealt with. *)
Definition member_gathered (T : ObjectTables) (st : GatherState) (m : Z) : Prop :=
  owner_at (Tables st) m = Some 0
  /\ (ric_at T m = Some false ->
      unr_at (Tables st) m = Some true /\ In m (GUnreachableObjects st)).

(** The root [r] and its cluster are as in [T]: its turn has not come. *)
Definition root_intact (T : ObjectTables) (st : GatherState) (r : Z) : Prop :=
  owner_at (Tables st) r = owner_at T r
  /\ GUObjectClusters (Tables st) !! cluster_of T r
     = GUObjectClusters T !! cluster_of T r.

End Gather.

(** A table on which the loops of the gather can be followed, though no
    reachability analysis leaves it in this state: a root that is
    unreachable, at index 1, with its cluster 7 of two members, the entry 2,
    and the entry 3, which is ReachableInCluster; the entry 0 is unreachable
    and lies below the first GC index 1. *)
Definition gathered_tables : ObjectTables :=
  mkTables [mkItem 5000 (2^28) 0; mkItem 5001 (2^28 + 2^24) (-7);
            mkItem 5002 0 1; mkItem 5003 (2^23) 1]
           {[7 := mkCluster [2; 3] [] [] false]} false.

(** A table as reachability analysis leaves it, with the first GC index 1.
    The root at index 1 is unreachable, with its cluster 7 of the members 2
    and 3; the entry 4 is unreachable and in no cluster; the root at index 6
    was reached through its member 7, which is ReachableInCluster: the
    cluster 8 stays.  The entries 0 and 5 are reachable. *)
Definition analysed_tables : ObjectTables :=
  mkTables [mkItem 5000 0 0; mkItem 5001 (2^28 + 2^24) (-7);
            mkItem 5002 0 1; mkItem 5003 0 1; mkItem 5004 (2^28) 0;
            mkItem 5005 0 0; mkItem 5006 (2^24) (-8); mkItem 5007 (2^23) 6]
           {[7 := mkCluster [2; 3] [] [] false; 8 := mkCluster [7] [] [] false]} false.

End Gather.

(* ===================================================================== *)
(** ** FPageAllocator: page validity, the byte count and the cached pages *)
(* ===================================================================== *)

Module PageCache.
Import PageAllocator.

(** [static constexpr uint64 PageSize = 4096;] *)
Definition PageSize : Z := 4096.

(** [FPageAllocator::IsValidPage]: [Page && UPTRINT(Page) % PageSize == 0] *)
Definition IsValidPage (Page : Z) : bool :=
  negb (Page =? 0) && (Page mod PageSize =? 0).

(** [FPageAllocator::CountBytes], in uint64 arithmetic:
    [NumPages = SharedCache.Pages.Num(); for each cache: NumPages += Num;
     return NumPages * PageSize;] *)
Definition CountBytes (A : FPageAllocator) : Z :=
  let NumPages :=
    fold_left (fun NumPages W => (NumPages + Z.of_nat (Num W)) mod 2^64)
              (WorkerCaches A) (Z.of_nat (length (SharedCache A))) in
  (NumPages * PageSize) mod 2^64.

(** The pages a cache holds are the first [Num] of its array; the pages the
    allocator holds are those of the shared pool and of the caches. *)
Definition held (W : FWorkerCache) : list Z := take (Num W) (Pages W).

Definition cached_pages (A : FPageAllocator) : list Z :=
  SharedCache A ++ flat_map held (WorkerCaches A).

(** What the checks of the class assert: a cache never holds more than
    [Capacity] pages, in an array of [Capacity] slots, and every page held
    passes [IsValidPage]; there is one cache per worker. *)
Definition cache_ok (W : FWorkerCache) : Prop :=
  (Num W <= Capacity)%nat /\ length (Pages W) = Capacity
  /\ Forall (fun Page => IsValidPage Page = true) (held W).

Definition allocator_ok (A : FPageAllocator) : Prop :=
  length (WorkerCaches A) = MaxWorkers
  /\ Forall cache_ok (WorkerCaches A)
  /\ Forall (fun Page => IsValidPage Page = true) (SharedCache A).

(** The worker's own cache. *)
Definition cache_of (WorkerIdx : nat) (A : FPageAllocator) : FWorkerCache :=
  default empty_cache (WorkerCaches A !! WorkerIdx).

End PageCache.

(* ===================================================================== *)
(** ** FWorkerIndexAllocator and the pool of worker contexts *)
(* ===================================================================== *)

Module WorkerContexts.

(** [static constexpr int32 MaxWorkers = 16;] *)
Definition MaxWorkers : Z := 16.

Definition INDEX_NONE : Z := -1.

(** uint64 arithmetic. *)
Definition uint64 (x : Z) : Z := x mod 2^64.

(** [FPlatformMath::CountTrailingZeros64]: the position of the lowest bit
    that is set, 64 when there is none. *)
Fixpoint CountTrailingZerosFrom (n : nat) (x : Z) (i : Z) : Z :=
  match n with
  | O => i
  | S n' => if Z.testbit x i then i else CountTrailingZerosFrom n' x (i + 1)
  end.

Definition CountTrailingZeros64 (x : Z) : Z := CountTrailingZerosFrom 64 x 0.

(** [FWorkerIndexAllocator::AllocateChecked] on the word [Used].  A round of
    the [while (true)] fails when another thread has taken the bit between
    the load and the [fetch_or]; [fuel] bounds the rounds.  [None]: the
    [checkf(FreeIndex < MaxWorkers)] fails, or the rounds are used up. *)
Fixpoint AllocateChecked (fuel : nat) (Used : Z) : option (Z * Z) :=
  match fuel with
  | O => None
  | S fuel' =>
    let UsedNow := Used in
    let FreeIndex := CountTrailingZeros64 (uint64 (Z.lnot UsedNow)) in
    if FreeIndex <? MaxWorkers then
      let Mask := uint64 (Z.shiftl 1 FreeIndex) in
      let Old := Used in
      let Used' := Z.lor Used Mask in
      if Z.land Old Mask =? 0 then Some (Used', FreeIndex)
      else AllocateChecked fuel' Used'
    else None
  end.

(** [FWorkerIndexAllocator::FreeChecked]; [None]: one of its checks fails. *)
Definition FreeChecked (Index : Z) (Used : Z) : option Z :=
  if (0 <=? Index) && (Index <? MaxWorkers) then
    let Mask := uint64 (Z.shiftl 1 Index) in
    let Old := Used in
    let Used' := Z.land Used (uint64 (Z.lnot Mask)) in
    if negb (Z.land Old Mask =? 0) then Some Used' else None
  else None.

(** Of a worker context the pool reads and writes the worker index (kept in
    its [ObjectsToSerialize]) and the statistics; [Address] names the
    context. *)
Record FWorkerContext := mkContext {
  Address : Z;
  WorkerIndex : Z;
  NumObjects : Z
}.

(** [FContextPool], with the allocator of worker indices [GWorkerIndices]. *)
Record FContextPool := mkPool {
  Reusable : list FWorkerContext;
  NumAllocated : Z;
  GWorkerIndices : Z
}.

(** [FWorkerContext::AllocateWorkerIndex] *)
Definition AllocateWorkerIndex (fuel : nat) (Context : FWorkerContext) (Used : Z)
  : option (FWorkerContext * Z) :=
  if WorkerIndex Context =? INDEX_NONE then
    '(Used', Index) ← AllocateChecked fuel Used;
    Some (mkContext (Address Context) Index (NumObjects Context), Used')
  else None.

(** [FWorkerContext::FreeWorkerIndex] *)
Definition FreeWorkerIndex (Context : FWorkerContext) (Used : Z)
  : option (FWorkerContext * Z) :=
  if negb (WorkerIndex Context =? INDEX_NONE) then
    Used' ← FreeChecked (WorkerIndex Context) Used;
    Some (mkContext (Address Context) INDEX_NONE (NumObjects Context), Used')
  else Some (Context, Used).

(** [FContextPoolScope::AllocateFromPool]; [NewAddress] is where
    [new FWorkerContext()] would put a context. *)
Definition AllocateFromPool (fuel : nat) (NewAddress : Z) (Pool : FContextPool)
  : option (FWorkerContext * FContextPool) :=
  let NumAllocated' := wrap32 (NumAllocated Pool + 1) in
  match last (Reusable Pool) with
  | None =>
      '(Out, Used') ← AllocateWorkerIndex fuel (mkContext NewAddress INDEX_NONE 0)
                        (GWorkerIndices Pool);
      Some (Out, mkPool (Reusable Pool) NumAllocated' Used')
  | Some Context =>
      '(Out, Used') ← AllocateWorkerIndex fuel Context (GWorkerIndices Pool);
      Some (Out, mkPool (removelast (Reusable Pool)) NumAllocated' Used')
  end.

(** [FContextPoolScope::ReturnToPool]; [None]: [check(Pool.NumAllocated >= 1)]
    or a check of [FreeChecked] fails. *)
Definition ReturnToPool (Context : FWorkerContext) (Pool : FContextPool)
  : option FContextPool :=
  if 1 <=? NumAllocated Pool then
    '(Context', Used') ← FreeWorkerIndex Context (GWorkerIndices Pool);
    Some (mkPool (Reusable Pool ++ [mkContext (Address Context') (WorkerIndex Context') 0])
                 (wrap32 (NumAllocated Pool - 1)) Used')
  else None.

(** The contexts handed out and not yet returned, [InUse], agree with the
    pool: it counts them, their worker indices are the bits set in
    [GWorkerIndices], no two have the same index, and every index is below
    [MaxWorkers]; a context that waits in the pool has no index. *)
Definition pool_ok (InUse : list FWorkerContext) (Pool : FContextPool) : Prop :=
  NumAllocated Pool = Z.of_nat (length InUse)
  /\ 0 <= GWorkerIndices Pool < 2^64
  /\ NoDup (map WorkerIndex InUse)
  /\ (forall i, Z.testbit (GWorkerIndices Pool) i = true <-> In i (map WorkerIndex InUse))
  /\ Forall (fun Context => 0 <= WorkerIndex Context < MaxWorkers) InUse
  /\ Forall (fun Context => WorkerIndex Context = INDEX_NONE) (Reusable Pool).

(** The pool before the first collection. *)
Definition NewPool : FContextPool := mkPool [] 0 0.

(** Two contexts in use, with the worker indices 0 and 1 and some
    statistics, and the pool that goes with them, in which a third context
    waits. *)
Definition two_in_use : list FWorkerContext :=
  [mkContext 4096 0 3; mkContext 8192 1 7].

Definition two_pool : FContextPool := mkPool [mkContext 12288 INDEX_NONE 0] 2 3.

(** [MaxWorkers] contexts in use, with the indices 0 to 15, and their pool. *)
Definition all_in_use : list FWorkerContext :=
  map (fun i => mkContext (4096 * (i + 1)) i 0) (map Z.of_nat (seq 0 16)).

Definition full_pool : FContextPool := mkPool [] 16 65535.

End WorkerContexts.

(* ===================================================================== *)
(** ** Work stealing: owner and thieves on one queue, FWorkstealingManager *)
(* ===================================================================== *)

Module WorkStealingShared.
Import WorkStealing.

(** The slots of the bounded queue whose thieves' cursor is [t] and which
    holds the blocks [d], the oldest first: block [i] sits in slot
    [(t + i) % Capacity], the other slots are free. *)
Definition slots_of (t : Z) (d : list Z) : list Z :=
  map (fun k => default FreeSlot (d !! Z.to_nat ((Z.of_nat k - t) mod Capacity)))
      (seq 0 (Z.to_nat Capacity)).

(** The bounded queue in that state: [Tail] is [t], [Head] is the index of
    the newest block, both as uint32. *)
Definition ring (t : Z) (d : list Z) : FBoundedWorkstealingQueue :=
  mkBounded (uint32 (t + Z.of_nat (length d) - 1)) (uint32 t) (slots_of t d).

(** The blocks a bounded queue holds, read from [Tail] on: in the order in
    which thieves would take them. *)
Definition stealable (Q : FBoundedWorkstealingQueue) : list Z :=
  List.filter (fun Slot => negb (Slot =? FreeSlot))
    (map (fun i => LoadSlot Q ((Tail Q + Z.of_nat i) mod Capacity))
         (seq 0 (Z.to_nat Capacity))).

(** All blocks of a queue: the stealable ones and the owner's overflow. *)
Definition all_blocks (Q : FWorkstealingQueue) : list Z :=
  stealable (SharedBlocks Q) ++ LocalBlocks Q.

(** What the owner and the thieves do to one queue, one call after the
    other, and the blocks that the pops and steals return. *)
Inductive QueueOp :=
| QPush (Block : Z)
| QPop
| QSteal.

Fixpoint play (fuel : nat) (ops : list QueueOp) (Q : FWorkstealingQueue)
  : option (FWorkstealingQueue * list Z) :=
  match ops with
  | [] => Some (Q, [])
  | QPush Block :: ops' => play fuel ops' (Push Block Q)
  | QPop :: ops' =>
      let '(Q1, Out) := Pop Q in
      '(Q2, Outs) ← play fuel ops' Q1;
      Some (Q2, Out :: Outs)
  | QSteal :: ops' =>
      '(Q1, Out) ← Steal fuel Q;
      '(Q2, Outs) ← play fuel ops' Q1;
      Some (Q2, Out :: Outs)
  end.

Definition pushed (ops : list QueueOp) : list Z :=
  omap (fun op => match op with QPush Block => Some Block | _ => None end) ops.

Definition valid_queue_op (op : QueueOp) : Prop :=
  match op with
  | QPush Block => is_block Block
  | _ => True
  end.

(** The blocks among the results: a pop or steal that finds nothing returns
    nullptr. *)
Definition returned (Outs : list Z) : list Z :=
  List.filter (fun Out => negb (Out =? 0)) Outs.

(** [FWorkstealingManager]: one queue per worker. *)
Definition MaxWorkers : nat := 16.

(** The two loops of [FWorkstealingManager::TrySteal] over the indices
    [Idxs]: the first queue that yields a block ends the search. *)
Fixpoint StealFrom (fuel : nat) (Idxs : list nat) (Queues : list FWorkstealingQueue)
  : option (list FWorkstealingQueue * Z) :=
  match Idxs with
  | [] => Some (Queues, 0)
  | Idx :: Idxs' =>
      Q ← Queues !! Idx;
      '(Q', Stolen) ← Steal fuel Q;
      let Queues' := <[Idx := Q']> Queues in
      if negb (Stolen =? 0) then Some (Queues', Stolen)
      else StealFrom fuel Idxs' Queues'
  end.

(** The values of [Idx] in the two loops of [TrySteal]:
    [for (Idx = WorklessIdx + 1; Idx < MaxWorkers; ++Idx)], then
    [for (Idx = 0; Idx < WorklessIdx; ++Idx)]. *)
Definition VictimOrder (WorklessIdx : nat) : list nat :=
  seq (S WorklessIdx) (MaxWorkers - S WorklessIdx) ++ seq 0 WorklessIdx.

(** [FWorkstealingManager::TrySteal(WorklessIdx)] *)
Definition TrySteal (fuel : nat) (WorklessIdx : nat) (Queues : list FWorkstealingQueue)
  : option (list FWorkstealingQueue * Z) :=
  StealFrom fuel (VictimOrder WorklessIdx) Queues.

(** [FWorkstealingManager::Steal(Workless)], the queue named by its index;
    [None]: the queue is not one of the manager's. *)
Definition ManagerSteal (fuel : nat) (WorklessIdx : Z) (Queues : list FWorkstealingQueue)
  : option (list FWorkstealingQueue * Z) :=
  if (0 <=? WorklessIdx) && (WorklessIdx <? Z.of_nat MaxWorkers)
  then TrySteal fuel (Z.to_nat WorklessIdx) Queues
  else None.

(** A queue as the calls above leave it: a bounded queue of at most
    [Capacity] blocks and an overflow, all of them blocks. *)
Definition queue_ok (Q : FWorkstealingQueue) : Prop :=
  exists t d, SharedBlocks Q = ring t d
              /\ (length d <= 16)%nat /\ Forall is_block d
              /\ Forall is_block (LocalBlocks Q).

(** Two blocks, the older first. *)
Definition two_blocks : list Z := [4096; 8192].

(** What can be stolen from the queue of worker [Idx]. *)
Definition stealable_at (Queues : list FWorkstealingQueue) (Idx : nat) : list Z :=
  stealable (SharedBlocks (default NewQueue (Queues !! Idx))).

(** Worker 3 has pushed the blocks 4096 and 8192; the other queues are
    empty. *)
Definition three_has_work : list FWorkstealingQueue :=
  <[3%nat := Push 8192 (Push 4096 NewQueue)]> (replicate MaxWorkers NewQueue).

End WorkStealingShared.

(* ===================================================================== *)
(** ** What the reachability processor may change *)
(* ===================================================================== *)

Module Marking.
Import ObjectFlags Reachability.

Section Marked.

Context {F : EInternalObjectFlags}.

(** The two flags the processor writes. *)
Definition MarkBits : Z := Z.lor Unreachable ReachableInCluster.

(** An entry before and after: the object and the owner index are the same,
    and so is every flag but the two; Unreachable is not set where it was
    not, ReachableInCluster not cleared where it was set. *)
Definition entry_marked (Item Item' : FUObjectItem) : Prop :=
  Object Item' = Object Item
  /\ ClusterRootIndex Item' = ClusterRootIndex Item
  /\ Z.land (Flags Item') (Z.lnot MarkBits) = Z.land (Flags Item) (Z.lnot MarkBits)
  /\ (IsUnreachable Item' = true -> IsUnreachable Item = true)
  /\ (HasAnyFlags Item ReachableInCluster = true ->
      HasAnyFlags Item' ReachableInCluster = true).

(** An index of a cluster's lists is kept or replaced by -1. *)
Definition index_dropped (e e' : Z) : Prop := e' = e \/ e' = -1.

(** A cluster before and after: the members are the same, the indices of
    the two reference lists are kept or replaced by -1, and the cluster does
    not stop needing to be dissolved. *)
Definition cluster_marked (Cl Cl' : FUObjectCluster) : Prop :=
  Objects Cl' = Objects Cl
  /\ Forall2 index_dropped (ReferencedClusters Cl) (ReferencedClusters Cl')
  /\ Forall2 index_dropped (MutableObjects Cl) (MutableObjects Cl')
  /\ (bNeedsDissolving Cl = true -> bNeedsDissolving Cl' = true).

Definition tables_marked (T T' : ObjectTables) : Prop :=
  Forall2 entry_marked (GUObjectArray T) (GUObjectArray T')
  /\ (forall k, option_Forall2 cluster_marked (GUObjectClusters T !! k)
                                              (GUObjectClusters T' !! k))
  /\ (bClustersNeedDissolving T = true -> bClustersNeedDissolving T' = true).

(** The state before and after: the tables as above, the queue of objects
    to serialize extended at its end, the statistic not reset. *)
Definition marked (st st' : ReachState) : Prop :=
  tables_marked (Tables st) (Tables st')
  /\ ObjectsToSerialize st `prefix_of` ObjectsToSerialize st'
  /\ (bFoundGarbageRef st = true -> bFoundGarbageRef st' = true).

(** A state before and after a step that leaves the reference slots alone. *)
Definition quietly_marked (st st' : ReachState) : Prop :=
  marked st st' /\ Memory st' = Memory st.

(** "Objects that are part of a GC cluster should never have the unreachable
    flag set!": the [checkSlow(GetOwnerIndex() <= 0)] of the processor. *)
Definition members_not_unreachable (T : ObjectTables) : Prop :=
  Forall (fun Item => IsUnreachable Item = true -> GetOwnerIndex Item <= 0)
         (GUObjectArray T).

End Marked.

(** A heap of a plain object (index 0), a cluster root (index 1, cluster 1)
    and a member of its cluster (index 2); the cluster references the plain
    object.  The plain object and the root were marked unreachable; the slot
    at address 100 holds a reference to the member. *)
Definition clustered_heap : ReachState :=
  mkReach (mkTables [mkItem 5000 (2^28) 0; mkItem 5001 (2^24 + 2^28) (-1);
                     mkItem 5002 0 1]
                    {[1 := mkCluster [2] [] [0] false]} false)
          {[100 := 5002]} [] false.

(** The same heap once the reference has been processed. *)
Definition clustered_heap_marked : ReachState :=
  mkReach (mkTables [mkItem 5000 0 0; mkItem 5001 (2^24) (-1); mkItem 5002 (2^23) 1]
                    {[1 := mkCluster [2] [] [0] false]} false)
          {[100 := 5002]} [5000] false.

End Marking.

(* ===================================================================== *)
(** ** The mark sweep, entry by entry *)
(* ===================================================================== *)

Module SweepEffect.
Import ObjectFlags MarkPhase.

(** The indices [lo .. lo + n - 1]. *)
Definition rangeZ (lo : Z) (n : nat) : list Z :=
  map (fun k => lo + Z.of_nat k) (seq 0 n).

Definition sumZ (l : list Z) : Z := foldr Z.add 0 l.

(** The entry of a table at an [int32] index. *)
Definition EntryAt (T : list FUObjectItem) (Index : Z) : option FUObjectItem :=
  if Index <? 0 then None else T !! Z.to_nat Index.

Section Effect.

Context {F : EInternalObjectFlags}.
Variable GetObjectFlags : Z -> Z.
Variable KeepFlags : Z.

(** The body of the loop of [MarkObjectsAsUnreachable] read from the entry
    it visits.  The entry it leaves in the table: *)
Definition SweptItem (Item0 : FUObjectItem) : FUObjectItem :=
  if negb (Object Item0 =? 0) then
    let Item := ClearFlags ReachableInCluster Item0 in
    if IsRootSet Item then Item
    else if 0 <? GetOwnerIndex Item then Item
    else if fst (ClassifyRegular GetObjectFlags KeepFlags Item)
         then SetFlags Unreachable Item else Item
  else Item0.

(** what it adds to [LocalObjectsToSerialize]: *)
Definition SweptObjects (Item0 : FUObjectItem) : list Z :=
  if negb (Object Item0 =? 0) then
    let Item := ClearFlags ReachableInCluster Item0 in
    if IsRootSet Item then [Object Item]
    else if 0 <? GetOwnerIndex Item then
      if HasAnyFlags Item GarbageCollectionKeepFlags then [Object Item] else []
    else if fst (ClassifyRegular GetObjectFlags KeepFlags Item) then [] else [Object Item]
  else [].

(** whether it pushes the entry to [KeepClusterRefsList]: *)
Definition SweptKeep (Item0 : FUObjectItem) : bool :=
  negb (Object Item0 =? 0)
  && (let Item := ClearFlags ReachableInCluster Item0 in
      if IsRootSet Item then HasAnyFlags Item ClusterRoot || (0 <? GetOwnerIndex Item)
      else if 0 <? GetOwnerIndex Item then HasAnyFlags Item GarbageCollectionKeepFlags
      else negb (fst (ClassifyRegular GetObjectFlags KeepFlags Item))
           && HasAnyFlags Item ClusterRoot).

(** whether it pushes the entry to [ClustersToDissolveList]: *)
Definition SweptDissolve (Item0 : FUObjectItem) : bool :=
  negb (Object Item0 =? 0)
  && (let Item := ClearFlags ReachableInCluster Item0 in
      negb (IsRootSet Item) && negb (0 <? GetOwnerIndex Item)
      && snd (ClassifyRegular GetObjectFlags KeepFlags Item)).

(** and what it adds to [ObjectCountDuringMarkPhase]. *)
Definition SweptCount (Item0 : FUObjectItem) : Z :=
  if negb (Object Item0 =? 0) then 1 else 0.

(** The same for the entry at the index [i] of the table [T]. *)
Definition ObjectsOf (T : list FUObjectItem) (i : Z) : list Z :=
  from_option SweptObjects [] (EntryAt T i).

Definition KeepOf (T : list FUObjectItem) (i : Z) : list Z :=
  if from_option SweptKeep false (EntryAt T i) then [i] else [].

Definition DissolveOf (T : list FUObjectItem) (i : Z) : list Z :=
  if from_option SweptDissolve false (EntryAt T i) then [i] else [].

Definition CountOf (T : list FUObjectItem) (i : Z) : Z :=
  from_option SweptCount 0 (EntryAt T i).

End Effect.

(** A table of an empty slot, a root-set object that is the root of the
    cluster 1, a member of that cluster that carries a keep flag (bit 25)
    and is ReachableInCluster, a second member that is only
    ReachableInCluster, and a plain object. *)
Definition rooted_table : list FUObjectItem :=
  [mkItem 0 0 0; mkItem 6001 (2^30 + 2^24) (-1); mkItem 6002 (2^25 + 2^23) 1;
   mkItem 6003 (2^23) 1; mkItem 6004 0 0].

End SweepEffect.

(* ===================================================================== *)
(** ** Cluster members and their roots *)
(* ===================================================================== *)

Module ClusterRoots.
Import ObjectFlags Reachability Marking.

Section Roots.

Context {F : EInternalObjectFlags}.

(** The entry at [Index] exists and is not marked unreachable. *)
Definition is_live (T : ObjectTables) (Index : Z) : Prop :=
  exists Root, IndexToObject T Index = Some Root /\ IsUnreachable Root = false.

(** Every cluster member that is flagged ReachableInCluster has a root that
    is not marked unreachable. *)
Definition flagged_members_live (T : ObjectTables) : Prop :=
  Forall (fun Item => 0 < GetOwnerIndex Item ->
                      HasAnyFlags Item ReachableInCluster = true ->
                      is_live T (GetOwnerIndex Item))
         (GUObjectArray T).

(** A step that only marks, and leaves a live root to every cluster member
    it flags. *)
Definition flags_live (st st' : ReachState) : Prop :=
  quietly_marked st st'
  /\ (forall j Item Item',
        IndexToObject (Tables st) j = Some Item ->
        IndexToObject (Tables st') j = Some Item' ->
        0 < GetOwnerIndex Item' ->
        HasAnyFlags Item' ReachableInCluster = true ->
        HasAnyFlags Item ReachableInCluster = true
        \/ is_live (Tables st') (GetOwnerIndex Item')).

(** The body of the loop over [KeepClusterRefs] at the end of
    [MarkObjectsAsUnreachable]; [InitialObjects] is the queue of the state.
    [None]: an entry that does not exist, or the recursion bound. *)
Definition KeepClusterRef (fuel : nat) (st : ReachState) (Index : Z) : option ReachState :=
  Item ← IndexToObject (Tables st) Index;
  if 0 <? GetOwnerIndex Item then
    let bNeedsDoing := negb (HasAnyFlags Item ReachableInCluster) in
    if bNeedsDoing then
      let st1 := with_Tables (update_item Index (SetFlags ReachableInCluster) (Tables st)) st in
      let OwnerIndex := GetOwnerIndex Item in
      Root ← IndexToObject (Tables st1) OwnerIndex;
      if IsUnreachable Root then
        MarkReferencedClustersAsReachable fuel (GetClusterIndex Root)
          (with_Tables (update_item OwnerIndex (ClearFlags Unreachable) (Tables st1)) st1)
      else Some st1
    else Some st
  else MarkReferencedClustersAsReachable fuel (GetClusterIndex Item) st.

(** [for (FUObjectItem* ObjectItem : KeepClusterRefs)] *)
Definition KeepClusterRefsLoop (fuel : nat) (KeepClusterRefs : list Z) (st : ReachState)
  : option ReachState :=
  foldl (fun acc Index => acc ≫= fun s => KeepClusterRef fuel s Index)
        (Some st) KeepClusterRefs.

End Roots.

End ClusterRoots.

(* ===================================================================== *)
(** ** What GatherUnreachableObjects lists and what it writes *)
(* ===================================================================== *)

Module GatherSound.
Import ObjectFlags Gather.

Section Sound.

Context {F : EInternalObjectFlags}.

(** An entry before and after the gathering: the object is the same and so
    is every flag but Unreachable and ClusterRoot; Unreachable is not
    cleared, ClusterRoot is not set, and the owner index is kept or reset. *)
Definition entry_gathered (Item Item' : FUObjectItem) : Prop :=
  Object Item' = Object Item
  /\ Z.land (Flags Item') (Z.lnot (Z.lor Unreachable ClusterRoot))
     = Z.land (Flags Item) (Z.lnot (Z.lor Unreachable ClusterRoot))
  /\ (IsUnreachable Item = true -> IsUnreachable Item' = true)
  /\ (HasAnyFlags Item' ClusterRoot = true -> HasAnyFlags Item ClusterRoot = true)
  /\ (GetOwnerIndex Item' = GetOwnerIndex Item \/ GetOwnerIndex Item' = 0).

(** Every entry listed in [GUnreachableObjects] is flagged Unreachable. *)
Definition listed_unreachable (st : GatherState) : Prop :=
  Forall (fun Index => unreachable_at (Tables st) Index = true) (GUnreachableObjects st).

(** A step of the gathering. *)
Definition gathered (st st' : GatherState) : Prop :=
  Forall2 entry_gathered (GUObjectArray (Tables st)) (GUObjectArray (Tables st'))
  /\ (listed_unreachable st -> listed_unreachable st').

End Sound.

End GatherSound.

(* ===================================================================== *)
(** ** ProcessAsync: the worker contexts and their share of the initial work *)
(* ===================================================================== *)

Module AsyncSetup.
Import WorkerContexts.

(** [FMath::Clamp] (UnrealMathUtility.h is not among the sources):
    [Max(Min(X, MaxValue), MinValue)]. *)
Definition Clamp (X MinValue MaxValue : Z) : Z := Z.max (Z.min X MaxValue) MinValue.

(** [GetNumCollectReferenceWorkers], from the number of task-graph worker
    threads. *)
Definition GetNumCollectReferenceWorkers (NumWorkerThreads : Z) : Z :=
  Clamp NumWorkerThreads 1 MaxWorkers.

(** [TConstArrayView::Mid(Index, Count)] (ArrayView.h is not among the
    sources): up to [Count] elements from the position [Index], the range
    clamped to the view. *)
Definition Mid {A} (Index Count : Z) (View : list A) : list A :=
  take (Z.to_nat Count) (drop (Z.to_nat Index) View).

(** [(Num + NumWorkers - 1) / NumWorkers], in [int32]. *)
Definition PerWorker (Num NumWorkers : Z) : Z :=
  Z.quot (wrap32 (wrap32 (Num + NumWorkers) - 1)) NumWorkers.

(** A worker context with the views [ProcessAsync] gives it. *)
Record FWorker := mkWorker {
  Context : FWorkerContext;
  InitialObjects : list Z;
  InitialNativeReferences : list Z
}.

(** [for (FWorkerContext*& Context : Contexts.RightChop(1))
       Context = ContextPool.AllocateFromPool();]
    [NewAddress k] is where a context that has to be created is put. *)
Fixpoint AllocateContexts (fuel : nat) (NewAddress : nat -> Z) (n : nat)
    (Pool : FContextPool) : option (list FWorkerContext * FContextPool) :=
  match n with
  | O => Some ([], Pool)
  | S n' =>
    '(Out, Pool1) ← AllocateFromPool fuel (NewAddress n') Pool;
    '(Rest, Pool2) ← AllocateContexts fuel NewAddress n' Pool1;
    Some (Out :: Rest, Pool2)
  end.

(** The body of the loop that distributes the initial workload; [None]:
    [check(Idx >= 0 && Idx < NumWorkers)] fails. *)
Definition Distribute (NumWorkers ObjPerWorker RefPerWorker : Z)
    (Objects References : list Z) (C : FWorkerContext) : option FWorker :=
  let Idx := WorkerIndex C in
  if (0 <=? Idx) && (Idx <? NumWorkers) then
    Some (mkWorker C
            (Mid (wrap32 (Idx * ObjPerWorker)) ObjPerWorker Objects)
            (Mid (wrap32 (Idx * RefPerWorker)) RefPerWorker References))
  else None.

(** What the entry checks of [ProcessAsync] read of [InContext] besides
    [Stats.NumObjects], which the pool's view of a context has:
    [ObjectsToSerialize.IsUnused()] and the other two statistics of [Stats]
    (FWorkBlockifier and FProcessorStats are declared in headers that are
    not among the sources). *)
Record FContextUse := mkContextUse {
  ObjectsToSerializeIsUnused : bool;
  NumReferences : Z;
  bFoundGarbageRef : bool
}.

(** [ProcessAsync] up to the point where the workers are kicked: the two
    checks on [InContext], the contexts allocated and given their views.
    [None]: a check fails. *)
Definition ProcessAsyncSetup (fuel : nat) (NumTaskgraphWorkers : Z) (NewAddress : nat -> Z)
    (InContext : FWorkerContext) (Use : FContextUse) (Objects References : list Z)
    (Pool : FContextPool) : option (list FWorker * FContextPool) :=
  if ObjectsToSerializeIsUnused Use then
    if (NumObjects InContext =? 0) && (NumReferences Use =? 0)
       && negb (bFoundGarbageRef Use)
    then
      let NumWorkers := Clamp NumTaskgraphWorkers 1 MaxWorkers in
      let ObjPerWorker := PerWorker (Z.of_nat (length Objects)) NumWorkers in
      let RefPerWorker := PerWorker (Z.of_nat (length References)) NumWorkers in
      if NumAllocated Pool =? 1 then
        '(Others, Pool') ← AllocateContexts fuel NewAddress (Z.to_nat (NumWorkers - 1)) Pool;
        Workers ← mapM (Distribute NumWorkers ObjPerWorker RefPerWorker Objects References)
                       (InContext :: Others);
        Some (Workers, Pool')
      else None
    else None
  else None.

(** A context passes the entry checks of [ProcessAsync]: nothing was added
    to its [ObjectsToSerialize] and its statistics are cleared. *)
Definition passes_entry_checks (InContext : FWorkerContext) (Use : FContextUse) : Prop :=
  ObjectsToSerializeIsUnused Use = true
  /\ NumObjects InContext = 0
  /\ NumReferences Use = 0
  /\ bFoundGarbageRef Use = false.

(** [for (FWorkerContext* Context : Contexts.RightChop(1))
       { InContext.Stats.AddStats(Context->Stats); ContextPool.ReturnToPool(Context); }] *)
Definition ProcessAsyncTeardown (Workers : list FWorker) (Pool : FContextPool)
  : option FContextPool :=
  foldl (fun acc W => acc ≫= ReturnToPool (Context W)) (Some Pool) (tail Workers).

(** A pool in which three contexts wait, and the one context in use. *)
Definition waiting_pool : FContextPool :=
  mkPool [mkContext 700 INDEX_NONE 0; mkContext 800 INDEX_NONE 0;
          mkContext 900 INDEX_NONE 0] 1 1.

Definition first_context : FWorkerContext := mkContext 600 0 0.

Definition first_context_use : FContextUse := mkContextUse true 0 false.

End AsyncSetup.

(* ===================================================================== *)
(** ** TReferenceBatcher: the unvalidated and the validated queue *)
(* ===================================================================== *)

Module ReferenceBatcher.
Import WorkStealing.

(** [FBatcherBase]: the sizes of the queues. *)
Definition UnvalidatedBatchSize : Z := 32.
Definition ValidatedBatchSize : Z := 1024.
Definition ValidatedPrefetchAhead : Z := 64.

(** [FValidatedBitmask]: [uint64 Words[NumWords]]. *)
Definition NumWords : Z := 1 + Z.quot (UnvalidatedBatchSize - 1) 64.

Definition FValidatedBitmask : Type := list Z.

Definition EmptyBitmask : FValidatedBitmask := replicate (Z.to_nat NumWords) 0.

(** [Set(Idx, Value)]: [Words[Idx/64] |= (uint64(Value) << (Idx%64))] *)
Definition BitmaskSet (Idx : Z) (Value : bool) (M : FValidatedBitmask) : FValidatedBitmask :=
  alter (fun Word =>
           Z.lor Word (WorkerContexts.uint64 (Z.shiftl (if Value then 1 else 0) (Idx mod 64))))
        (Z.to_nat (Idx / 64)) M.

(** [Get(Idx)]: [(uint64(1) << (Idx%64)) & Words[Idx/64]] *)
Definition BitmaskGet (Idx : Z) (M : FValidatedBitmask) : Z :=
  Z.land (WorkerContexts.uint64 (Z.shiftl 1 (Idx mod 64))) (nth (Z.to_nat (Idx / 64)) M 0).

(** [FPlatformMath::CountBits] (outside the sources): the number of bits
    set in a 64-bit word. *)
Definition CountBits64 (Word : Z) : Z :=
  Z.of_nat (length (List.filter (Z.testbit Word) (map Z.of_nat (seq 0 64)))).

(** [CountBits()] *)
Definition BitmaskCountBits (M : FValidatedBitmask) : Z :=
  foldl (fun Out Word => uint32 (Out + CountBits64 Word)) 0 M.

(** [And(A, B)] *)
Definition BitmaskAnd (A B : FValidatedBitmask) : FValidatedBitmask :=
  map (fun WordIdx => Z.land (nth WordIdx A 0) (nth WordIdx B 0)) (seq 0 (Z.to_nat NumWords)).

(** The entries of the unvalidated queue, from the index [InOutIdx] on,
    whose bit is set in [Validations]. *)
Fixpoint ValidEntries (Validations : FValidatedBitmask) (InOutIdx : Z) (Entries : list Z)
  : list Z :=
  match Entries with
  | [] => []
  | Reference :: Rest =>
    if negb (BitmaskGet InOutIdx Validations =? 0)
    then Reference :: ValidEntries Validations (InOutIdx + 1) Rest
    else ValidEntries Validations (InOutIdx + 1) Rest
  end.

Section Batcher.

(** The template arguments: a reference of [UnvalidatedReferenceType] is
    an address (of the object for [FImmutableReference], of the slot for
    [FMutableReference]); [GetObject] and [ToResolvedReference] read it in
    the memory of the [World]; [Resolved] is [ValidatedReferenceType], and
    [ResolvedObject] its [Object].  [MakeMetadata W Object] is the
    [FReferenceMetadata] that [DrainValidated] builds for [Object] from
    [GUObjectArray], and [HandleBatchedReference] is the processor's. *)
Context {World Resolved Metadata : Type}.
Variable GetObject : World -> Z -> Z.
Variable ToResolvedReference : World -> Z -> Resolved.
Variable ResolvedObject : Resolved -> Z.
Variable MakeMetadata : World -> Z -> Metadata.
Variable HandleBatchedReference : Resolved -> Metadata -> World -> World.
Variable PermanentContains : Z -> bool.
Variable IsObjectHandleResolved : Z -> bool.

(** An entry of a queue after [FMemory::Memzero]. *)
Variable Zeroed : Resolved.

(** The two queues of references ([Num] and [Entries] of each), and the
    arguments of the calls of [Context.Stats.AddReferences]. *)
Record FBatcher := mkBatcher {
  UnvalidatedNum : Z;
  UnvalidatedEntries : list Z;
  ValidatedNum : Z;
  ValidatedEntries : list Resolved;
  ReferencesAdded : list Z
}.

Definition NewBatcher : FBatcher :=
  mkBatcher 0 (replicate (Z.to_nat UnvalidatedBatchSize) 0)
            0 (replicate (Z.to_nat (ValidatedBatchSize + ValidatedPrefetchAhead)) Zeroed) [].

(** The loop of [QueueValidReferences]: every round reads the entry at
    [InOutIdx] and writes it at [QueueIdx], which advances when the bit of
    the entry is set.  [None]: an index outside its array. *)
Fixpoint QueueValidLoop (fuel : nat) (NewQueueNum : Z) (Validations : FValidatedBitmask)
    (W : World) (Unvalidated : list Z) (QueueIdx InOutIdx : Z) (Entries : list Resolved)
  : option (list Resolved * Z) :=
  match fuel with
  | O => None
  | S fuel' =>
    if QueueIdx <? NewQueueNum then
      Reference ← Unvalidated !! Z.to_nat InOutIdx;
      let bIsValid := negb (BitmaskGet InOutIdx Validations =? 0) in
      if QueueIdx <? Z.of_nat (length Entries) then
        QueueValidLoop fuel' NewQueueNum Validations W Unvalidated
          (uint32 (QueueIdx + (if bIsValid then 1 else 0))) (uint32 (InOutIdx + 1))
          (<[Z.to_nat QueueIdx := ToResolvedReference W Reference]> Entries)
      else None
    else Some (Entries, InOutIdx)
  end.

(** [QueueValidReferences(NumToAppend, Validations, InOutIdx)]; a round of
    its loop reads a new entry of the unvalidated queue. *)
Definition QueueValidReferences (NumToAppend : Z) (Validations : FValidatedBitmask)
    (InOutIdx : Z) (B : FBatcher) (W : World) : option (FBatcher * Z) :=
  '(Entries, Idx) ← QueueValidLoop (S (length (UnvalidatedEntries B)))
                      (uint32 (ValidatedNum B + NumToAppend)) Validations W
                      (UnvalidatedEntries B)
                      (ValidatedNum B) InOutIdx (ValidatedEntries B);
  Some (mkBatcher (UnvalidatedNum B) (UnvalidatedEntries B)
                  (uint32 (ValidatedNum B + NumToAppend)) Entries (ReferencesAdded B), Idx).

(** [DrainValidated(Num)]: the metadata of the whole batch is read first,
    then the references are handled one after the other. *)
Definition DrainValidated (Num : Z) (B : FBatcher) (W : World) : option (FBatcher * World) :=
  if Num <=? ValidatedBatchSize then
    let Batch := take (Z.to_nat Num) (ValidatedEntries B) in
    let Metadatas := map (fun R => MakeMetadata W (ResolvedObject R)) Batch in
    Some (mkBatcher (UnvalidatedNum B) (UnvalidatedEntries B) 0 (ValidatedEntries B)
                    (ReferencesAdded B),
          foldl (fun W1 RM => HandleBatchedReference RM.1 RM.2 W1) W (zip Batch Metadatas))
  else None.

(** The two loops of [DrainUnvalidated] that fill [ValidsA] and [ValidsB]. *)
Definition ValidsA (W : World) (Unvalidated : list Z) (Num : Z) : FValidatedBitmask :=
  foldl (fun M Idx =>
           let Object := GetObject W (nth (Z.to_nat Idx) Unvalidated 0) in
           BitmaskSet Idx (negb (PermanentContains Object)) M)
        EmptyBitmask (map Z.of_nat (seq 0 (Z.to_nat Num))).

Definition ValidsB (W : World) (Unvalidated : list Z) (Num : Z) : FValidatedBitmask :=
  foldl (fun M Idx =>
           let Object := GetObject W (nth (Z.to_nat Idx) Unvalidated 0) in
           BitmaskSet Idx (negb (Object =? 0) && IsObjectHandleResolved Object) M)
        EmptyBitmask (map Z.of_nat (seq 0 (Z.to_nat Num))).

(** [for (uint32 Slack = ValidatedReferences.Slack(); NumValid >= Slack;
         Slack = ValidatedBatchSize)] *)
Fixpoint DrainLoop (fuel : nat) (Slack NumValid UnvalidatedIdx : Z)
    (Validations : FValidatedBitmask) (B : FBatcher) (W : World)
  : option (Z * Z * FBatcher * World) :=
  match fuel with
  | O => None
  | S fuel' =>
    if Slack <=? NumValid then
      '(B1, Idx1) ← QueueValidReferences Slack Validations UnvalidatedIdx B W;
      if ValidatedNum B1 =? ValidatedBatchSize then
        '(B2, W2) ← DrainValidated ValidatedBatchSize B1 W;
        DrainLoop fuel' ValidatedBatchSize (uint32 (NumValid - Slack)) Idx1 Validations B2 W2
      else None
    else Some (NumValid, UnvalidatedIdx, B, W)
  end.

(** [DrainUnvalidated(Num)]; [None]: one of its checks fails. *)
Definition DrainUnvalidated (Num : Z) (B : FBatcher) (W : World)
  : option (FBatcher * World) :=
  if Num <=? UnvalidatedBatchSize then
    let B0 := mkBatcher (UnvalidatedNum B) (UnvalidatedEntries B) (ValidatedNum B)
                        (ValidatedEntries B) (ReferencesAdded B ++ [Num]) in
    let Validations := BitmaskAnd (ValidsA W (UnvalidatedEntries B) Num)
                                  (ValidsB W (UnvalidatedEntries B) Num) in
    let NumValid := BitmaskCountBits Validations in
    '(NumValid1, UnvalidatedIdx, B1, W1) ←
       DrainLoop (S (Z.to_nat UnvalidatedBatchSize))
                 (uint32 (ValidatedBatchSize - ValidatedNum B0)) NumValid 0 Validations B0 W;
    '(B2, _) ← QueueValidReferences NumValid1 Validations UnvalidatedIdx B1 W1;
    if negb (ValidatedNum B2 =? ValidatedBatchSize) then
      Some (mkBatcher 0 (UnvalidatedEntries B2) (ValidatedNum B2) (ValidatedEntries B2)
                      (ReferencesAdded B2), W1)
    else None
  else None.

(** [PushReference(UnvalidatedReference)] *)
Definition PushReference (Reference : Z) (B : FBatcher) (W : World)
  : option (FBatcher * World) :=
  if (0 <=? UnvalidatedNum B) && (UnvalidatedNum B <? Z.of_nat (length (UnvalidatedEntries B)))
  then
    let B1 := mkBatcher (uint32 (UnvalidatedNum B + 1))
                        (<[Z.to_nat (UnvalidatedNum B) := Reference]> (UnvalidatedEntries B))
                        (ValidatedNum B) (ValidatedEntries B) (ReferencesAdded B) in
    if UnvalidatedNum B1 =? UnvalidatedBatchSize
    then DrainUnvalidated UnvalidatedBatchSize B1 W
    else Some (B1, W)
  else None.

(** [FlushQueues()], with no array queued. *)
Definition FlushQueues (B : FBatcher) (W : World) : option (FBatcher * World) :=
  '(B1, W1) ← DrainUnvalidated (UnvalidatedNum B) B W;
  DrainValidated (ValidatedNum B1) B1 W1.

(** A sequence of [PushReference]. *)
Definition PushReferences (References : list Z) (B : FBatcher) (W : World)
  : option (FBatcher * World) :=
  foldl (fun acc Reference => acc ≫= fun '(B1, W1) => PushReference Reference B1 W1)
        (Some (B, W)) References.

(** What [DrainValidated] does to the world for a batch: every reference
    is handled with the metadata read before the first is handled. *)
Definition RunBatch (W : World) (Batch : list Resolved) : World :=
  foldl (fun W1 R => HandleBatchedReference R (MakeMetadata W (ResolvedObject R)) W1)
        W Batch.

(** The references that need processing: not null, not in the permanent
    object pool, and resolved. *)
Definition ValidReference (W : World) (Reference : Z) : bool :=
  Reachability.ValidateReference PermanentContains IsObjectHandleResolved
    (GetObject W Reference).

(** The batcher between two calls: the arrays have their sizes, the
    unvalidated queue is not full and holds [Pending], the validated queue
    is not full and holds [Queued]. *)
Definition batcher_ok (B : FBatcher) (Pending : list Z) (Queued : list Resolved) : Prop :=
  length (UnvalidatedEntries B) = Z.to_nat UnvalidatedBatchSize
  /\ length (ValidatedEntries B) = Z.to_nat (ValidatedBatchSize + ValidatedPrefetchAhead)
  /\ UnvalidatedNum B = Z.of_nat (length Pending)
  /\ take (length Pending) (UnvalidatedEntries B) = Pending
  /\ ValidatedNum B = Z.of_nat (length Queued)
  /\ take (length Queued) (ValidatedEntries B) = Queued
  /\ (length Queued < Z.to_nat ValidatedBatchSize)%nat.

(** The batcher and the world after the references [Pushed], from the
    new batcher and the world [W0]: the references not yet validated are
    in the unvalidated queue; of the others, those that need processing
    have been handled in batches or wait in the validated queue. *)
Definition batching (W0 : World) (Pushed : list Z) (B : FBatcher) (W : World) : Prop :=
  exists Validated Pending Queued Done,
    batcher_ok B Pending Queued
    /\ (length Pending < Z.to_nat UnvalidatedBatchSize)%nat
    /\ Pushed = Validated ++ Pending
    /\ concat Done ++ Queued
       = map (ToResolvedReference W0) (List.filter (ValidReference W0) Validated)
    /\ Forall (fun Batch => length Batch = Z.to_nat ValidatedBatchSize) Done
    /\ W = foldl RunBatch W0 Done
    /\ SweepEffect.sumZ (ReferencesAdded B) = Z.of_nat (length Validated).

End Batcher.

End ReferenceBatcher.

(* ===================================================================== *)
(** * Properties *)
(* ===================================================================== *)

Module PageAllocatorProofs.
Import PageAllocator.

Lemma WorkerCache_Push_full Page W :
  Num W = Capacity -> WorkerCache_Push Page W = (W, false).
Proof.
  intros HW. unfold WorkerCache_Push. rewrite HW.
  now rewrite Nat.ltb_irrefl.
Qed.

(** Whatever the allocator holds, a page returned to a worker whose cache
    is full goes to [FreePage]: the shared pool keeps its pages and the
    page is handed to [FMemory::Free]. *)
Lemma ReturnWorkerPage_full WorkerIdx Page A W :
  WorkerCaches A !! WorkerIdx = Some W ->
  Num W = Capacity ->
  ReturnWorkerPage WorkerIdx Page A
  = Some (mkAllocator (SharedCache A) (WorkerCaches A) (Freed A ++ [Page])).
Proof.
  intros HW HN. unfold ReturnWorkerPage. rewrite HW. simpl.
  now rewrite (WorkerCache_Push_full Page W HN).
Qed.

(** C5 (the code at the failing input).  Worker 0 holds [Capacity] = 32
    pages and returns one more: the page is not moved to the shared pool,
    which stays empty; it is released to the system allocator, in the middle
    of a cycle. *)
Theorem ReturnWorkerPage_frees_on_overflow :
  Capacity = 32%nat
  /\ Num full_cache = Capacity
  /\ exists A',
       ReturnWorkerPage 0 (4096 * 33) busy_allocator = Some A'
       /\ SharedCache A' = []
       /\ WorkerCaches A' = WorkerCaches busy_allocator
       /\ Freed A' = [4096 * 33].
Proof.
  split; [reflexivity|]. split; [reflexivity|].
  eexists. split.
  - apply (ReturnWorkerPage_full 0%nat _ busy_allocator full_cache); reflexivity.
  - repeat split.
Qed.

End PageAllocatorProofs.

(* ===================================================================== *)
(** ** The purge pipeline: what each loop does, and time slicing *)
(* ===================================================================== *)

Module PurgeProofs.
Import Purge.
Local Open Scope nat_scope.
Local Arguments Nat.modulo : simpl never.
Local Arguments Nat.div : simpl never.
Local Arguments Nat.eqb : simpl never.
Local Arguments Nat.ltb : simpl never.
Local Arguments Nat.leb : simpl never.

Ltac norm :=
  cbv [set_InProgress set_Routed set_Pending set_PurgeIsRequired set_PurgeIndex
       set_NeedsReset set_UnreachableObjects set_UnreachableIndex set_AsyncPurge
       set_ClockReads set_ReadyQueries emit emits PollTimeLimit QueryReady] in *;
  simpl in *.

Lemma drop_nth_cons (l : list Z) i :
  i < length l -> drop i l = nth i l 0%Z :: drop (S i) l.
Proof.
  intros Hi. destruct (lookup_lt_is_Some_2 l i Hi) as [x Hx].
  rewrite (drop_S l x i Hx). f_equal.
  rewrite nth_lookup, Hx. reflexivity.
Qed.













Lemma polls_0 ctr : polls ctr 0 = 0.
Proof. reflexivity. Qed.

Lemma polls_S ctr k :
  polls ctr (S k) = (if ctr mod 10 =? 0 then 1 else 0) + polls (S ctr) k.
Proof.
  unfold polls. rewrite <- cons_seq. cbn [List.filter].
  destruct (ctr mod 10 =? 0); reflexivity.
Qed.

Ltac use_IH IH f :=
  lazymatch goal with
  | |- context [f _ ?b ?n ?c ?s] =>
      let k := fresh "k" in
      destruct (IH c s) as (k & ?Heq & ?Hk & ?Hall & ?Hpos & ?Hex);
      [simpl; lia| exists (S k); rewrite Heq; clear Heq; norm]
  end.

Lemma UnhashLoop_spec clk b : forall n ctr s,
  length (GUnreachableObjects s) - GUnrechableObjectIndex s <= n ->
  exists k,
    UnhashLoop clk b n ctr s =
      set_ClockReads (ClockReads s + (if b then polls ctr k else 0))
        (set_UnreachableIndex (GUnrechableObjectIndex s + k)
           (emits (map ConditionalBeginDestroy
                     (take k (drop (GUnrechableObjectIndex s) (GUnreachableObjects s)))) s))
    /\ k <= length (GUnreachableObjects s) - GUnrechableObjectIndex s
    /\ (b = false -> k = length (GUnreachableObjects s) - GUnrechableObjectIndex s)
    /\ (GUnrechableObjectIndex s < length (GUnreachableObjects s) -> 1 <= k)
    /\ (GUnrechableObjectIndex s + k < length (GUnreachableObjects s) -> b = true).
Proof.
  assert (Hstop : forall ctr s,
    s = set_ClockReads (ClockReads s + (if b then polls ctr 0 else 0))
        (set_UnreachableIndex (GUnrechableObjectIndex s + 0)
           (emits (map ConditionalBeginDestroy
                     (take 0 (drop (GUnrechableObjectIndex s) (GUnreachableObjects s)))) s))).
  { intros ctr []. unfold set_ClockReads, set_UnreachableIndex, emits; simpl.
    rewrite app_nil_r. destruct b; rewrite ?polls_0, !Nat.add_0_r; reflexivity. }
  induction n as [|n IH]; intros ctr s Hn.
  - exists 0. split; [apply Hstop|]. repeat split; lia.
  - destruct s as [ip ro pe pc pr pi nr L ui ap cr rq tr].
    norm.
    destruct (ui <? length L) eqn:Hlt.
    2:{ apply Nat.ltb_ge in Hlt. exists 0. rewrite app_nil_r, !Nat.add_0_r.
        split; [destruct b; rewrite ?polls_0, ?Nat.add_0_r; reflexivity|].
        repeat split; lia. }
    apply Nat.ltb_lt in Hlt. rewrite (drop_nth_cons _ _ Hlt).
    unfold TimeLimitEnforcementGranularityForBeginDestroy.
    destruct b; norm.
    + destruct (ctr mod 10 =? 0) eqn:Hmod; simpl.
      * destruct (clk cr) eqn:Hclk.
        { exists 1. rewrite polls_S, Hmod, polls_0. simpl.
          split; [f_equal; lia|]. repeat split; lia. }
        use_IH IH UnhashLoop. simpl.
        rewrite polls_S, Hmod, <- app_assoc. simpl.
        split; [f_equal; lia|]. repeat split; lia.
      * use_IH IH UnhashLoop. simpl. rewrite polls_S, Hmod, <- app_assoc. simpl.
        split; [f_equal; lia|]. repeat split; lia.
    + use_IH IH UnhashLoop. simpl. rewrite <- app_assoc. simpl.
      split; [f_equal; lia|]. specialize (Hall eq_refl). repeat split; lia.
Qed.

(** Projections of the trace. *)
Lemma cbd_of_app t1 t2 : cbd_of (t1 ++ t2) = cbd_of t1 ++ cbd_of t2.
Proof. apply omap_app. Qed.
Lemma cfd_of_app t1 t2 : cfd_of (t1 ++ t2) = cfd_of t1 ++ cfd_of t2.
Proof. apply omap_app. Qed.
Lemma dtor_of_app t1 t2 : dtor_of (t1 ++ t2) = dtor_of t1 ++ dtor_of t2.
Proof. apply omap_app. Qed.
Lemma free_of_app t1 t2 : free_of (t1 ++ t2) = free_of t1 ++ free_of t2.
Proof. apply omap_app. Qed.

Lemma cbd_of_begin l : cbd_of (map ConditionalBeginDestroy l) = l.
Proof. induction l; simpl; [reflexivity|]. unfold cbd_of in *. simpl. now f_equal. Qed.
Lemma cfd_of_begin l : cfd_of (map ConditionalBeginDestroy l) = [].
Proof. induction l; simpl; [reflexivity|]. exact IHl. Qed.
Lemma dtor_of_begin l : dtor_of (map ConditionalBeginDestroy l) = [].
Proof. induction l; simpl; [reflexivity|]. exact IHl. Qed.
Lemma free_of_begin l : free_of (map ConditionalBeginDestroy l) = [].
Proof. induction l; simpl; [reflexivity|]. exact IHl. Qed.

Lemma cbd_of_finish l : cbd_of (map ConditionalFinishDestroy l) = [].
Proof. induction l; simpl; [reflexivity|]. exact IHl. Qed.
Lemma cfd_of_finish l : cfd_of (map ConditionalFinishDestroy l) = l.
Proof. induction l; simpl; [reflexivity|]. unfold cfd_of in *. simpl. now f_equal. Qed.
Lemma dtor_of_finish l : dtor_of (map ConditionalFinishDestroy l) = [].
Proof. induction l; simpl; [reflexivity|]. exact IHl. Qed.
Lemma free_of_finish l : free_of (map ConditionalFinishDestroy l) = [].
Proof. induction l; simpl; [reflexivity|]. exact IHl. Qed.

Lemma cbd_of_destroy l : cbd_of (destroy_events l) = [].
Proof. induction l; simpl; [reflexivity|]. exact IHl. Qed.
Lemma cfd_of_destroy l : cfd_of (destroy_events l) = [].
Proof. induction l; simpl; [reflexivity|]. exact IHl. Qed.
Lemma dtor_of_destroy l : dtor_of (destroy_events l) = l.
Proof. induction l; simpl; [reflexivity|]. unfold dtor_of in *. simpl. now f_equal. Qed.
Lemma free_of_destroy l : free_of (destroy_events l) = l.
Proof. induction l; simpl; [reflexivity|]. unfold free_of in *. simpl. now f_equal. Qed.

Create Rewrite HintDb trace_proj.

#[local] Hint Rewrite cbd_of_app cfd_of_app dtor_of_app free_of_app
  cbd_of_begin cfd_of_begin dtor_of_begin free_of_begin
  cbd_of_finish cfd_of_finish dtor_of_finish free_of_finish
  cbd_of_destroy cfd_of_destroy dtor_of_destroy free_of_destroy
  app_nil_r app_nil_l : trace_proj.




















(** *** The pipeline makes no other calls than its own *)

Lemma pipeline_extends_refl t : pipeline_extends t t.
Proof. exists []. rewrite app_nil_r. split; reflexivity. Qed.

Lemma pipeline_extends_snoc t t' e :
  pipeline_event e = true -> pipeline_extends t t' -> pipeline_extends t (t' ++ [e]).
Proof.
  intros He (new & -> & Hq). exists (new ++ [e]).
  rewrite <- app_assoc, forallb_app, Hq. simpl. rewrite He. split; reflexivity.
Qed.

Lemma pipeline_extends_trans t1 t2 t3 :
  pipeline_extends t1 t2 -> pipeline_extends t2 t3 -> pipeline_extends t1 t3.
Proof.
  intros (n1 & -> & H1) (n2 & -> & H2). exists (n1 ++ n2).
  rewrite <- app_assoc, forallb_app, H1, H2. split; reflexivity.
Qed.

Ltac quiet :=
  repeat (apply pipeline_extends_snoc; [reflexivity|]); try assumption.

(** Closes [quiet_from t0 ip0 s'] for a state [s'] written out, from the
    two facts about the state the step started from. *)
Ltac quiet_from :=
  unfold quiet_from in *; simpl in *; split; [quiet|first [assumption|reflexivity]].

Ltac split_ifs_in H :=
  repeat match type of H with
         | context [if ?c then _ else _] => destruct c eqn:?; norm
         end.

(** The loops: every branch ends the loop, fails, or goes round again. *)
Ltac loop_quiet IH Heq :=
  split_ifs_in Heq;
  first [ discriminate Heq
        | injection Heq as <- <- <-; quiet_from
        | eapply IH; [exact Heq|quiet_from] ].

Lemma UnhashLoop_quiet clk b ip0 : forall n ctr s t0,
  quiet_from t0 ip0 s ->
  quiet_from t0 ip0 (UnhashLoop clk b n ctr s).
Proof.
  induction n as [|n IH]; intros ctr s t0 H0; [exact H0|].
  destruct s as [ip ro pe pc pr pi nr L ui ap cr rq tr]. destruct H0 as [H0 Hip]. norm.
  repeat match goal with
         | |- context [if ?c then _ else _] => destruct c eqn:?; norm
         end; try apply IH; quiet_from.
Qed.

Lemma FinishDestroyLoop_quiet clk rdy b ip0 : forall n ctr s t0 s' c r,
  FinishDestroyLoop clk rdy b n ctr s = Some (s', c, r) ->
  quiet_from t0 ip0 s -> quiet_from t0 ip0 s'.
Proof.
  induction n as [|n IH]; intros ctr s t0 s' c r Heq H0.
  - injection Heq as <- <- <-. exact H0.
  - destruct s as [ip ro pe pc pr pi nr L ui ap cr rq tr]. destruct H0 as [H0 Hip].
    norm. loop_quiet IH Heq.
Qed.

Lemma PendingPass_quiet clk rdy b ip0 : forall n Cur ctr s t0 s' c r,
  PendingPass clk rdy b n Cur ctr s = Some (s', c, r) ->
  quiet_from t0 ip0 s -> quiet_from t0 ip0 s'.
Proof.
  induction n as [|n IH]; intros Cur ctr s t0 s' c r Heq H0.
  - injection Heq as <- <- <-. exact H0.
  - destruct s as [ip ro pe pc pr pi nr L ui ap cr rq tr]. destruct H0 as [H0 Hip].
    norm. loop_quiet IH Heq.
Qed.

Lemma FinishDestroyStallCheck_quiet tmo fdctr ext last s t0 ip0 s' c e :
  FinishDestroyStallCheck tmo fdctr ext last s = Some (s', c, e) ->
  quiet_from t0 ip0 s -> quiet_from t0 ip0 s'.
Proof.
  unfold FinishDestroyStallCheck. intros Heq H0.
  destruct s as [ip ro pe pc pr pi nr L ui ap cr rq tr]. destruct H0 as [H0 Hip].
  norm. split_ifs_in Heq;
    first [discriminate Heq | injection Heq as <- <- <-; quiet_from].
Qed.

Lemma FinishDestroyDeferred_quiet clk rdy tmo b ip0 :
  forall fuel ctr fdctr ext last tlr s t0 s' r,
  FinishDestroyDeferred clk rdy tmo b fuel ctr fdctr ext last tlr s = Some (s', r) ->
  quiet_from t0 ip0 s -> quiet_from t0 ip0 s'.
Proof.
  assert (Hbody : forall fuel ctr fdctr ext last tlr s t0 s' r,
    FinishDestroyDeferred clk rdy tmo b fuel ctr fdctr ext last tlr s = Some (s', r) ->
    quiet_from t0 ip0 s ->
    quiet_from t0 ip0 s'
    \/ exists fuel' ctr' fdctr' ext' last' tlr' s2,
         fuel = S fuel' /\ quiet_from t0 ip0 s2
         /\ FinishDestroyDeferred clk rdy tmo b fuel' ctr' fdctr' ext' last' tlr' s2
            = Some (s', r)).
  { intros fuel ctr fdctr ext last tlr s t0 s' r Heq H0.
    destruct fuel as [|fuel]; cbn [FinishDestroyDeferred] in Heq;
      (destruct (GGCObjectsPendingDestructionCount s =? 0);
       [injection Heq as <- <-; left; exact H0|]);
      (destruct (PendingPass clk rdy b (GGCObjectsPendingDestructionCount s) 0 ctr s)
         as [[[s1 c1] r1]|] eqn:Hp; [|discriminate Heq]);
      cbn [mbind option_bind] in Heq;
      assert (H1 := PendingPass_quiet _ _ _ _ _ _ _ _ _ _ _ _ Hp H0);
      (destruct b; [injection Heq as <- <-; left; exact H1|]);
      (match type of Heq with
       | (?x ≫= _) = _ => destruct x as [[[s2 c2] e2]|] eqn:Hs; [|discriminate Heq]
       end);
      cbn [mbind option_bind] in Heq; try discriminate Heq.
    right. exists fuel, c1, c2, e2, (GGCObjectsPendingDestructionCount s2), (tlr || r1), s2.
    split; [reflexivity|]. split; [|exact Heq].
    destruct (0 <? GGCObjectsPendingDestructionCount s1).
    - apply (FinishDestroyStallCheck_quiet _ _ _ _ _ _ _ _ _ _ Hs H1).
    - injection Hs as <- <- <-. exact H1. }
  induction fuel as [|fuel IH]; intros ctr fdctr ext last tlr s t0 s' r Heq H0;
    destruct (Hbody _ _ _ _ _ _ _ _ _ _ Heq H0)
      as [H|(fuel' & ctr' & fdctr' & ext' & last' & tlr' & s2 & Hf & H2 & Heq2)];
    try exact H; try discriminate Hf.
  injection Hf as <-. apply (IH _ _ _ _ _ _ _ _ _ Heq2 H2).
Qed.

Lemma TickDestroyObjects_quiet clk b ip0 : forall n proc P s t0 P' s' f,
  TickDestroyObjects clk b n proc P s = Some (P', s', f) ->
  quiet_from t0 ip0 s -> quiet_from t0 ip0 s'.
Proof.
  induction n as [|n IH]; intros proc P s t0 P' s' f Heq H0.
  - injection Heq as <- <- <-. exact H0.
  - destruct s as [ip ro pe pc pr pi nr L ui ap cr rq tr].
    destruct P as [idx ngt ndone igt last dest ev]. destruct H0 as [H0 Hip].
    norm. loop_quiet IH Heq.
Qed.

Lemma DestroyGameThreadObjectsLoop_quiet clk b ip0 : forall n proc loc P s t0,
  quiet_from t0 ip0 s ->
  quiet_from t0 ip0 (DestroyGameThreadObjectsLoop clk b n proc loc P s).1.2.
Proof.
  induction n as [|n IH]; intros proc loc P s t0 H0; [exact H0|].
  destruct s as [ip ro pe pc pr pi nr L ui ap cr rq tr].
  destruct P as [idx ngt ndone igt last dest ev]. destruct H0 as [H0 Hip]. norm.
  repeat match goal with
         | |- context [if ?c then _ else _] => destruct c eqn:?; norm
         end; try apply IH; quiet_from.
Qed.

Lemma TickDestroyGameThreadObjects_quiet clk b ip0 P s t0 P' s' f :
  TickDestroyGameThreadObjects clk b P s = Some (P', s', f) ->
  quiet_from t0 ip0 s -> quiet_from t0 ip0 s'.
Proof.
  unfold TickDestroyGameThreadObjects. intros Heq H0.
  match type of Heq with context [DestroyGameThreadObjectsLoop clk b ?n 0 ?loc P s] =>
    assert (Hp := DestroyGameThreadObjectsLoop_quiet clk b ip0 n 0 loc P s t0 H0);
    destruct (DestroyGameThreadObjectsLoop clk b n 0 loc P s) as [[P1 s1] f1] end.
  cbn [fst snd] in Hp.
  match type of Heq with (if ?c then _ else _) = _ => destruct c end;
    [injection Heq as <- <- <-; exact Hp|discriminate Heq].
Qed.

Lemma TickPurgeGameThread_quiet clk b ip0 : forall fuel P s t0 P' s',
  TickPurgeGameThread clk b fuel P s = Some (P', s') ->
  quiet_from t0 ip0 s -> quiet_from t0 ip0 s'.
Proof.
  induction fuel as [|fuel IH]; intros P s t0 P' s' Heq H0; cbn [TickPurgeGameThread] in Heq;
    (destruct (TickDestroyGameThreadObjects clk b P s) as [[[P1 s1] f1]|] eqn:Ht;
     [|discriminate Heq]);
    cbn [mbind option_bind] in Heq;
    assert (Hp := TickDestroyGameThreadObjects_quiet _ _ _ _ _ _ _ _ _ Ht H0);
    match type of Heq with (if ?c then _ else _) = _ => destruct c end;
    try discriminate Heq; try (injection Heq as <- <-; exact Hp).
  apply (IH _ _ _ _ _ Heq Hp).
Qed.

Lemma TickPurge_quiet clk b ip0 fuel P s t0 P' s' :
  TickPurge clk b fuel P s = Some (P', s') ->
  quiet_from t0 ip0 s -> quiet_from t0 ip0 s'.
Proof.
  unfold TickPurge. intros Heq H0.
  match type of Heq with context [TickDestroyObjects clk b ?n 0 ?P0 s] =>
    destruct (TickDestroyObjects clk b n 0 P0 s) as [[[P1 s1] f1]|] eqn:Ht;
      [|discriminate Heq] end.
  cbn [mbind option_bind] in Heq.
  assert (Hp := TickDestroyObjects_quiet _ _ _ _ _ _ _ _ _ _ _ Ht H0).
  destruct f1.
  - apply (TickPurgeGameThread_quiet _ _ _ _ _ _ _ _ _ Heq Hp).
  - injection Heq as <- <-. exact Hp.
Qed.

Lemma UnhashUnreachableObjects_quiet clk b ip0 s t0 :
  quiet_from t0 ip0 s ->
  quiet_from t0 ip0 (UnhashUnreachableObjects clk b s).1.
Proof.
  intros H0. unfold UnhashUnreachableObjects. cbn [fst].
  match goal with |- context [UnhashLoop clk b ?n 0 ?s1] =>
    assert (Hp := UnhashLoop_quiet clk b ip0 n 0 s1 t0);
    destruct (UnhashLoop clk b n 0 s1) as [ip ro pe pc pr pi nr L ui ap cr rq tr] end.
  destruct Hp as [Hp Hip]; [destruct s, H0; quiet_from|]. quiet_from.
Qed.

Lemma RouteFinishDestroy_quiet clk rdy tmo b ip0 fuel s t0 s' r :
  RouteFinishDestroy clk rdy tmo b fuel s = Some (s', r) ->
  quiet_from t0 ip0 s -> quiet_from t0 ip0 s'.
Proof.
  unfold RouteFinishDestroy. intros Heq H0.
  destruct (length (GUnreachableObjects s) <=? GUnrechableObjectIndex s);
    [|discriminate Heq].
  match type of Heq with context [FinishDestroyLoop clk rdy b ?n 0 ?sa] =>
    assert (Ha : quiet_from t0 ip0 sa);
    [|destruct (FinishDestroyLoop clk rdy b n 0 sa) as [[[sb c] r1]|] eqn:Hl;
      [|discriminate Heq]] end.
  { destruct s as [ip ro pe pc pr pi nr L ui ap cr rq tr]. destruct nr; exact H0. }
  cbn [mbind option_bind] in Heq.
  assert (Hb := FinishDestroyLoop_quiet _ _ _ _ _ _ _ _ _ _ _ Hl Ha).
  destruct (length (GUnreachableObjects sb) <=? GObjCurrentPurgeObjectIndex sb).
  - match type of Heq with (?x ≫= _) = _ =>
      destruct x as [[sc r2]|] eqn:Hd; [|discriminate Heq] end.
    cbn [mbind option_bind] in Heq.
    assert (Hc := FinishDestroyDeferred_quiet _ _ _ _ _ _ _ _ _ _ _ _ _ _ _ Hd Hb).
    destruct (GGCObjectsPendingDestructionCount sc =? 0); injection Heq as <- <-.
    + destruct sc. exact Hc.
    + exact Hc.
  - injection Heq as <- <-. exact Hb.
Qed.

Lemma PerformDeletion_quiet clk b ip0 fuel s t0 s' r :
  PerformDeletion clk b fuel s = Some (s', r) ->
  quiet_from t0 ip0 s -> quiet_from t0 ip0 s'.
Proof.
  unfold PerformDeletion. intros Heq H0.
  destruct (GAsyncPurge s) as [P|]; [|discriminate]. cbn [mbind option_bind] in Heq.
  match type of Heq with context [if ?c then ?x else ?y] =>
    assert (H1 : (exists P1 s2, (if c then x else y) = Some (P1, s2)
                                /\ quiet_from t0 ip0 s2)
                 \/ (if c then x else y) = None)
  end.
  { destruct (GObjCurrentPurgeObjectIndexNeedsReset s).
    - destruct (BeginPurge P) as [P'|]; cbn [mbind option_bind].
      + left. eexists _, _. split; [reflexivity|]. destruct s; exact H0.
      + right. reflexivity.
    - left. eexists _, _. split; [reflexivity|exact H0]. }
  destruct H1 as [(P1 & s2 & E & H2)|E]; rewrite E in Heq; [|discriminate].
  cbn [mbind option_bind] in Heq.
  destruct (TickPurge clk b fuel P1 s2) as [[P2 s3]|] eqn:Ht; [|discriminate].
  cbn [mbind option_bind] in Heq.
  assert (H3 := TickPurge_quiet _ _ _ _ _ _ _ _ _ Ht H2).
  destruct (IsFinished P2); injection Heq as <- <-; destruct s3; exact H3.
Qed.

Lemma IncrementalDestroyGarbage_quiet clk rdy tmo b ip0 fuel s t0 s' r :
  IncrementalDestroyGarbage clk rdy tmo b fuel s = Some (s', r) ->
  quiet_from t0 ip0 s -> quiet_from t0 ip0 s'.
Proof.
  unfold IncrementalDestroyGarbage. intros Heq H0.
  set (s0 := match GAsyncPurge s with
             | None => set_AsyncPurge (Some NewAsyncPurge) s
             | Some _ => s
             end) in *.
  assert (H1 : quiet_from t0 ip0 s0).
  { subst s0. destruct s as [ip ro pe pc pr pi nr L ui [P|] cr rq tr]; exact H0. }
  clearbody s0.
  destruct (GObjFinishDestroyHasBeenRoutedToAllObjects s0) eqn:Hro; cbn [negb] in Heq.
  - cbn [mbind option_bind] in Heq. rewrite Hro in Heq. cbn [negb andb] in Heq.
    apply (PerformDeletion_quiet _ _ _ _ _ _ _ _ Heq H1).
  - destruct (RouteFinishDestroy clk rdy tmo b fuel s0) as [[s1 tlr]|] eqn:Hr;
      [|discriminate].
    cbn [mbind option_bind] in Heq.
    assert (H2 := RouteFinishDestroy_quiet _ _ _ _ _ _ _ _ _ _ Hr H1).
    destruct (GObjFinishDestroyHasBeenRoutedToAllObjects s1 && negb tlr).
    + apply (PerformDeletion_quiet _ _ _ _ _ _ _ _ Heq H2).
    + injection Heq as <- <-. exact H2.
Qed.

(** *** Without a time limit, a call that returns has completed the purge *)

Lemma FinishDestroyLoop_no_limit clk rdy : forall n ctr s s' c r,
  length (GUnreachableObjects s) - GObjCurrentPurgeObjectIndex s <= n ->
  FinishDestroyLoop clk rdy false n ctr s = Some (s', c, r) ->
  r = false /\ length (GUnreachableObjects s') <= GObjCurrentPurgeObjectIndex s'.
Proof.
  induction n as [|n IH]; intros ctr s s' c r Hn Heq.
  - injection Heq as <- <- <-. split; [reflexivity|lia].
  - destruct s as [ip ro pe pc pr pi nr L ui ap cr rq tr]. norm.
    destruct (pi <? length L) eqn:Hlt.
    2:{ apply Nat.ltb_ge in Hlt. injection Heq as <- <- <-. split; [reflexivity|exact Hlt]. }
    apply Nat.ltb_lt in Hlt.
    split_ifs_in Heq; first [discriminate Heq | eapply IH; [|exact Heq]; simpl; lia].
Qed.

Lemma PendingPass_no_limit clk rdy : forall n Cur ctr s s' c r,
  PendingPass clk rdy false n Cur ctr s = Some (s', c, r) -> r = false.
Proof.
  induction n as [|n IH]; intros Cur ctr s s' c r Heq.
  - injection Heq as <- <- <-. reflexivity.
  - destruct s as [ip ro pe pc pr pi nr L ui ap cr rq tr]. norm.
    split_ifs_in Heq;
      first [discriminate Heq | injection Heq as <- <- <-; reflexivity
            | eapply IH; exact Heq].
Qed.

Lemma FinishDestroyDeferred_no_limit clk rdy tmo :
  forall fuel ctr fdctr ext last tlr s s' r,
  FinishDestroyDeferred clk rdy tmo false fuel ctr fdctr ext last tlr s = Some (s', r) ->
  GGCObjectsPendingDestructionCount s' = 0 /\ r = tlr.
Proof.
  induction fuel as [|fuel IH]; intros ctr fdctr ext last tlr s s' r Heq;
    cbn [FinishDestroyDeferred] in Heq;
    (destruct (GGCObjectsPendingDestructionCount s =? 0) eqn:Hz;
     [apply Nat.eqb_eq in Hz; injection Heq as <- <-; auto|]);
    (destruct (PendingPass clk rdy false (GGCObjectsPendingDestructionCount s) 0 ctr s)
       as [[[s1 c1] r1]|] eqn:Hp; [|discriminate Heq]);
    cbn [mbind option_bind] in Heq;
    (match type of Heq with
     | (?x ≫= _) = _ => destruct x as [[[s2 c2] e2]|]; [|discriminate Heq]
     end);
    cbn [mbind option_bind] in Heq; try discriminate Heq.
  rewrite (PendingPass_no_limit _ _ _ _ _ _ _ _ _ Hp), orb_false_r in Heq.
  apply (IH _ _ _ _ _ _ _ _ Heq).
Qed.

Lemma RouteFinishDestroy_no_limit clk rdy tmo fuel s s' r :
  RouteFinishDestroy clk rdy tmo false fuel s = Some (s', r) ->
  GObjFinishDestroyHasBeenRoutedToAllObjects s' = true /\ r = false.
Proof.
  unfold RouteFinishDestroy. intros Heq.
  destruct (length (GUnreachableObjects s) <=? GUnrechableObjectIndex s);
    [|discriminate Heq].
  match type of Heq with context [FinishDestroyLoop clk rdy false ?n 0 ?sa] =>
    destruct (FinishDestroyLoop clk rdy false n 0 sa) as [[[sb c] r1]|] eqn:Hl;
      [|discriminate Heq] end.
  cbn [mbind option_bind] in Heq.
  destruct (FinishDestroyLoop_no_limit _ _ _ _ _ _ _ _ (Nat.le_refl _) Hl) as [-> Hend].
  apply Nat.leb_le in Hend. rewrite Hend in Heq.
  match type of Heq with (?x ≫= _) = _ =>
    destruct x as [[sc r2]|] eqn:Hd; [|discriminate Heq] end.
  cbn [mbind option_bind] in Heq.
  destruct (FinishDestroyDeferred_no_limit _ _ _ _ _ _ _ _ _ _ _ _ Hd) as [Hc ->].
  rewrite Hc in Heq. cbn in Heq. injection Heq as <- <-. destruct sc. auto.
Qed.

Lemma TickDestroyObjects_no_limit clk : forall n proc P s P' s' f,
  TickDestroyObjects clk false n proc P s = Some (P', s', f) -> f = true.
Proof.
  induction n as [|n IH]; intros proc P s P' s' f Heq.
  - injection Heq as <- <- <-. reflexivity.
  - destruct s as [ip ro pe pc pr pi nr L ui ap cr rq tr].
    destruct P as [idx ngt ndone igt last dest ev]. norm.
    split_ifs_in Heq;
      first [discriminate Heq | injection Heq as <- <- <-; reflexivity
            | eapply IH; exact Heq].
Qed.

Lemma TickPurgeGameThread_no_limit clk : forall fuel P s P' s',
  TickPurgeGameThread clk false fuel P s = Some (P', s') -> IsFinished P' = true.
Proof.
  induction fuel as [|fuel IH]; intros P s P' s' Heq; cbn [TickPurgeGameThread] in Heq;
    (destruct (TickDestroyGameThreadObjects clk false P s) as [[[P1 s1] f1]|];
     [|discriminate Heq]);
    cbn [mbind option_bind negb andb] in Heq;
    match type of Heq with (if negb ?c then _ else _) = _ => destruct c eqn:Hf end;
    cbn [negb] in Heq; try discriminate Heq;
    try (injection Heq as <- <-; exact Hf).
  apply (IH _ _ _ _ Heq).
Qed.

Lemma TickPurge_no_limit clk fuel P s P' s' :
  TickPurge clk false fuel P s = Some (P', s') -> IsFinished P' = true.
Proof.
  unfold TickPurge. intros Heq.
  match type of Heq with context [TickDestroyObjects clk false ?n 0 ?P0 s] =>
    destruct (TickDestroyObjects clk false n 0 P0 s) as [[[P1 s1] f1]|] eqn:Ht;
      [|discriminate Heq] end.
  cbn [mbind option_bind] in Heq.
  rewrite (TickDestroyObjects_no_limit _ _ _ _ _ _ _ _ Ht) in Heq.
  apply (TickPurgeGameThread_no_limit _ _ _ _ _ _ Heq).
Qed.

Lemma PerformDeletion_no_limit clk fuel s s' c :
  PerformDeletion clk false fuel s = Some (s', c) -> c = true.
Proof.
  unfold PerformDeletion. intros Heq.
  destruct (GAsyncPurge s) as [P|]; [|discriminate]. cbn [mbind option_bind] in Heq.
  match type of Heq with (?x ≫= _) = _ =>
    destruct x as [[P1 s2]|]; [|discriminate Heq] end.
  cbn [mbind option_bind] in Heq.
  destruct (TickPurge clk false fuel P1 s2) as [[P2 s3]|] eqn:Ht; [|discriminate].
  cbn [mbind option_bind] in Heq.
  rewrite (TickPurge_no_limit _ _ _ _ _ _ Ht) in Heq. injection Heq as <- <-. reflexivity.
Qed.

Lemma IncrementalDestroyGarbage_no_limit clk rdy tmo fuel s s' c :
  IncrementalDestroyGarbage clk rdy tmo false fuel s = Some (s', c) -> c = true.
Proof.
  unfold IncrementalDestroyGarbage. intros Heq.
  match type of Heq with context [GObjFinishDestroyHasBeenRoutedToAllObjects ?x] =>
    set (s0 := x) in * end.
  clearbody s0.
  destruct (GObjFinishDestroyHasBeenRoutedToAllObjects s0) eqn:Hro; cbn [negb] in Heq.
  - cbn [mbind option_bind] in Heq. rewrite Hro in Heq. cbn [negb andb] in Heq.
    apply (PerformDeletion_no_limit _ _ _ _ _ Heq).
  - destruct (RouteFinishDestroy clk rdy tmo false fuel s0) as [[s1 tlr]|] eqn:Hr;
      [|discriminate].
    cbn [mbind option_bind] in Heq.
    destruct (RouteFinishDestroy_no_limit _ _ _ _ _ _ _ Hr) as [Hro1 ->].
    rewrite Hro1 in Heq. cbn [negb andb] in Heq.
    apply (PerformDeletion_no_limit _ _ _ _ _ Heq).
Qed.

Lemma UnhashUnreachableObjects_no_limit clk s :
  (UnhashUnreachableObjects clk false s).2 = false.
Proof.
  unfold UnhashUnreachableObjects. cbn [snd].
  destruct (UnhashLoop_spec clk false
              (length (GUnreachableObjects s) - GUnrechableObjectIndex s) 0
              (emit (Broadcast PreGarbageCollectConditionalBeginDestroy) s))
    as (k & Heq & Hk & Hall & _).
  { destruct s; simpl. lia. }
  specialize (Hall eq_refl).
  replace (length (GUnreachableObjects
                     (emit (Broadcast PreGarbageCollectConditionalBeginDestroy) s)))
    with (length (GUnreachableObjects s)) by (destruct s; reflexivity).
  replace (GUnrechableObjectIndex
             (emit (Broadcast PreGarbageCollectConditionalBeginDestroy) s))
    with (GUnrechableObjectIndex s) by (destruct s; reflexivity).
  rewrite Heq. destruct s. norm. apply Nat.ltb_ge. lia.
Qed.

(** What a call of IncrementalPurgeGarbage that returns has done: nothing,
    when no purge is required or in progress; the memory trim that ends an
    incremental purge; or a part of the purge, with the flag
    [GObjIncrementalPurgeIsInProgress] set unless the purge was completed
    without a time limit, and the post-purge broadcast as its last call when
    it was completed. *)
Lemma IncrementalPurgeGarbage_cases clk rdy ex tmo b fuel s s' :
  IncrementalPurgeGarbage clk rdy ex tmo b fuel s = Some s' ->
  let bRequired := ex || GObjPurgeIsRequired s in
  (bRequired = false /\ GObjIncrementalPurgeIsInProgress s = false
   /\ s' = s)
  \/ (bRequired = false /\ GObjIncrementalPurgeIsInProgress s = true
      /\ s' = set_InProgress false (emit MemoryTrim s))
  \/ (bRequired = true
      /\ exists s3 (c : bool),
           quiet_from (Trace s) true s3
           /\ (b = false -> c = true)
           /\ s' = (if c && negb b then set_InProgress false else fun g => g)
                     (if c then emit (Broadcast PostPurgeGarbage) s3 else s3)).
Proof.
  unfold IncrementalPurgeGarbage. intros Heq. cbv zeta.
  set (s0 := if ex then set_NeedsReset true (set_PurgeIsRequired true s) else s) in *.
  assert (H0 : Trace s0 = Trace s
               /\ GObjPurgeIsRequired s0 = ex || GObjPurgeIsRequired s
               /\ GObjIncrementalPurgeIsInProgress s0 = GObjIncrementalPurgeIsInProgress s
               /\ (ex = false -> s0 = s)).
  { subst s0. destruct s, ex; repeat split; intros; discriminate. }
  clearbody s0. destruct H0 as (Ht0 & Hr0 & Hi0 & Hs0).
  rewrite Hr0, Hi0 in Heq.
  destruct (ex || GObjPurgeIsRequired s) eqn:Hreq; cbn [negb andb] in Heq.
  - right. right. split; [reflexivity|].
    set (s1 := set_InProgress true s0) in *.
    assert (H1 : quiet_from (Trace s) true s1).
    { subst s1. destruct s0. cbn in *. subst. split; [apply pipeline_extends_refl|reflexivity]. }
    assert (Hr1 : GObjPurgeIsRequired s1 = true) by (subst s1; destruct s0; exact Hr0).
    clearbody s1. rewrite Hr1 in Heq. cbn [negb] in Heq.
    match type of Heq with context [if ?c then ?x else ?y] =>
      assert (H2 : quiet_from (Trace s) true (if c then x else y).1
                   /\ (b = false -> (if c then x else y).2 = false));
      [|destruct (if c then x else y) as [s2 tlr]]
    end.
    { destruct (GUnrechableObjectIndex s1 <? length (GUnreachableObjects s1)).
      - split; [apply UnhashUnreachableObjects_quiet; exact H1|].
        intros ->. apply UnhashUnreachableObjects_no_limit.
      - split; [exact H1|reflexivity]. }
    cbn [fst snd] in H2. destruct H2 as [H2 Htlr].
    match type of Heq with context [if negb tlr then ?x else ?y] =>
      destruct (if negb tlr then x else y) as [[s3 c]|] eqn:Hd; [|discriminate]
    end.
    cbn [mbind option_bind] in Heq.
    assert (H3 : quiet_from (Trace s) true s3 /\ (b = false -> c = true)).
    { destruct tlr; cbn [negb] in Hd.
      - injection Hd as <- <-. split; [exact H2|]. intros Hb. discriminate (Htlr Hb).
      - split; [apply (IncrementalDestroyGarbage_quiet _ _ _ _ _ _ _ _ _ _ Hd H2)|].
        intros ->. apply (IncrementalDestroyGarbage_no_limit _ _ _ _ _ _ _ Hd). }
    destruct H3 as [H3 Hc].
    exists s3, c. split; [exact H3|]. split; [exact Hc|].
    destruct c; cbn [andb] in *.
    + destruct (negb b); injection Heq as <-; reflexivity.
    + injection Heq as <-. reflexivity.
  - apply orb_false_elim in Hreq as [-> _]. specialize (Hs0 eq_refl). subst s0.
    destruct (GObjIncrementalPurgeIsInProgress s) eqn:Hip; cbn [negb] in Heq.
    + right. left. split; [reflexivity|]. split; [reflexivity|].
      assert (Hr : GObjPurgeIsRequired (set_InProgress true s) = false)
        by (destruct s; exact Hr0).
      rewrite Hr in Heq. cbn [negb] in Heq. injection Heq as <-.
      destruct s. cbn in *. subst. reflexivity.
    + left. injection Heq as <-. auto.
Qed.

Lemma IncrementalPurgeGarbage_quiet clk rdy ex tmo b fuel s s' :
  IncrementalPurgeGarbage clk rdy ex tmo b fuel s = Some s' ->
  pipeline_extends (Trace s) (Trace s').
Proof.
  intros Heq. destruct (IncrementalPurgeGarbage_cases _ _ _ _ _ _ _ _ Heq)
    as [(_ & _ & ->)|[(_ & _ & ->)|(_ & s3 & c & [H3 _] & _ & ->)]].
  - apply pipeline_extends_refl.
  - destruct s. norm. quiet. apply pipeline_extends_refl.
  - destruct s3, c, b; norm; quiet.
Qed.






(** The number of polls in closed form. *)
Lemma polls_closed ctr k : polls ctr k = (ctr + k + 9) / 10 - (ctr + 9) / 10.
Proof.
  revert ctr. induction k as [|k IH]; intros ctr.
  - rewrite polls_0, Nat.add_0_r. lia.
  - rewrite polls_S, IH.
    destruct (ctr mod 10 =? 0) eqn:E;
      [apply Nat.eqb_eq in E|apply Nat.eqb_neq in E];
      replace (S ctr + k + 9) with (ctr + S k + 9) by lia;
      zify; Z.div_mod_to_equations; lia.
Qed.

Lemma polls_from_0 k : polls 0 k = (k + 9) / 10.
Proof. rewrite polls_closed. simpl. replace (9 / 10) with 0 by reflexivity. lia. Qed.

(** What one call of the unhash phase does. *)
Lemma UnhashUnreachableObjects_call clk b s :
  exists k,
    UnhashUnreachableObjects clk b s =
      (set_ClockReads (ClockReads s + (if b then (k + 9) / 10 else 0))
         (set_UnreachableIndex (GUnrechableObjectIndex s + k)
            (emits ([Broadcast PreGarbageCollectConditionalBeginDestroy]
                    ++ map ConditionalBeginDestroy
                         (take k (drop (GUnrechableObjectIndex s) (GUnreachableObjects s)))
                    ++ [Broadcast PostGarbageCollectConditionalBeginDestroy]) s)),
       GUnrechableObjectIndex s + k <? length (GUnreachableObjects s))
    /\ k <= length (GUnreachableObjects s) - GUnrechableObjectIndex s
    /\ (GUnrechableObjectIndex s < length (GUnreachableObjects s) -> 1 <= k)
    /\ (b = false -> k = length (GUnreachableObjects s) - GUnrechableObjectIndex s).
Proof.
  unfold UnhashUnreachableObjects.
  destruct (UnhashLoop_spec clk b
              (length (GUnreachableObjects s) - GUnrechableObjectIndex s) 0
              (emit (Broadcast PreGarbageCollectConditionalBeginDestroy) s))
    as (k & Heq & Hk & Hall & Hpos & Hrem).
  { destruct s; simpl. lia. }
  destruct s as [ip ro pe pc pr pi nr L ui ap cr rq tr].
  norm. rewrite Heq. clear Heq. norm. exists k.
  rewrite polls_from_0, <- !app_assoc. simpl. auto.
Qed.

Lemma UnhashResumed_spec clk : forall calls s,
  length (GUnreachableObjects s) - GUnrechableObjectIndex s < calls ->
  exists s' new,
    UnhashResumed clk calls s = Some s'
    /\ Trace s' = Trace s ++ new
    /\ cbd_of new = drop (GUnrechableObjectIndex s) (GUnreachableObjects s)
    /\ GUnreachableObjects s' = GUnreachableObjects s
    /\ length (GUnreachableObjects s) <= GUnrechableObjectIndex s'.
Proof.
  induction calls as [|calls IH]; intros s Hc; [lia|].
  cbn [UnhashResumed].
  destruct (UnhashUnreachableObjects_call clk true s) as (k & Heq & Hk & Hpos & _).
  rewrite Heq. clear Heq.
  destruct (GUnrechableObjectIndex s + k <? length (GUnreachableObjects s)) eqn:Hlt.
  - apply Nat.ltb_lt in Hlt.
    match goal with |- context [UnhashResumed clk calls ?s1] =>
      destruct (IH s1) as (s' & new & Heq' & Htr & Hcbd & HL & Hui) end.
    { destruct s; norm. specialize (Hpos ltac:(lia)). lia. }
    destruct s as [ip ro pe pc pr pi nr L ui ap cr rq tr]. norm.
    eexists s', _. split; [exact Heq'|].
    split; [rewrite Htr, <- app_assoc; reflexivity|].
    split.
    { simpl. autorewrite with trace_proj. simpl. rewrite Hcbd.
      rewrite <- (take_drop k (drop ui L)) at 2. rewrite drop_drop. reflexivity. }
    split; [exact HL|exact Hui].
  - apply Nat.ltb_ge in Hlt.
    destruct s as [ip ro pe pc pr pi nr L ui ap cr rq tr]. norm.
    eexists _, _. split; [reflexivity|]. simpl.
    split; [reflexivity|].
    split.
    { simpl. autorewrite with trace_proj. simpl. rewrite ?app_nil_r. apply take_ge.
      rewrite length_drop. lia. }
    split; [reflexivity|lia].
Qed.

(** C7.  One call of UnhashUnreachableObjects handles the [k] objects of
    GUnreachableObjects that follow the saved cursor, in list order: between
    its two broadcasts it calls ConditionalBeginDestroy on each of them once,
    and it advances the cursor by [k].  With a time limit it compares the
    clock with the limit once per ten objects begun ((k + 9) / 10 times: after
    the first, the eleventh, ... object of the call), without one never, and
    then all remaining objects are handled.  It returns true exactly when the
    cursor is still before the end of the list.  Resumed until it returns
    false (one call more than the objects left is enough), the phase calls
    ConditionalBeginDestroy on exactly the objects that followed the cursor,
    each once and in order, and leaves the list as it was. *)
Theorem UnhashUnreachableObjects_resumable clk s :
  (forall b, exists k,
     UnhashUnreachableObjects clk b s =
       (set_ClockReads (ClockReads s + (if b then (k + 9) / 10 else 0))
          (set_UnreachableIndex (GUnrechableObjectIndex s + k)
             (emits ([Broadcast PreGarbageCollectConditionalBeginDestroy]
                     ++ map ConditionalBeginDestroy
                          (take k (drop (GUnrechableObjectIndex s) (GUnreachableObjects s)))
                     ++ [Broadcast PostGarbageCollectConditionalBeginDestroy]) s)),
        GUnrechableObjectIndex s + k <? length (GUnreachableObjects s))
     /\ k <= length (GUnreachableObjects s) - GUnrechableObjectIndex s
     /\ (GUnrechableObjectIndex s < length (GUnreachableObjects s) -> 1 <= k)
     /\ (b = false -> k = length (GUnreachableObjects s) - GUnrechableObjectIndex s))
  /\ exists s',
       UnhashResumed clk (S (length (GUnreachableObjects s) - GUnrechableObjectIndex s)) s
       = Some s'
       /\ cbd_of (new_events s s')
          = drop (GUnrechableObjectIndex s) (GUnreachableObjects s)
       /\ GUnreachableObjects s' = GUnreachableObjects s
       /\ IsIncrementalUnhashPending s' = false.
Proof.
  split; [intros b; apply UnhashUnreachableObjects_call|].
  destruct (UnhashResumed_spec clk
              (S (length (GUnreachableObjects s) - GUnrechableObjectIndex s)) s)
    as (s' & new & Heq & Htr & Hcbd & HL & Hui); [lia|].
  exists s'. split; [exact Heq|].
  unfold new_events, IsIncrementalUnhashPending.
  rewrite Htr, drop_app_length, HL.
  split; [exact Hcbd|]. split; [reflexivity|]. apply Nat.ltb_ge. exact Hui.
Qed.

End PurgeProofs.

(* ===================================================================== *)
(** ** The coordinator: the GC lock, the delegates and the skip counter *)
(* ===================================================================== *)

Module CoordinatorProofs.
Import Purge Coordinator PurgeProofs.

(** *** The lock along a trace *)

Lemma lock_after_app h t1 t2 :
  lock_after h (t1 ++ t2) = lock_after (lock_after h t1) t2.
Proof. unfold lock_after. apply fold_left_app. Qed.

Lemma lock_after_cons h e t : lock_after h (e :: t) = lock_after (lock_after h [e]) t.
Proof. reflexivity. Qed.

Lemma no_broadcast_under_lock_app p h t1 t2 :
  no_broadcast_under_lock p h (t1 ++ t2)
  = no_broadcast_under_lock p h t1 && no_broadcast_under_lock p (lock_after h t1) t2.
Proof.
  revert h. induction t1 as [|e t1 IH]; intros h; [reflexivity|].
  cbn [app no_broadcast_under_lock]. rewrite IH, lock_after_cons, andb_assoc. reflexivity.
Qed.

Lemma no_broadcast_under_lock_sound p h t D :
  no_broadcast_under_lock p h t = true -> p D = true -> ~ broadcast_under_lock h D t.
Proof.
  intros Hs Hp (pre & post & -> & Hl).
  rewrite no_broadcast_under_lock_app in Hs. apply andb_prop in Hs as [_ Hs].
  cbn [no_broadcast_under_lock] in Hs. rewrite Hl, Hp in Hs. discriminate.
Qed.

Lemma pipeline_keeps_lock h new :
  forallb pipeline_event new = true -> lock_after h new = h.
Proof.
  revert h. induction new as [|e new IH]; intros h Hq; [reflexivity|].
  cbn [forallb] in Hq. apply andb_prop in Hq as [He Hq].
  rewrite lock_after_cons, (IH _ Hq). destruct e as [| | | |[]| | | | |]; try discriminate; reflexivity.
Qed.

Lemma pipeline_safe bPurge h new :
  forallb pipeline_event new = true ->
  h && bPurge = false ->
  no_broadcast_under_lock (post_phase bPurge) h new = true.
Proof.
  revert h. induction new as [|e new IH]; intros h Hq Hh; [reflexivity|].
  cbn [forallb] in Hq. apply andb_prop in Hq as [He Hq].
  cbn [no_broadcast_under_lock].
  rewrite (pipeline_keeps_lock h [e]) by (cbn [forallb]; rewrite He; reflexivity).
  rewrite (IH _ Hq Hh), andb_true_r.
  destruct e as [| | | |[]| | | | |]; try discriminate; try reflexivity.
  all: cbn [post_phase]; rewrite ?andb_false_r, ?Hh; reflexivity.
Qed.

Lemma lock_safe_refl p h t : lock_safe p h t h t.
Proof. exists []. rewrite app_nil_r. repeat split. Qed.

Lemma lock_safe_trans p h1 t1 h2 t2 h3 t3 :
  lock_safe p h1 t1 h2 t2 -> lock_safe p h2 t2 h3 t3 -> lock_safe p h1 t1 h3 t3.
Proof.
  intros (n1 & -> & S1 & L1) (n2 & -> & S2 & L2). exists (n1 ++ n2).
  rewrite <- app_assoc, no_broadcast_under_lock_app, lock_after_app, S1, L1, S2, L2.
  repeat split.
Qed.

Lemma lock_safe_snoc p h1 t1 h2 t2 e :
  lock_safe p h1 t1 h2 t2 ->
  no_broadcast_under_lock p h2 [e] = true ->
  lock_safe p h1 t1 (lock_after h2 [e]) (t2 ++ [e]).
Proof.
  intros H1 He. apply (lock_safe_trans _ _ _ _ _ _ _ H1).
  exists [e]. repeat split. exact He.
Qed.

Lemma lock_safe_pipeline bPurge h1 t1 h2 t2 t3 :
  lock_safe (post_phase bPurge) h1 t1 h2 t2 ->
  pipeline_extends t2 t3 ->
  h2 && bPurge = false ->
  lock_safe (post_phase bPurge) h1 t1 h2 t3.
Proof.
  intros H1 (new & -> & Hq) Hh. apply (lock_safe_trans _ _ _ _ _ _ _ H1).
  exists new. split; [reflexivity|]. split; [apply pipeline_safe; assumption|].
  apply pipeline_keeps_lock. exact Hq.
Qed.

(** *** A collection cycle *)

Lemma no_broadcast_under_lock_weaken (p q : Delegate -> bool) h t :
  (forall D, q D = true -> p D = true) ->
  no_broadcast_under_lock p h t = true -> no_broadcast_under_lock q h t = true.
Proof.
  intros Hpq. revert h. induction t as [|e t IH]; intros h H; [reflexivity|].
  cbn [no_broadcast_under_lock] in *. apply andb_prop in H as [He Ht].
  rewrite (IH _ Ht), andb_true_r. destruct e; try reflexivity.
  destruct h; [|reflexivity]. cbn [andb negb] in *.
  destruct (q D) eqn:Hq; [|reflexivity]. rewrite (Hpq D Hq) in He. exact He.
Qed.

Lemma lock_safe_weaken bPurge h t h' t' :
  lock_safe (post_phase true) h t h' t' -> lock_safe (post_phase bPurge) h t h' t'.
Proof.
  intros (new & -> & Hs & Hl). exists new. split; [reflexivity|]. split; [|exact Hl].
  apply (no_broadcast_under_lock_weaken (post_phase true)); [|exact Hs].
  intros D. destruct D, bPurge; intros H; try discriminate; reflexivity.
Qed.

Ltac snoc_events tac :=
  lazymatch goal with
  | |- lock_safe _ _ _ _ (_ ++ [_]) =>
      refine (lock_safe_snoc _ _ _ _ _ _ _ _); [snoc_events tac|reflexivity]
  | _ => tac
  end.

Lemma flush_lock_safe bPurge C E t0 :
  lock_safe (post_phase bPurge) true t0 true (Trace (GC E)) ->
  lock_safe (post_phase bPurge) true t0 true
    (Trace (GC (on_GC (emit (Broadcast PreGarbageCollect))
                  (if GFlushStreamingOnGC C && IsAsyncLoading C
                   then AcquireGCLock (on_GC (emit FlushAsyncLoading) (ReleaseGCLock E))
                   else E)))).
Proof.
  intros H. destruct E as [[] ? ?].
  destruct (GFlushStreamingOnGC C && IsAsyncLoading C); cbn in *;
    snoc_events ltac:(exact H).
Qed.

Lemma reachability_lock_safe bPurge C E t0 :
  lock_safe (post_phase bPurge) true t0 true (Trace (GC E)) ->
  lock_safe (post_phase bPurge) true t0 false
    (Trace (GC (on_GC (emit (Broadcast PostReachabilityAnalysis))
                  (ReleaseGCLock (on_GC (ReachabilityScope C) E))))).
Proof.
  intros H. destruct E as [[] ? ?]. unfold ReachabilityScope.
  destruct (bRerunForGarbageReferences C); cbn in *; snoc_events ltac:(exact H).
Qed.

Lemma unhash_lock_safe bPurge clk (c : bool) E t0 :
  lock_safe (post_phase bPurge) true t0 false (Trace (GC E)) ->
  lock_safe (post_phase bPurge) true t0 false
    (Trace (GC (on_GC (set_PurgeIsRequired true)
                  (if c then on_GC (fun g => fst (UnhashUnreachableObjects clk false g)) E
                   else E)))).
Proof.
  intros H. destruct c.
  - destruct E as [g ? ?]. cbn [on_GC GC] in *.
    destruct (UnhashUnreachableObjects_quiet clk false
                (GObjIncrementalPurgeIsInProgress g) g (Trace g)
                (conj (pipeline_extends_refl _) eq_refl)) as [Hq _].
    destruct (UnhashUnreachableObjects clk false g) as [[] ?]. cbn in *.
    apply (lock_safe_pipeline _ _ _ _ _ _ H Hq eq_refl).
  - destruct E as [[] ? ?]. exact H.
Qed.

Lemma finish_lock_safe bPurge (full : bool) E t0 :
  lock_safe (post_phase bPurge) true t0 false (Trace (GC E)) ->
  lock_safe (post_phase bPurge) true t0 false
    (Trace (GC (on_GC (emit (Broadcast PostGarbageCollect))
                  (if full then on_GC (emit MemoryTrim) E else E)))).
Proof.
  intros H. destruct E as [[] ? ?]. destruct full; cbn in *; snoc_events ltac:(exact H).
Qed.

Lemma Purge_quiet clk rdy C b fuel E E' :
  Purge_ clk rdy C b fuel E = Some E' ->
  pipeline_extends (Trace (GC E)) (Trace (GC E')).
Proof.
  unfold Purge_. intros Heq.
  destruct (IncrementalPurgeGarbage clk rdy (GExitPurge C) (Timeout C) b fuel (GC E))
    as [g|] eqn:Hg; [|discriminate].
  injection Heq as <-. apply (IncrementalPurgeGarbage_quiet _ _ _ _ _ _ _ _ Hg).
Qed.

(** The phases of a cycle that returns: the state [g2] in which the purge
    before reachability analysis is called, the state [g3] after it, and
    the rest of the cycle.  Before [g2] and after [g3] no post-phase
    delegate is broadcast under the lock, and the lock, held at entry, is
    held in [g2] and [g3] and released at the end. *)
Lemma CollectGarbageImpl_phases clk rdy C full keep fuel E E' :
  CollectGarbageImpl clk rdy C full keep fuel E = Some E' ->
  exists g2 g3,
    lock_safe (post_phase true) true (Trace (GC E)) true (Trace g2)
    /\ GObjIncrementalPurgeIsInProgress g2 = GObjIncrementalPurgeIsInProgress (GC E)
    /\ GObjPurgeIsRequired g2 = GObjPurgeIsRequired (GC E)
    /\ (if GObjIncrementalPurgeIsInProgress g2 || GObjPurgeIsRequired g2
        then exists g,
               IncrementalPurgeGarbage clk rdy (GExitPurge C) (Timeout C) false fuel g2
               = Some g
               /\ g3 = if negb full then emit MemoryTrim g else g
        else g3 = g2)
    /\ lock_safe (post_phase true) true (Trace g3) false (Trace (GC E')).
Proof.
  unfold CollectGarbageImpl. intros Heq.
  destruct (IsLoading C); [discriminate Heq|]. cbv zeta in Heq.
  assert (H2 := flush_lock_safe true C (mkEngine (GC E) (GCSync E) 0) _
                  (lock_safe_refl _ true (Trace (GC E)))).
  match type of H2 with lock_safe _ _ _ _ (Trace (GC ?X)) => set (E2 := X) in * end.
  assert (Hpend : GObjIncrementalPurgeIsInProgress (GC E2)
                  = GObjIncrementalPurgeIsInProgress (GC E)
                  /\ GObjPurgeIsRequired (GC E2) = GObjPurgeIsRequired (GC E)).
  { subst E2. destruct E as [[] ? ?].
    destruct (GFlushStreamingOnGC C && IsAsyncLoading C); split; reflexivity. }
  clearbody E2. destruct Hpend as [Hip Hpr].
  match type of Heq with (?x ≫= _) = _ => destruct x as [E3|] eqn:H3; [|discriminate] end.
  cbn [mbind option_bind] in Heq.
  destruct (GObjIncrementalPurgeIsInProgress (GC E3) || GObjPurgeIsRequired (GC E3));
    [discriminate Heq|].
  exists (GC E2), (GC E3). split; [exact H2|]. split; [exact Hip|]. split; [exact Hpr|].
  split.
  { destruct (GObjIncrementalPurgeIsInProgress (GC E2) || GObjPurgeIsRequired (GC E2)).
    - unfold Purge_ in H3.
      destruct (IncrementalPurgeGarbage clk rdy (GExitPurge C) (Timeout C) false fuel
                  (GC E2)) as [g|]; [|discriminate H3].
      cbn [mbind option_bind] in H3. injection H3 as <-.
      exists g. split; [reflexivity|]. destruct (negb full); reflexivity.
    - injection H3 as <-. reflexivity. }
  clear H2 H3 Hip Hpr E2.
  assert (H3' := reachability_lock_safe true C E3 _ (lock_safe_refl _ true (Trace (GC E3)))).
  match type of H3' with lock_safe _ _ _ _ (Trace (GC ?X)) => set (E6 := X) in * end.
  clearbody E6.
  apply (unhash_lock_safe true clk (full || negb (GIncrementalBeginDestroyEnabled C)))
    in H3'.
  match type of H3' with lock_safe _ _ _ _ (Trace (GC ?X)) => set (E8 := X) in * end.
  clearbody E8. clear E6.
  match type of Heq with (?x ≫= _) = _ => destruct x as [E9|] eqn:H9; [|discriminate] end.
  cbn [mbind option_bind] in Heq. injection Heq as <-.
  apply finish_lock_safe.
  destruct full.
  - apply (lock_safe_pipeline _ _ _ _ _ _ H3' (Purge_quiet _ _ _ _ _ _ _ H9) eq_refl).
  - injection H9 as <-. exact H3'.
Qed.

(** With the lock held at entry, a cycle that returns has released it, and
    has broadcast no post-phase delegate under it, the post-purge one apart
    when it had a purge to finish before reachability analysis. *)
Lemma CollectGarbageImpl_lock_safe clk rdy C full keep fuel E E' bPurge :
  CollectGarbageImpl clk rdy C full keep fuel E = Some E' ->
  bPurge && purge_before_reachability C (GC E) = false ->
  lock_safe (post_phase bPurge) true (Trace (GC E)) false (Trace (GC E')).
Proof.
  intros Heq Hp.
  destruct (CollectGarbageImpl_phases _ _ _ _ _ _ _ _ Heq)
    as (g2 & g3 & H2 & Hip & Hpr & Hmid & Hrest).
  apply (lock_safe_trans _ _ _ true (Trace g2)); [apply lock_safe_weaken; exact H2|].
  apply (lock_safe_trans _ _ _ true (Trace g3)); [|apply lock_safe_weaken; exact Hrest].
  unfold purge_before_reachability in Hp. rewrite <- Hip, <- Hpr in Hp.
  destruct (GObjIncrementalPurgeIsInProgress g2 || GObjPurgeIsRequired g2) eqn:Hpend.
  2:{ subst g3. apply lock_safe_refl. }
  destruct Hmid as (g & Hg & ->). cbn [andb] in Hp.
  destruct (IncrementalPurgeGarbage_cases _ _ _ _ _ _ _ _ Hg)
    as [(_ & _ & ->)|[(Hreq & _ & ->)|(Hreq & s3 & c & [H3 _] & _ & ->)]].
  - destruct g2, full; cbn; snoc_events ltac:(apply lock_safe_refl).
  - destruct g2, full; cbn; snoc_events ltac:(apply lock_safe_refl).
  - rewrite Hreq, andb_true_r in Hp. subst bPurge.
    assert (H4 : lock_safe (post_phase false) true (Trace g2) true (Trace s3)).
    { apply (lock_safe_pipeline false _ _ true _ _ (lock_safe_refl _ _ _) H3 eq_refl). }
    destruct s3, c, full; cbn in *; snoc_events ltac:(exact H4).
Qed.

(** A cycle that had a purge to finish before reachability analysis, and
    that returns, has broadcast the post-purge delegate with the lock
    held. *)
Lemma CollectGarbageImpl_purges_under_lock clk rdy C full keep fuel E E' :
  CollectGarbageImpl clk rdy C full keep fuel E = Some E' ->
  purge_before_reachability C (GC E) = true ->
  exists pre post,
    Trace (GC E') = Trace (GC E) ++ pre ++ Broadcast PostPurgeGarbage :: post
    /\ lock_after true pre = true.
Proof.
  intros Heq Hp.
  destruct (CollectGarbageImpl_phases _ _ _ _ _ _ _ _ Heq)
    as (g2 & g3 & (n2 & Ht2 & _ & Hl2) & Hip & Hpr & Hmid & (n3 & Ht3 & _)).
  unfold purge_before_reachability in Hp. rewrite <- Hip, <- Hpr in Hp.
  apply andb_prop in Hp as [Hpend Hreq]. rewrite Hpend in Hmid.
  destruct Hmid as (g & Hg & ->).
  destruct (IncrementalPurgeGarbage_cases _ _ _ _ _ _ _ _ Hg)
    as [(H & _)|[(H & _)|(_ & s3 & c & [(new & Ht & Hq) _] & Hc & ->)]];
    try (rewrite Hreq in H; discriminate H).
  rewrite (Hc eq_refl) in *. cbn [andb negb] in Ht3.
  exists (n2 ++ new).
  eexists. split.
  - rewrite Ht3.
    assert (E3 : Trace (if negb full
                        then emit MemoryTrim
                               (set_InProgress false (emit (Broadcast PostPurgeGarbage) s3))
                        else set_InProgress false (emit (Broadcast PostPurgeGarbage) s3))
                 = Trace s3 ++ Broadcast PostPurgeGarbage
                               :: (if negb full then [MemoryTrim] else [])).
    { destruct s3, full; cbn; rewrite <- ?app_assoc; reflexivity. }
    rewrite E3, Ht, Ht2, <- !app_assoc. cbn [app]. reflexivity.
  - rewrite lock_after_app, Hl2. apply pipeline_keeps_lock. exact Hq.
Qed.

Lemma lock_safe_new_events p h t t' D :
  lock_safe p false t h t' -> p D = true ->
  ~ broadcast_under_lock false D (drop (length t) t').
Proof.
  intros (new & -> & Hs & _) Hp. rewrite drop_app_length.
  apply (no_broadcast_under_lock_sound p); assumption.
Qed.

Lemma post_phase_selects D :
  is_post_phase D = true ->
  post_phase (match D with PostPurgeGarbage => true | _ => false end) D = true.
Proof. destruct D; intros H; try discriminate; reflexivity. Qed.

Lemma CollectGarbage_lock_safe clk rdy C keep full fuel E E' bPurge :
  CollectGarbage clk rdy C keep full fuel E = Some E' ->
  bPurge && purge_before_reachability C (GC E) = false ->
  exists h, lock_safe (post_phase bPurge) false (Trace (GC E)) h (Trace (GC E')).
Proof.
  unfold CollectGarbage, CollectGarbageInternal. intros Heq Hp.
  destruct (GIsInitialLoad C).
  - injection Heq as <-. exists false. apply lock_safe_refl.
  - exists false.
    apply (lock_safe_trans _ _ _ true (Trace (GC (AcquireGCLock E)))).
    + destruct E as [[] ? ?]. cbn. snoc_events ltac:(apply lock_safe_refl).
    + apply (CollectGarbageImpl_lock_safe _ _ _ _ _ _ _ _ _ Heq).
      destruct E as [[] ? ?]. exact Hp.
Qed.

Lemma TryCollectGarbage_lock_safe clk rdy C keep full fuel E E' r bPurge :
  TryCollectGarbage clk rdy C keep full fuel E = Some (E', r) ->
  bPurge && purge_before_reachability C (GC E) = false ->
  exists h, lock_safe (post_phase bPurge) false (Trace (GC E)) h (Trace (GC E')).
Proof.
  unfold TryCollectGarbage, CollectGarbageInternal, TryGCLock. intros Heq Hp.
  destruct (GIsInitialLoad C).
  { injection Heq as <- <-. exists false. apply lock_safe_refl. }
  destruct (AsyncCounter (GCSync E)) as [|n].
  - cbn [negb] in Heq.
    match type of Heq with (?x ≫= _) = _ => destruct x as [E3|] eqn:H3; [|discriminate] end.
    cbn [mbind option_bind] in Heq. injection Heq as <- <-. exists false.
    match type of H3 with CollectGarbageImpl _ _ _ _ _ _ ?E1 = _ =>
      apply (lock_safe_trans _ _ _ true (Trace (GC E1))) end.
    + destruct E as [[] ? ?]. cbn. snoc_events ltac:(apply lock_safe_refl).
    + apply (CollectGarbageImpl_lock_safe _ _ _ _ _ _ _ _ _ H3).
      destruct E as [[] ? ?]. exact Hp.
  - cbn [negb] in Heq.
    destruct ((0 <? GNumRetriesBeforeForcingGC C)%Z
              && (GNumRetriesBeforeForcingGC C
                  <? GNumAttemptsSinceLastGC (on_GC (emit (EvTryGCLock false)) E))%Z).
    + match type of Heq with (?x ≫= _) = _ => destruct x as [E3|] eqn:H3; [|discriminate] end.
      cbn [mbind option_bind] in Heq. injection Heq as <- <-. exists false.
      match type of H3 with CollectGarbageImpl _ _ _ _ _ _ ?E1 = _ =>
        apply (lock_safe_trans _ _ _ true (Trace (GC E1))) end.
      * destruct E as [[] ? ?]. cbn. snoc_events ltac:(apply lock_safe_refl).
      * apply (CollectGarbageImpl_lock_safe _ _ _ _ _ _ _ _ _ H3).
        destruct E as [[] ? ?]. exact Hp.
    + injection Heq as <- <-. exists false.
      destruct E as [[] ? ?]. cbn. snoc_events ltac:(apply lock_safe_refl).
Qed.

(** The events of a cycle entered with the lock taken by the events [acq]. *)
Lemma purges_under_lock_from clk rdy C full keep fuel E E1 E' acq :
  CollectGarbageImpl clk rdy C full keep fuel E1 = Some E' ->
  Trace (GC E1) = Trace (GC E) ++ acq ->
  lock_after false acq = true ->
  purge_before_reachability C (GC E1) = true ->
  broadcast_under_lock false PostPurgeGarbage (new_events (GC E) (GC E')).
Proof.
  intros Heq Ht Hl Hp.
  destruct (CollectGarbageImpl_purges_under_lock _ _ _ _ _ _ _ _ Heq Hp)
    as (pre & post & Ht' & Hl').
  exists (acq ++ pre), post. unfold new_events.
  rewrite Ht', Ht, <- !app_assoc, drop_app_length.
  split; [reflexivity|]. rewrite lock_after_app, Hl. exact Hl'.
Qed.

(** A call of TryCollectGarbage that returns false has not collected: it
    leaves at most the event of the failed TryGCLock. *)
Lemma TryCollectGarbage_skipped clk rdy C keep full fuel E E' p :
  TryCollectGarbage clk rdy C keep full fuel E = Some (E', false) ->
  lock_safe p false (Trace (GC E)) false (Trace (GC E')).
Proof.
  unfold TryCollectGarbage, CollectGarbageInternal, TryGCLock. intros Heq.
  destruct (GIsInitialLoad C).
  { injection Heq as <-. apply lock_safe_refl. }
  destruct (AsyncCounter (GCSync E)) as [|n]; cbn [negb] in Heq.
  - match type of Heq with (?x ≫= _) = _ => destruct x as [E3|]; discriminate Heq end.
  - destruct ((0 <? GNumRetriesBeforeForcingGC C)%Z
              && (GNumRetriesBeforeForcingGC C
                  <? GNumAttemptsSinceLastGC (on_GC (emit (EvTryGCLock false)) E))%Z).
    + match type of Heq with (?x ≫= _) = _ => destruct x as [E3|]; discriminate Heq end.
    + injection Heq as <-. destruct E as [[] ? ?]. cbn.
      snoc_events ltac:(apply lock_safe_refl).
Qed.

(** C6 (amended).  In a collection cycle entered through CollectGarbage or
    TryCollectGarbage by a caller that does not hold the GC lock, the
    post-reachability and the post-GC delegate are never broadcast while the
    lock is held; neither is the post-purge delegate, unless, outside
    initial load, the cycle has a purge to finish before reachability
    analysis, because a purge is still required at entry (or, during the
    exit purge, in progress).  A call of TryCollectGarbage that returns
    false broadcasts no post-phase delegate under the lock in any case.
    Outside initial load, a cycle that has a purge to finish and returns
    has broadcast the post-purge delegate while the lock was held. *)
Theorem post_phase_broadcasts_outside_lock clk rdy C keep full fuel E D :
  is_post_phase D = true ->
  ((D = PostPurgeGarbage ->
    GIsInitialLoad C = true \/ purge_before_reachability C (GC E) = false) ->
   (forall E', CollectGarbage clk rdy C keep full fuel E = Some E' ->
               ~ broadcast_under_lock false D (new_events (GC E) (GC E')))
   /\ (forall E' r, TryCollectGarbage clk rdy C keep full fuel E = Some (E', r) ->
                    ~ broadcast_under_lock false D (new_events (GC E) (GC E'))))
  /\ (forall E', TryCollectGarbage clk rdy C keep full fuel E = Some (E', false) ->
                 ~ broadcast_under_lock false D (new_events (GC E) (GC E')))
  /\ (GIsInitialLoad C = false -> purge_before_reachability C (GC E) = true ->
      (forall E', CollectGarbage clk rdy C keep full fuel E = Some E' ->
                  broadcast_under_lock false PostPurgeGarbage (new_events (GC E) (GC E')))
      /\ (forall E', TryCollectGarbage clk rdy C keep full fuel E = Some (E', true) ->
                     broadcast_under_lock false PostPurgeGarbage
                       (new_events (GC E) (GC E')))).
Proof.
  intros HD. split; [|split].
  - intros Hpend.
    destruct (GIsInitialLoad C) eqn:Hload.
    { split.
      - intros E'. unfold CollectGarbage. rewrite Hload. intros Heq.
        injection Heq as <-.
        apply (lock_safe_new_events _ _ _ _ _ (lock_safe_refl _ false _)
                 (post_phase_selects D HD)).
      - intros E' r. unfold TryCollectGarbage. rewrite Hload. intros Heq.
        injection Heq as <- <-.
        apply (lock_safe_new_events _ _ _ _ _ (lock_safe_refl _ false _)
                 (post_phase_selects D HD)). }
    assert (Hp : (match D with PostPurgeGarbage => true | _ => false end)
                 && purge_before_reachability C (GC E) = false).
    { destruct D; try reflexivity.
      destruct (Hpend eq_refl) as [H|H]; [discriminate H|]. rewrite H; reflexivity. }
    split.
    + intros E' Heq.
      destruct (CollectGarbage_lock_safe _ _ _ _ _ _ _ _ _ Heq Hp) as [h Hs].
      apply (lock_safe_new_events _ _ _ _ _ Hs (post_phase_selects D HD)).
    + intros E' r Heq.
      destruct (TryCollectGarbage_lock_safe _ _ _ _ _ _ _ _ _ _ Heq Hp) as [h Hs].
      apply (lock_safe_new_events _ _ _ _ _ Hs (post_phase_selects D HD)).
  - intros E' Heq.
    apply (lock_safe_new_events _ _ _ _ _
             (TryCollectGarbage_skipped _ _ _ _ _ _ _ _ _ Heq) (post_phase_selects D HD)).
  - intros Hload Hp. split.
    + intros E'. unfold CollectGarbage, CollectGarbageInternal. rewrite Hload.
      intros Heq.
      apply (purges_under_lock_from _ _ _ _ _ _ _ _ _ [EvGCLock] Heq).
      * destruct E as [[] ? ?]. reflexivity.
      * reflexivity.
      * destruct E as [[] ? ?]. exact Hp.
    + intros E'. unfold TryCollectGarbage, CollectGarbageInternal, TryGCLock.
      rewrite Hload. destruct (AsyncCounter (GCSync E)) as [|n].
      * cbn [negb]. intros Heq.
        match type of Heq with (?x ≫= _) = _ =>
          destruct x as [E3|] eqn:H3; [|discriminate] end.
        cbn [mbind option_bind] in Heq. injection Heq as <-.
        apply (purges_under_lock_from _ _ _ _ _ _ _ _ _ [EvTryGCLock true] H3).
        -- destruct E as [[] ? ?]. reflexivity.
        -- reflexivity.
        -- destruct E as [[] ? ?]. exact Hp.
      * cbn [negb].
        destruct ((0 <? GNumRetriesBeforeForcingGC C)%Z
                  && (GNumRetriesBeforeForcingGC C
                      <? GNumAttemptsSinceLastGC (on_GC (emit (EvTryGCLock false)) E))%Z);
          [|discriminate].
        intros Heq.
        match type of Heq with (?x ≫= _) = _ =>
          destruct x as [E3|] eqn:H3; [|discriminate] end.
        cbn [mbind option_bind] in Heq. injection Heq as <-.
        apply (purges_under_lock_from _ _ _ _ _ _ _ _ _ [EvTryGCLock false; EvGCLock] H3).
        -- destruct E as [[] ? ?]. cbn. rewrite <- app_assoc. reflexivity.
        -- reflexivity.
        -- destruct E as [[] ? ?]. exact Hp.
Qed.

(** The theorem at four engines.  From a pipeline at rest a full
    collection broadcasts the post-purge delegate, after the lock was
    released.  When only the memory trim of an incremental purge is left
    (its last tick), the cycle trims under the lock and broadcasts nothing
    there.  When the purge of the object 5 is still required, the cycle
    finishes it first, and broadcasts the post-purge delegate under the
    lock; during initial load, and when TryCollectGarbage finds the lock
    taken, that purge is left alone. *)
Lemma post_phase_broadcasts_outside_lock_witness :
  (exists E',
     CollectGarbage never_exceeded always_ready default_config 0 true 5
       (idle_engine no_purge) = Some E'
     /\ In (Broadcast PostPurgeGarbage) (new_events (GC (idle_engine no_purge)) (GC E'))
     /\ ~ broadcast_under_lock false PostPurgeGarbage
            (new_events (GC (idle_engine no_purge)) (GC E')))
  /\ (exists E',
        CollectGarbage never_exceeded always_ready default_config 0 false 5
          (idle_engine (exit_settled 0 0 [])) = Some E'
        /\ IsIncrementalPurgePending (exit_settled 0 0 []) = true
        /\ ~ broadcast_under_lock false PostPurgeGarbage
               (new_events (GC (idle_engine (exit_settled 0 0 []))) (GC E')))
  /\ (exists E',
        CollectGarbage never_exceeded always_ready default_config 0 false 5
          (idle_engine (fresh_purge [5])) = Some E'
        /\ broadcast_under_lock false PostPurgeGarbage
             (new_events (GC (idle_engine (fresh_purge [5]))) (GC E')))
  /\ (exists E',
        CollectGarbage never_exceeded always_ready initial_load_config 0 false 5
          (idle_engine (fresh_purge [5])) = Some E'
        /\ ~ broadcast_under_lock false PostPurgeGarbage
               (new_events (GC (idle_engine (fresh_purge [5]))) (GC E')))
  /\ (exists E',
        TryCollectGarbage never_exceeded always_ready default_config 0 false 5
          (busy_engine (fresh_purge [5]) 3) = Some (E', false)
        /\ ~ broadcast_under_lock false PostPurgeGarbage
               (new_events (GC (busy_engine (fresh_purge [5]) 3)) (GC E'))).
Proof.
  split; [|split; [|split; [|split]]].
  - eexists. split; [vm_compute; reflexivity|].
    split; [vm_compute; tauto|].
    destruct (post_phase_broadcasts_outside_lock never_exceeded always_ready default_config
                0 true 5 (idle_engine no_purge) PostPurgeGarbage eq_refl) as [H _].
    destruct H as [H _]; [intros _; right; reflexivity|].
    apply H. vm_compute. reflexivity.
  - eexists. split; [vm_compute; reflexivity|]. split; [reflexivity|].
    destruct (post_phase_broadcasts_outside_lock never_exceeded always_ready default_config
                0 false 5 (idle_engine (exit_settled 0 0 [])) PostPurgeGarbage eq_refl)
      as [H _].
    destruct H as [H _]; [intros _; right; reflexivity|].
    apply H. vm_compute. reflexivity.
  - eexists. split; [vm_compute; reflexivity|].
    destruct (post_phase_broadcasts_outside_lock never_exceeded always_ready default_config
                0 false 5 (idle_engine (fresh_purge [5])) PostPurgeGarbage eq_refl)
      as [_ [_ H]].
    destruct H as [H _]; [reflexivity|reflexivity|].
    apply H. vm_compute. reflexivity.
  - eexists. split; [vm_compute; reflexivity|].
    destruct (post_phase_broadcasts_outside_lock never_exceeded always_ready
                initial_load_config 0 false 5 (idle_engine (fresh_purge [5]))
                PostPurgeGarbage eq_refl) as [H _].
    destruct H as [H _]; [intros _; left; reflexivity|].
    apply H. vm_compute. reflexivity.
  - eexists. split; [vm_compute; reflexivity|].
    destruct (post_phase_broadcasts_outside_lock never_exceeded always_ready
                default_config 0 false 5 (busy_engine (fresh_purge [5]) 3)
                PostPurgeGarbage eq_refl) as [_ [H _]].
    apply H. vm_compute. reflexivity.
Defined.

(** C6 as stated fails when a purge is still required at entry: the cycle
    finishes it before reachability analysis, with the lock held, and the
    post-purge delegate is broadcast at its end. *)
Lemma post_purge_broadcast_under_lock :
  exists E',
    CollectGarbage never_exceeded always_ready default_config 0 false 5
      (idle_engine (fresh_purge [5])) = Some E'
    /\ broadcast_under_lock false PostPurgeGarbage
         (new_events (GC (idle_engine (fresh_purge [5]))) (GC E')).
Proof.
  eexists. split; [vm_compute; reflexivity|].
  exists [EvGCLock; Broadcast PreGarbageCollect;
          Broadcast PreGarbageCollectConditionalBeginDestroy; ConditionalBeginDestroy 5;
          Broadcast PostGarbageCollectConditionalBeginDestroy; ConditionalFinishDestroy 5;
          Destructor 5; FreeUObject 5].
  eexists. split; vm_compute; reflexivity.
Qed.

(** C10.  During initial load CollectGarbage and TryCollectGarbage return at
    once: the engine they return is the one they were given, with the gate,
    the pipeline and the trace of calls (no lock operation, no collection)
    as they were, and TryCollectGarbage returns false. *)
Theorem initial_load_skips_collection clk rdy C keep full fuel E :
  GIsInitialLoad C = true ->
  CollectGarbage clk rdy C keep full fuel E = Some E
  /\ TryCollectGarbage clk rdy C keep full fuel E = Some (E, false).
Proof.
  intros H. unfold CollectGarbage, TryCollectGarbage. rewrite H. split; reflexivity.
Qed.

(** The theorem on an engine whose gate another thread holds, with a purge
    pending. *)
Lemma initial_load_skips_collection_witness :
  CollectGarbage never_exceeded always_ready initial_load_config 0 true 5
    (busy_engine (fresh_purge [5]) 3) = Some (busy_engine (fresh_purge [5]) 3)
  /\ TryCollectGarbage never_exceeded always_ready initial_load_config 0 true 5
       (busy_engine (fresh_purge [5]) 3) = Some (busy_engine (fresh_purge [5]) 3, false).
Proof.
  apply (initial_load_skips_collection never_exceeded always_ready initial_load_config
           0 true 5 (busy_engine (fresh_purge [5]) 3)).
  reflexivity.
Defined.

(** *** A collection returns *)











End CoordinatorProofs.

(* ===================================================================== *)
(** ** The work-stealing queue: the owner sees a stack *)
(* ===================================================================== *)

Module WorkStealingProofs.
Import WorkStealing.

Lemma uint32_small x : 0 <= x < 2 ^ 32 -> uint32 x = x.
Proof. intros H. unfold uint32. apply Z.mod_small. exact H. Qed.

Lemma uint32_minus_one : uint32 (-1) = 2 ^ 32 - 1.
Proof. reflexivity. Qed.

Lemma head_of_next (m : nat) : (m <= 16)%nat -> uint32 (uint32 (Z.of_nat m - 1) + 1) = Z.of_nat m.
Proof.
  intros Hm. destruct m as [|m].
  - reflexivity.
  - rewrite (uint32_small (Z.of_nat (S m) - 1)), uint32_small;
      change (2 ^ 32) with 4294967296; lia.
Qed.

Lemma slot_index (m : nat) : (m < 16)%nat -> Z.to_nat (Z.of_nat m mod Capacity) = m.
Proof.
  intros Hm. unfold Capacity. rewrite Z.mod_small by lia. lia.
Qed.

Lemma Forall_is_block_lookup st i x :
  Forall is_block st -> st !! i = Some x -> TakenSlot < x.
Proof. intros H Hl. apply (Forall_lookup_1 _ _ _ _ H Hl). Qed.

(** Push on the queue of a stack is push on the stack. *)
Lemma Push_queue_of st b :
  Forall is_block st -> is_block b -> Push b (queue_of st) = queue_of (st ++ [b]).
Proof.
  intros Hst Hb. unfold Push, BoundedPush, queue_of, LoadSlot, StoreSlot.
  cbn [SharedBlocks LocalBlocks Head Tail Slots].
  destruct (le_lt_dec 16 (length st)) as [Hfull|Hroom].
  - (* the bounded queue is full: slot 0 holds the first block *)
    rewrite Nat.min_r by lia. rewrite head_of_next by lia.
    change (Z.to_nat (Z.of_nat 16 mod Capacity)) with 0%nat.
    assert (Hx : exists x, (take 16 st ++ replicate (16 - length st) FreeSlot) !! 0%nat
                           = Some x /\ TakenSlot < x).
    { destruct st as [|x st]; [simpl in Hfull; lia|]. exists x.
      split; [reflexivity|]. inversion Hst; assumption. }
    destruct Hx as (x & -> & Hx). cbn [default from_option id].
    replace (x =? FreeSlot) with false
      by (symmetry; apply Z.eqb_neq; unfold TakenSlot, FreeSlot in *; lia).
    cbn [SharedBlocks LocalBlocks].
    rewrite length_app. cbn [length].
    rewrite Nat.min_r by lia.
    rewrite take_app_le by lia.
    rewrite drop_app_le by lia.
    replace (16 - (length st + 1))%nat with 0%nat by lia.
    replace (16 - length st)%nat with 0%nat by lia.
    reflexivity.
  - (* there is room: the block goes into slot [length st] *)
    rewrite Nat.min_l by lia. rewrite head_of_next by lia.
    rewrite slot_index by lia.
    rewrite take_ge by lia.
    assert (Hfree : (st ++ replicate (16 - length st) FreeSlot) !! length st = Some FreeSlot).
    { rewrite lookup_app_r by lia. rewrite Nat.sub_diag.
      destruct (16 - length st)%nat eqn:E; [lia|reflexivity]. }
    rewrite Hfree. cbn [default from_option id]. rewrite Z.eqb_refl.
    cbn [SharedBlocks LocalBlocks Head Tail Slots].
    rewrite length_app. cbn [length].
    rewrite Nat.min_l by lia.
    rewrite (take_ge (st ++ [b])) by (rewrite length_app; cbn [length]; lia).
    rewrite drop_ge by lia.
    rewrite (drop_ge (st ++ [b])) by (rewrite length_app; cbn [length]; lia).
    f_equal. f_equal.
    + rewrite uint32_small; change (2 ^ 32) with 4294967296; lia.
    + replace (length st) with (length st + 0)%nat at 1 by lia.
      rewrite insert_app_r.
      destruct (16 - length st)%nat as [|k] eqn:E; [lia|].
      replace (16 - (length st + 1))%nat with k by lia.
      cbn. rewrite <- app_assoc. reflexivity.
Qed.
Lemma exists_last_or_nil (st : list Z) : st = [] \/ exists st' x, st = st' ++ [x].
Proof.
  destruct st as [|y st] using rev_ind; [left; reflexivity|right; eauto].
Qed.

(** With the bounded queue full, no block moves out of the overflow. *)
Lemma Refill_full k Local st :
  Forall is_block st -> (16 <= length st)%nat ->
  Refill k Local (SharedBlocks (queue_of st)) = (k, SharedBlocks (queue_of st)).
Proof.
  intros Hst Hfull. destruct k as [|k]; [reflexivity|].
  cbn [Refill]. unfold BoundedPush, queue_of, LoadSlot.
  cbn [SharedBlocks Head Tail Slots].
  rewrite Nat.min_r by lia. rewrite head_of_next by lia.
  change (Z.to_nat (Z.of_nat 16 mod Capacity)) with 0%nat.
  assert (Hx : exists x, (take 16 st ++ replicate (16 - length st) FreeSlot) !! 0%nat
                         = Some x /\ TakenSlot < x).
  { destruct st as [|x st]; [simpl in Hfull; lia|]. exists x.
    split; [reflexivity|]. inversion Hst; assumption. }
  destruct Hx as (x & -> & Hx). cbn [default from_option id].
  replace (x =? FreeSlot) with false
    by (symmetry; apply Z.eqb_neq; unfold TakenSlot, FreeSlot in *; lia).
  reflexivity.
Qed.

(** Pop on the queue of a stack is pop on the stack. *)
Lemma Pop_queue_of st :
  Forall is_block st -> Pop (queue_of st) = (queue_of (removelast st), List.last st 0).
Proof.
  intros Hst. destruct (exists_last_or_nil st) as [->|(st' & x & ->)].
  - reflexivity.
  - rewrite removelast_last, last_last.
    apply Forall_app in Hst as [Hst' Hx]. apply List.Forall_inv in Hx.
    destruct (le_lt_dec 16 (length st')) as [Hfull|Hroom].
    + (* the block comes from the overflow *)
      unfold Pop.
      assert (HL : LocalBlocks (queue_of (st' ++ [x])) = drop 16 st' ++ [x]).
      { unfold queue_of. cbn [LocalBlocks]. apply drop_app_le. lia. }
      assert (HS : SharedBlocks (queue_of (st' ++ [x])) = SharedBlocks (queue_of st')).
      { unfold queue_of. cbn [SharedBlocks]. rewrite length_app. cbn [length].
        rewrite !Nat.min_r by lia. rewrite take_app_le by lia.
        replace (16 - (length st' + 1))%nat with 0%nat by lia.
        replace (16 - length st')%nat with 0%nat by lia. reflexivity. }
      rewrite HL, HS, length_app. cbn [length].
      replace (length (drop 16 st') + 1)%nat with (S (length (drop 16 st'))) by lia.
      rewrite (Refill_full _ _ st' Hst' Hfull).
      rewrite take_app_length.
      rewrite app_nth2 by lia. rewrite Nat.sub_diag. cbn [nth].
      reflexivity.
    + (* the block comes from the bounded queue *)
      unfold Pop, BoundedPop, queue_of, LoadSlot, StoreSlot.
      cbn [SharedBlocks LocalBlocks Head Tail Slots].
      rewrite (drop_ge (st' ++ [x])) by (rewrite length_app; cbn [length]; lia).
      cbn [length].
      rewrite length_app. cbn [length].
      rewrite Nat.min_l by lia.
      replace (Z.of_nat (length st' + 1) - 1) with (Z.of_nat (length st')) by lia.
      rewrite (uint32_small (Z.of_nat (length st')))
        by (change (2 ^ 32) with 4294967296; lia).
      rewrite slot_index by lia.
      rewrite (take_ge (st' ++ [x])) by (rewrite length_app; cbn [length]; lia).
      assert (Hslot : ((st' ++ [x]) ++ replicate (16 - (length st' + 1)) FreeSlot)
                        !! length st' = Some x).
      { rewrite <- app_assoc. rewrite lookup_app_r by lia. rewrite Nat.sub_diag. reflexivity. }
      rewrite Hslot. cbn [default from_option id].
      replace (TakenSlot <? x) with true by (symmetry; apply Z.ltb_lt; exact Hx).
      cbn [Head Tail Slots].
      rewrite Nat.min_l by lia. rewrite take_ge by lia. rewrite drop_ge by lia.
      f_equal. f_equal. f_equal.
      rewrite <- app_assoc.
      replace (length st') with (length st' + 0)%nat at 1 by lia.
      rewrite insert_app_r. cbn.
      replace (16 - length st')%nat with (S (16 - (length st' + 1))) by lia.
      reflexivity.
Qed.

(** The owner's operations on the queue of a stack are the operations on
    the stack. *)
Lemma run_queue_of ops : forall st,
  Forall valid_op ops -> Forall is_block st ->
  run ops (queue_of st) = (queue_of (run_stack ops st).1, (run_stack ops st).2).
Proof.
  induction ops as [|[b|] ops IH]; intros st Hops Hst.
  - reflexivity.
  - apply Forall_cons in Hops as [Hb Hops]. cbn [run run_stack].
    rewrite Push_queue_of by assumption.
    apply IH; [assumption|]. apply Forall_app. split; [assumption|]. constructor; [exact Hb|constructor].
  - apply Forall_cons in Hops as [_ Hops]. cbn [run run_stack].
    rewrite Pop_queue_of by assumption.
    assert (Hrl : Forall is_block (removelast st)).
    { destruct (exists_last_or_nil st) as [->|(st' & x & ->)]; [constructor|].
      rewrite removelast_last. apply Forall_app in Hst. tauto. }
    rewrite (IH _ Hops Hrl).
    destruct (run_stack ops (removelast st)). reflexivity.
Qed.

Lemma BoundedSteal_empty fuel Q :
  BoundedIsEmpty Q = true -> BoundedSteal (S fuel) Q = Some (Q, 0).
Proof.
  intros He. cbn [BoundedSteal].
  assert (Hs : LoadSlot Q (Tail Q mod Capacity) = FreeSlot).
  { unfold LoadSlot. destruct (Slots Q !! Z.to_nat (Tail Q mod Capacity)) as [v|] eqn:Hl;
      [|reflexivity].
    cbn [default from_option id]. unfold BoundedIsEmpty in He.
    rewrite forallb_forall in He. apply Z.eqb_eq. apply He.
    apply list_elem_of_In. apply (list_elem_of_lookup_2 _ _ _ Hl). }
  rewrite Hs. reflexivity.
Qed.

(** C9.  A sequence of Push and Pop by the owner, on a queue that nobody
    else touches and with work blocks for arguments, returns what the same
    sequence returns on a stack: each Pop gives the most recently pushed
    block that no Pop has removed, whether it was kept in the bounded queue
    or, that one being full, in the owner's overflow, and nullptr when there
    is none; and the queue is left as the queue of the stack.  A Steal on a
    queue that holds no block returns nullptr in its first round and leaves
    the queue as it was. *)
Theorem owner_pops_lifo_and_empty_steal ops Q fuel :
  Forall valid_op ops ->
  IsEmpty Q = true ->
  run ops NewQueue = (queue_of (run_stack ops []).1, (run_stack ops []).2)
  /\ Steal (S fuel) Q = Some (Q, 0).
Proof.
  intros Hops He. split.
  - apply (run_queue_of ops [] Hops). constructor.
  - unfold IsEmpty in He. apply andb_prop in He as [He _].
    unfold Steal. rewrite (BoundedSteal_empty fuel _ He).
    cbn [mbind option_bind]. destruct Q; reflexivity.
Qed.

(** The theorem at eighteen pushes followed by pops that reach back into the
    bounded queue. *)
Lemma owner_pops_lifo_and_empty_steal_witness :
  (run owner_ops NewQueue).2 = [117; 116; 115; 7; 114]
  /\ Steal 1 NewQueue = Some (NewQueue, 0).
Proof.
  destruct (owner_pops_lifo_and_empty_steal owner_ops NewQueue 0) as [H1 H2].
  - unfold owner_ops. cbn. repeat constructor.
  - reflexivity.
  - split; [rewrite H1; vm_compute; reflexivity|exact H2].
Defined.

End WorkStealingProofs.

(* ===================================================================== *)
(** ** The reachability processor: killable references *)
(* ===================================================================== *)

Module ReachabilityProofs.
Import ObjectFlags Reachability.

Section Killable.

Context {F : EInternalObjectFlags}.
Variable Options : EGCOptions.
Variable PermanentPoolContains : Z -> bool.
Variable IsObjectHandleResolved : Z -> bool.
Variable ObjectToIndex : Z -> Z.



End Killable.


End ReachabilityProofs.

(* ===================================================================== *)
(** ** The stripes of the parallel sweeps *)
(* ===================================================================== *)

Module StripesProofs.
Import Stripes.

Section Cover.

Variable ArrayNum : Z.
Variable FirstIndex : Z.
Variable NumThreads : Z.
Hypothesis Hthreads : 1 <= NumThreads.
Hypothesis Hfirst : 0 <= FirstIndex <= ArrayNum.

Lemma per_thread_positive :
  1 <= NumberOfObjectsPerThread ArrayNum FirstIndex NumThreads.
Proof.
  unfold NumberOfObjectsPerThread, MaxNumberOfObjects.
  rewrite Z.quot_div_nonneg by lia.
  assert (0 <= (ArrayNum - FirstIndex) / NumThreads) by (apply Z.div_pos; lia). lia.
Qed.

Lemma per_thread_covers :
  ArrayNum - FirstIndex
  < NumThreads * NumberOfObjectsPerThread ArrayNum FirstIndex NumThreads.
Proof.
  unfold NumberOfObjectsPerThread, MaxNumberOfObjects.
  rewrite Z.quot_div_nonneg by lia.
  assert (H := Z.mul_succ_div_gt (ArrayNum - FirstIndex) NumThreads ltac:(lia)).
  lia.
Qed.

Lemma in_indices t i :
  In i (indices ArrayNum FirstIndex NumThreads t)
  <-> FirstObjectIndex ArrayNum FirstIndex NumThreads t <= i
      <= LastObjectIndex ArrayNum FirstIndex NumThreads t.
Proof.
  unfold indices. rewrite in_map_iff. split.
  - intros (k & <- & Hk). apply in_seq in Hk. lia.
  - intros Hi.
    exists (Z.to_nat (i - FirstObjectIndex ArrayNum FirstIndex NumThreads t)).
    split; [lia|]. apply in_seq. lia.
Qed.

Lemma NoDup_indices t : NoDup (indices ArrayNum FirstIndex NumThreads t).
Proof.
  unfold indices. apply NoDup_fmap_2; [|apply NoDup_seq].
  intros a b H. lia.
Qed.

(** The worker whose stripe holds the index [i]. *)
Lemma stripe_of_index t i :
  0 <= t < NumThreads -> FirstIndex <= i < ArrayNum ->
  In i (indices ArrayNum FirstIndex NumThreads t)
  <-> t = Z.min ((i - FirstIndex) / NumberOfObjectsPerThread ArrayNum FirstIndex NumThreads)
                (NumThreads - 1).
Proof.
  intros Ht Hi. rewrite in_indices.
  assert (HP := per_thread_positive). assert (HC := per_thread_covers).
  unfold LastObjectIndex, FirstObjectIndex, NumObjects, MaxNumberOfObjects.
  set (P := NumberOfObjectsPerThread ArrayNum FirstIndex NumThreads) in *.
  assert (Hq := Z.div_mod (i - FirstIndex) P ltac:(lia)).
  assert (Hr := Z.mod_pos_bound (i - FirstIndex) P ltac:(lia)).
  set (q := (i - FirstIndex) / P) in *. set (r := (i - FirstIndex) mod P) in *.
  destruct (t <? NumThreads - 1) eqn:Hlast;
    [apply Z.ltb_lt in Hlast|apply Z.ltb_ge in Hlast]; split; intros H; nia.
Qed.

(** Every index from [FirstIndex] on lies in a stripe, and the stripes hold
    nothing else. *)
Lemma stripes_cover schedule i :
  is_schedule NumThreads schedule ->
  (exists t, In t schedule /\ In i (indices ArrayNum FirstIndex NumThreads t))
  <-> FirstIndex <= i < ArrayNum.
Proof.
  intros Hs.
  assert (Hin : forall t, In t schedule <-> 0 <= t < NumThreads).
  { intros t. unfold is_schedule in Hs. split.
    - intros Ht. apply (Permutation_in _ Hs) in Ht. apply in_map_iff in Ht.
      destruct Ht as (k & <- & Hk). apply in_seq in Hk. lia.
    - intros Ht. apply (Permutation_in _ (Permutation_sym Hs)). apply in_map_iff.
      exists (Z.to_nat t). split; [lia|]. apply in_seq. lia. }
  split.
  - intros (t & Ht & Hi). apply Hin in Ht. apply in_indices in Hi.
    assert (HP := per_thread_positive).
    unfold LastObjectIndex, FirstObjectIndex in Hi. nia.
  - intros Hi.
    exists (Z.min ((i - FirstIndex) / NumberOfObjectsPerThread ArrayNum FirstIndex NumThreads)
                  (NumThreads - 1)).
    assert (HP := per_thread_positive).
    assert (0 <= (i - FirstIndex) / NumberOfObjectsPerThread ArrayNum FirstIndex NumThreads)
      by (apply Z.div_pos; lia).
    split; [apply Hin; lia|]. apply stripe_of_index; [lia|lia|reflexivity].
Qed.

(** The slot of [i] is visited once, by one worker. *)
Lemma slots_once schedule i :
  is_schedule NumThreads schedule ->
  FirstIndex <= i < ArrayNum ->
  exists t p1 p2,
    slots ArrayNum FirstIndex NumThreads schedule = p1 ++ (t, i) :: p2
    /\ (forall q, In q (p1 ++ p2) -> q.2 <> i)
    /\ (forall q, In q (slots ArrayNum FirstIndex NumThreads schedule) ->
                  0 <= q.1 < NumThreads).
Proof.
  intros Hs Hi.
  assert (Hin : forall t, In t schedule <-> 0 <= t < NumThreads).
  { intros t. unfold is_schedule in Hs. split.
    - intros Ht. apply (Permutation_in _ Hs) in Ht. apply in_map_iff in Ht.
      destruct Ht as (k & <- & Hk). apply in_seq in Hk. lia.
    - intros Ht. apply (Permutation_in _ (Permutation_sym Hs)). apply in_map_iff.
      exists (Z.to_nat t). split; [lia|]. apply in_seq. lia. }
  assert (Hnd : List.NoDup schedule).
  { apply (Permutation_NoDup (Permutation_sym Hs)).
    apply NoDup_ListNoDup. apply NoDup_fmap_2; [|apply NoDup_seq].
    intros a b H. lia. }
  destruct (proj2 (stripes_cover schedule i Hs) Hi) as (t & Ht & Hti).
  destruct (in_split _ _ Ht) as (s1 & s2 & ->).
  apply NoDup_remove_2 in Hnd.
  assert (Hndi := NoDup_indices t). apply NoDup_ListNoDup in Hndi.
  destruct (in_split _ _ Hti) as (l1 & l2 & Hl). rewrite Hl in Hndi.
  apply NoDup_remove_2 in Hndi.
  exists t,
    (slots ArrayNum FirstIndex NumThreads s1 ++ map (pair t) l1),
    (map (pair t) l2 ++ slots ArrayNum FirstIndex NumThreads s2).
  assert (Hother : forall s q, (forall t', In t' s -> In t' (s1 ++ s2)) ->
            In q (slots ArrayNum FirstIndex NumThreads s) -> q.2 <> i).
  { intros s q Hsub Hq. unfold slots in Hq. apply in_flat_map in Hq.
    destruct Hq as (t' & Ht' & Hq). apply in_map_iff in Hq. destruct Hq as (j & <- & Hj).
    cbn. intros ->. apply Hnd.
    assert (Hr' : 0 <= t' < NumThreads).
    { apply Hin. apply Hsub in Ht'. apply in_app_iff in Ht'.
      apply in_app_iff. cbn. tauto. }
    assert (Hr : 0 <= t < NumThreads) by (apply Hin; exact Ht).
    apply (stripe_of_index t' i Hr' Hi) in Hj.
    apply (stripe_of_index t i Hr Hi) in Hti.
    replace t with t' by congruence. apply Hsub. exact Ht'. }
  split; [|split].
  - unfold slots. rewrite flat_map_app. cbn [flat_map]. rewrite Hl, map_app. cbn [map].
    rewrite <- !app_assoc. reflexivity.
  - intros q Hq. rewrite !in_app_iff in Hq.
    destruct Hq as [[Hq|Hq]|[Hq|Hq]].
    + apply (Hother s1 q); [|exact Hq]. intros t' H'. apply in_app_iff. tauto.
    + apply in_map_iff in Hq. destruct Hq as (j & <- & Hj). cbn. intros ->.
      apply Hndi. apply in_app_iff. tauto.
    + apply in_map_iff in Hq. destruct Hq as (j & <- & Hj). cbn. intros ->.
      apply Hndi. apply in_app_iff. tauto.
    + apply (Hother s2 q); [|exact Hq]. intros t' H'. apply in_app_iff. tauto.
  - intros q Hq. unfold slots in Hq. apply in_flat_map in Hq.
    destruct Hq as (t' & Ht' & Hq). apply in_map_iff in Hq. destruct Hq as (j & <- & Hj).
    cbn. apply Hin. exact Ht'.
Qed.

End Cover.

End StripesProofs.

(* ===================================================================== *)
(** ** The mark phase: what the sweep does with an entry *)
(* ===================================================================== *)

Module MarkPhaseProofs.
Import ObjectFlags Stripes MarkPhase StripesProofs.

Section Sweep.

Context {F : EInternalObjectFlags}.
Variable GetObjectFlags : Z -> Z.
Variable KeepFlags : Z.
Variable FirstGCIndex : Z.
Variable NumThreads : Z.

Ltac mark_cases :=
  repeat match goal with
         | |- context [match ?c with _ => _ end] => destruct c eqn:?
         end.

Lemma MarkSlot_lengths t j st :
  length (Table (MarkSlot GetObjectFlags KeepFlags t j st)) = length (Table st)
  /\ length (ObjectsToSerializeArrays (MarkSlot GetObjectFlags KeepFlags t j st))
     = length (ObjectsToSerializeArrays st).
Proof.
  unfold MarkSlot, StoreItem, CountObject, LocalAdd, KeepPush, DissolvePush.
  mark_cases; cbn; rewrite ?length_insert, ?length_alter; auto.
Qed.

(** A worker writes no other slot than the one it visits. *)
Lemma MarkSlot_frame t j i st :
  j <> i -> 0 <= i ->
  TableAt (MarkSlot GetObjectFlags KeepFlags t j st) i = TableAt st i.
Proof.
  intros Hne Hi. unfold MarkSlot.
  destruct (TableAt st j) as [Item0|] eqn:Hj; [|reflexivity].
  assert (Hj0 : 0 <= j).
  { unfold TableAt in Hj. destruct (j <? 0) eqn:E; [discriminate|]. apply Z.ltb_ge in E. lia. }
  assert (Hn : Z.to_nat j <> Z.to_nat i) by lia.
  unfold TableAt, StoreItem, CountObject, LocalAdd, KeepPush, DissolvePush.
  mark_cases; cbn; rewrite ?list_lookup_insert_ne by exact Hn; reflexivity.
Qed.

Lemma MarkSlot_initial_mono t j st x :
  In x (InitialObjects st) ->
  In x (InitialObjects (MarkSlot GetObjectFlags KeepFlags t j st)).
Proof.
  assert (Hadd : forall o s, In x (InitialObjects s) ->
            In x (InitialObjects (LocalAdd t o s))).
  { intros o s. unfold InitialObjects, LocalAdd. cbn.
    rewrite !in_concat. intros (l & Hl & Hx).
    apply list_elem_of_In in Hl. apply list_elem_of_lookup in Hl. destruct Hl as [k Hk].
    destruct (decide (k = Z.to_nat t)) as [->|Hne].
    - exists (l ++ [o]). split; [|apply in_app_iff; tauto].
      apply list_elem_of_In. apply list_elem_of_lookup. exists (Z.to_nat t).
      rewrite list_lookup_alter_eq, Hk. reflexivity.
    - exists l. split; [|exact Hx].
      apply list_elem_of_In. apply list_elem_of_lookup. exists k.
      rewrite list_lookup_alter_ne by congruence. exact Hk. }
  intros Hx. unfold MarkSlot.
  mark_cases; try exact Hx; repeat (apply Hadd); exact Hx.
Qed.

Lemma MarkSlot_initial_mono_push st x i :
  In x (InitialObjects st) -> In x (InitialObjects (KeepPush i st)).
Proof. exact (fun H => H). Qed.

Lemma MarkSlot_dissolve_frame t j i st :
  j <> i ->
  In i (ClustersToDissolveList (MarkSlot GetObjectFlags KeepFlags t j st))
  <-> In i (ClustersToDissolveList st).
Proof.
  intros Hne. unfold MarkSlot, StoreItem, CountObject, LocalAdd, KeepPush, DissolvePush.
  mark_cases; cbn; rewrite ?in_app_iff; cbn; try tauto.
Qed.

(** The visit of the slot of a regular object or a cluster root. *)
Lemma MarkSlot_regular t i Item0 st :
  (0 <= t < Z.of_nat (length (ObjectsToSerializeArrays st))) ->
  TableAt st i = Some Item0 ->
  Object Item0 <> 0 ->
  IsRootSet (ClearFlags ReachableInCluster Item0) = false ->
  GetOwnerIndex Item0 <= 0 ->
  let Item := ClearFlags ReachableInCluster Item0 in
  let st' := MarkSlot GetObjectFlags KeepFlags t i st in
  if HasAnyFlags Item GarbageCollectionKeepFlags
     || (negb (IsPendingKill Item) && negb (KeepFlags =? 0)
         && ObjectHasAnyFlags GetObjectFlags (Object Item) KeepFlags)
  then TableAt st' i = Some Item
       /\ In (Object Item0) (InitialObjects st')
       /\ ClustersToDissolveList st' = ClustersToDissolveList st
  else TableAt st' i = Some (SetFlags Unreachable Item)
       /\ ClustersToDissolveList st'
          = ClustersToDissolveList st
            ++ (if HasAnyFlags Item (Z.lor PendingKill Garbage) && HasAnyFlags Item ClusterRoot
                then [i] else []).
Proof.
  intros Ht Hi Hobj Hroot Hown. cbv zeta.
  assert (Hi0 : 0 <= i /\ (Z.to_nat i < length (Table st))%nat).
  { unfold TableAt in Hi. destruct (i <? 0) eqn:E; [discriminate|]. apply Z.ltb_ge in E.
    split; [lia|]. apply lookup_lt_is_Some_1. eauto. }
  destruct Hi0 as [Hi0 Hlen].
  assert (Hadd : forall o s, length (ObjectsToSerializeArrays s)
                             = length (ObjectsToSerializeArrays st) ->
            In o (InitialObjects (LocalAdd t o s))).
  { intros o s Hl. unfold InitialObjects, LocalAdd. cbn. apply in_concat.
    destruct (lookup_lt_is_Some_2 (ObjectsToSerializeArrays s) (Z.to_nat t)) as [l Hl'];
      [lia|].
    exists (l ++ [o]). split; [|apply in_app_iff; cbn; tauto].
    apply list_elem_of_In. apply list_elem_of_lookup. exists (Z.to_nat t).
    rewrite list_lookup_alter_eq, Hl'. reflexivity. }
  unfold MarkSlot. rewrite Hi.
  replace (Object Item0 =? 0) with false by (symmetry; apply Z.eqb_neq; exact Hobj).
  cbn [negb]. rewrite Hroot.
  replace (0 <? GetOwnerIndex (ClearFlags ReachableInCluster Item0)) with false
    by (symmetry; apply Z.ltb_ge; exact Hown).
  unfold ClassifyRegular, RF_NoFlags.
  destruct (HasAnyFlags (ClearFlags ReachableInCluster Item0) GarbageCollectionKeepFlags)
    eqn:Hfast; cbn [orb].
  - cbn [negb]. split; [|split].
    + unfold TableAt, StoreItem, CountObject, LocalAdd, KeepPush.
      replace (i <? 0) with false by (symmetry; apply Z.ltb_ge; lia).
      mark_cases; cbn; apply list_lookup_insert_eq; exact Hlen.
    + destruct (HasAnyFlags (ClearFlags ReachableInCluster Item0) ClusterRoot);
        [apply (MarkSlot_initial_mono_push _)|]; apply Hadd; reflexivity.
    + destruct (HasAnyFlags (ClearFlags ReachableInCluster Item0) ClusterRoot); reflexivity.
  - destruct (negb (IsPendingKill (ClearFlags ReachableInCluster Item0))
              && negb (KeepFlags =? 0)
              && ObjectHasAnyFlags GetObjectFlags
                   (Object (ClearFlags ReachableInCluster Item0)) KeepFlags) eqn:Hkeep.
    + cbn [negb]. split; [|split].
      * unfold TableAt, StoreItem, CountObject, LocalAdd, KeepPush.
        replace (i <? 0) with false by (symmetry; apply Z.ltb_ge; lia).
        mark_cases; cbn; apply list_lookup_insert_eq; exact Hlen.
      * destruct (HasAnyFlags (ClearFlags ReachableInCluster Item0) ClusterRoot);
          [apply (MarkSlot_initial_mono_push _)|]; apply Hadd; reflexivity.
      * destruct (HasAnyFlags (ClearFlags ReachableInCluster Item0) ClusterRoot); reflexivity.
    + destruct (HasAnyFlags (ClearFlags ReachableInCluster Item0) (Z.lor PendingKill Garbage)
                && HasAnyFlags (ClearFlags ReachableInCluster Item0) ClusterRoot);
        cbn [negb]; (split; [|cbn; rewrite ?app_nil_r; reflexivity]);
        unfold TableAt, StoreItem, CountObject, DissolvePush; cbn;
        replace (i <? 0) with false by (symmetry; apply Z.ltb_ge; lia);
        apply list_lookup_insert_eq; rewrite length_insert; exact Hlen.
Qed.

Lemma MarkVisit_fold_lengths p : forall st,
  length (Table (foldl (MarkVisit GetObjectFlags KeepFlags) st p)) = length (Table st)
  /\ length (ObjectsToSerializeArrays (foldl (MarkVisit GetObjectFlags KeepFlags) st p))
     = length (ObjectsToSerializeArrays st).
Proof.
  induction p as [|q p IH]; intros st; [split; reflexivity|].
  cbn [foldl]. destruct (IH (MarkVisit GetObjectFlags KeepFlags st q)) as [-> ->].
  apply MarkSlot_lengths.
Qed.

Lemma MarkVisit_fold_frame i p : forall st,
  (forall q, In q p -> q.2 <> i) -> 0 <= i ->
  TableAt (foldl (MarkVisit GetObjectFlags KeepFlags) st p) i = TableAt st i
  /\ (In i (ClustersToDissolveList (foldl (MarkVisit GetObjectFlags KeepFlags) st p))
      <-> In i (ClustersToDissolveList st)).
Proof.
  induction p as [|q p IH]; intros st Hp Hi; [split; reflexivity|].
  cbn [foldl].
  destruct (IH (MarkVisit GetObjectFlags KeepFlags st q)) as [-> ->];
    [intros q' Hq'; apply Hp; right; exact Hq'|exact Hi|].
  assert (Hq : q.2 <> i) by (apply Hp; left; reflexivity).
  unfold MarkVisit. split; [apply MarkSlot_frame; assumption|].
  apply MarkSlot_dissolve_frame. exact Hq.
Qed.

Lemma MarkVisit_fold_mono x p : forall st,
  In x (InitialObjects st) ->
  In x (InitialObjects (foldl (MarkVisit GetObjectFlags KeepFlags) st p)).
Proof.
  induction p as [|q p IH]; intros st Hx; [exact Hx|].
  cbn [foldl]. apply IH. apply MarkSlot_initial_mono. exact Hx.
Qed.

(** The stripes run one after the other visit the slots one after the
    other. *)
Lemma MarkSweep_visits schedule : forall st,
  foldl (MarkStripe GetObjectFlags KeepFlags FirstGCIndex NumThreads) st schedule
  = foldl (MarkVisit GetObjectFlags KeepFlags) st
      (slots (Z.of_nat (length (Table st))) FirstGCIndex NumThreads schedule).
Proof.
  assert (Hmap : forall t l st,
    foldl (MarkVisit GetObjectFlags KeepFlags) st (map (pair t) l)
    = foldl (fun s i => MarkSlot GetObjectFlags KeepFlags t i s) st l).
  { intros t l. induction l as [|j l IH]; intros st; [reflexivity|]. cbn. apply IH. }
  induction schedule as [|t schedule IH]; intros st; [reflexivity|].
  cbn [foldl]. unfold slots. cbn [flat_map]. rewrite foldl_app, Hmap.
  fold (slots (Z.of_nat (length (Table st))) FirstGCIndex NumThreads schedule).
  rewrite IH. unfold MarkStripe at 1 2.
  rewrite <- Hmap. rewrite (proj1 (MarkVisit_fold_lengths _ st)). reflexivity.
Qed.

(** C2 (amended).  The sweep of the mark phase, with any number of workers
    run in any order, for an entry [i] from the first GC index on that holds
    an object and, with ReachableInCluster cleared as the sweep does first,
    is not in the root set and not a cluster member.  If the entry has one
    of the GarbageCollectionKeepFlags, or is not PendingKill while the
    caller's KeepFlags are not empty and the object has one of them, the
    sweep leaves Unreachable as it was, adds the object to the objects to
    serialize and does not list the entry for dissolution.  Otherwise it
    sets Unreachable, and it lists the entry for dissolution exactly when
    the entry is a cluster root with PendingKill or Garbage: such a root is
    marked unreachable too. *)
Theorem mark_sweep_classifies schedule T i Item0 :
  1 <= NumThreads ->
  is_schedule NumThreads schedule ->
  0 <= FirstGCIndex <= i ->
  T !! Z.to_nat i = Some Item0 ->
  Object Item0 <> 0 ->
  IsRootSet (ClearFlags ReachableInCluster Item0) = false ->
  GetOwnerIndex Item0 <= 0 ->
  (HasAnyFlags (ClearFlags ReachableInCluster Item0) GarbageCollectionKeepFlags
   || (negb (IsPendingKill (ClearFlags ReachableInCluster Item0))
       && negb (KeepFlags =? 0)
       && ObjectHasAnyFlags GetObjectFlags (Object Item0) KeepFlags) = true ->
   Table (MarkSweep GetObjectFlags KeepFlags FirstGCIndex NumThreads schedule T)
     !! Z.to_nat i = Some (ClearFlags ReachableInCluster Item0)
   /\ In (Object Item0)
         (InitialObjects (MarkSweep GetObjectFlags KeepFlags FirstGCIndex NumThreads
                            schedule T))
   /\ ~ In i (ClustersToDissolveList
                (MarkSweep GetObjectFlags KeepFlags FirstGCIndex NumThreads schedule T)))
  /\ (HasAnyFlags (ClearFlags ReachableInCluster Item0) GarbageCollectionKeepFlags
      || (negb (IsPendingKill (ClearFlags ReachableInCluster Item0))
          && negb (KeepFlags =? 0)
          && ObjectHasAnyFlags GetObjectFlags (Object Item0) KeepFlags) = false ->
      Table (MarkSweep GetObjectFlags KeepFlags FirstGCIndex NumThreads schedule T)
        !! Z.to_nat i = Some (SetFlags Unreachable (ClearFlags ReachableInCluster Item0))
      /\ (In i (ClustersToDissolveList
                  (MarkSweep GetObjectFlags KeepFlags FirstGCIndex NumThreads schedule T))
          <-> HasAnyFlags (ClearFlags ReachableInCluster Item0) (Z.lor PendingKill Garbage)
              && HasAnyFlags (ClearFlags ReachableInCluster Item0) ClusterRoot = true)).
Proof.
  intros HT Hs Hfirst Hi Hobj Hroot Hown.
  assert (Hlen : i < Z.of_nat (length T)).
  { apply lookup_lt_Some in Hi. lia. }
  unfold MarkSweep. rewrite MarkSweep_visits. cbn [Table].
  destruct (slots_once (Z.of_nat (length T)) FirstGCIndex NumThreads HT ltac:(lia)
              schedule i Hs ltac:(lia)) as (t & p1 & p2 & -> & Hother & Hrange).
  rewrite foldl_app. cbn [foldl].
  set (st0 := mkMark T (replicate (Z.to_nat NumThreads) []) [] [] 0).
  set (st1 := foldl (MarkVisit GetObjectFlags KeepFlags) st0 p1).
  destruct (MarkVisit_fold_frame i p1 st0) as [Ht1 Hd1];
    [intros q Hq; apply Hother; apply in_app_iff; tauto|lia|].
  fold st1 in Ht1, Hd1.
  assert (Hat : TableAt st1 i = Some Item0).
  { rewrite Ht1. unfold TableAt, st0. cbn.
    replace (i <? 0) with false by (symmetry; apply Z.ltb_ge; lia). exact Hi. }
  assert (Hthread : 0 <= t < Z.of_nat (length (ObjectsToSerializeArrays st1))).
  { unfold st1. rewrite (proj2 (MarkVisit_fold_lengths p1 st0)). unfold st0. cbn.
    rewrite length_replicate.
    specialize (Hrange (t, i)). cbn in Hrange.
    assert (0 <= t < NumThreads) by (apply Hrange; apply in_app_iff; cbn; tauto). lia. }
  assert (Hv := MarkSlot_regular t i Item0 st1 Hthread Hat Hobj Hroot Hown).
  cbv zeta in Hv.
  set (st2 := MarkVisit GetObjectFlags KeepFlags st1 (t, i)).
  change (MarkSlot GetObjectFlags KeepFlags t i st1) with st2 in Hv.
  destruct (MarkVisit_fold_frame i p2 st2) as [Ht2 Hd2];
    [intros q Hq; apply Hother; apply in_app_iff; tauto|lia|].
  assert (Hlook : forall st, TableAt st i = Table st !! Z.to_nat i).
  { intros st. unfold TableAt.
    replace (i <? 0) with false by (symmetry; apply Z.ltb_ge; lia). reflexivity. }
  rewrite <- Hlook, Ht2. rewrite Hd2.
  assert (Hnot : ~ In i (ClustersToDissolveList st1)).
  { rewrite Hd1. unfold st0. cbn. tauto. }
  change (Object (ClearFlags ReachableInCluster Item0)) with (Object Item0) in Hv.
  split; intros Hk; rewrite Hk in Hv.
  - destruct Hv as (Hv1 & Hv2 & Hv3). split; [exact Hv1|].
    split; [apply MarkVisit_fold_mono; exact Hv2|]. rewrite Hv3. exact Hnot.
  - destruct Hv as (Hv1 & Hv2). split; [exact Hv1|]. rewrite Hv2, in_app_iff.
    destruct (HasAnyFlags (ClearFlags ReachableInCluster Item0) (Z.lor PendingKill Garbage)
              && HasAnyFlags (ClearFlags ReachableInCluster Item0) ClusterRoot); cbn.
    + tauto.
    + split; [intros [H|[]]; contradiction|discriminate].
Qed.

End Sweep.

(** The theorem at the three sample entries, swept by two workers, the
    second first: the plain object is marked unreachable. *)
Lemma mark_sweep_classifies_witness :
  Table (MarkSweep (F := EngineFlags) marked_object_flags 1 0 2 [1; 0] marked_table)
    !! 0%nat = Some (mkItem 5000 (2^28) 0)
  /\ ~ In 0 (ClustersToDissolveList
               (MarkSweep (F := EngineFlags) marked_object_flags 1 0 2 [1; 0] marked_table)).
Proof.
  destruct (mark_sweep_classifies (F := EngineFlags) marked_object_flags 1 0 2 [1; 0]
              marked_table 0 (mkItem 5000 0 0)) as [_ H].
  - lia.
  - unfold is_schedule. cbn. apply perm_swap.
  - lia.
  - reflexivity.
  - cbn. lia.
  - reflexivity.
  - cbn. lia.
  - destruct H as [H1 H2]; [reflexivity|]. split; [exact H1|].
    intros Hin. apply H2 in Hin. discriminate Hin.
Defined.

(** C2 as stated fails on the second sample entry: the caller's KeepFlags
    are not empty and the object has one of them, but the entry is
    PendingKill, and the sweep marks it unreachable and does not add the
    object to the objects to serialize.  The third entry is listed for
    dissolution and marked unreachable as well. *)
Lemma mark_sweep_pending_kill_not_kept :
  negb (1 =? 0) && ObjectHasAnyFlags marked_object_flags 5001 1 = true
  /\ Table (MarkSweep (F := EngineFlags) marked_object_flags 1 0 2 [1; 0] marked_table)
     = [mkItem 5000 (2^28) 0; mkItem 5001 (2^29 + 2^28) 0;
        mkItem 5002 (2^29 + 2^24 + 2^28) (-1)]
  /\ InitialObjects
       (MarkSweep (F := EngineFlags) marked_object_flags 1 0 2 [1; 0] marked_table) = []
  /\ ClustersToDissolveList
       (MarkSweep (F := EngineFlags) marked_object_flags 1 0 2 [1; 0] marked_table) = [2].
Proof. repeat split. Qed.

End MarkPhaseProofs.

(* ===================================================================== *)
(** ** GatherUnreachableObjects: the stripes and the destroyed clusters *)
(* ===================================================================== *)

Module GatherProofs.
Import ObjectFlags Stripes Gather StripesProofs.

Section Phases.

Context {F : EInternalObjectFlags}.
Variable GExitPurge : bool.
Variable FirstGCIndex : Z.
Variable NumThreads : Z.

(** *** The stripes *)

Lemma GatherSlot_fold T l : forall u c,
  foldl (GatherSlot T) (u, c) l
  = (u ++ List.filter (unreachable_at T) l, c ++ List.filter (unreachable_root_at T) l).
Proof.
  induction l as [|i l IH]; intros u c; cbn [foldl List.filter].
  - rewrite !app_nil_r. reflexivity.
  - unfold GatherSlot at 2, unreachable_at at 1, unreachable_root_at at 1.
    destruct (IndexToObject T i) as [Item|]; [|apply IH].
    destruct (IsUnreachable Item); cbn [andb fst snd]; [|apply IH].
    destruct (HasAnyFlags Item ClusterRoot); rewrite IH, <- !app_assoc; reflexivity.
Qed.

Lemma root_filter_nil T l :
  List.filter (unreachable_at T) l = [] -> List.filter (unreachable_root_at T) l = [].
Proof.
  induction l as [|i l IH]; cbn [List.filter]; [reflexivity|].
  unfold unreachable_at at 1, unreachable_root_at at 1.
  destruct (IndexToObject T i) as [Item|]; [|exact IH].
  destruct (IsUnreachable Item); cbn [andb]; [discriminate|exact IH].
Qed.

Lemma GatherStripe_spec st t :
  GatherStripe GExitPurge FirstGCIndex NumThreads st t
  = mkGather (Tables st)
      (GUnreachableObjects st
       ++ List.filter (unreachable_at (Tables st))
            (indices (Z.of_nat (length (GUObjectArray (Tables st))))
                     (FirstIndex GExitPurge FirstGCIndex) NumThreads t))
      (ClusterItemsToDestroy st
       ++ List.filter (unreachable_root_at (Tables st))
            (indices (Z.of_nat (length (GUObjectArray (Tables st))))
                     (FirstIndex GExitPurge FirstGCIndex) NumThreads t)).
Proof.
  unfold GatherStripe. rewrite GatherSlot_fold. cbn [app].
  destruct (List.filter (unreachable_at (Tables st)) _) as [|x u] eqn:Hu.
  - rewrite (root_filter_nil _ _ Hu), !app_nil_r. destruct st; reflexivity.
  - reflexivity.
Qed.

(** The stripes gather the unreachable entries, and the unreachable cluster
    roots, of the slots they visit. *)
Lemma stripes_gather schedule T : forall u c,
  foldl (GatherStripe GExitPurge FirstGCIndex NumThreads) (mkGather T u c) schedule
  = mkGather T
      (u ++ List.filter (unreachable_at T)
              (map snd (slots (Z.of_nat (length (GUObjectArray T)))
                              (FirstIndex GExitPurge FirstGCIndex) NumThreads schedule)))
      (c ++ List.filter (unreachable_root_at T)
              (map snd (slots (Z.of_nat (length (GUObjectArray T)))
                              (FirstIndex GExitPurge FirstGCIndex) NumThreads schedule))).
Proof.
  induction schedule as [|t schedule IH]; intros u c; cbn [foldl].
  - cbn. rewrite !app_nil_r. reflexivity.
  - rewrite GatherStripe_spec. cbn [Tables GUnreachableObjects ClusterItemsToDestroy].
    rewrite IH. unfold slots. cbn [flat_map]. rewrite !map_app, !List.filter_app, !map_map.
    cbn [snd]. rewrite !map_id, <- !app_assoc. reflexivity.
Qed.

(** *** Flags that do not overlap *)

Lemma land_lor_apart f A B : Z.land A B = 0 -> Z.land (Z.lor f A) B = Z.land f B.
Proof.
  intros H. rewrite Z.land_lor_distr_l, H, Z.lor_0_r. reflexivity.
Qed.

Lemma land_clear_apart f A B : Z.land B A = 0 -> Z.land (Z.land f (Z.lnot A)) B = Z.land f B.
Proof.
  intros H. apply Z.bits_inj'. intros n Hn.
  rewrite !Z.land_spec, Z.lnot_spec by exact Hn.
  assert (Hb : Z.testbit (Z.land B A) n = false) by (rewrite H; apply Z.bits_0).
  rewrite Z.land_spec in Hb.
  destruct (Z.testbit f n), (Z.testbit A n), (Z.testbit B n); cbn in *; congruence.
Qed.

Lemma land_set f A : Z.land (Z.lor f A) A = A.
Proof.
  apply Z.bits_inj'. intros n Hn. rewrite Z.land_spec, Z.lor_spec.
  destruct (Z.testbit f n), (Z.testbit A n); reflexivity.
Qed.

Hypothesis Hmasks : masks_separate F.

Lemma ric_SetUnreachable Item :
  HasAnyFlags (SetFlags Unreachable Item) ReachableInCluster
  = HasAnyFlags Item ReachableInCluster.
Proof.
  destruct Hmasks as (_ & H & _). unfold HasAnyFlags, SetFlags. cbn.
  rewrite land_lor_apart by exact H. reflexivity.
Qed.

Lemma ric_ClearRoot Item :
  HasAnyFlags (ClearFlags ClusterRoot Item) ReachableInCluster
  = HasAnyFlags Item ReachableInCluster.
Proof.
  destruct Hmasks as (_ & _ & _ & H). unfold HasAnyFlags, ClearFlags. cbn.
  rewrite land_clear_apart by exact H. reflexivity.
Qed.

Lemma unr_ClearRoot Item :
  IsUnreachable (ClearFlags ClusterRoot Item) = IsUnreachable Item.
Proof.
  destruct Hmasks as (_ & _ & H & _). unfold IsUnreachable, HasAnyFlags, ClearFlags. cbn.
  rewrite land_clear_apart by exact H. reflexivity.
Qed.

Lemma unr_SetUnreachable Item : IsUnreachable (SetFlags Unreachable Item) = true.
Proof.
  destruct Hmasks as (H & _). unfold IsUnreachable, HasAnyFlags, SetFlags. cbn.
  rewrite land_set. apply negb_true_iff. apply Z.eqb_neq. exact H.
Qed.

(** *** The table after the update of an entry *)

Lemma IndexToObject_update j f T i :
  IndexToObject (update_item j f T) i
  = if decide (i = j) then f <$> IndexToObject T i else IndexToObject T i.
Proof.
  unfold update_item, IndexToObject.
  destruct (decide (i = j)) as [->|Hne].
  - destruct (j <? 0) eqn:Hj; [reflexivity|]. cbn. apply list_lookup_alter_eq.
  - destruct (j <? 0) eqn:Hj; [reflexivity|]. cbn.
    destruct (i <? 0) eqn:Hi; [reflexivity|].
    apply Z.ltb_ge in Hj, Hi. apply list_lookup_alter_ne. lia.
Qed.

Lemma clusters_update j f T : GUObjectClusters (update_item j f T) = GUObjectClusters T.
Proof. unfold update_item. destruct (j <? 0); reflexivity. Qed.

Lemma ric_at_update j f T i :
  (forall Item, HasAnyFlags (f Item) ReachableInCluster = HasAnyFlags Item ReachableInCluster) ->
  ric_at (update_item j f T) i = ric_at T i.
Proof.
  intros Hf. unfold ric_at. rewrite IndexToObject_update.
  destruct (decide (i = j)); [|reflexivity].
  destruct (IndexToObject T i); cbn; [rewrite Hf|]; reflexivity.
Qed.

Lemma unr_at_update j f T i :
  (forall Item, IsUnreachable (f Item) = IsUnreachable Item) ->
  unr_at (update_item j f T) i = unr_at T i.
Proof.
  intros Hf. unfold unr_at. rewrite IndexToObject_update.
  destruct (decide (i = j)); [|reflexivity].
  destruct (IndexToObject T i); cbn; [rewrite Hf|]; reflexivity.
Qed.

Lemma owner_at_update j f T i :
  (forall Item, GetOwnerIndex (f Item) = GetOwnerIndex Item) ->
  owner_at (update_item j f T) i = owner_at T i.
Proof.
  intros Hf. unfold owner_at. rewrite IndexToObject_update.
  destruct (decide (i = j)); [|reflexivity].
  destruct (IndexToObject T i); cbn; [rewrite Hf|]; reflexivity.
Qed.

Lemma at_update_ne j f T i :
  i <> j ->
  ric_at (update_item j f T) i = ric_at T i
  /\ unr_at (update_item j f T) i = unr_at T i
  /\ owner_at (update_item j f T) i = owner_at T i.
Proof.
  intros Hne. unfold ric_at, unr_at, owner_at. rewrite IndexToObject_update.
  destruct (decide (i = j)); [contradiction|]. auto.
Qed.

(** *** One member of a destroyed cluster *)

Lemma owner_at_reset m T :
  owner_at (update_item m (SetOwnerIndex 0) T) m = (fun _ => 0) <$> IndexToObject T m.
Proof.
  unfold owner_at. rewrite IndexToObject_update.
  destruct (decide (m = m)); [|contradiction].
  destruct (IndexToObject T m); reflexivity.
Qed.

Lemma unr_at_mark m T :
  unr_at (update_item m (SetFlags Unreachable) T) m = (fun _ => true) <$> IndexToObject T m.
Proof.
  unfold unr_at. rewrite IndexToObject_update.
  destruct (decide (m = m)); [|contradiction].
  destruct (IndexToObject T m); cbn; [rewrite unr_SetUnreachable|]; reflexivity.
Qed.

Lemma GatherClusterObject_step T U1 st m :
  gather_inv T U1 st ->
  gather_inv T U1 (GatherClusterObject st m)
  /\ (is_Some (IndexToObject T m) -> member_gathered T (GatherClusterObject st m) m)
  /\ (forall m', member_gathered T st m' -> member_gathered T (GatherClusterObject st m) m')
  /\ (forall r, r <> m -> root_intact T st r -> root_intact T (GatherClusterObject st m) r)
  /\ GUObjectClusters (Tables (GatherClusterObject st m)) = GUObjectClusters (Tables st).
Proof.
  intros (Hric & Hkeep & Hincl).
  set (T1 := update_item m (SetOwnerIndex 0) (Tables st)).
  assert (Hric1 : forall j, ric_at T1 j = ric_at (Tables st) j)
    by (intros j; apply ric_at_update; reflexivity).
  assert (Hunr1 : forall j, unr_at T1 j = unr_at (Tables st) j)
    by (intros j; apply unr_at_update; reflexivity).
  assert (Hown1 : forall j, j <> m -> owner_at T1 j = owner_at (Tables st) j)
    by (intros j Hj; apply at_update_ne; exact Hj).
  assert (Hcl1 : GUObjectClusters T1 = GUObjectClusters (Tables st))
    by apply clusters_update.
  assert (Hm1 : IndexToObject T1 m = SetOwnerIndex 0 <$> IndexToObject (Tables st) m).
  { unfold T1. rewrite IndexToObject_update. destruct (decide (m = m)); [reflexivity|contradiction]. }
  assert (Hown_m : is_Some (IndexToObject T m) -> owner_at T1 m = Some 0).
  { intros [It HIt]. unfold T1. rewrite owner_at_reset.
    specialize (Hric m). unfold ric_at in Hric. rewrite HIt in Hric.
    destruct (IndexToObject (Tables st) m); [reflexivity|discriminate]. }
  assert (Hown_keep : forall m', owner_at (Tables st) m' = Some 0 -> owner_at T1 m' = Some 0).
  { intros m' H. destruct (decide (m' = m)) as [->|Hne]; [|rewrite Hown1; assumption].
    unfold T1. rewrite owner_at_reset. unfold owner_at in H.
    destruct (IndexToObject (Tables st) m); [reflexivity|discriminate]. }
  unfold GatherClusterObject. fold T1. rewrite Hm1.
  destruct (IndexToObject (Tables st) m) as [Item|] eqn:Hentry; cbn [fmap option_fmap option_map].
  2:{ (* no such entry *)
      unfold gather_inv, member_gathered, root_intact; cbn [Tables GUnreachableObjects];
      split; [|split; [|split; [|split]]].
      - split; [intros j; rewrite Hric1; apply Hric|].
        split; [|exact Hincl]. intros j Hj. rewrite Hunr1. apply Hkeep. exact Hj.
      - intros [It HIt]. specialize (Hric m). unfold ric_at in Hric.
        rewrite HIt, Hentry in Hric. discriminate.
      - intros m' (Ho & Hm). split; [apply Hown_keep; exact Ho|].
        intros Hf. rewrite Hunr1. apply Hm. exact Hf.
      - intros r Hr (Ho & Hc). split; [rewrite Hown1 by exact Hr; exact Ho|].
        rewrite Hcl1. exact Hc.
      - exact Hcl1. }
  change (HasAnyFlags (SetOwnerIndex 0 Item) ReachableInCluster)
    with (HasAnyFlags Item ReachableInCluster).
  assert (Hricm : ric_at T m = Some (HasAnyFlags Item ReachableInCluster)).
  { rewrite <- Hric. unfold ric_at. rewrite Hentry. reflexivity. }
  destruct (HasAnyFlags Item ReachableInCluster) eqn:Hb; cbn [negb].
  - (* ReachableInCluster: only the owner index is reset *)
    unfold gather_inv, member_gathered, root_intact; cbn [Tables GUnreachableObjects];
      split; [|split; [|split; [|split]]].
    + split; [intros j; rewrite Hric1; apply Hric|].
      split; [|exact Hincl]. intros j Hj. rewrite Hunr1. apply Hkeep. exact Hj.
    + intros Hs. split; [apply Hown_m; exact Hs|]. rewrite Hricm. discriminate.
    + intros m' (Ho & Hm). split; [apply Hown_keep; exact Ho|].
      intros Hf. rewrite Hunr1. apply Hm. exact Hf.
    + intros r Hr (Ho & Hc). split; [rewrite Hown1 by exact Hr; exact Ho|].
      rewrite Hcl1. exact Hc.
    + exact Hcl1.
  - (* not ReachableInCluster: marked and listed *)
    set (T2 := update_item m (SetFlags Unreachable) T1).
    assert (Hric2 : forall j, ric_at T2 j = ric_at T1 j)
      by (intros j; apply ric_at_update; apply ric_SetUnreachable).
    assert (Hown2 : forall j, owner_at T2 j = owner_at T1 j)
      by (intros j; apply owner_at_update; reflexivity).
    assert (Hunr2 : forall j, j <> m -> unr_at T2 j = unr_at T1 j)
      by (intros j Hj; apply at_update_ne; exact Hj).
    assert (Hunr_m : unr_at T2 m = Some true).
    { unfold T2. rewrite unr_at_mark, Hm1. reflexivity. }
    assert (Hunr_keep : forall m', unr_at (Tables st) m' = Some true -> unr_at T2 m' = Some true).
    { intros m' H. destruct (decide (m' = m)) as [->|Hne]; [exact Hunr_m|].
      rewrite Hunr2, Hunr1 by exact Hne. exact H. }
    assert (Hcl2 : GUObjectClusters T2 = GUObjectClusters (Tables st)).
    { unfold T2. rewrite clusters_update. exact Hcl1. }
    unfold gather_inv, member_gathered, root_intact; cbn [Tables GUnreachableObjects];
      split; [|split; [|split; [|split]]].
    + split; [intros j; rewrite Hric2, Hric1; apply Hric|].
      split.
      * intros j Hj. assert (Hne : j <> m) by (intros ->; congruence).
        rewrite Hunr2, Hunr1 by exact Hne. destruct (Hkeep j Hj) as [Hu Hin].
        split; [exact Hu|]. rewrite in_app_iff. cbn. rewrite <- Hin. intuition congruence.
      * intros j Hj. apply in_app_iff. left. apply Hincl. exact Hj.
    + intros Hs. split; [rewrite Hown2; apply Hown_m; exact Hs|].
      intros _. split; [exact Hunr_m|]. apply in_app_iff. cbn. tauto.
    + intros m' (Ho & Hm). split; [rewrite Hown2; apply Hown_keep; exact Ho|].
      intros Hf. destruct (Hm Hf) as [Hu Hin].
      split; [apply Hunr_keep; exact Hu|]. apply in_app_iff. tauto.
    + intros r Hr (Ho & Hc). split; [rewrite Hown2, Hown1 by exact Hr; exact Ho|].
      rewrite Hcl2. exact Hc.
    + exact Hcl2.
Qed.

Lemma members_fold T U1 l : forall st,
  gather_inv T U1 st ->
  gather_inv T U1 (foldl GatherClusterObject st l)
  /\ (forall m, In m l -> is_Some (IndexToObject T m) ->
                member_gathered T (foldl GatherClusterObject st l) m)
  /\ (forall m', member_gathered T st m' ->
                 member_gathered T (foldl GatherClusterObject st l) m')
  /\ (forall r, ~ In r l -> root_intact T st r ->
                root_intact T (foldl GatherClusterObject st l) r)
  /\ GUObjectClusters (Tables (foldl GatherClusterObject st l))
     = GUObjectClusters (Tables st).
Proof.
  induction l as [|m l IH]; intros st Hinv; cbn [foldl].
  - split; [exact Hinv|]. split; [intros m []|]. auto.
  - destruct (GatherClusterObject_step T U1 st m Hinv) as (Hinv1 & Hm1 & Hk1 & Hr1 & Hc1).
    destruct (IH _ Hinv1) as (Hinv2 & Hm2 & Hk2 & Hr2 & Hc2).
    split; [exact Hinv2|]. split; [|split; [|split]].
    + intros m' [<-|Hin] Hs; [apply Hk2, Hm1; exact Hs|apply Hm2; assumption].
    + intros m' Hm'. apply Hk2, Hk1, Hm'.
    + intros r Hr Hint. apply Hr2; [cbn in Hr; tauto|].
      apply Hr1; [cbn in Hr; intros ->; tauto|exact Hint].
    + rewrite Hc2. exact Hc1.
Qed.

(** *** One destroyed cluster *)

Lemma DestroyCluster_step T U1 st r :
  gather_inv T U1 st -> root_intact T st r -> is_Some (IndexToObject T r) ->
  gather_inv T U1 (DestroyCluster st r)
  /\ GUObjectClusters (Tables (DestroyCluster st r)) !! cluster_of T r = None
  /\ (forall m, In m (members_of T r) -> is_Some (IndexToObject T m) ->
                member_gathered T (DestroyCluster st r) m)
  /\ (forall m', member_gathered T st m' -> member_gathered T (DestroyCluster st r) m')
  /\ (forall ci, GUObjectClusters (Tables st) !! ci = None ->
                 GUObjectClusters (Tables (DestroyCluster st r)) !! ci = None)
  /\ (forall r', ~ In r' (members_of T r) -> cluster_of T r' <> cluster_of T r ->
                 root_intact T st r' -> root_intact T (DestroyCluster st r) r').
Proof.
  intros Hinv (Hown & Hcl) [Root0 HRoot0].
  set (T1 := update_item r (ClearFlags ClusterRoot) (Tables st)).
  assert (Hric1 : forall j, ric_at T1 j = ric_at (Tables st) j)
    by (intros j; apply ric_at_update; apply ric_ClearRoot).
  assert (Hunr1 : forall j, unr_at T1 j = unr_at (Tables st) j)
    by (intros j; apply unr_at_update; apply unr_ClearRoot).
  assert (Hown1 : forall j, owner_at T1 j = owner_at (Tables st) j)
    by (intros j; apply owner_at_update; reflexivity).
  assert (Hcl1 : GUObjectClusters T1 = GUObjectClusters (Tables st))
    by apply clusters_update.
  set (sta := mkGather T1 (GUnreachableObjects st) (ClusterItemsToDestroy st)).
  assert (Hinva : gather_inv T U1 sta).
  { destruct Hinv as (Hric & Hkeep & Hincl). unfold gather_inv, sta. cbn.
    split; [intros j; rewrite Hric1; apply Hric|]. split; [|exact Hincl].
    intros j Hj. rewrite Hunr1. apply Hkeep. exact Hj. }
  assert (Hentry : exists Root, IndexToObject T1 r = Some Root
                                /\ GetClusterIndex Root = cluster_of T r).
  { rewrite <- Hown1 in Hown. unfold owner_at in Hown.
    rewrite HRoot0 in Hown. unfold cluster_of. rewrite HRoot0.
    destruct (IndexToObject T1 r) as [Root|]; [|discriminate].
    exists Root. split; [reflexivity|]. cbn in Hown. unfold GetClusterIndex, GetOwnerIndex in *.
    congruence. }
  destruct Hentry as (Root & HRoot & Hci).
  unfold DestroyCluster. fold T1. rewrite HRoot, Hci. fold sta.
  assert (Hmembers : Objects (cluster_at T1 (cluster_of T r)) = members_of T r).
  { unfold members_of, cluster_at. rewrite Hcl1, Hcl. reflexivity. }
  rewrite Hmembers.
  destruct (members_fold T U1 (members_of T r) sta Hinva) as (Hinv2 & Hm2 & Hk2 & Hr2 & Hc2).
  set (st2 := foldl GatherClusterObject sta (members_of T r)) in *.
  unfold gather_inv, member_gathered, root_intact, FreeCluster in *.
  cbn [Tables GUnreachableObjects GUObjectArray GUObjectClusters] in *.
  assert (Hproj : forall j,
    ric_at (mkTables (GUObjectArray (Tables st2))
                     (delete (cluster_of T r) (GUObjectClusters (Tables st2)))
                     (bClustersNeedDissolving (Tables st2))) j = ric_at (Tables st2) j
    /\ unr_at (mkTables (GUObjectArray (Tables st2))
                     (delete (cluster_of T r) (GUObjectClusters (Tables st2)))
                     (bClustersNeedDissolving (Tables st2))) j = unr_at (Tables st2) j
    /\ owner_at (mkTables (GUObjectArray (Tables st2))
                     (delete (cluster_of T r) (GUObjectClusters (Tables st2)))
                     (bClustersNeedDissolving (Tables st2))) j = owner_at (Tables st2) j).
  { intros j. repeat split. }
  split; [|split; [|split; [|split; [|split]]]].
  - destruct Hinv2 as (H1 & H2 & H3). split; [|split; [|exact H3]].
    + intros j. rewrite (proj1 (Hproj j)). apply H1.
    + intros j Hj. rewrite (proj1 (proj2 (Hproj j))). apply H2. exact Hj.
  - apply lookup_delete_eq.
  - intros m Hm Hs. destruct (Hm2 m Hm Hs) as [Ho Hu].
    split; [rewrite (proj2 (proj2 (Hproj m))); exact Ho|].
    intros Hf. rewrite (proj1 (proj2 (Hproj m))). apply Hu. exact Hf.
  - intros m' [Ho Hu].
    assert (Ha : owner_at T1 m' = Some 0 /\
                 (ric_at T m' = Some false ->
                  unr_at T1 m' = Some true /\ In m' (GUnreachableObjects st))).
    { split; [rewrite Hown1; exact Ho|]. intros Hf. rewrite Hunr1. apply Hu. exact Hf. }
    destruct (Hk2 m' Ha) as [Ho2 Hu2].
    split; [rewrite (proj2 (proj2 (Hproj m'))); exact Ho2|].
    intros Hf. rewrite (proj1 (proj2 (Hproj m'))). apply Hu2. exact Hf.
  - intros ci Hnone. destruct (decide (ci = cluster_of T r)) as [->|Hne].
    + apply lookup_delete_eq.
    + rewrite lookup_delete_ne by congruence. rewrite Hc2. unfold sta. cbn.
      rewrite Hcl1. exact Hnone.
  - intros r' Hnot Hne [Ho' Hc'].
    assert (Ha : owner_at T1 r' = owner_at T r' /\
                 GUObjectClusters T1 !! cluster_of T r' = GUObjectClusters T !! cluster_of T r').
    { split; [rewrite Hown1; exact Ho'|rewrite Hcl1; exact Hc']. }
    destruct (Hr2 r' Hnot Ha) as [Ho2 Hcc2].
    split; [rewrite (proj2 (proj2 (Hproj r'))); exact Ho2|].
    rewrite lookup_delete_ne by congruence. exact Hcc2.
Qed.

(** *** All destroyed clusters *)

Lemma destroy_all T U1 (P : Z -> Prop) :
  clusters_apart T P ->
  (forall r, P r -> is_Some (IndexToObject T r)) ->
  forall l st,
    List.NoDup l -> (forall r, In r l -> P r) ->
    gather_inv T U1 st -> (forall r, In r l -> root_intact T st r) ->
    gather_inv T U1 (foldl DestroyCluster st l)
    /\ (forall r, In r l ->
          GUObjectClusters (Tables (foldl DestroyCluster st l)) !! cluster_of T r = None
          /\ forall m, In m (members_of T r) -> is_Some (IndexToObject T m) ->
                       member_gathered T (foldl DestroyCluster st l) m)
    /\ (forall m', member_gathered T st m' ->
                   member_gathered T (foldl DestroyCluster st l) m')
    /\ (forall ci, GUObjectClusters (Tables st) !! ci = None ->
                   GUObjectClusters (Tables (foldl DestroyCluster st l)) !! ci = None).
Proof.
  intros [Hmem Hdist] Hentries.
  induction l as [|r l IH]; intros st Hnd HP Hinv Hint; cbn [foldl].
  - split; [exact Hinv|]. split; [intros r []|]. auto.
  - inversion Hnd as [|? ? Hnotin Hnd']; subst.
    assert (HPr : P r) by (apply HP; left; reflexivity).
    destruct (DestroyCluster_step T U1 st r Hinv (Hint r ltac:(left; reflexivity))
                (Hentries r HPr)) as (Hinv1 & Hfree1 & Hm1 & Hk1 & Hc1 & Hr1).
    destruct (IH (DestroyCluster st r) Hnd') as (Hinv2 & Hall2 & Hk2 & Hc2).
    + intros r' Hr'. apply HP. right. exact Hr'.
    + exact Hinv1.
    + intros r' Hr'. assert (HPr' : P r') by (apply HP; right; exact Hr').
      apply Hr1.
      * apply Hmem; assumption.
      * apply Hdist; [assumption|assumption|]. intros ->. contradiction.
      * apply Hint. right. exact Hr'.
    + split; [exact Hinv2|]. split; [|split].
      * intros r' [<-|Hr'].
        -- split; [apply Hc2; exact Hfree1|].
           intros m Hm Hs. apply Hk2. apply Hm1; assumption.
        -- apply Hall2. exact Hr'.
      * intros m' Hm'. apply Hk2, Hk1, Hm'.
      * intros ci Hci. apply Hc2, Hc1, Hci.
Qed.

(** *** The slots that the stripes visit *)

Lemma NoDup_once {A} (l : list A) :
  (forall x, In x l -> exists l1 l2, l = l1 ++ x :: l2 /\ ~ In x (l1 ++ l2)) ->
  List.NoDup l.
Proof.
  induction l as [|a l IH]; intros H; constructor.
  - destruct (H a ltac:(left; reflexivity)) as (l1 & l2 & Hl & Hn).
    destruct l1 as [|b l1]; cbn in Hl; inversion Hl; subst.
    + exact Hn.
    + exfalso. apply Hn. left. reflexivity.
  - apply IH. intros x Hx.
    destruct (H x ltac:(right; exact Hx)) as (l1 & l2 & Hl & Hn).
    destruct l1 as [|b l1]; cbn in Hl; inversion Hl; subst.
    + exfalso. apply Hn. exact Hx.
    + exists l1, l2. split; [reflexivity|]. intros Hin. apply Hn. right. exact Hin.
Qed.

Lemma visited_slots ArrayNum First schedule :
  1 <= NumThreads -> 0 <= First <= ArrayNum -> is_schedule NumThreads schedule ->
  (forall i, In i (map snd (slots ArrayNum First NumThreads schedule))
             <-> First <= i < ArrayNum)
  /\ List.NoDup (map snd (slots ArrayNum First NumThreads schedule)).
Proof.
  intros HT HF Hs.
  assert (Hin : forall i, In i (map snd (slots ArrayNum First NumThreads schedule))
                          <-> First <= i < ArrayNum).
  { intros i. rewrite <- (stripes_cover ArrayNum First NumThreads HT HF schedule i Hs).
    unfold slots. rewrite in_map_iff. split.
    - intros ([t j] & <- & Hq). apply in_flat_map in Hq. destruct Hq as (t' & Ht' & Hq).
      apply in_map_iff in Hq. destruct Hq as (j' & [= <- <-] & Hj). eauto.
    - intros (t & Ht & Hi). exists (t, i). split; [reflexivity|].
      apply in_flat_map. exists t. split; [exact Ht|]. apply in_map. exact Hi. }
  split; [exact Hin|].
  apply NoDup_once. intros i Hi. apply Hin in Hi.
  destruct (slots_once ArrayNum First NumThreads HT HF schedule i Hs Hi)
    as (t & p1 & p2 & -> & Hother & _).
  exists (map snd p1), (map snd p2). split; [rewrite map_app; reflexivity|].
  rewrite <- map_app. intros Hin'. apply in_map_iff in Hin'.
  destruct Hin' as (q & Hq & Hq'). apply (Hother q Hq'). exact Hq.
Qed.

(** GatherUnreachableObjects on any table whose destroyed clusters are
    apart, with any number of workers run in any order, and with flag masks
    that do not overlap.  Every entry with the Unreachable flag from the
    first index of the stripes on (the first GC index, or 0 during the exit
    purge) is in GUnreachableObjects.  For every such entry that is a
    cluster root the cluster is freed, and every member of the cluster has
    its owner index reset; a member that is not ReachableInCluster is marked
    Unreachable and is in the list; a member that is ReachableInCluster is
    not marked, and is in the list only if it was unreachable by itself. *)
Lemma gather_stripes_and_clusters schedule T :
  1 <= NumThreads ->
  is_schedule NumThreads schedule ->
  0 <= FirstIndex GExitPurge FirstGCIndex <= Z.of_nat (length (GUObjectArray T)) ->
  clusters_apart T (destroyed_root GExitPurge FirstGCIndex T) ->
  (forall i,
     FirstIndex GExitPurge FirstGCIndex <= i < Z.of_nat (length (GUObjectArray T)) ->
     unreachable_at T i = true ->
     In i (GUnreachableObjects
             (GatherUnreachableObjects GExitPurge FirstGCIndex NumThreads schedule T)))
  /\ (forall r,
        destroyed_root GExitPurge FirstGCIndex T r ->
        GUObjectClusters
          (Tables (GatherUnreachableObjects GExitPurge FirstGCIndex NumThreads schedule T))
          !! cluster_of T r = None
        /\ forall m,
             In m (members_of T r) ->
             (ric_at T m = Some false ->
              owner_at
                (Tables (GatherUnreachableObjects GExitPurge FirstGCIndex NumThreads
                           schedule T)) m = Some 0
              /\ unr_at
                   (Tables (GatherUnreachableObjects GExitPurge FirstGCIndex NumThreads
                              schedule T)) m = Some true
              /\ In m (GUnreachableObjects
                         (GatherUnreachableObjects GExitPurge FirstGCIndex NumThreads
                            schedule T)))
             /\ (ric_at T m = Some true ->
                 owner_at
                   (Tables (GatherUnreachableObjects GExitPurge FirstGCIndex NumThreads
                              schedule T)) m = Some 0
                 /\ unr_at
                      (Tables (GatherUnreachableObjects GExitPurge FirstGCIndex NumThreads
                                 schedule T)) m = unr_at T m
                 /\ (In m (GUnreachableObjects
                             (GatherUnreachableObjects GExitPurge FirstGCIndex NumThreads
                                schedule T))
                     <-> FirstIndex GExitPurge FirstGCIndex <= m
                         < Z.of_nat (length (GUObjectArray T))
                         /\ unreachable_at T m = true))).
Proof.
  intros HT Hs HF Hapart.
  unfold GatherUnreachableObjects. rewrite stripes_gather.
  cbn [ClusterItemsToDestroy app].
  destruct (visited_slots (Z.of_nat (length (GUObjectArray T)))
              (FirstIndex GExitPurge FirstGCIndex) schedule HT HF Hs) as [Hvis Hnd].
  set (idxs := map snd (slots (Z.of_nat (length (GUObjectArray T)))
                              (FirstIndex GExitPurge FirstGCIndex) NumThreads schedule)) in *.
  set (U1 := List.filter (unreachable_at T) idxs).
  set (roots := List.filter (unreachable_root_at T) idxs).
  set (st1 := mkGather T U1 roots).
  assert (Hroots : forall r, In r roots <-> destroyed_root GExitPurge FirstGCIndex T r).
  { intros r. unfold roots, destroyed_root. rewrite List.filter_In, Hvis. reflexivity. }
  assert (HU1 : forall i, In i U1
                <-> FirstIndex GExitPurge FirstGCIndex <= i
                    < Z.of_nat (length (GUObjectArray T)) /\ unreachable_at T i = true).
  { intros i. unfold U1. rewrite List.filter_In, Hvis. reflexivity. }
  assert (Hentry : forall r, destroyed_root GExitPurge FirstGCIndex T r ->
                             is_Some (IndexToObject T r)).
  { intros r [_ Hr]. unfold unreachable_root_at in Hr.
    destruct (IndexToObject T r); [eauto|discriminate]. }
  destruct (destroy_all T U1 (destroyed_root GExitPurge FirstGCIndex T) Hapart Hentry
              roots st1) as ((Hric & Hkeep & Hincl) & Hall & _ & _).
  - apply List.NoDup_filter. exact Hnd.
  - intros r Hr. apply Hroots. exact Hr.
  - unfold gather_inv, st1. cbn. split; [reflexivity|]. split; [|auto].
    intros j _. split; reflexivity.
  - intros r _. split; reflexivity.
  - split.
    + intros i Hi Hu. apply Hincl. apply HU1. split; assumption.
    + intros r Hr. destruct (Hall r (proj2 (Hroots r) Hr)) as [Hfree Hmem].
      split; [exact Hfree|]. intros m Hm.
      assert (Hsome : forall b, ric_at T m = Some b -> is_Some (IndexToObject T m)).
      { intros b Hb. unfold ric_at in Hb. destruct (IndexToObject T m); [eauto|discriminate]. }
      split; intros Hb.
      * destruct (Hmem m Hm (Hsome _ Hb)) as [Ho Hu]. destruct (Hu Hb) as [Hu1 Hu2]. auto.
      * destruct (Hmem m Hm (Hsome _ Hb)) as [Ho _]. destruct (Hkeep m Hb) as [Hu Hin].
        split; [exact Ho|]. split; [exact Hu|]. rewrite Hin. apply HU1.
Qed.

(** An entry that exists has an index of the table. *)
Lemma IndexToObject_range T i Item :
  IndexToObject T i = Some Item -> 0 <= i < Z.of_nat (length (GUObjectArray T)).
Proof.
  unfold IndexToObject. destruct (Z.ltb_spec i 0) as [|Hi]; [discriminate|].
  intros H. apply lookup_lt_Some in H. lia.
Qed.

(** C4.  After reachability analysis, GatherUnreachableObjects, with any
    number of workers run in any order, puts every entry of the object
    table that has the Unreachable flag into GUnreachableObjects; for every
    unreachable cluster root it frees the cluster, and every member of that
    cluster is marked Unreachable and is in the list too.  The table is one
    that reachability analysis leaves: Unreachable is set only from the
    first index of the stripes on, the members of a cluster have its root as
    their owner, and no member of an unreachable root is flagged
    ReachableInCluster; the clusters to destroy are apart and the flag
    masks do not overlap. *)
Theorem gather_collects_after_reachability schedule T :
  1 <= NumThreads ->
  is_schedule NumThreads schedule ->
  0 <= FirstIndex GExitPurge FirstGCIndex <= Z.of_nat (length (GUObjectArray T)) ->
  clusters_apart T (destroyed_root GExitPurge FirstGCIndex T) ->
  after_reachability GExitPurge FirstGCIndex T ->
  (forall i,
     unreachable_at T i = true ->
     In i (GUnreachableObjects
             (GatherUnreachableObjects GExitPurge FirstGCIndex NumThreads schedule T)))
  /\ (forall r,
        unreachable_root_at T r = true ->
        GUObjectClusters
          (Tables (GatherUnreachableObjects GExitPurge FirstGCIndex NumThreads schedule T))
          !! cluster_of T r = None
        /\ forall m,
             In m (members_of T r) ->
             unr_at
               (Tables (GatherUnreachableObjects GExitPurge FirstGCIndex NumThreads
                          schedule T)) m = Some true
             /\ In m (GUnreachableObjects
                        (GatherUnreachableObjects GExitPurge FirstGCIndex NumThreads
                           schedule T))).
Proof.
  intros HT Hs HF Hapart (Hbelow & Howner & Hflagged).
  destruct (gather_stripes_and_clusters schedule T HT Hs HF Hapart) as [Hlist Hroots].
  assert (Hvisited : forall i, unreachable_at T i = true ->
            FirstIndex GExitPurge FirstGCIndex <= i < Z.of_nat (length (GUObjectArray T))).
  { intros i Hu.
    assert (Hrange : 0 <= i < Z.of_nat (length (GUObjectArray T))).
    { unfold unreachable_at in Hu.
      destruct (IndexToObject T i) as [Item|] eqn:HItem; [|discriminate].
      exact (IndexToObject_range T i Item HItem). }
    destruct (Z.lt_ge_cases i (FirstIndex GExitPurge FirstGCIndex)) as [Hlt|Hge]; [|lia].
    rewrite Hbelow in Hu by lia. discriminate. }
  split.
  - intros i Hu. apply Hlist; [apply Hvisited|]; exact Hu.
  - intros r Hr.
    assert (Hu : unreachable_at T r = true).
    { unfold unreachable_root_at in Hr. unfold unreachable_at.
      destruct (IndexToObject T r); [|discriminate].
      apply andb_true_iff in Hr. tauto. }
    assert (Hd : destroyed_root GExitPurge FirstGCIndex T r).
    { split; [apply Hvisited; exact Hu|exact Hr]. }
    destruct (Hroots r Hd) as [Hfree Hmem]. split; [exact Hfree|].
    intros m Hm. destruct (Howner r m Hd Hm) as [Hpos Hown].
    assert (Hric : ric_at T m = Some false).
    { unfold owner_at in Hown. unfold ric_at.
      destruct (IndexToObject T m) as [Item|] eqn:HItem; [|discriminate].
      cbn in Hown |- *. injection Hown as Hown.
      destruct (HasAnyFlags Item ReachableInCluster) eqn:Hflag; [|reflexivity].
      pose proof (Hflagged m Item HItem ltac:(lia) Hflag) as Hlive.
      rewrite Hown in Hlive. congruence. }
    destruct (Hmem m Hm) as [Hnot _]. destruct (Hnot Hric) as (_ & Hmark & Hin).
    split; assumption.
Qed.

End Phases.

(** The sample table is one that reachability analysis leaves. *)
Lemma analysed_tables_after_reachability :
  clusters_apart analysed_tables (destroyed_root (F := EngineFlags) false 1 analysed_tables)
  /\ after_reachability (F := EngineFlags) false 1 analysed_tables.
Proof.
  assert (Hroot : forall r, destroyed_root (F := EngineFlags) false 1 analysed_tables r
                            -> r = 1).
  { intros r [Hr Hu]. cbn in Hr.
    assert (Hc : r = 1 \/ r = 2 \/ r = 3 \/ r = 4 \/ r = 5 \/ r = 6 \/ r = 7) by lia.
    destruct Hc as [ -> | [ -> | [ -> | [ -> | [ -> | [ -> | -> ] ] ] ] ] ];
      first [reflexivity|discriminate Hu]. }
  split; [split|split; [|split]].
  - intros r r' Hr Hr' Hin. apply Hroot in Hr, Hr'. subst.
    vm_compute in Hin. destruct Hin as [H|[H|[]]]; discriminate H.
  - intros r r' Hr Hr' Hne. apply Hroot in Hr, Hr'. subst. contradiction.
  - intros i Hi. unfold FirstIndex in Hi. assert (i = 0) as -> by lia. reflexivity.
  - intros r m Hr Hm. apply Hroot in Hr. subst. split; [lia|].
    vm_compute in Hm. destruct Hm as [<-|[<-|[]]]; reflexivity.
  - intros m Item HItem Hown Hflag.
    pose proof (IndexToObject_range _ _ _ HItem) as Hrange. cbn in Hrange.
    assert (Hc : m = 0 \/ m = 1 \/ m = 2 \/ m = 3 \/ m = 4 \/ m = 5 \/ m = 6 \/ m = 7)
      by lia.
    destruct Hc as [ -> | [ -> | [ -> | [ -> | [ -> | [ -> | [ -> | -> ] ] ] ] ] ] ];
      vm_compute in HItem; injection HItem as <-;
      first [discriminate Hflag|reflexivity].
Qed.

(** The theorem at the sample table, with the first GC index 1 and two
    workers, the second first: the unreachable entries 1 and 4 are listed,
    the cluster 7 of the root 1 is freed, and its members 2 and 3 are marked
    and listed. *)
Lemma gather_collects_after_reachability_witness :
  In 1 (GUnreachableObjects
          (GatherUnreachableObjects (F := EngineFlags) false 1 2 [1; 0] analysed_tables))
  /\ In 4 (GUnreachableObjects
             (GatherUnreachableObjects (F := EngineFlags) false 1 2 [1; 0] analysed_tables))
  /\ GUObjectClusters
       (Tables (GatherUnreachableObjects (F := EngineFlags) false 1 2 [1; 0]
                  analysed_tables)) !! 7 = None
  /\ (forall m, In m [2; 3] ->
        unr_at (F := EngineFlags)
          (Tables (GatherUnreachableObjects (F := EngineFlags) false 1 2 [1; 0]
                     analysed_tables)) m = Some true
        /\ In m (GUnreachableObjects
                   (GatherUnreachableObjects (F := EngineFlags) false 1 2 [1; 0]
                      analysed_tables))).
Proof.
  destruct analysed_tables_after_reachability as [Hapart Hafter].
  destruct (gather_collects_after_reachability (F := EngineFlags) false 1 2) with
    (schedule := [1; 0]) (T := analysed_tables) as [H1 H2].
  - unfold masks_separate. cbn. repeat split; discriminate.
  - lia.
  - unfold is_schedule. cbn. apply perm_swap.
  - cbn. lia.
  - exact Hapart.
  - exact Hafter.
  - split; [apply H1; reflexivity|]. split; [apply H1; reflexivity|].
    destruct (H2 1) as [Hfree Hmem]; [reflexivity|].
    split; [exact Hfree|exact Hmem].
Defined.

End GatherProofs.

(* ===================================================================== *)
(** ** FPageAllocator: the caches keep their shape and lose no page *)
(* ===================================================================== *)

Module PageCacheProofs.
Import PageAllocator PageCache.
Local Open Scope nat_scope.

Lemma IsValidPage_nonzero Page : IsValidPage Page = true -> (Page =? 0)%Z = false.
Proof.
  unfold IsValidPage. intros H. apply andb_true_iff in H as [H _].
  now apply negb_true_iff in H.
Qed.

Lemma held_push W Page :
  Num W < length (Pages W) ->
  held (mkWorkerCache (S (Num W)) (<[Num W := Page]> (Pages W))) = held W ++ [Page].
Proof.
  intros Hlt. unfold held. simpl.
  rewrite (take_S_r _ _ Page) by (now apply list_lookup_insert_eq).
  now rewrite take_insert_ge by lia.
Qed.

Lemma flat_map_held_insert Ws i W W' :
  Ws !! i = Some W ->
  flat_map held (<[i := W']> Ws)
  = flat_map held (take i Ws) ++ held W' ++ flat_map held (drop (S i) Ws).
Proof.
  intros Hi.
  rewrite insert_take_drop by (eapply lookup_lt_Some; eauto).
  rewrite flat_map_app. reflexivity.
Qed.

Lemma flat_map_held_split Ws i W :
  Ws !! i = Some W ->
  flat_map held Ws
  = flat_map held (take i Ws) ++ held W ++ flat_map held (drop (S i) Ws).
Proof.
  intros Hi.
  rewrite <- (take_drop_middle Ws i W Hi) at 1.
  rewrite flat_map_app. reflexivity.
Qed.

Lemma cache_ok_lookup A i W :
  allocator_ok A -> WorkerCaches A !! i = Some W -> cache_ok W.
Proof.
  intros (_ & Hall & _) Hi. rewrite Forall_lookup in Hall. eauto.
Qed.

Lemma allocator_ok_insert A i W' :
  allocator_ok A -> cache_ok W' ->
  allocator_ok (mkAllocator (SharedCache A) (<[i := W']> (WorkerCaches A)) (Freed A)).
Proof.
  intros (Hlen & Hall & Hsh) HW'. repeat split; simpl.
  - now rewrite length_insert.
  - now apply Forall_insert.
  - exact Hsh.
Qed.

Lemma lookup_worker A i :
  allocator_ok A -> i < MaxWorkers -> exists W, WorkerCaches A !! i = Some W.
Proof.
  intros (Hlen & _) Hi. apply lookup_lt_is_Some_2. lia.
Qed.

Lemma last_valid (P : Z -> Prop) l p :
  Forall P l -> last l = Some p ->
  P p /\ l = removelast l ++ [p] /\ Forall P (removelast l).
Proof.
  intros Hall Hlast. apply last_Some in Hlast as [l' ->].
  rewrite removelast_last. apply Forall_app in Hall as [H1 H2].
  inversion H2; subst. auto.
Qed.

Lemma held_valid W n p :
  Forall (fun Page => IsValidPage Page = true) (held W) ->
  Num W = S n -> Pages W !! n = Some p -> IsValidPage p = true.
Proof.
  intros Hall Hn Hp. rewrite Forall_lookup in Hall. apply (Hall n).
  unfold held. rewrite Hn. rewrite lookup_take_lt by lia. exact Hp.
Qed.

Lemma Forall_sub (P : Z -> Prop) (l l' : list Z) :
  (forall k x, l' !! k = Some x -> exists j, l !! j = Some x) ->
  Forall P l -> Forall P l'.
Proof.
  intros Hsub Hall. rewrite Forall_lookup in Hall |- *.
  intros k x Hk. destruct (Hsub k x Hk) as [j Hj]. eauto.
Qed.

Lemma held_bound Ws C :
  Forall (fun W => Num W <= C) Ws -> length (flat_map held Ws) <= length Ws * C.
Proof.
  induction 1 as [|W Ws HW _ IH]; [simpl; lia|].
  cbn [flat_map length]. rewrite length_app. unfold held at 1.
  rewrite length_take. lia.
Qed.

(** The sum that [CountBytes] forms, without the wrap-around. *)
Lemma count_fold Ws : forall n0 : Z,
  (0 <= n0)%Z ->
  (n0 + Z.of_nat (length (flat_map held Ws)) < 2 ^ 64)%Z ->
  Forall (fun W => Num W <= length (Pages W)) Ws ->
  fold_left (fun NumPages W => ((NumPages + Z.of_nat (Num W)) mod 2 ^ 64)%Z) Ws n0
  = (n0 + Z.of_nat (length (flat_map held Ws)))%Z.
Proof.
  induction Ws as [|W Ws IH]; intros n0 H0 Hb Hall; simpl.
  - lia.
  - inversion Hall as [|? ? HW Hall']; subst.
    simpl in Hb. rewrite length_app in Hb.
    assert (Hh : length (held W) = Num W) by (unfold held; rewrite length_take; lia).
    rewrite Z.mod_small by lia.
    rewrite IH; [|lia| |exact Hall'].
    + rewrite length_app. lia.
    + lia.
Qed.

(** [CountBytes] is the page size times the number of pages held, as long
    as the shared pool stays within the int32 range of [TArray::Num]. *)
Lemma CountBytes_cached A :
  allocator_ok A ->
  (Z.of_nat (length (SharedCache A)) < 2 ^ 31)%Z ->
  CountBytes A = (PageSize * Z.of_nat (length (cached_pages A)))%Z.
Proof.
  intros (Hlen & Hall & _) Hsh. unfold CountBytes, cached_pages. cbv zeta.
  assert (Hcap : Forall (fun W => Num W <= length (Pages W)) (WorkerCaches A)).
  { eapply Forall_impl; [exact Hall|]. intros W (H1 & H2 & _). lia. }
  assert (Hb : length (flat_map held (WorkerCaches A)) <= MaxWorkers * Capacity).
  { rewrite <- Hlen. apply held_bound.
    eapply Forall_impl; [exact Hall|]. now intros W (H1 & _). }
  change (MaxWorkers * Capacity) with 512 in Hb.
  change (2 ^ 31)%Z with 2147483648%Z in Hsh.
  rewrite count_fold; [| lia | change (2 ^ 64)%Z with 18446744073709551616%Z; lia | exact Hcap].
  rewrite length_app. unfold PageSize.
  rewrite Z.mod_small; [lia|].
  change (2 ^ 64)%Z with 18446744073709551616%Z. lia.
Qed.

(** X: the checks of FPageAllocator hold throughout.  On an allocator
    whose caches have their shape and hold valid pages, every operation of
    the class returns, and leaves such an allocator; the page that
    [AllocatePage] hands out is valid when the one [FMemory::Malloc] would
    return is. *)
Theorem allocator_ok_preserved A WorkerIdx Page NewPage NumSlowAROs :
  allocator_ok A -> WorkerIdx < MaxWorkers ->
  IsValidPage Page = true -> IsValidPage NewPage = true ->
  (exists A', ReturnWorkerPage WorkerIdx Page A = Some A' /\ allocator_ok A')
  /\ allocator_ok (ReturnSharedPage Page A)
  /\ (exists A' Out, AllocatePage NewPage WorkerIdx A = Some (A', Out)
                     /\ allocator_ok A' /\ IsValidPage Out = true)
  /\ (exists A', PushSurplus NumSlowAROs WorkerIdx A = Some A' /\ allocator_ok A').
Proof.
  intros Hok Hi HP HN.
  destruct (lookup_worker A WorkerIdx Hok Hi) as [W HW].
  pose proof (cache_ok_lookup A WorkerIdx W Hok HW) as (Hnum & Hlen & Hheld).
  split; [|split; [|split]].
  - unfold ReturnWorkerPage. rewrite HW. simpl. unfold WorkerCache_Push.
    destruct (Num W <? Capacity) eqn:Hlt; simpl.
    + apply Nat.ltb_lt in Hlt. eexists. split; [reflexivity|].
      apply allocator_ok_insert; [exact Hok|].
      split; [simpl; lia|]. split; [simpl; now rewrite length_insert|].
      rewrite held_push by lia. apply Forall_app. split; [exact Hheld|].
      now constructor.
    + eexists. split; [reflexivity|].
      destruct Hok as (H1 & H2 & H3). now repeat split.
  - destruct Hok as (H1 & H2 & H3). repeat split; simpl; auto.
    apply Forall_app. split; [exact H3|]. now constructor.
  - unfold AllocatePage. rewrite HW. simpl. unfold WorkerCache_Pop.
    destruct (Num W) as [|n] eqn:HnumW.
    + simpl. unfold SharedCache_Pop.
      destruct (last (SharedCache A)) as [p|] eqn:Hlast.
      * destruct Hok as (H1 & H2 & H3).
        destruct (last_valid _ _ _ H3 Hlast) as (Hp & _ & Hrest).
        rewrite (IsValidPage_nonzero p Hp). simpl.
        eexists _, _. split; [reflexivity|]. split; [|exact Hp].
        repeat split; simpl; auto.
      * simpl. eexists _, _. split; [reflexivity|]. now split.
    + assert (Hlt : n < length (Pages W)) by lia.
      destruct (lookup_lt_is_Some_2 _ _ Hlt) as [p Hp].
      assert (Hvp : IsValidPage p = true) by (eapply held_valid; eauto).
      rewrite Hp. simpl. rewrite (IsValidPage_nonzero p Hvp). simpl.
      eexists _, _. split; [reflexivity|]. split; [|exact Hvp].
      apply allocator_ok_insert; [exact Hok|].
      split; [simpl; lia|]. split; [exact Hlen|].
      unfold held in *. simpl. rewrite HnumW in Hheld.
      rewrite (take_S_r _ _ p) in Hheld by exact Hp.
      now apply Forall_app in Hheld as [Hheld _].
  - unfold PushSurplus. rewrite HW. simpl.
    destruct (S (S NumSlowAROs) <? Num W) eqn:Hlt.
    + apply Nat.ltb_lt in Hlt. eexists. split; [reflexivity|].
      destruct Hok as (H1 & H2 & H3). repeat split; simpl.
      * now rewrite length_insert.
      * apply Forall_insert; [exact H2|].
        split; [simpl; lia|]. split; [exact Hlen|].
        unfold held in *. simpl.
        eapply Forall_sub; [|exact Hheld]. intros k x Hk. exists k.
        apply lookup_take_Some in Hk as [Hk Hk2].
        rewrite lookup_take_lt by lia. exact Hk.
      * apply Forall_app. split; [exact H3|].
        unfold held in Hheld.
        eapply Forall_sub; [|exact Hheld]. intros k x Hk.
        apply lookup_take_Some in Hk as [Hk Hk2].
        rewrite lookup_drop in Hk.
        exists (S (S NumSlowAROs) + k).
        rewrite lookup_take_lt by lia. exact Hk.
    + eexists. split; [reflexivity|]. exact Hok.
Qed.

Lemma busy_allocator_ok : allocator_ok busy_allocator.
Proof.
  split; [reflexivity|]. split; [|constructor].
  unfold busy_allocator. cbn [WorkerCaches]. constructor.
  - split; [reflexivity|]. split; [reflexivity|].
    unfold held. vm_compute take. repeat constructor.
  - apply Forall_replicate.
    split; [vm_compute; lia|]. split; [reflexivity|]. constructor.
Qed.

Lemma allocator_ok_preserved_witness :
  (exists A', ReturnWorkerPage 1 (4096 * 40) busy_allocator = Some A' /\ allocator_ok A')
  /\ allocator_ok (ReturnSharedPage (4096 * 40) busy_allocator)
  /\ (exists A' Out, AllocatePage (4096 * 50) 1 busy_allocator = Some (A', Out)
                     /\ allocator_ok A' /\ IsValidPage Out = true)
  /\ (exists A', PushSurplus 0 1 busy_allocator = Some A' /\ allocator_ok A').
Proof.
  apply (allocator_ok_preserved busy_allocator 1 (4096 * 40) (4096 * 50) 0).
  - exact busy_allocator_ok.
  - vm_compute. lia.
  - reflexivity.
  - reflexivity.
Defined.

(** X: where [AllocatePage] takes its page from.  The worker's own cache
    comes first and gives its most recent page; the shared pool comes
    second; [FMemory::Malloc] is called only when both are empty.  A page
    from a cache leaves the pages held, nothing else moves, and no page is
    freed. *)
Theorem AllocatePage_takes_cached_first A WorkerIdx NewPage :
  allocator_ok A -> WorkerIdx < MaxWorkers ->
  exists A' Out,
    AllocatePage NewPage WorkerIdx A = Some (A', Out)
    /\ Freed A' = Freed A
    /\ (forall j, j <> WorkerIdx -> WorkerCaches A' !! j = WorkerCaches A !! j)
    /\ match Num (cache_of WorkerIdx A), last (SharedCache A) with
       | S n, _ =>
           Pages (cache_of WorkerIdx A) !! n = Some Out
           /\ held (cache_of WorkerIdx A) = held (cache_of WorkerIdx A') ++ [Out]
           /\ SharedCache A' = SharedCache A
       | O, Some p =>
           Out = p /\ SharedCache A = SharedCache A' ++ [Out]
           /\ WorkerCaches A' = WorkerCaches A
       | O, None => Out = NewPage /\ A' = A
       end.
Proof.
  intros Hok Hi.
  destruct (lookup_worker A WorkerIdx Hok Hi) as [W HW].
  pose proof (cache_ok_lookup A WorkerIdx W Hok HW) as (Hnum & Hlen & Hheld).
  unfold cache_of. rewrite HW. simpl.
  unfold AllocatePage. rewrite HW. simpl. unfold WorkerCache_Pop.
  destruct (Num W) as [|n] eqn:HnumW.
  - simpl. unfold SharedCache_Pop.
    destruct (last (SharedCache A)) as [p|] eqn:Hlast.
    + destruct Hok as (H1 & H2 & H3).
      destruct (last_valid _ _ _ H3 Hlast) as (Hp & Hsplit & _).
      rewrite (IsValidPage_nonzero p Hp). simpl.
      eexists _, _. split; [reflexivity|]. simpl. split; [reflexivity|].
      split; [reflexivity|]. split; [reflexivity|]. split; [|reflexivity].
      exact Hsplit.
    + simpl. eexists _, _. split; [reflexivity|]. now repeat split.
  - assert (Hlt : n < length (Pages W)) by lia.
    destruct (lookup_lt_is_Some_2 _ _ Hlt) as [p Hp].
    assert (Hvp : IsValidPage p = true) by (eapply held_valid; eauto).
    rewrite Hp. simpl. rewrite (IsValidPage_nonzero p Hvp). simpl.
    eexists _, _. split; [reflexivity|]. simpl. split; [reflexivity|].
    split; [intros j Hj; now rewrite list_lookup_insert_ne by congruence|].
    split; [reflexivity|]. split; [|reflexivity].
    rewrite list_lookup_insert_eq by (eapply lookup_lt_Some; eauto). simpl.
    unfold held. rewrite HnumW. simpl. now apply take_S_r.
Qed.

Lemma AllocatePage_takes_cached_first_witness :
  exists A' Out,
    AllocatePage (4096 * 50) 0 busy_allocator = Some (A', Out)
    /\ Freed A' = Freed busy_allocator
    /\ (forall j, j <> 0 -> WorkerCaches A' !! j = WorkerCaches busy_allocator !! j)
    /\ Pages (cache_of 0 busy_allocator) !! 31 = Some Out
    /\ held (cache_of 0 busy_allocator) = held (cache_of 0 A') ++ [Out]
    /\ SharedCache A' = SharedCache busy_allocator.
Proof.
  apply (AllocatePage_takes_cached_first busy_allocator 0 (4096 * 50)).
  - exact busy_allocator_ok.
  - vm_compute. lia.
Defined.

(** X: a page returned to a worker whose cache has room is the page the
    worker's next [AllocatePage] hands out; after the two calls the
    allocator holds the pages it held before, has freed nothing and called
    [FMemory::Malloc] for nothing. *)
Theorem ReturnWorkerPage_AllocatePage A WorkerIdx Page NewPage :
  allocator_ok A -> WorkerIdx < MaxWorkers -> IsValidPage Page = true ->
  Num (cache_of WorkerIdx A) < Capacity ->
  exists A1 A2,
    ReturnWorkerPage WorkerIdx Page A = Some A1
    /\ cached_pages A1 ≡ₚ Page :: cached_pages A
    /\ AllocatePage NewPage WorkerIdx A1 = Some (A2, Page)
    /\ cached_pages A2 = cached_pages A
    /\ Freed A2 = Freed A
    /\ Num (cache_of WorkerIdx A2) = Num (cache_of WorkerIdx A).
Proof.
  intros Hok Hi HP Hroom.
  destruct (lookup_worker A WorkerIdx Hok Hi) as [W HW].
  pose proof (cache_ok_lookup A WorkerIdx W Hok HW) as (Hnum & Hlen & Hheld).
  unfold cache_of in *. rewrite HW in *. simpl in Hroom.
  assert (HltW : WorkerIdx < length (WorkerCaches A)) by (eapply lookup_lt_Some; eauto).
  unfold ReturnWorkerPage. rewrite HW. simpl. unfold WorkerCache_Push.
  apply Nat.ltb_lt in Hroom as Hroomb. rewrite Hroomb. simpl.
  eexists _, _. split; [reflexivity|].
  split.
  { unfold cached_pages. simpl.
    rewrite (flat_map_held_insert _ _ W _ HW), (flat_map_held_split _ _ W HW).
    rewrite held_push by lia.
    solve_Permutation. }
  unfold AllocatePage. simpl.
  rewrite list_lookup_insert_eq by exact HltW. simpl.
  rewrite list_lookup_insert_eq by lia. simpl.
  rewrite (IsValidPage_nonzero Page HP). simpl.
  split; [reflexivity|]. simpl.
  rewrite list_insert_insert_eq.
  split.
  { unfold cached_pages. simpl.
    rewrite (flat_map_held_insert _ _ W _ HW), (flat_map_held_split _ _ W HW).
    do 2 f_equal. unfold held. simpl. now rewrite take_insert_ge by lia. }
  split; [reflexivity|].
  now rewrite list_lookup_insert_eq by exact HltW.
Qed.

Lemma ReturnWorkerPage_AllocatePage_witness :
  exists A1 A2,
    ReturnWorkerPage 1 (4096 * 40) busy_allocator = Some A1
    /\ cached_pages A1 ≡ₚ (4096 * 40)%Z :: cached_pages busy_allocator
    /\ AllocatePage (4096 * 50) 1 A1 = Some (A2, (4096 * 40)%Z)
    /\ cached_pages A2 = cached_pages busy_allocator
    /\ Freed A2 = Freed busy_allocator
    /\ Num (cache_of 1 A2) = Num (cache_of 1 busy_allocator).
Proof.
  apply (ReturnWorkerPage_AllocatePage busy_allocator 1 (4096 * 40) (4096 * 50)).
  - exact busy_allocator_ok.
  - vm_compute. lia.
  - reflexivity.
  - vm_compute. lia.
Defined.

(** X: [PushSurplus] moves pages and loses none.  The worker keeps its
    first [2 + GetNumSlowAROs()] pages (all of them if it has no more), the
    others are appended to the shared pool in their order; the pages held
    are the same, none is freed, and [CountBytes] reports the same size. *)
Theorem PushSurplus_moves_pages A WorkerIdx NumSlowAROs :
  allocator_ok A -> WorkerIdx < MaxWorkers ->
  (Z.of_nat (length (SharedCache A)) < 2 ^ 31 - 512)%Z ->
  exists A',
    PushSurplus NumSlowAROs WorkerIdx A = Some A'
    /\ held (cache_of WorkerIdx A') = take (2 + NumSlowAROs) (held (cache_of WorkerIdx A))
    /\ SharedCache A'
       = SharedCache A ++ drop (2 + NumSlowAROs) (held (cache_of WorkerIdx A))
    /\ (forall j, j <> WorkerIdx -> WorkerCaches A' !! j = WorkerCaches A !! j)
    /\ cached_pages A' ≡ₚ cached_pages A
    /\ Freed A' = Freed A
    /\ CountBytes A' = CountBytes A.
Proof.
  intros Hok Hi Hsh.
  destruct (lookup_worker A WorkerIdx Hok Hi) as [W HW].
  pose proof (cache_ok_lookup A WorkerIdx W Hok HW) as (Hnum & Hlen & Hheld).
  destruct (allocator_ok_preserved A WorkerIdx 4096 4096 NumSlowAROs Hok Hi
              eq_refl eq_refl) as (_ & _ & _ & A' & HA' & Hok').
  exists A'. split; [exact HA'|].
  assert (HltW : WorkerIdx < length (WorkerCaches A)) by (eapply lookup_lt_Some; eauto).
  assert (Hparts :
    held (cache_of WorkerIdx A') = take (2 + NumSlowAROs) (held (cache_of WorkerIdx A))
    /\ SharedCache A'
       = SharedCache A ++ drop (2 + NumSlowAROs) (held (cache_of WorkerIdx A))
    /\ (forall j, j <> WorkerIdx -> WorkerCaches A' !! j = WorkerCaches A !! j)
    /\ cached_pages A' ≡ₚ cached_pages A
    /\ Freed A' = Freed A).
  { unfold PushSurplus in HA'. rewrite HW in HA'. simpl in HA'.
    unfold cache_of. rewrite HW. simpl.
    destruct (S (S NumSlowAROs) <? Num W) eqn:Hlt.
    - apply Nat.ltb_lt in Hlt. injection HA' as <-. simpl.
      rewrite list_lookup_insert_eq by exact HltW. simpl.
      assert (Hkeep : held (mkWorkerCache (S (S NumSlowAROs)) (Pages W))
                      = take (S (S NumSlowAROs)) (held W)).
      { unfold held. simpl. rewrite take_take. f_equal. lia. }
      assert (Hmove : take (Num W - S (S NumSlowAROs)) (drop (S (S NumSlowAROs)) (Pages W))
                      = drop (S (S NumSlowAROs)) (held W)).
      { unfold held. now rewrite skipn_firstn_comm. }
      split; [exact Hkeep|]. split; [now rewrite Hmove|].
      split; [intros j Hj; now rewrite list_lookup_insert_ne by congruence|].
      split; [|reflexivity].
      unfold cached_pages. simpl.
      rewrite (flat_map_held_insert _ _ W _ HW), (flat_map_held_split _ _ W HW).
      rewrite Hkeep, Hmove.
      rewrite <- (take_drop (S (S NumSlowAROs)) (held W)) at 3.
      solve_Permutation.
    - apply Nat.ltb_ge in Hlt. injection HA' as <-. rewrite HW. simpl.
      assert (Hh : length (held W) = Num W) by (unfold held; rewrite length_take; lia).
      rewrite take_ge by lia. rewrite drop_ge by lia. rewrite app_nil_r.
      now repeat split. }
  destruct Hparts as (H1 & H2 & H3 & H4 & H5).
  repeat (split; [assumption|]).
  assert (Hworkers : forall B, allocator_ok B ->
            length (flat_map held (WorkerCaches B)) <= 512).
  { intros B (Hl & Hall & _). change 512 with (MaxWorkers * Capacity).
    rewrite <- Hl. apply held_bound.
    eapply Forall_impl; [exact Hall|]. now intros W0 (Ha & _). }
  pose proof (Hworkers A Hok) as HwA. pose proof (Hworkers A' Hok') as HwA'.
  pose proof (Permutation_length H4) as Hlen4.
  unfold cached_pages in Hlen4. rewrite !length_app in Hlen4.
  change (2 ^ 31)%Z with 2147483648%Z in Hsh.
  rewrite !CountBytes_cached; try assumption.
  - unfold cached_pages. rewrite !length_app. lia.
  - change (2 ^ 31)%Z with 2147483648%Z. lia.
  - change (2 ^ 31)%Z with 2147483648%Z. lia.
Qed.

Lemma PushSurplus_moves_pages_witness :
  exists A',
    PushSurplus 1 0 busy_allocator = Some A'
    /\ held (cache_of 0 A') = take (2 + 1) (held (cache_of 0 busy_allocator))
    /\ SharedCache A'
       = SharedCache busy_allocator ++ drop (2 + 1) (held (cache_of 0 busy_allocator))
    /\ (forall j, j <> 0 -> WorkerCaches A' !! j = WorkerCaches busy_allocator !! j)
    /\ cached_pages A' ≡ₚ cached_pages busy_allocator
    /\ Freed A' = Freed busy_allocator
    /\ CountBytes A' = CountBytes busy_allocator.
Proof.
  apply (PushSurplus_moves_pages busy_allocator 0 1).
  - exact busy_allocator_ok.
  - vm_compute. lia.
  - vm_compute. reflexivity.
Defined.

End PageCacheProofs.

(* ===================================================================== *)
(** ** Worker indices: lowest free bit, no index handed out twice *)
(* ===================================================================== *)

Module WorkerContextsProofs.
Import WorkerContexts.

Lemma ctz_spec n x : forall i,
  let r := CountTrailingZerosFrom n x i in
  i <= r <= i + Z.of_nat n
  /\ (forall j, i <= j < r -> Z.testbit x j = false)
  /\ (r < i + Z.of_nat n -> Z.testbit x r = true).
Proof.
  induction n as [|n IH]; intros i; cbn [CountTrailingZerosFrom].
  - cbv zeta. split; [lia|]. split; intros; lia.
  - destruct (Z.testbit x i) eqn:Hb; cbv zeta.
    + split; [lia|]. split; [intros; lia|]. now intros _.
    + specialize (IH (i + 1)). cbv zeta in IH.
      destruct IH as (H1 & H2 & H3).
      split; [lia|]. split.
      * intros j Hj. destruct (Z.eq_dec j i) as [->|]; [exact Hb|]. apply H2. lia.
      * intros Hr. apply H3. lia.
Qed.

Lemma not64_bit x j : 0 <= j < 64 -> Z.testbit (uint64 (Z.lnot x)) j = negb (Z.testbit x j).
Proof.
  intros Hj. unfold uint64.
  rewrite Z.mod_pow2_bits_low by lia. apply Z.lnot_spec. lia.
Qed.

Lemma mask_small i : 0 <= i < 64 -> uint64 (Z.shiftl 1 i) = Z.shiftl 1 i.
Proof.
  intros Hi. unfold uint64. apply Z.mod_small.
  rewrite Z.shiftl_1_l. split; [apply Z.pow_nonneg; lia|].
  apply Z.pow_lt_mono_r; lia.
Qed.

Lemma mask_bit i j : 0 <= i -> 0 <= j -> Z.testbit (Z.shiftl 1 i) j = (j =? i).
Proof.
  intros Hi Hj. rewrite Z.shiftl_1_l.
  destruct (Z.eqb_spec j i) as [->|Hne].
  - apply Z.pow2_bits_true. lia.
  - apply Z.pow2_bits_false. lia.
Qed.

Lemma land_mask_zero x i : 0 <= i -> (Z.land x (Z.shiftl 1 i) =? 0) = negb (Z.testbit x i).
Proof.
  intros Hi. destruct (Z.testbit x i) eqn:Hb; simpl.
  - apply Z.eqb_neq. intros H0.
    assert (Hc : Z.testbit (Z.land x (Z.shiftl 1 i)) i = true).
    { rewrite Z.land_spec, Hb, mask_bit by lia. now rewrite Z.eqb_refl. }
    rewrite H0 in Hc. now rewrite Z.bits_0 in Hc.
  - apply Z.eqb_eq. apply Z.bits_inj'. intros j Hj.
    rewrite Z.land_spec, Z.bits_0, mask_bit by lia.
    destruct (Z.eqb_spec j i) as [->|]; [now rewrite Hb|apply andb_false_r].
Qed.

Lemma lor_mask_range x i : 0 <= x < 2 ^ 64 -> 0 <= i < 64 -> 0 <= Z.lor x (Z.shiftl 1 i) < 2 ^ 64.
Proof.
  intros Hx Hi.
  assert (H0 : 0 <= Z.lor x (Z.shiftl 1 i)).
  { apply Z.lor_nonneg. split; [lia|]. apply Z.shiftl_nonneg. lia. }
  split; [exact H0|].
  destruct (Z.eq_dec (Z.lor x (Z.shiftl 1 i)) 0) as [->|Hne]; [reflexivity|].
  apply Z.log2_lt_pow2; [lia|].
  rewrite Z.log2_lor by (try lia; apply Z.shiftl_nonneg; lia).
  apply Z.max_lub_lt.
  - destruct (Z.eq_dec x 0) as [->|]; [simpl; lia|]. apply Z.log2_lt_pow2; lia.
  - rewrite Z.shiftl_1_l. rewrite Z.log2_pow2; lia.
Qed.

Lemma land_clear_range x m : 0 <= x < 2 ^ 64 -> 0 <= Z.land x (uint64 m) < 2 ^ 64.
Proof.
  intros Hx.
  assert (Hm : 0 <= uint64 m) by (unfold uint64; apply Z.mod_pos_bound; reflexivity).
  assert (H0 : 0 <= Z.land x (uint64 m)) by (apply Z.land_nonneg; lia).
  split; [exact H0|].
  destruct (Z.eq_dec (Z.land x (uint64 m)) 0) as [->|Hne]; [reflexivity|].
  apply Z.log2_lt_pow2; [lia|].
  pose proof (Z.log2_land x (uint64 m) ltac:(lia) Hm) as Hl.
  destruct (Z.eq_dec x 0) as [->|Hx0]; [now rewrite Z.land_0_l in Hne|].
  assert (Z.log2 x < 64) by (apply Z.log2_lt_pow2; lia). lia.
Qed.

Lemma AllocateChecked_cases fuel Used :
  0 <= Used < 2 ^ 64 ->
  (forall i, 0 <= i < MaxWorkers -> Z.testbit Used i = true) /\
    AllocateChecked fuel Used = None
  \/ exists Index,
       AllocateChecked (S fuel) Used = Some (Z.lor Used (Z.shiftl 1 Index), Index)
       /\ 0 <= Index < MaxWorkers
       /\ Z.testbit Used Index = false
       /\ (forall j, 0 <= j < Index -> Z.testbit Used j = true).
Proof.
  intros HU.
  pose proof (ctz_spec 64 (uint64 (Z.lnot Used)) 0) as Hc. cbv zeta in Hc.
  fold (CountTrailingZeros64 (uint64 (Z.lnot Used))) in Hc.
  destruct Hc as (Hr & Hlow & Hat).
  set (r := CountTrailingZeros64 (uint64 (Z.lnot Used))) in *.
  destruct (Z.ltb_spec r MaxWorkers) as [Hlt|Hge].
  - right. exists r. unfold MaxWorkers in *.
    assert (Hfree : Z.testbit Used r = false).
    { assert (Hb : Z.testbit (uint64 (Z.lnot Used)) r = true) by (apply Hat; simpl; lia).
      rewrite not64_bit in Hb by lia. now apply negb_true_iff in Hb. }
    split.
    { cbn [AllocateChecked]. cbv zeta. fold r. unfold MaxWorkers.
      destruct (Z.ltb_spec r 16) as [_|]; [|lia].
      rewrite mask_small by lia. rewrite land_mask_zero by lia. rewrite Hfree. reflexivity. }
    split; [lia|]. split; [exact Hfree|].
    intros j Hj. specialize (Hlow j ltac:(lia)).
    rewrite not64_bit in Hlow by lia. now apply negb_false_iff in Hlow.
  - left. split.
    + intros i Hi. unfold MaxWorkers in *. specialize (Hlow i ltac:(lia)).
      rewrite not64_bit in Hlow by lia. now apply negb_false_iff in Hlow.
    + destruct fuel; [reflexivity|]. cbn [AllocateChecked]. fold r.
      now destruct (Z.ltb_spec r MaxWorkers) as [|_]; [lia|].
Qed.

Lemma bits_above x j : 0 <= x < 2 ^ 64 -> 64 <= j -> Z.testbit x j = false.
Proof.
  intros Hx Hj. destruct (Z.eq_dec x 0) as [->|]; [apply Z.bits_0|].
  apply Z.bits_above_log2; [lia|].
  assert (Z.log2 x < 64) by (apply Z.log2_lt_pow2; lia). lia.
Qed.

Lemma clear_bit x i j :
  0 <= x < 2 ^ 64 -> 0 <= i < 64 -> 0 <= j ->
  Z.testbit (Z.land x (uint64 (Z.lnot (Z.shiftl 1 i)))) j
  = Z.testbit x j && negb (j =? i).
Proof.
  intros Hx Hi Hj. rewrite Z.land_spec.
  destruct (Z_lt_ge_dec j 64) as [Hj64|Hj64].
  - now rewrite not64_bit, mask_bit by lia.
  - now rewrite (bits_above x j) by lia.
Qed.

(** X: a worker index is the lowest bit that is free.  While one of the
    [MaxWorkers] indices is free, [AllocateChecked] returns in its first
    round, with the lowest index that is not in use; it marks that index as
    used and no other; [FreeChecked] of the index restores the word.  When
    all [MaxWorkers] indices are in use the check of [AllocateChecked]
    fails. *)
Theorem AllocateChecked_lowest_free fuel Used :
  0 <= Used < 2 ^ 64 ->
  (forall i, 0 <= i < MaxWorkers -> Z.testbit Used i = true) /\
    AllocateChecked fuel Used = None
  \/ exists Index,
       AllocateChecked (S fuel) Used = Some (Z.lor Used (Z.shiftl 1 Index), Index)
       /\ 0 <= Index < MaxWorkers
       /\ Z.testbit Used Index = false
       /\ (forall j, 0 <= j < Index -> Z.testbit Used j = true)
       /\ (forall j, 0 <= j ->
             Z.testbit (Z.lor Used (Z.shiftl 1 Index)) j = (j =? Index) || Z.testbit Used j)
       /\ FreeChecked Index (Z.lor Used (Z.shiftl 1 Index)) = Some Used.
Proof.
  intros HU.
  destruct (AllocateChecked_cases fuel Used HU)
    as [Hfull|(Index & Halloc & Hidx & Hfree & Hlow)]; [now left|].
  right. exists Index. unfold MaxWorkers in Hidx.
  split; [exact Halloc|]. split; [exact Hidx|]. split; [exact Hfree|].
  split; [exact Hlow|]. split.
  { intros j Hj. rewrite Z.lor_spec, mask_bit by lia. apply orb_comm. }
  unfold FreeChecked, MaxWorkers.
  destruct (Z.leb_spec 0 Index) as [_|]; [|lia].
  destruct (Z.ltb_spec Index 16) as [_|]; [|lia]. cbn [andb].
  rewrite mask_small by lia. rewrite land_mask_zero by lia.
  rewrite Z.lor_spec, mask_bit, Z.eqb_refl, orb_true_r by lia. cbn [negb].
  f_equal. apply Z.bits_inj'. intros j Hj.
  rewrite clear_bit by (try apply lor_mask_range; lia).
  rewrite Z.lor_spec, mask_bit by lia.
  destruct (Z.eqb_spec j Index) as [->|]; cbn [negb].
  - now rewrite Hfree.
  - now rewrite orb_false_r, andb_true_r.
Qed.

Lemma AllocateChecked_lowest_free_witness :
  (forall i, 0 <= i < MaxWorkers -> Z.testbit 11 i = true) /\
    AllocateChecked 5 11 = None
  \/ exists Index,
       AllocateChecked (S 5) 11 = Some (Z.lor 11 (Z.shiftl 1 Index), Index)
       /\ 0 <= Index < MaxWorkers
       /\ Z.testbit 11 Index = false
       /\ (forall j, 0 <= j < Index -> Z.testbit 11 j = true)
       /\ (forall j, 0 <= j ->
             Z.testbit (Z.lor 11 (Z.shiftl 1 Index)) j = (j =? Index) || Z.testbit 11 j)
       /\ FreeChecked Index (Z.lor 11 (Z.shiftl 1 Index)) = Some 11.
Proof.
  apply (AllocateChecked_lowest_free 5 11). vm_compute. split; [discriminate|reflexivity].
Defined.

(** The indices in use are below [MaxWorkers] and differ: there are at
    most [MaxWorkers] of them, and exactly [MaxWorkers] only if every index
    is in use. *)
Lemma indices_bounded (l : list Z) :
  NoDup l -> Forall (fun i => 0 <= i < MaxWorkers) l ->
  (length l <= 16)%nat
  /\ (length l = 16%nat -> forall i, 0 <= i < MaxWorkers -> In i l).
Proof.
  intros Hnd Hall.
  set (all := map Z.of_nat (seq 0 16)).
  assert (Hincl : incl l all).
  { intros i Hi. rewrite Forall_forall in Hall.
    apply list_elem_of_In in Hi. specialize (Hall i Hi). unfold MaxWorkers in Hall.
    apply in_map_iff. exists (Z.to_nat i). split; [lia|]. apply in_seq. lia. }
  apply NoDup_ListNoDup in Hnd.
  split.
  - apply (List.NoDup_incl_length Hnd Hincl).
  - intros Hlen i Hi.
    assert (Hsup : incl all l).
    { apply (List.NoDup_length_incl Hnd); [|exact Hincl].
      rewrite Hlen. unfold all. rewrite length_map, length_seq. lia. }
    apply Hsup. unfold MaxWorkers in Hi.
    apply in_map_iff. exists (Z.to_nat i). split; [lia|]. apply in_seq. lia.
Qed.

Lemma small_wrap x : -16 <= x <= 17 -> wrap32 x = x.
Proof.
  intros Hx. unfold wrap32.
  change (2 ^ 31) with 2147483648. change (2 ^ 32) with 4294967296.
  rewrite Z.mod_small; lia.
Qed.

Lemma AllocateWorkerIndex_fresh fuel Context InUse Pool :
  pool_ok InUse Pool -> WorkerIndex Context = INDEX_NONE ->
  (length InUse < 16)%nat ->
  exists Index,
    AllocateWorkerIndex (S fuel) Context (GWorkerIndices Pool)
    = Some (mkContext (Address Context) Index (NumObjects Context),
            Z.lor (GWorkerIndices Pool) (Z.shiftl 1 Index))
    /\ 0 <= Index < MaxWorkers
    /\ ~ In Index (map WorkerIndex InUse)
    /\ (forall j, 0 <= j < Index -> In j (map WorkerIndex InUse)).
Proof.
  intros (Hnum & HU & Hnd & Hbits & Hrange & Hre) Hnone Hlen.
  unfold AllocateWorkerIndex. rewrite Hnone. cbn [Z.eqb INDEX_NONE Pos.eqb].
  destruct (AllocateChecked_cases fuel (GWorkerIndices Pool) HU)
    as [[Hfull _]|(Index & Halloc & Hidx & Hfree & Hlow)].
  - exfalso.
    assert (Hr : Forall (fun i => 0 <= i < MaxWorkers) (map WorkerIndex InUse)).
    { apply Forall_map. exact Hrange. }
    assert (Hnd' : NoDup (seq 0 16)) by (apply NoDup_ListNoDup, List.seq_NoDup).
    assert (Hincl : incl (map Z.of_nat (seq 0 16)) (map WorkerIndex InUse)).
    { intros i Hi. apply in_map_iff in Hi as (k & <- & Hk). apply in_seq in Hk.
      apply Hbits. apply Hfull. unfold MaxWorkers. lia. }
    assert (Hnd2 : List.NoDup (map Z.of_nat (seq 0 16))).
    { apply List.NoDup_map_inv with (f := Z.to_nat). rewrite map_map.
      erewrite map_ext; [rewrite map_id; apply List.seq_NoDup|].
      intros k. simpl. lia. }
    pose proof (List.NoDup_incl_length Hnd2 Hincl) as Hle.
    rewrite !length_map, length_seq in Hle. lia.
  - exists Index. rewrite Halloc. cbn. split; [reflexivity|]. split; [exact Hidx|].
    split; [intros Hin; apply Hbits in Hin; congruence|].
    intros j Hj. apply Hbits. apply Hlow. exact Hj.
Qed.

(** A context handed out while fewer than [MaxWorkers] are in use: it gets
    the lowest index that no context in use has. *)
Lemma AllocateFromPool_step fuel NewAddress InUse Pool :
  pool_ok InUse Pool -> (length InUse < 16)%nat ->
  exists Out Pool',
    AllocateFromPool (S fuel) NewAddress Pool = Some (Out, Pool')
    /\ pool_ok (InUse ++ [Out]) Pool'
    /\ 0 <= WorkerIndex Out < MaxWorkers
    /\ ~ In (WorkerIndex Out) (map WorkerIndex InUse)
    /\ (forall j, 0 <= j < WorkerIndex Out -> In j (map WorkerIndex InUse)).
Proof.
  intros Hok Hlen. pose proof Hok as (Hnum & HU & Hnd & Hbits & Hrange & Hre).
  assert (Hr : Forall (fun i => 0 <= i < MaxWorkers) (map WorkerIndex InUse)).
  { apply Forall_map. exact Hrange. }
  assert (Hstep : forall Context Re,
            WorkerIndex Context = INDEX_NONE ->
            Forall (fun C => WorkerIndex C = INDEX_NONE) Re ->
            exists Out Pool',
              (AllocateWorkerIndex (S fuel) Context (GWorkerIndices Pool)
                 ≫= (fun '(Out, Used') =>
                       Some (Out, mkPool Re (wrap32 (NumAllocated Pool + 1)) Used')))
              = Some (Out, Pool')
              /\ pool_ok (InUse ++ [Out]) Pool'
              /\ 0 <= WorkerIndex Out < MaxWorkers
              /\ ~ In (WorkerIndex Out) (map WorkerIndex InUse)
              /\ (forall j, 0 <= j < WorkerIndex Out -> In j (map WorkerIndex InUse))).
  { intros Context Re Hnone HRe.
    destruct (AllocateWorkerIndex_fresh fuel Context InUse Pool Hok Hnone Hlen)
      as (Index & Halloc & Hidx & Hfresh & Hlow).
    rewrite Halloc. cbn. eexists _, _. split; [reflexivity|].
    split; [|split; [exact Hidx|split; [exact Hfresh|exact Hlow]]].
    unfold MaxWorkers in Hidx.
    repeat split; cbn.
    - rewrite Hnum, small_wrap by lia. rewrite length_app. cbn. lia.
    - apply lor_mask_range; [exact HU|lia].
    - apply lor_mask_range; [exact HU|lia].
    - rewrite map_app. cbn. apply NoDup_app. split; [exact Hnd|].
      split; [|apply NoDup_singleton].
      intros i Hi Hi'. apply list_elem_of_singleton in Hi' as ->.
      apply Hfresh. now apply list_elem_of_In.
    - intros Hb. rewrite map_app. apply in_or_app.
      destruct (Z_lt_ge_dec i 0) as [Hneg|Hpos].
      { now rewrite Z.testbit_neg_r in Hb by lia. }
      rewrite Z.lor_spec, mask_bit in Hb by lia.
      apply orb_true_iff in Hb as [Hb|Hb]; [left; now apply Hbits|].
      right. apply Z.eqb_eq in Hb as ->. now left.
    - intros Hin. rewrite map_app in Hin. apply in_app_or in Hin.
      assert (Hi0 : 0 <= i).
      { destruct Hin as [Hin|[<-|[]]]; [|cbn; lia].
        rewrite Forall_forall in Hr. apply list_elem_of_In in Hin.
        specialize (Hr i Hin). lia. }
      rewrite Z.lor_spec, mask_bit by lia. apply orb_true_iff.
      destruct Hin as [Hin|[<-|[]]]; [left; now apply Hbits|right; apply Z.eqb_refl].
    - apply Forall_app. split; [exact Hrange|]. constructor; [|constructor].
      cbn. exact Hidx.
    - exact HRe. }
  unfold AllocateFromPool. cbv zeta.
  destruct (last (Reusable Pool)) as [Context|] eqn:Hlast.
  + apply last_Some in Hlast as [Re HRe]. rewrite HRe in Hre |- *.
    apply Forall_app in Hre as [Hre1 Hre2]. inversion Hre2; subst.
    rewrite removelast_last. now apply Hstep.
  + apply last_None in Hlast. rewrite Hlast. apply Hstep; [reflexivity|constructor].
Qed.

(** A context in use goes back to the pool. *)
Lemma ReturnToPool_step l1 Context l2 Pool :
  pool_ok (l1 ++ Context :: l2) Pool ->
  exists Pool',
    ReturnToPool Context Pool = Some Pool'
    /\ pool_ok (l1 ++ l2) Pool'
    /\ last (Reusable Pool') = Some (mkContext (Address Context) INDEX_NONE 0).
Proof.
  intros Hok. pose proof Hok as (Hnum & HU & Hnd & Hbits & Hrange & Hre).
  assert (Hr : Forall (fun i => 0 <= i < MaxWorkers)
                      (map WorkerIndex (l1 ++ Context :: l2))).
  { apply Forall_map. exact Hrange. }
  destruct (indices_bounded _ Hnd Hr) as (Hle & Hfull).
  rewrite length_map in Hle, Hfull.
  rewrite length_app in Hnum, Hle. cbn [length] in Hnum, Hle.
  rewrite map_app in Hnd, Hbits, Hr. cbn [map] in Hnd, Hbits, Hr.
  apply Forall_app in Hrange as [Hrange1 Hrange2].
  inversion Hrange2 as [|? ? Hidx Hrange2']; subst.
  unfold MaxWorkers in Hidx.
  assert (Hset : Z.testbit (GWorkerIndices Pool) (WorkerIndex Context) = true).
  { apply Hbits. apply in_or_app. right. now left. }
  apply NoDup_app in Hnd as (Hnd1 & Hnd12 & Hnd2).
  apply NoDup_cons in Hnd2 as [Hnotin2 Hnd2].
  assert (Hnotin1 : ~ In (WorkerIndex Context) (map WorkerIndex l1)).
  { intros Hin. apply (Hnd12 (WorkerIndex Context)).
    - now apply list_elem_of_In.
    - left. }
  unfold ReturnToPool.
  destruct (Z.leb_spec 1 (NumAllocated Pool)) as [_|]; [|lia].
  unfold FreeWorkerIndex.
  destruct (Z.eqb_spec (WorkerIndex Context) INDEX_NONE) as [He|_];
    [unfold INDEX_NONE in He; lia|]. cbn [negb].
  unfold FreeChecked, MaxWorkers.
  destruct (Z.leb_spec 0 (WorkerIndex Context)) as [_|]; [|lia].
  destruct (Z.ltb_spec (WorkerIndex Context) 16) as [_|]; [|lia]. cbn [andb].
  rewrite mask_small by lia. rewrite land_mask_zero by lia.
  rewrite Hset. cbn.
  eexists. split; [reflexivity|]. split; [|cbn [Reusable]; apply last_snoc].
  repeat split; cbn.
  - rewrite Hnum, small_wrap by lia. rewrite length_app. lia.
  - apply land_clear_range. exact HU.
  - apply land_clear_range. exact HU.
  - rewrite map_app. apply NoDup_app. split; [exact Hnd1|]. split; [|exact Hnd2].
    intros i Hi Hi'. apply (Hnd12 i Hi). now right.
  - intros Hb. destruct (Z_lt_ge_dec i 0) as [Hneg|Hpos].
    { now rewrite Z.testbit_neg_r in Hb by lia. }
    rewrite clear_bit in Hb by (try exact HU; lia).
    apply andb_true_iff in Hb as [Hb Hne]. apply negb_true_iff, Z.eqb_neq in Hne.
    apply Hbits in Hb. rewrite map_app. apply in_or_app.
    apply in_app_or in Hb as [Hb|[Hb|Hb]]; [now left|congruence|now right].
  - intros Hin. rewrite map_app in Hin.
    assert (Hin' : In i (map WorkerIndex l1 ++ WorkerIndex Context :: map WorkerIndex l2)).
    { apply in_or_app. apply in_app_or in Hin as [Hin|Hin]; [now left|right; now right]. }
    assert (Hi0 : 0 <= i).
    { rewrite Forall_forall in Hr. apply list_elem_of_In in Hin'.
      specialize (Hr i Hin'). lia. }
    rewrite clear_bit by (try exact HU; lia).
    apply andb_true_iff. split; [now apply Hbits|].
    apply negb_true_iff, Z.eqb_neq. intros ->.
    apply in_app_or in Hin as [Hin|Hin]; [now apply Hnotin1|].
    apply Hnotin2. now apply list_elem_of_In.
  - apply Forall_app. split; assumption.
  - apply Forall_app. split; [exact Hre|]. constructor; [reflexivity|constructor].
Qed.

(** X: the contexts in use never share a worker index.  While fewer than
    [MaxWorkers] contexts are in use, [AllocateFromPool] returns a context
    whose index none of them has, below [MaxWorkers]; with [MaxWorkers]
    contexts in use its check fails; [ReturnToPool] of a context in use
    releases its index and keeps the context, without an index and with
    cleared statistics, for the next request.  The count, the word of
    indices and the contexts in use agree after every call. *)
Theorem pool_indices_distinct fuel NewAddress InUse Pool :
  pool_ok InUse Pool ->
  ((length InUse < 16)%nat ->
     exists Out Pool',
       AllocateFromPool (S fuel) NewAddress Pool = Some (Out, Pool')
       /\ pool_ok (InUse ++ [Out]) Pool'
       /\ 0 <= WorkerIndex Out < MaxWorkers
       /\ ~ In (WorkerIndex Out) (map WorkerIndex InUse))
  /\ (length InUse = 16%nat -> AllocateFromPool fuel NewAddress Pool = None)
  /\ (forall l1 Context l2, InUse = l1 ++ Context :: l2 ->
        exists Pool',
          ReturnToPool Context Pool = Some Pool'
          /\ pool_ok (l1 ++ l2) Pool'
          /\ last (Reusable Pool') = Some (mkContext (Address Context) INDEX_NONE 0)).
Proof.
  intros Hok. pose proof Hok as (Hnum & HU & Hnd & Hbits & Hrange & Hre).
  assert (Hr : Forall (fun i => 0 <= i < MaxWorkers) (map WorkerIndex InUse)).
  { apply Forall_map. exact Hrange. }
  destruct (indices_bounded _ Hnd Hr) as (Hle & Hfull).
  rewrite length_map in Hle, Hfull.
  split; [|split].
  - intros Hlen.
    destruct (AllocateFromPool_step fuel NewAddress InUse Pool Hok Hlen)
      as (Out & Pool' & H1 & H2 & H3 & H4 & _).
    exists Out, Pool'. auto.
  - intros Hlen.
    assert (Hnone : AllocateChecked fuel (GWorkerIndices Pool) = None).
    { destruct (AllocateChecked_cases fuel (GWorkerIndices Pool) HU)
        as [[_ Hn]|(Index & _ & Hidx & Hfree & _)]; [exact Hn|].
      exfalso. specialize (Hfull Hlen Index Hidx). apply Hbits in Hfull. congruence. }
    unfold AllocateFromPool, AllocateWorkerIndex. cbv zeta.
    destruct (last (Reusable Pool)) as [Context|] eqn:Hlast.
    + destruct (WorkerIndex Context =? INDEX_NONE); [|reflexivity].
      now rewrite Hnone.
    + cbn [WorkerIndex]. rewrite Z.eqb_refl. now rewrite Hnone.
  - intros l1 Context l2 ->. apply ReturnToPool_step. exact Hok.
Qed.

(** The bits of a word of ones, for the sample pools. *)
Lemma ones_bits n i : 0 <= n -> Z.testbit (Z.ones n) i = true <-> 0 <= i < n.
Proof.
  intros Hn. split.
  - intros H. destruct (Z.ltb_spec i 0) as [Hi|Hi].
    { rewrite Z.testbit_neg_r in H by exact Hi. discriminate. }
    destruct (Z.ltb_spec i n) as [Hlt|Hge]; [lia|].
    rewrite Z.ones_spec_high in H by lia. discriminate.
  - intros H. apply Z.ones_spec_low. exact H.
Qed.

Lemma two_pool_ok : pool_ok two_in_use two_pool.
Proof.
  unfold pool_ok, two_in_use, two_pool. cbn [NumAllocated GWorkerIndices Reusable map
    WorkerIndex length].
  split; [reflexivity|]. split; [lia|]. split.
  { apply NoDup_ListNoDup. constructor; [intros [H|[]]; discriminate H|].
    constructor; [intros []|]. constructor. }
  split.
  { intros i. change 3 with (Z.ones 2). rewrite ones_bits by lia. cbn. lia. }
  split; repeat constructor; cbn; unfold MaxWorkers; lia.
Qed.

Lemma full_pool_ok : pool_ok all_in_use full_pool.
Proof.
  unfold pool_ok, all_in_use, full_pool. cbn [NumAllocated GWorkerIndices Reusable].
  rewrite !map_map, !length_map, length_seq.
  split; [reflexivity|]. split; [lia|]. split.
  { cbn [WorkerIndex]. apply NoDup_ListNoDup.
    apply Finite.Injective_map_NoDup; [|apply NoDup_ListNoDup, NoDup_seq].
    intros a b Hab. lia. }
  split.
  { intros i. change 65535 with (Z.ones 16). rewrite ones_bits by lia.
    cbn [WorkerIndex]. rewrite in_map_iff. split.
    - intros Hi. exists (Z.to_nat i). split; [lia|]. apply in_seq. lia.
    - intros (k & <- & Hk). apply in_seq in Hk. lia. }
  split; [|constructor].
  apply Forall_map, Forall_forall. intros k Hk. cbn [WorkerIndex].
  apply list_elem_of_In, in_seq in Hk. unfold MaxWorkers. lia.
Qed.

(** The theorem at the two sample pools.  With the contexts 0 and 1 in use,
    the next context gets an index that is neither 0 nor 1, and the context
    with index 0 goes back to the pool without its index and its
    statistics; with sixteen contexts in use the allocation fails. *)
Lemma pool_indices_distinct_witness :
  (exists Out Pool',
     AllocateFromPool 1 16384 two_pool = Some (Out, Pool')
     /\ pool_ok (two_in_use ++ [Out]) Pool'
     /\ 0 <= WorkerIndex Out < MaxWorkers
     /\ ~ In (WorkerIndex Out) [0; 1])
  /\ AllocateFromPool 1 16384 full_pool = None
  /\ (exists Pool',
        ReturnToPool (mkContext 4096 0 3) two_pool = Some Pool'
        /\ pool_ok [mkContext 8192 1 7] Pool'
        /\ last (Reusable Pool') = Some (mkContext 4096 INDEX_NONE 0)).
Proof.
  destruct (pool_indices_distinct 0 16384 two_in_use two_pool two_pool_ok)
    as (Halloc & _ & Hreturn).
  destruct (pool_indices_distinct 1 16384 all_in_use full_pool full_pool_ok)
    as (_ & Hfull & _).
  split; [apply Halloc; cbn; lia|].
  split; [apply Hfull; reflexivity|].
  exact (Hreturn [] (mkContext 4096 0 3) [mkContext 8192 1 7] eq_refl).
Defined.

End WorkerContextsProofs.

(* ===================================================================== *)
(** ** Work stealing: the bounded queue is a deque, no block is lost *)
(* ===================================================================== *)

Module WorkStealingSharedProofs.
Import WorkStealing WorkStealingShared WorkStealingProofs.

Lemma uint32_mod16 x : uint32 x mod 16 = x mod 16.
Proof.
  unfold uint32. change (2 ^ 32) with 4294967296.
  Z.div_mod_to_equations. lia.
Qed.

Lemma uint32_add_l x y : uint32 (uint32 x + y) = uint32 (x + y).
Proof.
  unfold uint32. change (2 ^ 32) with 4294967296.
  Z.div_mod_to_equations. lia.
Qed.

Lemma uint32_sub_l x y : uint32 (uint32 x - y) = uint32 (x - y).
Proof.
  unfold uint32. change (2 ^ 32) with 4294967296.
  Z.div_mod_to_equations. lia.
Qed.

Lemma lookup_slots t d (k : nat) :
  (k < 16)%nat ->
  slots_of t d !! k
  = Some (default FreeSlot (d !! Z.to_nat ((Z.of_nat k - t) mod 16))).
Proof.
  intros Hk. unfold slots_of, Capacity.
  rewrite list_lookup_fmap, lookup_seq_lt by (simpl; lia). reflexivity.
Qed.

Lemma length_slots t d : length (slots_of t d) = 16%nat.
Proof. unfold slots_of, Capacity. now rewrite length_map, length_seq. Qed.

Lemma slot_pos t i : 0 <= i < 16 ->
  (Z.to_nat ((t + i) mod 16) < 16)%nat
  /\ (Z.of_nat (Z.to_nat ((t + i) mod 16)) - t) mod 16 = i.
Proof.
  intros Hi. pose proof (Z.mod_pos_bound (t + i) 16 ltac:(lia)) as Hb.
  split; [lia|]. rewrite Z2Nat.id by lia.
  zify. Z.div_mod_to_equations. lia.
Qed.

Lemma LoadSlot_ring t d i :
  0 <= i < 16 ->
  LoadSlot (ring t d) ((t + i) mod 16) = default FreeSlot (d !! Z.to_nat i).
Proof.
  intros Hi. destruct (slot_pos t i Hi) as [Hk Hback].
  unfold LoadSlot, ring. cbn [Slots].
  rewrite lookup_slots by exact Hk. cbn [default from_option id]. now rewrite Hback.
Qed.

(** Writing [v] into the slot of position [i] gives the slots of [d'] when
    [d'] has [v] at [i] and agrees with [d] elsewhere. *)
Lemma insert_slots t d d' i v :
  0 <= i < 16 ->
  default FreeSlot (d' !! Z.to_nat i) = v ->
  (forall j, (j < 16)%nat -> j <> Z.to_nat i ->
             default FreeSlot (d' !! j) = default FreeSlot (d !! j)) ->
  <[Z.to_nat ((t + i) mod 16) := v]> (slots_of t d) = slots_of t d'.
Proof.
  intros Hi Hv Hrest. destruct (slot_pos t i Hi) as [Hk Hback].
  apply list_eq. intros k.
  destruct (decide (k < 16)%nat) as [Hlt|Hge].
  - rewrite (lookup_slots t d' k Hlt).
    destruct (decide (k = Z.to_nat ((t + i) mod 16))) as [->|Hne].
    + rewrite list_lookup_insert_eq by (rewrite length_slots; lia).
      now rewrite Hback, Hv.
    + rewrite list_lookup_insert_ne by congruence.
      rewrite (lookup_slots t d k Hlt). f_equal. symmetry. apply Hrest.
      * pose proof (Z.mod_pos_bound (Z.of_nat k - t) 16 ltac:(lia)). lia.
      * intros Heq. apply Hne.
        pose proof (Z.mod_pos_bound (Z.of_nat k - t) 16 ltac:(lia)).
        pose proof (Z.mod_pos_bound (t + i) 16 ltac:(lia)).
        zify. Z.div_mod_to_equations. lia.
  - rewrite !lookup_ge_None_2; [reflexivity| |].
    + rewrite length_slots. lia.
    + rewrite length_insert, length_slots. lia.
Qed.

Lemma block_not_free b : is_block b -> (b =? FreeSlot) = false /\ (b =? TakenSlot) = false
                                       /\ (TakenSlot <? b) = true /\ (b =? 0) = false.
Proof.
  unfold is_block, FreeSlot, TakenSlot. intros Hb.
  repeat split; try (apply Z.eqb_neq; lia). apply Z.ltb_lt. lia.
Qed.

Lemma head_block d : Forall is_block d -> d <> [] -> is_block (default FreeSlot (d !! 0%nat)).
Proof. intros Hall Hne. destruct d as [|b d]; [congruence|]. now inversion Hall. Qed.

Lemma BoundedPush_ring t d b :
  (length d <= 16)%nat -> Forall is_block d ->
  BoundedPush b (ring t d)
  = if (length d <? 16)%nat then (ring t (d ++ [b]), true) else (ring t d, false).
Proof.
  intros Hlen Hall. unfold BoundedPush. cbv zeta.
  assert (HIdx : uint32 (Head (ring t d) + 1) mod Capacity
                 = (t + Z.of_nat (length d)) mod 16).
  { unfold ring, Capacity. cbn [Head]. rewrite uint32_add_l, uint32_mod16. f_equal. lia. }
  rewrite HIdx.
  destruct (Nat.ltb_spec (length d) 16) as [Hlt|Hge].
  - rewrite LoadSlot_ring by lia. rewrite Nat2Z.id.
    rewrite lookup_ge_None_2 by lia. cbn [default from_option id]. rewrite Z.eqb_refl.
    unfold StoreSlot, ring. cbn [Head Tail Slots]. f_equal. f_equal.
    + rewrite uint32_add_l, length_app. cbn [length]. f_equal. lia.
    + apply insert_slots; [lia| |].
      * rewrite Nat2Z.id. now rewrite lookup_app_r, Nat.sub_diag by lia.
      * intros j Hj Hne. rewrite Nat2Z.id in Hne.
        destruct (decide (j < length d)%nat).
        -- now rewrite lookup_app_l by lia.
        -- rewrite !lookup_ge_None_2; [reflexivity|lia|rewrite length_app; cbn; lia].
  - assert (Hl : length d = 16%nat) by lia.
    replace ((t + Z.of_nat (length d)) mod 16) with ((t + 0) mod 16)
      by (rewrite Hl; zify; Z.div_mod_to_equations; lia).
    rewrite LoadSlot_ring by lia. change (Z.to_nat 0) with 0%nat.
    assert (Hne : d <> []) by (intros ->; discriminate).
    destruct (block_not_free _ (head_block d Hall Hne)) as (-> & _). reflexivity.
Qed.

Lemma BoundedPop_ring t d :
  (length d <= 16)%nat -> Forall is_block d ->
  BoundedPop (ring t d) = (ring t (removelast d), List.last d 0).
Proof.
  intros Hlen Hall. unfold BoundedPop. cbv zeta.
  assert (HIdx : Head (ring t d) mod Capacity = (t + (Z.of_nat (length d) - 1)) mod 16).
  { unfold ring, Capacity. cbn [Head]. rewrite uint32_mod16. f_equal. lia. }
  rewrite HIdx.
  destruct (exists_last_or_nil d) as [->|(d' & x & ->)].
  - cbn [length removelast List.last].
    replace ((t + (Z.of_nat 0 - 1)) mod 16) with ((t + 15) mod 16)
      by (zify; Z.div_mod_to_equations; lia).
    rewrite LoadSlot_ring by lia. cbn. reflexivity.
  - rewrite length_app in *. cbn [length] in *.
    rewrite removelast_last, last_last.
    apply Forall_app in Hall as [Hall' Hx]. inversion Hx as [|? ? Hbx _]; subst.
    rewrite LoadSlot_ring by lia.
    replace (Z.to_nat (Z.of_nat (length d' + 1) - 1)) with (length d') by lia.
    rewrite lookup_app_r, Nat.sub_diag by lia. cbn [lookup list_lookup default from_option id].
        destruct (block_not_free _ Hbx) as (_ & _ & -> & _).
    unfold StoreSlot, ring. cbn [Head Tail Slots]. f_equal. f_equal.
    + rewrite uint32_sub_l. f_equal. rewrite length_app. cbn [length]. lia.
    + apply insert_slots; [lia| |].
      * now rewrite lookup_ge_None_2 by lia.
      * intros j Hj Hne.
        destruct (decide (j < length d')%nat).
        -- now rewrite lookup_app_l by lia.
        -- rewrite !lookup_ge_None_2; [reflexivity|rewrite length_app; cbn; lia|lia].
Qed.

Lemma BoundedSteal_ring fuel t d :
  (length d <= 16)%nat -> Forall is_block d ->
  BoundedSteal (S fuel) (ring t d)
  = Some (match d with
          | [] => (ring t [], 0)
          | b :: d' => (ring (t + 1) d', b)
          end).
Proof.
  intros Hlen Hall. cbn [BoundedSteal]. cbv zeta.
  assert (HIdx : Tail (ring t d) mod Capacity = (t + 0) mod 16).
  { unfold ring, Capacity. cbn [Tail]. rewrite uint32_mod16. f_equal. lia. }
  rewrite HIdx. rewrite LoadSlot_ring by lia. change (Z.to_nat 0) with 0%nat.
  destruct d as [|b d']; cbn [lookup list_lookup default from_option id].
  - reflexivity.
  - inversion Hall as [|? ? Hb Hall']; subst. cbn [length] in Hlen.
    destruct (block_not_free _ Hb) as (-> & -> & _). cbn [negb].
    unfold StoreSlot. cbn [Head Tail Slots ring]. rewrite Z.eqb_refl.
    f_equal. f_equal. unfold ring. f_equal.
    + f_equal. cbn [length]. lia.
    + apply uint32_add_l.
    + rewrite list_insert_insert_eq.
      apply list_eq. intros k.
      destruct (decide (k < 16)%nat) as [Hlt|Hge].
      * rewrite (lookup_slots (t + 1) d' k Hlt).
        destruct (slot_pos t 0 ltac:(lia)) as [Hk0 Hback].
        destruct (decide (k = Z.to_nat ((t + 0) mod 16))) as [->|Hne].
        -- rewrite list_lookup_insert_eq by (rewrite length_slots; lia).
           f_equal. rewrite lookup_ge_None_2; [reflexivity|].
           pose proof (Z.mod_pos_bound (t + 0) 16 ltac:(lia)).
           assert ((Z.of_nat (Z.to_nat ((t + 0) mod 16)) - (t + 1)) mod 16 = 15)
             by (zify; Z.div_mod_to_equations; lia).
           lia.
        -- rewrite list_lookup_insert_ne by congruence.
           rewrite (lookup_slots t (b :: d') k Hlt). f_equal.
           pose proof (Z.mod_pos_bound (Z.of_nat k - t) 16 ltac:(lia)).
           pose proof (Z.mod_pos_bound (t + 0) 16 ltac:(lia)).
           assert (Hj : (Z.of_nat k - t) mod 16 = (Z.of_nat k - (t + 1)) mod 16 + 1).
           { assert ((Z.of_nat k - t) mod 16 <> 0).
             { intros Hz. apply Hne. zify. Z.div_mod_to_equations. lia. }
             zify. Z.div_mod_to_equations. lia. }
           rewrite Hj.
           replace (Z.to_nat ((Z.of_nat k - (t + 1)) mod 16 + 1))
             with (S (Z.to_nat ((Z.of_nat k - (t + 1)) mod 16))).
           2: { pose proof (Z.mod_pos_bound (Z.of_nat k - (t + 1)) 16 ltac:(lia)). lia. }
           reflexivity.
      * rewrite !lookup_ge_None_2; [reflexivity| |].
        -- rewrite length_slots. lia.
        -- rewrite length_insert, length_slots. lia.
Qed.

Lemma NewBounded_ring : NewBounded = ring 0 [].
Proof. reflexivity. Qed.

Lemma read_from_tail (d : list Z) (n : nat) :
  (length d <= n)%nat ->
  map (fun i : nat => default FreeSlot (d !! i)) (seq 0 n)
  = d ++ replicate (n - length d) FreeSlot.
Proof.
  intros Hlen. apply list_eq. intros k.
  rewrite list_lookup_fmap.
  destruct (decide (k < n)%nat) as [Hlt|Hge].
  - rewrite lookup_seq_lt by lia. cbn.
    destruct (decide (k < length d)%nat) as [Hk|Hk].
    + rewrite lookup_app_l by lia.
      destruct (lookup_lt_is_Some_2 d k Hk) as [x ->]. reflexivity.
    + rewrite lookup_app_r by lia.
      rewrite (lookup_ge_None_2 d) by lia.
      rewrite lookup_replicate_2 by lia. reflexivity.
  - rewrite lookup_seq_ge by lia.
    rewrite lookup_ge_None_2; [reflexivity|].
    rewrite length_app, length_replicate. lia.
Qed.

Lemma filter_blocks d :
  Forall is_block d -> List.filter (fun Slot => negb (Slot =? FreeSlot)) d = d.
Proof.
  induction 1 as [|b d Hb _ IH]; [reflexivity|]. cbn.
  destruct (block_not_free _ Hb) as (-> & _). cbn. now rewrite IH.
Qed.

Lemma filter_free n : List.filter (fun Slot => negb (Slot =? FreeSlot)) (replicate n FreeSlot) = [].
Proof. induction n; [reflexivity|]. cbn. exact IHn. Qed.

Lemma stealable_ring t d :
  (length d <= 16)%nat -> Forall is_block d -> stealable (ring t d) = d.
Proof.
  intros Hlen Hall. unfold stealable.
  erewrite map_ext_in.
  - change (Z.to_nat Capacity) with 16%nat.
    rewrite (read_from_tail d 16 Hlen), List.filter_app, filter_blocks, filter_free by exact Hall.
    apply app_nil_r.
  - intros i Hi. apply in_seq in Hi. cbn beta.
    unfold Capacity. cbn [ring Tail].
    replace ((uint32 t + Z.of_nat i) mod 16) with ((t + Z.of_nat i) mod 16).
    2: { pose proof (uint32_mod16 t) as Hm. change Capacity with 16 in Hi.
         zify. Z.div_mod_to_equations. lia. }
    change (Z.to_nat Capacity) with 16%nat in Hi.
    rewrite LoadSlot_ring by lia. now rewrite Nat2Z.id.
Qed.

Lemma BoundedIsEmpty_ring t d :
  (length d <= 16)%nat -> Forall is_block d ->
  BoundedIsEmpty (ring t d) = bool_decide (d = []).
Proof.
  intros Hlen Hall.
  unfold BoundedIsEmpty. cbn [ring Slots].
  destruct d as [|b0 d'].
  - reflexivity.
  - rewrite bool_decide_eq_false_2 by discriminate.
    apply not_true_iff_false. intros Hall0.
    rewrite forallb_forall in Hall0.
    inversion Hall as [|? ? Hb0 _]; subst.
    destruct (slot_pos t 0 ltac:(lia)) as [Hk Hback].
    specialize (Hall0 b0).
    destruct (block_not_free _ Hb0) as (Hnf & _).
    rewrite Hnf in Hall0. discriminate Hall0.
    apply list_elem_of_In. apply list_elem_of_lookup.
    exists (Z.to_nat ((t + 0) mod 16)).
    rewrite lookup_slots by exact Hk. now rewrite Hback.
Qed.

(** X: the bounded queue is a double-ended queue of [Capacity] blocks.
    In the state that holds the blocks [d], the oldest first, [Push] appends
    a block at the newest end and fails when [Capacity] blocks are held;
    [Pop] takes the newest block, [Steal] the oldest, in its first round;
    either returns nullptr when no block is held.  A new queue holds no
    block, and reading the slots from [Tail] on gives [d]. *)
Theorem bounded_queue_is_deque fuel t d b :
  (length d <= 16)%nat -> Forall is_block d ->
  BoundedPush b (ring t d)
  = (if (length d <? 16)%nat then (ring t (d ++ [b]), true) else (ring t d, false))
  /\ BoundedPop (ring t d) = (ring t (removelast d), List.last d 0)
  /\ BoundedSteal (S fuel) (ring t d)
     = Some (match d with
             | [] => (ring t [], 0)
             | b0 :: d' => (ring (t + 1) d', b0)
             end)
  /\ stealable (ring t d) = d
  /\ BoundedIsEmpty (ring t d) = bool_decide (d = [])
  /\ NewBounded = ring 0 [].
Proof.
  intros Hlen Hall.
  split; [now apply BoundedPush_ring|].
  split; [now apply BoundedPop_ring|].
  split; [now apply BoundedSteal_ring|].
  split; [now apply stealable_ring|].
  split; [now apply BoundedIsEmpty_ring|reflexivity].
Qed.

Lemma bounded_queue_is_deque_witness :
  BoundedPush 12288 (ring 5 two_blocks)
  = (if (length two_blocks <? 16)%nat
     then (ring 5 (two_blocks ++ [12288]), true) else (ring 5 two_blocks, false))
  /\ BoundedPop (ring 5 two_blocks)
     = (ring 5 (removelast two_blocks), List.last two_blocks 0)
  /\ BoundedSteal (S 0) (ring 5 two_blocks) = Some (ring (5 + 1) [8192], 4096)
  /\ stealable (ring 5 two_blocks) = two_blocks
  /\ BoundedIsEmpty (ring 5 two_blocks) = bool_decide (two_blocks = [])
  /\ NewBounded = ring 0 [].
Proof.
  apply (bounded_queue_is_deque 0 5 two_blocks 12288).
  - cbn. lia.
  - repeat constructor; unfold is_block, TakenSlot; lia.
Defined.

Lemma NewQueue_ok : queue_ok NewQueue.
Proof. exists 0, []. repeat split; [cbn; lia|constructor|constructor]. Qed.

Lemma all_blocks_ring t d loc :
  (length d <= 16)%nat -> Forall is_block d ->
  all_blocks (mkQueue (ring t d) loc) = d ++ loc.
Proof. intros Hl Hd. unfold all_blocks. cbn. now rewrite stealable_ring. Qed.

Lemma returned_block b : is_block b -> returned [b] = [b].
Proof. intros Hb. unfold returned. cbn. now destruct (block_not_free _ Hb) as (_ & _ & _ & ->). Qed.

Lemma Push_ok b Q :
  queue_ok Q -> is_block b ->
  queue_ok (Push b Q) /\ all_blocks (Push b Q) ≡ₚ all_blocks Q ++ [b].
Proof.
  intros (t & d & Hsh & Hlen & Hd & Hloc) Hb.
  destruct Q as [Sh loc]. cbn in Hsh, Hloc. subst Sh.
  unfold Push. cbn [SharedBlocks LocalBlocks].
  rewrite BoundedPush_ring by assumption.
  destruct (Nat.ltb_spec (length d) 16) as [Hlt|Hge].
  - assert (Hd' : Forall is_block (d ++ [b])) by (apply Forall_app; split; [|constructor]; auto).
    assert (Hl' : (length (d ++ [b]) <= 16)%nat) by (rewrite length_app; cbn; lia).
    split.
    + exists t, (d ++ [b]). now repeat split.
    + rewrite !all_blocks_ring by assumption. solve_Permutation.
  - split.
    + exists t, d. repeat split; auto. cbn. apply Forall_app. split; [|constructor]; auto.
    + rewrite !all_blocks_ring by assumption. solve_Permutation.
Qed.

Lemma Refill_ring Local t : forall k d,
  (length d <= 16)%nat -> Forall is_block d ->
  (k <= length Local)%nat -> Forall is_block Local ->
  exists k' d',
    Refill k Local (ring t d) = (k', ring t d')
    /\ (k' <= k)%nat /\ (length d' <= 16)%nat /\ Forall is_block d'
    /\ d' ++ take k' Local ≡ₚ d ++ take k Local.
Proof.
  induction k as [|k IH]; intros d Hlen Hd Hk HL.
  - exists 0%nat, d. cbn. repeat split; auto.
  - cbn [Refill]. rewrite BoundedPush_ring by assumption.
    destruct (lookup_lt_is_Some_2 Local k ltac:(lia)) as [x Hx].
    assert (Hnth : nth k Local 0 = x) by (apply nth_lookup_Some with (d := 0) in Hx; exact Hx).
    assert (Hbx : is_block x).
    { rewrite Forall_lookup in HL. eauto. }
    destruct (Nat.ltb_spec (length d) 16) as [Hlt|Hge].
    + destruct (IH (d ++ [nth k Local 0])) as (k' & d' & HR & Hk' & Hl' & Hd' & Hperm).
      * rewrite length_app. cbn. lia.
      * rewrite Hnth. apply Forall_app. split; [auto|now constructor].
      * lia.
      * exact HL.
      * exists k', d'. rewrite HR. repeat split; auto.
        rewrite Hperm, Hnth, (take_S_r _ _ x Hx). solve_Permutation.
    + exists (S k), d. repeat split; auto.
Qed.

Lemma Pop_ok Q :
  queue_ok Q ->
  queue_ok (Pop Q).1 /\ returned [(Pop Q).2] ++ all_blocks (Pop Q).1 ≡ₚ all_blocks Q.
Proof.
  intros (t & d & Hsh & Hlen & Hd & Hloc).
  destruct Q as [Sh loc]. cbn in Hsh, Hloc. subst Sh.
  unfold Pop. cbn [SharedBlocks LocalBlocks].
  destruct (exists_last_or_nil loc) as [->|(loc' & x & ->)].
  - cbn [length]. rewrite BoundedPop_ring by assumption. cbn [fst snd].
    destruct (exists_last_or_nil d) as [->|(d' & y & ->)].
    + cbn. split; [exists t, []; repeat split; auto; cbn; lia|reflexivity].
    + rewrite removelast_last, last_last.
      apply Forall_app in Hd as [Hd' Hy]. inversion Hy as [|? ? Hby _]; subst.
      rewrite length_app in Hlen. cbn in Hlen.
      split; [exists t, d'; repeat split; auto; lia|].
      rewrite returned_block by exact Hby.
      assert (Hd2 : Forall is_block (d' ++ [y])) by (apply Forall_app; split; [auto|now constructor]).
      assert (Hl2 : (length (d' ++ [y]) <= 16)%nat) by (rewrite length_app; cbn; lia).
      assert (Hl1 : (length d' <= 16)%nat) by lia.
      rewrite !all_blocks_ring by assumption. solve_Permutation.
  - rewrite length_app. cbn [length]. rewrite Nat.add_1_r.
    pose proof Hloc as Hloc0.
    apply Forall_app in Hloc as [Hloc' Hx]. inversion Hx as [|? ? Hbx _]; subst.
    destruct (Refill_ring (loc' ++ [x]) t (length loc') d Hlen Hd
                ltac:(rewrite length_app; cbn; lia) Hloc0)
      as (k' & d' & HR & Hk' & Hl' & Hd' & Hperm).
    rewrite HR. cbn [fst snd SharedBlocks LocalBlocks].
    assert (Hnth : nth (length loc') (loc' ++ [x]) 0 = x).
    { rewrite app_nth2 by lia. now rewrite Nat.sub_diag. }
    rewrite Hnth.
    rewrite (take_app_le loc' [x] k') in Hperm |- * by lia.
    rewrite (take_app_le loc' [x] (length loc')) in Hperm by lia.
    rewrite (take_ge loc' (length loc')) in Hperm by lia.
    split.
    + exists t, d'. repeat split; auto. cbn.
      now apply Forall_take.
    + rewrite returned_block by exact Hbx.
      rewrite !all_blocks_ring by assumption.
      etransitivity; [apply (Permutation_app_head [x]); exact Hperm|solve_Permutation].
Qed.

Lemma Steal_ok fuel Q :
  queue_ok Q ->
  exists Q',
    Steal (S fuel) Q = Some (Q', hd 0 (stealable (SharedBlocks Q)))
    /\ queue_ok Q'
    /\ stealable (SharedBlocks Q') = tl (stealable (SharedBlocks Q))
    /\ LocalBlocks Q' = LocalBlocks Q
    /\ (stealable (SharedBlocks Q) = [] -> Q' = Q)
    /\ Forall is_block (stealable (SharedBlocks Q)).
Proof.
  intros (t & d & Hsh & Hlen & Hd & Hloc).
  destruct Q as [Sh loc]. cbn in Hsh, Hloc. subst Sh.
  unfold Steal. cbn [SharedBlocks LocalBlocks].
  rewrite BoundedSteal_ring by assumption.
  rewrite stealable_ring by assumption.
  destruct d as [|b d']; cbn.
  - eexists. split; [reflexivity|]. cbn.
    split; [exists t, []; repeat split; auto|].
    rewrite stealable_ring by (auto; cbn; lia). repeat split; auto.
  - inversion Hd as [|? ? Hb Hd']; subst. cbn in Hlen.
    eexists. split; [reflexivity|]. cbn.
    split; [exists (t + 1), d'; repeat split; auto; lia|].
    rewrite stealable_ring by (auto; lia). repeat split; auto. discriminate.
Qed.

Lemma IsEmpty_ok Q : queue_ok Q -> (IsEmpty Q = true <-> all_blocks Q = []).
Proof.
  intros (t & d & Hsh & Hlen & Hd & Hloc).
  destruct Q as [Sh loc]. cbn in Hsh, Hloc. subst Sh.
  rewrite all_blocks_ring by assumption.
  unfold IsEmpty. cbn [SharedBlocks LocalBlocks].
  pose proof (BoundedIsEmpty_ring t d Hlen Hd) as Hemp. rewrite Hemp.
  rewrite andb_true_iff, !bool_decide_eq_true.
  split.
  - intros [-> ->]. reflexivity.
  - intros H. apply app_eq_nil in H. exact H.
Qed.

Lemma returned_cons Out Outs : returned (Out :: Outs) = returned [Out] ++ returned Outs.
Proof. unfold returned. cbn. now destruct (negb (Out =? 0)). Qed.

Lemma play_spec fuel ops : forall Q,
  queue_ok Q -> Forall valid_queue_op ops ->
  exists Q' Outs,
    play (S fuel) ops Q = Some (Q', Outs)
    /\ queue_ok Q'
    /\ returned Outs ++ all_blocks Q' ≡ₚ all_blocks Q ++ pushed ops.
Proof.
  induction ops as [|op ops IH]; intros Q HQ Hops.
  - exists Q, []. split; [reflexivity|]. split; [exact HQ|].
    cbn. now rewrite app_nil_r.
  - inversion Hops as [|? ? Hop Hops']; subst.
    destruct op as [b| |]; cbn [play pushed omap].
    + destruct (Push_ok b Q HQ Hop) as (HQ1 & Hp1).
      destruct (IH _ HQ1 Hops') as (Q' & Outs & Hplay & HQ' & Hperm).
      exists Q', Outs. split; [exact Hplay|]. split; [exact HQ'|].
      rewrite Hperm, Hp1. fold (pushed ops). solve_Permutation.
    + destruct (Pop_ok Q HQ) as (HQ1 & Hp1).
      destruct (Pop Q) as [Q1 Out] eqn:HPop. cbn [fst snd] in *.
      destruct (IH _ HQ1 Hops') as (Q' & Outs & Hplay & HQ' & Hperm).
      rewrite Hplay. cbn. exists Q', (Out :: Outs).
      split; [reflexivity|]. split; [exact HQ'|].
      rewrite returned_cons. fold (pushed ops).
      rewrite <- app_assoc, Hperm, <- Hp1. solve_Permutation.
    + destruct (Steal_ok fuel Q HQ) as (Q1 & HSteal & HQ1 & Htl & Hloc & Hsame & Hblk).
      destruct (IH _ HQ1 Hops') as (Q' & Outs & Hplay & HQ' & Hperm).
      rewrite HSteal. cbn. rewrite Hplay. cbn.
      eexists Q', (_ :: Outs). split; [reflexivity|]. split; [exact HQ'|].
      rewrite returned_cons. fold (pushed ops).
      rewrite <- app_assoc, Hperm.
      unfold all_blocks. rewrite Htl, Hloc.
      destruct (stealable (SharedBlocks Q)) as [|b rest]; [reflexivity|].
      inversion Hblk as [|? ? Hb _]; subst. cbn [hd tl].
      rewrite returned_block by exact Hb. solve_Permutation.
Qed.

(** X: no work block is lost or handed out twice.  Whatever sequence of
    [Push], [Pop] and [Steal] calls the owner and the thieves make on a
    queue, one call after the other, the blocks that the pops and steals
    return together with the blocks left in the queue are the blocks the
    queue held plus those pushed, each as often as it was pushed; every
    steal returns in its first round; and [CheckEmpty] passes at the end
    exactly when no block is left. *)
Theorem no_block_lost fuel ops Q :
  queue_ok Q -> Forall valid_queue_op ops ->
  exists Q' Outs,
    play (S fuel) ops Q = Some (Q', Outs)
    /\ returned Outs ++ all_blocks Q' ≡ₚ all_blocks Q ++ pushed ops
    /\ (IsEmpty Q' = true <-> all_blocks Q' = []).
Proof.
  intros HQ Hops.
  destruct (play_spec fuel ops Q HQ Hops) as (Q' & Outs & Hplay & HQ' & Hperm).
  exists Q', Outs. split; [exact Hplay|]. split; [exact Hperm|].
  now apply IsEmpty_ok.
Qed.

Lemma no_block_lost_witness :
  exists Q' Outs,
    play (S 0) [QPush 4096; QPush 8192; QSteal; QPop; QPop; QPush 12288] NewQueue
    = Some (Q', Outs)
    /\ returned Outs ++ all_blocks Q'
       ≡ₚ all_blocks NewQueue
          ++ pushed [QPush 4096; QPush 8192; QSteal; QPop; QPop; QPush 12288]
    /\ (IsEmpty Q' = true <-> all_blocks Q' = []).
Proof.
  apply (no_block_lost 0 [QPush 4096; QPush 8192; QSteal; QPop; QPop; QPush 12288] NewQueue).
  - exact NewQueue_ok.
  - repeat constructor; unfold is_block, TakenSlot; lia.
Defined.

Lemma queue_ok_lookup Queues Idx Q :
  Forall queue_ok Queues -> Queues !! Idx = Some Q -> queue_ok Q.
Proof. intros Hall HQ. rewrite Forall_lookup in Hall. eauto. Qed.

Lemma StealFrom_spec fuel : forall Idxs Queues,
  Forall queue_ok Queues ->
  Forall (fun Idx => (Idx < length Queues)%nat) Idxs ->
  exists Queues' Out,
    StealFrom (S fuel) Idxs Queues = Some (Queues', Out)
    /\ Forall queue_ok Queues'
    /\ ((Out = 0 /\ Queues' = Queues
         /\ Forall (fun Idx => stealable_at Queues Idx = []) Idxs)
        \/ (exists pre Idx post Q Q',
              Idxs = pre ++ Idx :: post
              /\ Forall (fun i => stealable_at Queues i = []) pre
              /\ Queues !! Idx = Some Q
              /\ stealable (SharedBlocks Q) = Out :: stealable (SharedBlocks Q')
              /\ is_block Out
              /\ LocalBlocks Q' = LocalBlocks Q
              /\ Queues' = <[Idx := Q']> Queues)).
Proof.
  induction Idxs as [|Idx Idxs IH]; intros Queues Hok Hidx.
  - exists Queues, 0. split; [reflexivity|]. split; [exact Hok|]. left. repeat split. constructor.
  - inversion Hidx as [|? ? Hlt Hidx']; subst.
    destruct (lookup_lt_is_Some_2 Queues Idx Hlt) as [Q HQ].
    pose proof (queue_ok_lookup _ _ _ Hok HQ) as HQok.
    destruct (Steal_ok fuel Q HQok) as (Q1 & HSteal & HQ1 & Htl & Hloc & Hsame & Hblk).
    cbn [StealFrom]. rewrite HQ. cbn [mbind option_bind]. rewrite HSteal. cbn [mbind option_bind].
    destruct (stealable (SharedBlocks Q)) as [|b rest] eqn:Hst.
    + cbn. rewrite (Hsame eq_refl). rewrite list_insert_id by exact HQ.
      destruct (IH Queues Hok Hidx') as (Queues' & Out & HS & Hok' & Hres).
      exists Queues', Out. split; [exact HS|]. split; [exact Hok'|].
      assert (Hhere : stealable_at Queues Idx = []).
      { unfold stealable_at. rewrite HQ. exact Hst. }
      destruct Hres as [(H0 & Heq & Hall)|(pre & j & post & Qj & Qj' & HI & Hpre & Hj & Hs & Hb & Hl & Hq)].
      * left. repeat split; auto.
      * right. exists (Idx :: pre), j, post, Qj, Qj'.
        rewrite HI. repeat split; auto.
    + inversion Hblk as [|? ? Hb _]; subst. cbn [hd tl] in *.
      destruct (block_not_free _ Hb) as (_ & _ & _ & ->). cbn.
      eexists _, _. split; [reflexivity|].
      split; [now apply Forall_insert|].
      right. exists [], Idx, Idxs, Q, Q1. rewrite Htl. repeat split; auto.
Qed.

Lemma VictimOrder_spec W :
  (W < MaxWorkers)%nat ->
  forall Idx, In Idx (VictimOrder W) <-> (Idx < MaxWorkers)%nat /\ Idx <> W.
Proof.
  intros HW Idx. unfold VictimOrder. rewrite in_app_iff, !in_seq. lia.
Qed.

(** X: a worker without work steals from the others, never from itself.
    [TrySteal] asks the queues after its own, then those before it, and
    takes the oldest stealable block of the first queue that has one,
    leaving that queue's overflow and all other queues as they were; it
    returns nullptr, and changes nothing, exactly when no other queue has a
    stealable block. *)
Theorem TrySteal_first_victim fuel WorklessIdx Queues :
  length Queues = MaxWorkers -> Forall queue_ok Queues ->
  (WorklessIdx < MaxWorkers)%nat ->
  exists Queues' Out,
    TrySteal (S fuel) WorklessIdx Queues = Some (Queues', Out)
    /\ Queues' !! WorklessIdx = Queues !! WorklessIdx
    /\ ((Out = 0 /\ Queues' = Queues
         /\ forall Idx, (Idx < MaxWorkers)%nat -> Idx <> WorklessIdx ->
                        stealable_at Queues Idx = [])
        \/ (exists pre Idx post Q',
              VictimOrder WorklessIdx = pre ++ Idx :: post
              /\ Forall (fun i => stealable_at Queues i = []) pre
              /\ stealable_at Queues Idx = Out :: stealable (SharedBlocks Q')
              /\ is_block Out
              /\ LocalBlocks Q' = LocalBlocks (default NewQueue (Queues !! Idx))
              /\ Queues' = <[Idx := Q']> Queues)).
Proof.
  intros Hlen Hok HW.
  assert (Hidx : Forall (fun Idx => (Idx < length Queues)%nat) (VictimOrder WorklessIdx)).
  { apply Forall_forall. intros Idx Hin. apply list_elem_of_In in Hin.
    apply (VictimOrder_spec _ HW) in Hin. lia. }
  destruct (StealFrom_spec fuel _ _ Hok Hidx) as (Queues' & Out & HS & Hok' & Hres).
  exists Queues', Out. split; [exact HS|].
  destruct Hres as [(H0 & Heq & Hall)|(pre & j & post & Qj & Qj' & HI & Hpre & Hj & Hs & Hb & Hl & Hq)].
  - split; [now rewrite Heq|]. left. repeat split; auto.
    intros Idx Hlt Hne. rewrite Forall_forall in Hall. apply Hall.
    apply list_elem_of_In. apply (VictimOrder_spec _ HW). auto.
  - assert (Hjne : j <> WorklessIdx).
    { assert (Hin : In j (VictimOrder WorklessIdx)).
      { rewrite HI. apply in_or_app. right. now left. }
      apply (VictimOrder_spec _ HW) in Hin. tauto. }
    split; [rewrite Hq; now apply list_lookup_insert_ne|].
    right. exists pre, j, post, Qj'. unfold stealable_at at 2. rewrite Hj. cbn.
    repeat split; auto.
Qed.

Lemma TrySteal_first_victim_witness :
  exists Queues' Out,
    TrySteal (S 0) 14 three_has_work = Some (Queues', Out)
    /\ Queues' !! 14%nat = three_has_work !! 14%nat
    /\ ((Out = 0 /\ Queues' = three_has_work
         /\ forall Idx, (Idx < MaxWorkers)%nat -> Idx <> 14%nat ->
                        stealable_at three_has_work Idx = [])
        \/ (exists pre Idx post Q',
              VictimOrder 14 = pre ++ Idx :: post
              /\ Forall (fun i => stealable_at three_has_work i = []) pre
              /\ stealable_at three_has_work Idx = Out :: stealable (SharedBlocks Q')
              /\ is_block Out
              /\ LocalBlocks Q' = LocalBlocks (default NewQueue (three_has_work !! Idx))
              /\ Queues' = <[Idx := Q']> three_has_work)).
Proof.
  apply (TrySteal_first_victim 0 14 three_has_work).
  - reflexivity.
  - unfold three_has_work. apply Forall_insert.
    + apply Forall_replicate. exact NewQueue_ok.
    + apply Push_ok; [|unfold is_block, TakenSlot; lia].
      apply Push_ok; [exact NewQueue_ok|unfold is_block, TakenSlot; lia].
  - unfold MaxWorkers. lia.
Defined.

End WorkStealingSharedProofs.

(* ===================================================================== *)
(** ** What the reachability processor may change *)
(* ===================================================================== *)

Module MarkingProofs.
Import ObjectFlags Reachability Marking.

(** Bitwise facts about a flag word [f] and masks. *)
Lemma land_clear_outside f U R :
  Z.land (Z.land f (Z.lnot U)) (Z.lnot (Z.lor U R)) = Z.land f (Z.lnot (Z.lor U R)).
Proof.
  apply Z.bits_inj'. intros n Hn.
  rewrite !Z.land_spec, !Z.lnot_spec, !Z.lor_spec by assumption.
  destruct (Z.testbit f n), (Z.testbit U n), (Z.testbit R n); reflexivity.
Qed.

Lemma land_set_outside f U R :
  Z.land (Z.lor f R) (Z.lnot (Z.lor U R)) = Z.land f (Z.lnot (Z.lor U R)).
Proof.
  apply Z.bits_inj'. intros n Hn.
  rewrite !Z.land_spec, !Z.lnot_spec, !Z.lor_spec, ?Z.lor_spec by assumption.
  destruct (Z.testbit f n), (Z.testbit U n), (Z.testbit R n); reflexivity.
Qed.

Lemma land_cleared f U : Z.land (Z.land f (Z.lnot U)) U = 0.
Proof.
  apply Z.bits_inj'. intros n Hn.
  rewrite !Z.land_spec, !Z.lnot_spec, Z.bits_0 by assumption.
  destruct (Z.testbit f n), (Z.testbit U n); reflexivity.
Qed.

Lemma land_clear_other f U R :
  Z.land U R = 0 -> Z.land (Z.land f (Z.lnot U)) R = Z.land f R.
Proof.
  intros H. apply Z.bits_inj'. intros n Hn.
  apply (f_equal (fun z => Z.testbit z n)) in H.
  rewrite Z.land_spec, Z.bits_0 in H.
  rewrite !Z.land_spec, !Z.lnot_spec by assumption.
  destruct (Z.testbit f n), (Z.testbit U n), (Z.testbit R n); cbn in *; congruence.
Qed.

Lemma land_set_other f U R :
  Z.land U R = 0 -> Z.land (Z.lor f R) U = Z.land f U.
Proof.
  intros H. apply Z.bits_inj'. intros n Hn.
  apply (f_equal (fun z => Z.testbit z n)) in H.
  rewrite Z.land_spec, Z.bits_0 in H.
  rewrite !Z.land_spec, !Z.lor_spec by assumption.
  destruct (Z.testbit f n), (Z.testbit U n), (Z.testbit R n); cbn in *; congruence.
Qed.

Lemma land_set_self f R : Z.land (Z.lor f R) R = R.
Proof.
  apply Z.bits_inj'. intros n Hn.
  rewrite !Z.land_spec, !Z.lor_spec by assumption.
  destruct (Z.testbit f n), (Z.testbit R n); reflexivity.
Qed.

Lemma land_outside_eq f f' K M :
  Z.land K M = 0 ->
  Z.land f' (Z.lnot M) = Z.land f (Z.lnot M) ->
  Z.land f' K = Z.land f K.
Proof.
  intros H1 H2. apply Z.bits_inj'. intros n Hn.
  apply (f_equal (fun z => Z.testbit z n)) in H1.
  apply (f_equal (fun z => Z.testbit z n)) in H2.
  rewrite Z.land_spec, Z.bits_0 in H1.
  rewrite !Z.land_spec, !Z.lnot_spec in H2 by assumption.
  rewrite !Z.land_spec.
  destruct (Z.testbit f n), (Z.testbit f' n), (Z.testbit K n), (Z.testbit M n);
    cbn in *; congruence.
Qed.

(** A fold of steps that may fail. *)
Lemma foldl_bind_None {A B} (g : B -> A -> option A) l :
  foldl (fun acc k => acc ≫= g k) None l = None.
Proof. induction l as [|k l IH]; [reflexivity|exact IH]. Qed.

Lemma foldl_bind_inv {A B} (g : B -> A -> option A) (R : A -> A -> Prop) :
  (forall x, R x x) ->
  (forall x y z, R x y -> R y z -> R x z) ->
  (forall k x y, g k x = Some y -> R x y) ->
  forall l x y, foldl (fun acc k => acc ≫= g k) (Some x) l = Some y -> R x y.
Proof.
  intros Hrefl Htrans Hstep l. induction l as [|k l IH]; intros x y H.
  - cbn in H. injection H as <-. apply Hrefl.
  - cbn [foldl] in H. cbn [mbind option_bind] in H.
    destruct (g k x) as [x1|] eqn:Hg.
    + apply (Htrans x x1 y); [eapply Hstep; eassumption|apply IH; exact H].
    + rewrite foldl_bind_None in H. discriminate.
Qed.

Section Monotone.

Context {F : EInternalObjectFlags}.
Variable Options : EGCOptions.
Variable PermanentPoolContains : Z -> bool.
Variable IsObjectHandleResolved : Z -> bool.
Variable ObjectToIndex : Z -> Z.

Hypothesis Hmasks : masks_separate F.

Lemma entry_marked_refl Item : entry_marked Item Item.
Proof. unfold entry_marked. auto. Qed.

Lemma entry_marked_trans A B C :
  entry_marked A B -> entry_marked B C -> entry_marked A C.
Proof.
  intros (H1 & H2 & H3 & H4 & H5) (G1 & G2 & G3 & G4 & G5).
  unfold entry_marked. repeat split; try congruence; auto.
Qed.

Lemma index_dropped_trans a b c :
  index_dropped a b -> index_dropped b c -> index_dropped a c.
Proof. unfold index_dropped. intros [->| ->] [->| ->]; auto. Qed.

Lemma indices_dropped_refl l : Forall2 index_dropped l l.
Proof. induction l; constructor; [left; reflexivity|assumption]. Qed.

Lemma indices_dropped_trans l1 l2 l3 :
  Forall2 index_dropped l1 l2 -> Forall2 index_dropped l2 l3 ->
  Forall2 index_dropped l1 l3.
Proof.
  intros H. revert l3. induction H as [|a b l1 l2 Hab H IH]; intros l3 H3.
  - inversion H3. constructor.
  - inversion H3 as [|? c ? l3' Hbc H3']; subst. constructor.
    + eapply index_dropped_trans; eassumption.
    + apply IH. assumption.
Qed.

Lemma indices_dropped_insert l k : Forall2 index_dropped l (<[k := -1]> l).
Proof.
  apply Forall2_same_length_lookup_2; [now rewrite length_insert|].
  intros i x y Hx Hy. destruct (decide (i = k)) as [->|Hne].
  - rewrite list_lookup_insert_eq in Hy
      by (apply lookup_lt_is_Some; eauto).
    injection Hy as <-. right. reflexivity.
  - rewrite list_lookup_insert_ne in Hy by congruence.
    left. congruence.
Qed.

Lemma cluster_marked_refl Cl : cluster_marked Cl Cl.
Proof. unfold cluster_marked. auto using indices_dropped_refl. Qed.

Lemma cluster_marked_trans A B C :
  cluster_marked A B -> cluster_marked B C -> cluster_marked A C.
Proof.
  intros (H1 & H2 & H3 & H4) (G1 & G2 & G3 & G4). unfold cluster_marked.
  repeat split; try congruence; eauto using indices_dropped_trans.
Qed.

Lemma entries_marked_refl l : Forall2 entry_marked l l.
Proof. induction l; constructor; [apply entry_marked_refl|assumption]. Qed.

Lemma entries_marked_trans l1 l2 l3 :
  Forall2 entry_marked l1 l2 -> Forall2 entry_marked l2 l3 ->
  Forall2 entry_marked l1 l3.
Proof.
  intros H. revert l3. induction H as [|a b l1 l2 Hab H IH]; intros l3 H3.
  - inversion H3. constructor.
  - inversion H3 as [|? c ? l3' Hbc H3']; subst. constructor.
    + eapply entry_marked_trans; eassumption.
    + apply IH. assumption.
Qed.

Lemma tables_marked_refl T : tables_marked T T.
Proof.
  unfold tables_marked. split; [apply entries_marked_refl|]. split; [|auto].
  intros k. destruct (GUObjectClusters T !! k); constructor.
  apply cluster_marked_refl.
Qed.

Lemma tables_marked_trans A B C :
  tables_marked A B -> tables_marked B C -> tables_marked A C.
Proof.
  intros (H1 & H2 & H3) (G1 & G2 & G3). unfold tables_marked.
  split; [eapply entries_marked_trans; eassumption|]. split; [|auto].
  intros k. specialize (H2 k). specialize (G2 k).
  destruct (GUObjectClusters A !! k), (GUObjectClusters B !! k),
    (GUObjectClusters C !! k); inversion H2; inversion G2; subst; constructor.
  eapply cluster_marked_trans; eassumption.
Qed.

Lemma marked_refl st : marked st st.
Proof. unfold marked. split; [apply tables_marked_refl|]. split; [reflexivity|auto]. Qed.

Lemma marked_trans A B C : marked A B -> marked B C -> marked A C.
Proof.
  intros (H1 & H2 & H3) (G1 & G2 & G3). unfold marked.
  split; [eapply tables_marked_trans; eassumption|].
  split; [etransitivity; eassumption|auto].
Qed.

(** The elementary writes. *)
Lemma ClearFlags_marked Item : entry_marked Item (ClearFlags Unreachable Item).
Proof.
  destruct Hmasks as (_ & Hur & _).
  unfold entry_marked, ClearFlags, IsUnreachable, HasAnyFlags, MarkBits. cbn.
  split; [reflexivity|]. split; [reflexivity|].
  split; [apply land_clear_outside|]. split.
  - rewrite land_cleared. cbn. discriminate.
  - rewrite (land_clear_other _ _ _ Hur). auto.
Qed.

Lemma SetFlags_marked Item : entry_marked Item (SetFlags ReachableInCluster Item).
Proof.
  destruct Hmasks as (_ & Hur & _).
  unfold entry_marked, SetFlags, IsUnreachable, HasAnyFlags, MarkBits. cbn.
  split; [reflexivity|]. split; [reflexivity|].
  split; [apply land_set_outside|]. split.
  - rewrite (land_set_other _ _ _ Hur). auto.
  - intros H. rewrite land_set_self. destruct (ReachableInCluster =? 0) eqn:E; [|reflexivity].
    apply Z.eqb_eq in E. rewrite E, Z.land_0_r in H. discriminate.
Qed.

Lemma update_item_marked Index f T :
  (forall Item, entry_marked Item (f Item)) ->
  tables_marked T (update_item Index f T).
Proof.
  intros Hf. unfold update_item. destruct (Index <? 0); [apply tables_marked_refl|].
  unfold tables_marked. cbn. split.
  - apply Forall2_alter_r; [apply entries_marked_refl|].
    intros x y _ _ Hxy. eapply entry_marked_trans; [exact Hxy|apply Hf].
  - split; [|auto]. intros k. destruct (GUObjectClusters T !! k); constructor.
    apply cluster_marked_refl.
Qed.

Lemma update_cluster_marked ClusterIndex f T :
  (forall Cl, cluster_marked Cl (f Cl)) ->
  tables_marked T (update_cluster ClusterIndex f T).
Proof.
  intros Hf. unfold update_cluster, tables_marked. cbn.
  split; [apply entries_marked_refl|]. split; [|auto].
  intros k. destruct (decide (ClusterIndex = k)) as [->|Hne].
  - rewrite lookup_alter_eq. destruct (GUObjectClusters T !! k); constructor. apply Hf.
  - rewrite lookup_alter_ne by assumption.
    destruct (GUObjectClusters T !! k); constructor. apply cluster_marked_refl.
Qed.

Lemma quietly_marked_refl st : quietly_marked st st.
Proof. split; [apply marked_refl|reflexivity]. Qed.

Lemma quietly_marked_trans A B C :
  quietly_marked A B -> quietly_marked B C -> quietly_marked A C.
Proof.
  intros [H1 H2] [G1 G2]. split; [eapply marked_trans; eassumption|congruence].
Qed.

Lemma with_Tables_marked T st :
  tables_marked (Tables st) T -> quietly_marked st (with_Tables T st).
Proof.
  intros H. unfold quietly_marked, marked, with_Tables. cbn.
  split; [|reflexivity]. split; [exact H|]. split; [reflexivity|auto].
Qed.

Lemma AddObject_marked Obj st : quietly_marked st (AddObject Obj st).
Proof.
  unfold quietly_marked, marked, AddObject. cbn.
  split; [|reflexivity]. split; [apply tables_marked_refl|].
  split; [now apply prefix_app_r|auto].
Qed.

Lemma clear_marked Index st :
  quietly_marked st
    (with_Tables (update_item Index (ClearFlags Unreachable) (Tables st)) st).
Proof. apply with_Tables_marked, update_item_marked, ClearFlags_marked. Qed.

Lemma set_marked Index st :
  quietly_marked st
    (with_Tables (update_item Index (SetFlags ReachableInCluster) (Tables st)) st).
Proof. apply with_Tables_marked, update_item_marked, SetFlags_marked. Qed.

Lemma MarkReferencedCluster_marked ClusterIndex k acc acc' :
  MarkReferencedCluster ClusterIndex k acc = Some acc' ->
  quietly_marked acc.1 acc'.1.
Proof.
  destruct acc as [st bAdd]. unfold MarkReferencedCluster. cbn [fst].
  destruct (0 <=? _); [|intros [= <-]; apply quietly_marked_refl].
  destruct (IndexToObject _ _) as [Root|]; [|discriminate]. cbn [mbind option_bind].
  destruct (negb _).
  - destruct (IsUnreachable Root); intros [= <-]; cbn [fst];
      [apply clear_marked|apply quietly_marked_refl].
  - intros [= <-]. cbn [fst]. apply with_Tables_marked, update_cluster_marked.
    intros Cl. unfold cluster_marked. cbn.
    auto using indices_dropped_refl, indices_dropped_insert.
Qed.

Lemma MarkMutableObject_marked rec ClusterIndex k acc acc' :
  (forall C st st', rec C st = Some st' -> quietly_marked st st') ->
  MarkMutableObject rec ClusterIndex k acc = Some acc' ->
  quietly_marked acc.1 acc'.1.
Proof.
  intros Hrec. destruct acc as [st bAdd]. unfold MarkMutableObject. cbn [fst].
  destruct (0 <=? _); [|intros [= <-]; apply quietly_marked_refl].
  destruct (IndexToObject _ _) as [Item|]; [|discriminate]. cbn [mbind option_bind].
  destruct (negb (HasAnyFlags Item GarbageMask)).
  - destruct (IsUnreachable Item).
    + destruct (GetOwnerIndex Item <? 0).
      * destruct (rec _ _) as [st2|] eqn:Hr; [|discriminate].
        intros [= <-]. cbn [fst].
        eapply quietly_marked_trans; [apply clear_marked|].
        eapply quietly_marked_trans; [apply AddObject_marked|].
        eapply Hrec. exact Hr.
      * intros [= <-]. cbn [fst].
        eapply quietly_marked_trans; [apply clear_marked|apply AddObject_marked].
    + destruct (_ && _).
      * destruct (IndexToObject _ _) as [Root|]; [|discriminate].
        cbn [mbind option_bind]. destruct (IsUnreachable Root).
        -- destruct (rec _ _) as [st2|] eqn:Hr; [|discriminate].
           intros [= <-]. cbn [fst].
           eapply quietly_marked_trans; [apply set_marked|].
           eapply quietly_marked_trans; [apply clear_marked|].
           eapply Hrec. exact Hr.
        -- intros [= <-]. cbn [fst]. apply set_marked.
      * intros [= <-]. apply quietly_marked_refl.
  - intros [= <-]. cbn [fst]. apply with_Tables_marked, update_cluster_marked.
    intros Cl. unfold cluster_marked. cbn.
    auto using indices_dropped_refl, indices_dropped_insert.
Qed.

Lemma MarkReferencedClustersAsReachable_marked fuel :
  forall ClusterIndex st st',
    MarkReferencedClustersAsReachable fuel ClusterIndex st = Some st' ->
    quietly_marked st st'.
Proof.
  induction fuel as [|fuel IH]; intros C st st' H; [discriminate|].
  cbn [MarkReferencedClustersAsReachable] in H.
  match type of H with
  | context [foldl ?f (Some (st, false)) ?l] =>
      destruct (foldl f (Some (st, false)) l) as [acc1|] eqn:H1; [|discriminate]
  end.
  cbn [mbind option_bind] in H.
  match type of H with
  | context [foldl ?f (Some acc1) ?l] =>
      destruct (foldl f (Some acc1) l) as [[st2 bAdd]|] eqn:H2; [|discriminate]
  end.
  cbn [mbind option_bind] in H.
  assert (G1 : quietly_marked st acc1.1).
  { apply (foldl_bind_inv (MarkReferencedCluster C)
             (fun a b => quietly_marked a.1 b.1)) in H1; [exact H1| | |].
    - intros x. apply quietly_marked_refl.
    - intros x y z. apply quietly_marked_trans.
    - intros k x y. apply MarkReferencedCluster_marked. }
  assert (G2 : quietly_marked acc1.1 st2).
  { apply (foldl_bind_inv
             (MarkMutableObject (MarkReferencedClustersAsReachable fuel) C)
             (fun a b => quietly_marked a.1 b.1)) in H2; [exact H2| | |].
    - intros x. apply quietly_marked_refl.
    - intros x y z. apply quietly_marked_trans.
    - intros k x y. apply MarkMutableObject_marked. exact IH. }
  assert (G : quietly_marked st st2) by (eapply quietly_marked_trans; eassumption).
  destruct bAdd; [|injection H as <-; exact G].
  destruct (mapM _ _) as [Members|]; [|discriminate]. cbn [mbind option_bind] in H.
  injection H as <-. eapply quietly_marked_trans; [exact G|].
  unfold quietly_marked, marked. cbn. split; [|reflexivity].
  split; [|split; [now apply prefix_app_r|auto]].
  unfold tables_marked. cbn. split; [apply entries_marked_refl|]. split; [|auto].
  intros k. destruct (decide (C = k)) as [->|Hne].
  - rewrite lookup_alter_eq. destruct (GUObjectClusters (Tables st2) !! k); constructor.
    unfold cluster_marked. cbn. auto using indices_dropped_refl.
  - rewrite lookup_alter_ne by assumption.
    destruct (GUObjectClusters (Tables st2) !! k); constructor. apply cluster_marked_refl.
Qed.

Lemma DetectGarbageReference_marked M st :
  quietly_marked st (DetectGarbageReference Options M st).
Proof.
  unfold quietly_marked, marked, DetectGarbageReference. cbn.
  split; [|reflexivity]. split; [apply tables_marked_refl|].
  split; [reflexivity|]. intros ->. reflexivity.
Qed.

Lemma HandleValidReference_marked fuel RefObj M st r :
  HandleValidReference Options fuel RefObj M st = Some r ->
  quietly_marked st r.1.
Proof.
  unfold HandleValidReference.
  destruct (IndexToObject _ _) as [Item|]; [|discriminate]. cbn [mbind option_bind].
  destruct (IsUnreachable Item).
  - destruct (negb _).
    + intros [= <-]. cbn [fst].
      eapply quietly_marked_trans; [apply clear_marked|apply AddObject_marked].
    + destruct (MarkReferencedClustersAsReachable _ _ _) as [st2|] eqn:Hr; [|discriminate].
      intros [= <-]. cbn [fst].
      eapply quietly_marked_trans; [apply clear_marked|].
      eapply MarkReferencedClustersAsReachable_marked. exact Hr.
  - destruct (_ && _); [|intros [= <-]; apply quietly_marked_refl].
    destruct (IndexToObject _ _) as [Root|]; [|discriminate]. cbn [mbind option_bind].
    destruct (_ && _).
    + destruct (MarkReferencedClustersAsReachable _ _ _) as [st2|] eqn:Hr; [|discriminate].
      intros [= <-]. cbn [fst].
      eapply quietly_marked_trans; [apply set_marked|].
      eapply quietly_marked_trans; [apply clear_marked|].
      eapply MarkReferencedClustersAsReachable_marked. exact Hr.
    + intros [= <-]. cbn [fst]. apply set_marked.
Qed.

(** An entry is found again after a step, marked. *)
Lemma marked_lookup st st' Index Item :
  quietly_marked st st' ->
  IndexToObject (Tables st) Index = Some Item ->
  exists Item', IndexToObject (Tables st') Index = Some Item' /\ entry_marked Item Item'.
Proof.
  intros [((Hent & _) & _) _]. unfold IndexToObject.
  destruct (Index <? 0); [discriminate|]. intros H.
  destruct (Forall2_lookup_l _ _ _ _ _ Hent H) as (Item' & H1 & H2). eauto.
Qed.

Lemma IndexToObject_updated_entry Index f T Item :
  IndexToObject T Index = Some Item ->
  IndexToObject (update_item Index f T) Index = Some (f Item).
Proof.
  unfold IndexToObject, update_item. destruct (Index <? 0); [discriminate|].
  cbn. intros H. rewrite list_lookup_alter_eq, H. reflexivity.
Qed.

(** After HandleValidReference the entry of the referenced object is not
    unreachable, and is flagged when it is a cluster member. *)
Lemma HandleValidReference_settles fuel RefObj M st r Item :
  ReachableInCluster <> 0 ->
  IndexToObject (Tables st) (ObjectIndex M) = Some Item ->
  MetaFlags M = Flags Item ->
  (IsUnreachable Item = true -> GetOwnerIndex Item <= 0) ->
  HandleValidReference Options fuel RefObj M st = Some r ->
  exists Item1,
    IndexToObject (Tables r.1) (ObjectIndex M) = Some Item1
    /\ entry_marked Item Item1
    /\ IsUnreachable Item1 = false
    /\ (0 <? GetOwnerIndex Item1) && negb (HasAnyFlags Item1 ReachableInCluster) = false.
Proof.
  intros Hric HItem HM Hown. destruct Hmasks as (_ & Hur & _).
  unfold HandleValidReference. rewrite HItem. cbn [mbind option_bind].
  destruct (IsUnreachable Item) eqn:HU.
  - specialize (Hown eq_refl).
    set (sA := with_Tables (update_item (ObjectIndex M) (ClearFlags Unreachable) (Tables st)) st).
    assert (HA : IndexToObject (Tables sA) (ObjectIndex M)
                 = Some (ClearFlags Unreachable Item))
      by (apply IndexToObject_updated_entry; exact HItem).
    assert (Hend : forall s', quietly_marked sA s' ->
              exists Item1,
                IndexToObject (Tables s') (ObjectIndex M) = Some Item1
                /\ entry_marked Item Item1
                /\ IsUnreachable Item1 = false
                /\ (0 <? GetOwnerIndex Item1)
                   && negb (HasAnyFlags Item1 ReachableInCluster) = false).
    { intros s' Hq. destruct (marked_lookup _ _ _ _ Hq HA) as (Item1 & H1 & H2).
      exists Item1. split; [exact H1|]. split.
      - eapply entry_marked_trans; [apply ClearFlags_marked|exact H2].
      - destruct H2 as (_ & Hidx & _ & Hun & _). split.
        + destruct (IsUnreachable Item1); [|reflexivity].
          specialize (Hun eq_refl). unfold IsUnreachable, HasAnyFlags, ClearFlags in Hun.
          cbn in Hun. rewrite land_cleared in Hun. discriminate.
        + unfold GetOwnerIndex in *. rewrite Hidx. cbn [ClearFlags ClusterRootIndex].
          replace (0 <? ClusterRootIndex Item) with false by (symmetry; apply Z.ltb_ge; lia).
          reflexivity. }
    destruct (negb _).
    + intros [= <-]. cbn [fst]. apply Hend. apply AddObject_marked.
    + destruct (MarkReferencedClustersAsReachable _ _ _) as [st2|] eqn:Hr; [|discriminate].
      intros [= <-]. cbn [fst]. apply Hend.
      eapply MarkReferencedClustersAsReachable_marked. exact Hr.
  - destruct ((0 <? GetOwnerIndex Item) && negb (Has M ReachableInCluster)) eqn:Hc.
    2: { intros [= <-]. cbn [fst]. exists Item. split; [exact HItem|].
         split; [apply entry_marked_refl|]. split; [exact HU|].
         unfold Has in Hc. rewrite HM in Hc. exact Hc. }
    destruct (IndexToObject (Tables st) (GetOwnerIndex Item)) as [Root|]; [|discriminate].
    cbn [mbind option_bind].
    set (sB := with_Tables (update_item (ObjectIndex M) (SetFlags ReachableInCluster)
                                        (Tables st)) st).
    assert (HB : IndexToObject (Tables sB) (ObjectIndex M)
                 = Some (SetFlags ReachableInCluster Item))
      by (apply IndexToObject_updated_entry; exact HItem).
    assert (Hend : forall s', quietly_marked sB s' ->
              exists Item1,
                IndexToObject (Tables s') (ObjectIndex M) = Some Item1
                /\ entry_marked Item Item1
                /\ IsUnreachable Item1 = false
                /\ (0 <? GetOwnerIndex Item1)
                   && negb (HasAnyFlags Item1 ReachableInCluster) = false).
    { intros s' Hq. destruct (marked_lookup _ _ _ _ Hq HB) as (Item1 & H1 & H2).
      exists Item1. split; [exact H1|]. split.
      - eapply entry_marked_trans; [apply SetFlags_marked|exact H2].
      - destruct H2 as (_ & _ & _ & Hun & Hin). split.
        + destruct (IsUnreachable Item1); [|reflexivity].
          specialize (Hun eq_refl). unfold IsUnreachable, HasAnyFlags, SetFlags in Hun, HU.
          cbn in Hun. rewrite (land_set_other _ _ _ Hur) in Hun. congruence.
        + rewrite Hin; [apply andb_false_r|].
          unfold HasAnyFlags, SetFlags. cbn. rewrite land_set_self.
          destruct (ReachableInCluster =? 0) eqn:E; [|reflexivity].
          apply Z.eqb_eq in E. contradiction. }
    destruct (_ && IsUnreachable Root).
    + destruct (MarkReferencedClustersAsReachable _ _ _) as [st2|] eqn:Hr; [|discriminate].
      intros [= <-]. cbn [fst]. apply Hend.
      eapply quietly_marked_trans; [apply clear_marked|].
      eapply MarkReferencedClustersAsReachable_marked. exact Hr.
    + intros [= <-]. cbn [fst]. apply Hend. apply quietly_marked_refl.
Qed.

(** The reachability processor only marks.  Whatever reference it is given,
    directly or from a batch, every entry of the object table keeps its
    object, its owner index and every flag but Unreachable and
    ReachableInCluster; Unreachable is never set and ReachableInCluster never
    cleared; the clusters keep their members, lose indices of their reference
    lists only to -1 and do not stop needing to be dissolved; the queue of
    objects to serialize is only appended to.  The reference slots are as
    before, unless the reference was killed: then the one slot holds nullptr
    and nothing else has changed. *)
Theorem processor_only_marks Killable fuel ReferencingObject Slot Reference RefObj M st :
  (forall st',
     ProcessReferenceDirectly Options PermanentPoolContains IsObjectHandleResolved
       ObjectToIndex Killable fuel ReferencingObject Slot st = Some st' ->
     marked st st'
     /\ (Memory st' = Memory st
         \/ (Killable = KillableYes /\ st' = KillReference Slot st)))
  /\ (forall st',
        HandleBatchedMutableReference Options fuel Reference M st = Some st' ->
        marked st st'
        /\ (Memory st' = Memory st \/ st' = KillReference (Mutable Reference) st))
  /\ (forall st',
        HandleBatchedImmutableReference Options fuel RefObj M st = Some st' ->
        marked st st' /\ Memory st' = Memory st).
Proof.
  assert (Hkilled : forall a, marked st (KillReference a st)).
  { intros a. unfold marked, KillReference. cbn.
    split; [apply tables_marked_refl|]. split; [reflexivity|auto]. }
  split; [|split].
  - intros st'. unfold ProcessReferenceDirectly.
    destruct (Memory st !! Slot) as [Obj|]; [|discriminate]. cbn [mbind option_bind].
    destruct (ValidateReference _ _ Obj).
    2: { intros [= <-]. split; [apply marked_refl|left; reflexivity]. }
    destruct (MakeMetadata _ _) as [M0|]; [|discriminate]. cbn [mbind option_bind].
    destruct (Has M0 (KillFlag Options) && _) eqn:Hk.
    + destruct (negb _ || _); [|discriminate].
      intros [= <-]. split; [apply Hkilled|]. right. split; [|reflexivity].
      destruct Killable; [rewrite andb_false_r in Hk; discriminate|reflexivity].
    + destruct (HandleValidReference _ _ _ _ _) as [r|] eqn:HV; [|discriminate].
      intros [= <-].
      pose proof (quietly_marked_trans _ _ _ (DetectGarbageReference_marked M0 st)
                    (HandleValidReference_marked _ _ _ _ _ HV)) as [H1 H2].
      split; [exact H1|left; exact H2].
  - intros st'. unfold HandleBatchedMutableReference. destruct (Has M (KillFlag Options)).
    + intros [= <-]. split; [apply Hkilled|right; reflexivity].
    + destruct (HandleValidReference _ _ _ _ _) as [r|] eqn:HV; [|discriminate].
      intros [= <-]. destruct (HandleValidReference_marked _ _ _ _ _ HV) as [H1 H2].
      split; [exact H1|left; exact H2].
  - intros st'. unfold HandleBatchedImmutableReference.
    destruct (HandleValidReference _ _ _ _ _) as [r|] eqn:HV; [|discriminate].
    intros [= <-].
    exact (quietly_marked_trans _ _ _ (DetectGarbageReference_marked M st)
             (HandleValidReference_marked _ _ _ _ _ HV)).
Qed.

(** Processing a reference a second time changes nothing.  When no cluster
    member is marked unreachable (the processor's checkSlow) and the kill
    flag is neither of the two flags the processor writes, the state that
    ProcessReferenceDirectly returns for a reference is a fixed point: run
    on it again for the same reference, with any bound on the recursion, it
    returns that same state. *)
Theorem processing_twice_changes_nothing Killable fuel fuel' ReferencingObject Slot st st1 :
  ReachableInCluster <> 0 ->
  Z.land (KillFlag Options) MarkBits = 0 ->
  members_not_unreachable (Tables st) ->
  ProcessReferenceDirectly Options PermanentPoolContains IsObjectHandleResolved
    ObjectToIndex Killable fuel ReferencingObject Slot st = Some st1 ->
  ProcessReferenceDirectly Options PermanentPoolContains IsObjectHandleResolved
    ObjectToIndex Killable fuel' ReferencingObject Slot st1 = Some st1.
Proof.
  intros Hric Hkill Hmem H. unfold ProcessReferenceDirectly in *.
  destruct (Memory st !! Slot) as [Obj|] eqn:HObj; [|discriminate].
  cbn [mbind option_bind] in H.
  destruct (ValidateReference _ _ Obj) eqn:Hval.
  2: { injection H as <-. rewrite HObj. cbn [mbind option_bind]. rewrite Hval.
       reflexivity. }
  unfold MakeMetadata in H.
  destruct (IndexToObject (Tables st) (ObjectToIndex Obj)) as [Item|] eqn:HItem;
    [|discriminate].
  cbn [mbind option_bind] in H.
  set (M := mkMetadata (Flags Item) (ObjectToIndex Obj)) in *.
  destruct (Has M (KillFlag Options) && _) eqn:Hk.
  - destruct (negb _ || _); [|discriminate].
    injection H as <-. unfold KillReference. cbn [Memory].
    rewrite lookup_insert_eq. cbn [mbind option_bind].
    unfold ValidateReference. cbn [Z.eqb negb]. rewrite andb_false_r. reflexivity.
  - destruct (HandleValidReference _ _ _ _ _) as [r|] eqn:HV; [|discriminate].
    injection H as <-. destruct r as [st1 b]. cbn [fst] in *.
    pose proof (DetectGarbageReference_marked M st) as Hd.
    pose proof (HandleValidReference_marked _ _ _ _ _ HV) as Hh.
    assert (Hown : IsUnreachable Item = true -> GetOwnerIndex Item <= 0).
    { unfold members_not_unreachable in Hmem. unfold IndexToObject in HItem.
      destruct (ObjectToIndex Obj <? 0); [discriminate|].
      exact (proj1 (Forall_lookup _ _) Hmem _ _ HItem). }
    destruct (HandleValidReference_settles fuel Obj M (DetectGarbageReference Options M st)
                (st1, b) Item Hric HItem eq_refl Hown HV)
      as (Item1 & HItem1 & Hmarked & HU1 & Hc1).
    cbn [fst] in *. destruct Hh as [Hm2 Hmem2]. destruct Hd as [_ Hmem1].
    rewrite Hmem2, Hmem1, HObj. cbn [mbind option_bind]. rewrite Hval.
    unfold MakeMetadata. cbn [ObjectIndex M] in HItem1. rewrite HItem1.
    cbn [mbind option_bind].
    assert (HK : Has (mkMetadata (Flags Item1) (ObjectToIndex Obj)) (KillFlag Options)
                 = Has M (KillFlag Options)).
    { unfold Has, M. cbn [MetaFlags]. destruct Hmarked as (_ & _ & Hout & _).
      now rewrite (land_outside_eq _ _ _ _ Hkill Hout). }
    rewrite HK, Hk.
    assert (Hdetect : DetectGarbageReference Options
                        (mkMetadata (Flags Item1) (ObjectToIndex Obj)) st1 = st1).
    { unfold DetectGarbageReference. rewrite HK.
      destruct Hm2 as (_ & _ & Hfound).
      unfold DetectGarbageReference in Hfound. cbn [bFoundGarbageRef] in Hfound.
      destruct (negb (WithPendingKill Options) && Has M (KillFlag Options)).
      - rewrite orb_true_r in Hfound. specialize (Hfound eq_refl).
        destruct st1. cbn in *. rewrite Hfound. reflexivity.
      - rewrite orb_false_r. destruct st1; reflexivity. }
    rewrite Hdetect. unfold HandleValidReference. cbn [ObjectIndex].
    rewrite HItem1. cbn [mbind option_bind]. rewrite HU1.
    unfold Has. cbn [MetaFlags]. unfold HasAnyFlags in Hc1. rewrite Hc1. reflexivity.
Qed.

End Monotone.

(** The theorem at the reference to the cluster member: the member is
    flagged, its root and the object the cluster references are no longer
    unreachable, and that object is queued. *)
Lemma processor_only_marks_witness :
  marked (F := EngineFlags) clustered_heap clustered_heap_marked
  /\ Memory clustered_heap_marked = Memory clustered_heap.
Proof.
  destruct (processor_only_marks (F := EngineFlags) (mkOptions false false)
              (fun _ => false) (fun _ => true) (fun Obj => Obj - 5000)
              ltac:(unfold masks_separate; cbn; repeat split; discriminate)
              KillableYes 1 0 100 (mkMutableRef 5002 100) 5002 (mkMetadata 0 2)
              clustered_heap) as [H _].
  destruct (H clustered_heap_marked) as [H1 _]; [reflexivity|].
  split; [exact H1|reflexivity].
Defined.

(** The theorem at the same reference: processed again, with no recursion
    allowed at all, the heap stays as the first run left it. *)
Lemma processing_twice_changes_nothing_witness :
  ProcessReferenceDirectly (F := EngineFlags) (mkOptions false false)
    (fun _ => false) (fun _ => true) (fun Obj => Obj - 5000) KillableYes 0 0 100
    clustered_heap_marked = Some clustered_heap_marked.
Proof.
  apply (processing_twice_changes_nothing (F := EngineFlags) (mkOptions false false)
           (fun _ => false) (fun _ => true) (fun Obj => Obj - 5000)
           ltac:(unfold masks_separate; cbn; repeat split; discriminate)
           KillableYes 1 0 0 100 clustered_heap).
  - discriminate.
  - reflexivity.
  - unfold members_not_unreachable. cbn [clustered_heap Tables GUObjectArray].
    repeat (constructor;
            [intros Hu; vm_compute in Hu; first [discriminate Hu|cbn; lia]|]).
    constructor.
  - reflexivity.
Defined.

End MarkingProofs.

(* ===================================================================== *)
(** ** The mark sweep, entry by entry *)
(* ===================================================================== *)

Module SweepEffectProofs.
Import ObjectFlags Stripes MarkPhase StripesProofs MarkPhaseProofs SweepEffect.

Lemma rangeZ_S lo n : rangeZ lo (S n) = lo :: rangeZ (lo + 1) n.
Proof.
  unfold rangeZ. cbn [seq map]. f_equal; [lia|].
  rewrite <- seq_shift, map_map. apply map_ext. intros k. lia.
Qed.

Lemma rangeZ_app lo a b :
  rangeZ lo (a + b) = rangeZ lo a ++ rangeZ (lo + Z.of_nat a) b.
Proof.
  revert lo. induction a as [|a IH]; intros lo.
  - replace (lo + Z.of_nat 0) with lo by lia. reflexivity.
  - cbn [Nat.add]. rewrite !rangeZ_S, IH. cbn [app].
    replace (lo + 1 + Z.of_nat a) with (lo + Z.of_nat (S a)) by lia. reflexivity.
Qed.

Lemma in_rangeZ lo n i : In i (rangeZ lo n) <-> lo <= i < lo + Z.of_nat n.
Proof.
  unfold rangeZ. rewrite in_map_iff. split.
  - intros (k & <- & Hk). apply in_seq in Hk. lia.
  - intros H. exists (Z.to_nat (i - lo)). split; [lia|]. apply in_seq. lia.
Qed.

Lemma NoDup_rangeZ lo n : List.NoDup (rangeZ lo n).
Proof.
  unfold rangeZ. apply NoDup_ListNoDup. apply NoDup_fmap_2; [|apply NoDup_seq].
  intros a b H. lia.
Qed.

Lemma sumZ_app l k : sumZ (l ++ k) = sumZ l + sumZ k.
Proof. unfold sumZ. induction l as [|x l IH]; cbn; [reflexivity|]. rewrite IH. lia. Qed.

Lemma sumZ_perm l k : Permutation l k -> sumZ l = sumZ k.
Proof.
  unfold sumZ. induction 1 as [|x l k _ IH|x y l|l k m _ IH1 _ IH2]; cbn; lia.
Qed.

(** The stripes, taken in the order of the thread indices, are the range of
    the sweep in ascending order. *)
Lemma stripes_in_order ArrayNum FirstIndex NumThreads :
  1 <= NumThreads -> 0 <= FirstIndex <= ArrayNum ->
  flat_map (indices ArrayNum FirstIndex NumThreads)
           (map Z.of_nat (seq 0 (Z.to_nat NumThreads)))
  = rangeZ FirstIndex (Z.to_nat (ArrayNum - FirstIndex)).
Proof.
  intros HN HF.
  assert (HP := per_thread_positive ArrayNum FirstIndex NumThreads HN HF).
  set (P := NumberOfObjectsPerThread ArrayNum FirstIndex NumThreads) in *.
  assert (Hfirst : forall k : nat, Z.of_nat k <= NumThreads - 1 ->
            flat_map (indices ArrayNum FirstIndex NumThreads) (map Z.of_nat (seq 0 k))
            = rangeZ FirstIndex
                (Z.to_nat (Z.min (ArrayNum - FirstIndex) (Z.of_nat k * P)))).
  { induction k as [|k IH]; intros Hk.
    { cbn [seq map flat_map].
      replace (Z.to_nat (Z.min (ArrayNum - FirstIndex) (Z.of_nat 0 * P))) with 0%nat by lia.
      reflexivity. }
    rewrite seq_S, map_app, flat_map_app, IH by lia. cbn [Nat.add map flat_map].
    rewrite app_nil_r. unfold indices, LastObjectIndex, FirstObjectIndex, NumObjects.
    fold P. fold (rangeZ (Z.of_nat k * P + FirstIndex)
                    (Z.to_nat (Z.min (ArrayNum - 1)
                                 (Z.of_nat k * P + FirstIndex
                                  + (if Z.of_nat k <? NumThreads - 1 then P
                                     else MaxNumberOfObjects ArrayNum FirstIndex
                                          - (NumThreads - 1) * P) - 1)
                               - (Z.of_nat k * P + FirstIndex) + 1))).
    replace (Z.of_nat k <? NumThreads - 1) with true by (symmetry; apply Z.ltb_lt; lia).
    rewrite Nat2Z.inj_succ, Z.mul_succ_l.
    assert (H0 : 0 <= Z.of_nat k * P) by nia.
    set (kP := Z.of_nat k * P) in *.
    destruct (Z_le_gt_dec kP (ArrayNum - FirstIndex)) as [Hle|Hgt].
    - replace (Z.to_nat (Z.min (ArrayNum - FirstIndex) (kP + P)))
        with (Z.to_nat (Z.min (ArrayNum - FirstIndex) kP)
              + Z.to_nat (Z.min (ArrayNum - 1) (kP + FirstIndex + P - 1)
                          - (kP + FirstIndex) + 1))%nat by lia.
      rewrite rangeZ_app. f_equal. f_equal. lia.
    - replace (Z.to_nat (Z.min (ArrayNum - 1) (kP + FirstIndex + P - 1)
                         - (kP + FirstIndex) + 1)) with 0%nat by lia.
      cbn [rangeZ seq map]. rewrite app_nil_r. f_equal. lia. }
  replace (Z.to_nat NumThreads) with (S (Z.to_nat (NumThreads - 1))) by lia.
  rewrite seq_S, map_app, flat_map_app, Hfirst by lia. cbn [Nat.add map flat_map].
  rewrite app_nil_r. unfold indices, LastObjectIndex, FirstObjectIndex, NumObjects,
    MaxNumberOfObjects.
  fold P. rewrite Z2Nat.id by lia.
  replace (NumThreads - 1 <? NumThreads - 1) with false by (symmetry; apply Z.ltb_ge; lia).
  set (kP := (NumThreads - 1) * P).
  fold (rangeZ (kP + FirstIndex)
          (Z.to_nat (Z.min (ArrayNum - 1)
                       (kP + FirstIndex + (ArrayNum - FirstIndex - kP) - 1)
                     - (kP + FirstIndex) + 1))).
  destruct (Z_le_gt_dec kP (ArrayNum - FirstIndex)) as [Hle|Hgt].
  - assert (0 <= kP) by (unfold kP; nia).
    replace (Z.to_nat (ArrayNum - FirstIndex))
      with (Z.to_nat (Z.min (ArrayNum - FirstIndex) kP)
            + Z.to_nat (Z.min (ArrayNum - 1)
                          (kP + FirstIndex + (ArrayNum - FirstIndex - kP) - 1)
                        - (kP + FirstIndex) + 1))%nat by lia.
    rewrite rangeZ_app. f_equal. f_equal. lia.
  - replace (Z.to_nat (Z.min (ArrayNum - 1)
                         (kP + FirstIndex + (ArrayNum - FirstIndex - kP) - 1)
                       - (kP + FirstIndex) + 1)) with 0%nat by lia.
    cbn [rangeZ seq map]. rewrite app_nil_r. f_equal. lia.
Qed.

(** The workers of a schedule. *)
Lemma schedule_threads NumThreads schedule :
  is_schedule NumThreads schedule ->
  (forall t, In t schedule <-> 0 <= t < NumThreads) /\ List.NoDup schedule.
Proof.
  intros Hs. unfold is_schedule in Hs. split.
  - intros t. split.
    + intros Ht. apply (Permutation_in _ Hs) in Ht. apply in_map_iff in Ht.
      destruct Ht as (k & <- & Hk). apply in_seq in Hk. lia.
    + intros Ht. apply (Permutation_in _ (Permutation_sym Hs)). apply in_map_iff.
      exists (Z.to_nat t). split; [lia|]. apply in_seq. lia.
  - apply (Permutation_NoDup (Permutation_sym Hs)).
    apply NoDup_ListNoDup. apply NoDup_fmap_2; [|apply NoDup_seq].
    intros a b H. lia.
Qed.

(** Of the visits of a schedule, those of the worker [t] are its stripe. *)
Lemma visits_of_thread {A} ArrayNum FirstIndex NumThreads (g : Z -> list A) schedule t :
  List.NoDup schedule -> In t schedule ->
  flat_map (fun q : Z * Z => if q.1 =? t then g q.2 else [])
           (slots ArrayNum FirstIndex NumThreads schedule)
  = flat_map g (indices ArrayNum FirstIndex NumThreads t).
Proof.
  assert (Hmine : forall l, flat_map (fun q : Z * Z => if q.1 =? t then g q.2 else [])
                              (map (pair t) l) = flat_map g l).
  { induction l as [|j l IH]; [reflexivity|]. cbn. rewrite Z.eqb_refl, IH. reflexivity. }
  assert (Hother : forall t' l, t' <> t ->
            flat_map (fun q : Z * Z => if q.1 =? t then g q.2 else [])
              (map (pair t') l) = []).
  { intros t' l Hne. induction l as [|j l IH]; [reflexivity|]. cbn.
    replace (t' =? t) with false by (symmetry; apply Z.eqb_neq; exact Hne). exact IH. }
  assert (Hnone : forall s, ~ In t s ->
            flat_map (fun q : Z * Z => if q.1 =? t then g q.2 else [])
              (slots ArrayNum FirstIndex NumThreads s) = []).
  { induction s as [|t' s IH]; intros Hn; [reflexivity|].
    unfold slots. cbn [flat_map]. rewrite flat_map_app.
    fold (slots ArrayNum FirstIndex NumThreads s).
    rewrite IH by (intros H; apply Hn; right; exact H).
    rewrite Hother by (intros ->; apply Hn; left; reflexivity). reflexivity. }
  induction schedule as [|t' s IH]; intros Hnd Hin; [destruct Hin|].
  unfold slots. cbn [flat_map]. rewrite flat_map_app.
  fold (slots ArrayNum FirstIndex NumThreads s).
  inversion Hnd as [|? ? Hnot Hnd']; subst.
  destruct (Z.eq_dec t' t) as [->|Hne].
  - rewrite Hmine, Hnone by exact Hnot. apply app_nil_r.
  - rewrite Hother by exact Hne. cbn [app]. apply IH; [exact Hnd'|].
    destruct Hin as [H|H]; [contradiction|exact H].
Qed.

Lemma in_flat_map_if (b : Z -> bool) l i :
  In i (flat_map (fun j => if b j then [j] else []) l) <-> In i l /\ b i = true.
Proof.
  rewrite in_flat_map. split.
  - intros (j & Hj & Hi). destruct (b j) eqn:E; [|destruct Hi].
    destruct Hi as [->|[]]. auto.
  - intros [Hi Hb]. exists i. rewrite Hb. cbn. auto.
Qed.

Section Canonical.

Context {F : EInternalObjectFlags}.
Variable GetObjectFlags : Z -> Z.
Variable KeepFlags : Z.
Variable FirstGCIndex : Z.
Variable NumThreads : Z.

(** The visit of a slot, from the entry in it. *)
Lemma MarkSlot_effect t i st Item0 :
  TableAt st i = Some Item0 ->
  MarkSlot GetObjectFlags KeepFlags t i st
  = mkMark (<[Z.to_nat i := SweptItem GetObjectFlags KeepFlags Item0]> (Table st))
           (alter (fun l => l ++ SweptObjects GetObjectFlags KeepFlags Item0)
                  (Z.to_nat t) (ObjectsToSerializeArrays st))
           (ClustersToDissolveList st
            ++ (if SweptDissolve GetObjectFlags KeepFlags Item0 then [i] else []))
           (KeepClusterRefsList st
            ++ (if SweptKeep GetObjectFlags KeepFlags Item0 then [i] else []))
           (GObjectCountDuringLastMarkPhase st + SweptCount Item0).
Proof.
  intros Hi.
  assert (Hl : Table st !! Z.to_nat i = Some Item0).
  { unfold TableAt in Hi. destruct (i <? 0); [discriminate|exact Hi]. }
  assert (Hid : forall n (l : list (list Z)), alter (fun x => x ++ []) n l = l).
  { intros n l. apply list_alter_id. intros x. apply app_nil_r. }
  unfold MarkSlot. rewrite Hi.
  unfold SweptItem, SweptObjects, SweptKeep, SweptDissolve, SweptCount.
  destruct (Object Item0 =? 0); cbn [negb andb].
  - rewrite (list_insert_id _ _ _ Hl), Hid, !app_nil_r, Z.add_0_r.
    destruct st; reflexivity.
  - cbv zeta. destruct (IsRootSet (ClearFlags ReachableInCluster Item0)); cbn [negb andb].
    + destruct (HasAnyFlags _ ClusterRoot || _);
        unfold LocalAdd, KeepPush, StoreItem, CountObject; cbn;
        rewrite ?app_nil_r; reflexivity.
    + destruct (0 <? GetOwnerIndex (ClearFlags ReachableInCluster Item0)); cbn [negb andb].
      * destruct (HasAnyFlags _ GarbageCollectionKeepFlags);
          unfold LocalAdd, KeepPush, StoreItem, CountObject; cbn;
          rewrite ?app_nil_r, ?Hid; reflexivity.
      * destruct (ClassifyRegular GetObjectFlags KeepFlags
                    (ClearFlags ReachableInCluster Item0)) as [[|] [|]];
          cbn [fst snd negb andb];
          try destruct (HasAnyFlags (ClearFlags ReachableInCluster Item0) ClusterRoot);
          unfold LocalAdd, KeepPush, DissolvePush, StoreItem, CountObject; cbn;
          rewrite ?app_nil_r, ?Hid, ?list_insert_insert_eq; reflexivity.
Qed.

Lemma TableAt_initial T A L1 L2 c j : TableAt (mkMark T A L1 L2 c) j = EntryAt T j.
Proof. reflexivity. Qed.

(** The state after a sequence of visits of distinct slots. *)
Lemma MarkVisit_fold_effect T p :
  NoDup (map snd p) ->
  (forall q, In q p -> 0 <= q.1 < NumThreads /\ 0 <= q.2 < Z.of_nat (length T)) ->
  let st := foldl (MarkVisit GetObjectFlags KeepFlags)
                  (mkMark T (replicate (Z.to_nat NumThreads) []) [] [] 0) p in
  length (Table st) = length T
  /\ (forall j, 0 <= j ->
        TableAt st j = if bool_decide (j ∈ map snd p)
                       then SweptItem GetObjectFlags KeepFlags <$> EntryAt T j
                       else EntryAt T j)
  /\ length (ObjectsToSerializeArrays st) = Z.to_nat NumThreads
  /\ (forall k, (k < Z.to_nat NumThreads)%nat ->
        ObjectsToSerializeArrays st !! k
        = Some (flat_map (fun q : Z * Z =>
                            if q.1 =? Z.of_nat k
                            then ObjectsOf GetObjectFlags KeepFlags T q.2 else []) p))
  /\ ClustersToDissolveList st
     = flat_map (DissolveOf GetObjectFlags KeepFlags T) (map snd p)
  /\ KeepClusterRefsList st = flat_map (KeepOf GetObjectFlags KeepFlags T) (map snd p)
  /\ GObjectCountDuringLastMarkPhase st = sumZ (map (CountOf T) (map snd p)).
Proof.
  induction p as [|[t i] p IH] using rev_ind; intros Hnd Hrange.
  - cbn. split; [reflexivity|]. split; [reflexivity|].
    split; [apply length_replicate|]. split; [|auto].
    intros k Hk. apply lookup_replicate_2. exact Hk.
  - rewrite map_app in Hnd. cbn [map snd] in Hnd.
    apply NoDup_app in Hnd. destruct Hnd as (Hnd & Hfresh & _).
    assert (Hi : i ∉ map snd p).
    { intros Hin. apply (Hfresh i Hin). apply list_elem_of_In. left. reflexivity. }
    destruct (Hrange (t, i)) as [Ht Hir]; [apply in_app_iff; cbn; auto|]. cbn [fst snd] in *.
    destruct IH as (H1 & H2 & H3 & H4 & H5 & H6 & H7);
      [exact Hnd|intros q Hq; apply Hrange; apply in_app_iff; auto|].
    cbv zeta in *. rewrite foldl_app. cbn [foldl].
    set (st := foldl (MarkVisit GetObjectFlags KeepFlags)
                 (mkMark T (replicate (Z.to_nat NumThreads) []) [] [] 0) p) in *.
    unfold MarkVisit. cbn [fst snd].
    destruct (lookup_lt_is_Some_2 T (Z.to_nat i)) as [Item0 HItem0]; [lia|].
    assert (HE : EntryAt T i = Some Item0).
    { unfold EntryAt. replace (i <? 0) with false by (symmetry; apply Z.ltb_ge; lia).
      exact HItem0. }
    assert (Hat : TableAt st i = Some Item0).
    { rewrite H2 by lia. rewrite bool_decide_eq_false_2 by exact Hi. exact HE. }
    rewrite (MarkSlot_effect t i st Item0 Hat).
    cbn [Table ObjectsToSerializeArrays ClustersToDissolveList KeepClusterRefsList
         GObjectCountDuringLastMarkPhase].
    split; [rewrite length_insert; exact H1|].
    split; [|split; [rewrite length_alter; exact H3|split; [|split; [|split]]]].
    + intros j Hj. unfold TableAt. cbn [Table].
      replace (j <? 0) with false by (symmetry; apply Z.ltb_ge; lia).
      destruct (Z.eq_dec j i) as [->|Hne].
      * rewrite list_lookup_insert_eq by lia.
        rewrite bool_decide_eq_true_2, HE; [reflexivity|].
        rewrite map_app. apply elem_of_app. right. cbn. apply list_elem_of_In.
        left. reflexivity.
      * rewrite list_lookup_insert_ne by lia.
        specialize (H2 j Hj). unfold TableAt in H2.
        replace (j <? 0) with false in H2 by (symmetry; apply Z.ltb_ge; lia).
        rewrite H2. rewrite map_app. cbn [map snd].
        destruct (bool_decide (j ∈ map snd p)) eqn:E.
        -- rewrite bool_decide_eq_true_2; [reflexivity|].
           apply elem_of_app. left. apply bool_decide_eq_true_1 in E. exact E.
        -- rewrite bool_decide_eq_false_2; [reflexivity|].
           apply bool_decide_eq_false_1 in E. intros Hin.
           apply elem_of_app in Hin. destruct Hin as [Hin|Hin]; [contradiction|].
           apply list_elem_of_In in Hin. destruct Hin as [Hin|[]]. congruence.
    + intros k Hk. rewrite flat_map_app. cbn [flat_map fst snd]. rewrite app_nil_r.
      unfold ObjectsOf at 2. rewrite HE. cbn [from_option].
      destruct (decide (k = Z.to_nat t)) as [->|Hne].
      * rewrite list_lookup_alter_eq, H4 by exact Hk. cbn [fmap option_fmap option_map].
        replace (t =? Z.of_nat (Z.to_nat t)) with true
          by (symmetry; apply Z.eqb_eq; lia).
        reflexivity.
      * rewrite list_lookup_alter_ne by congruence. rewrite H4 by exact Hk.
        replace (t =? Z.of_nat k) with false by (symmetry; apply Z.eqb_neq; lia).
        rewrite app_nil_r. reflexivity.
    + rewrite map_app, flat_map_app. cbn [map flat_map snd]. rewrite app_nil_r, H5.
      unfold DissolveOf at 3. rewrite HE. reflexivity.
    + rewrite map_app, flat_map_app. cbn [map flat_map snd]. rewrite app_nil_r, H6.
      unfold KeepOf at 3. rewrite HE. reflexivity.
    + rewrite !map_app, sumZ_app. cbn [map snd]. rewrite H7.
      unfold CountOf at 3. rewrite HE. unfold sumZ. cbn. lia.
Qed.

Hypothesis Hthreads : 1 <= NumThreads.

(** The sweep in canonical form: what it leaves depends on the table only,
    but for the order of the two lock-free lists. *)
Lemma MarkSweep_canonical schedule T :
  is_schedule NumThreads schedule ->
  0 <= FirstGCIndex <= Z.of_nat (length T) ->
  let st := MarkSweep GetObjectFlags KeepFlags FirstGCIndex NumThreads schedule T in
  let range := rangeZ FirstGCIndex (Z.to_nat (Z.of_nat (length T) - FirstGCIndex)) in
  length (Table st) = length T
  /\ (forall j : nat,
        Table st !! j = if FirstGCIndex <=? Z.of_nat j
                        then SweptItem GetObjectFlags KeepFlags <$> T !! j
                        else T !! j)
  /\ InitialObjects st = flat_map (ObjectsOf GetObjectFlags KeepFlags T) range
  /\ Permutation (ClustersToDissolveList st)
                 (flat_map (DissolveOf GetObjectFlags KeepFlags T) range)
  /\ Permutation (KeepClusterRefsList st)
                 (flat_map (KeepOf GetObjectFlags KeepFlags T) range)
  /\ GObjectCountDuringLastMarkPhase st = sumZ (map (CountOf T) range).
Proof.
  intros Hs HF. cbv zeta.
  destruct (schedule_threads NumThreads schedule Hs) as [Hin Hnd].
  destruct (GatherProofs.visited_slots NumThreads (Z.of_nat (length T)) FirstGCIndex
              schedule Hthreads HF Hs) as [Hvis Hvnd].
  set (p := slots (Z.of_nat (length T)) FirstGCIndex NumThreads schedule) in *.
  assert (Hperm : Permutation (map snd p)
                    (rangeZ FirstGCIndex (Z.to_nat (Z.of_nat (length T) - FirstGCIndex)))).
  { apply NoDup_Permutation;
      [apply NoDup_ListNoDup; exact Hvnd|apply NoDup_ListNoDup, NoDup_rangeZ|].
    intros i. rewrite !list_elem_of_In, Hvis, in_rangeZ. lia. }
  assert (Hq : forall q, In q p -> 0 <= q.1 < NumThreads /\ 0 <= q.2 < Z.of_nat (length T)).
  { intros q Hq. split.
    - apply Hin. unfold p, slots in Hq. apply in_flat_map in Hq.
      destruct Hq as (t & Ht & Hq). apply in_map_iff in Hq.
      destruct Hq as (j & <- & _). exact Ht.
    - assert (Hi : In q.2 (map snd p)) by (apply in_map; exact Hq).
      apply Hvis in Hi. lia. }
  destruct (MarkVisit_fold_effect T p) as (H1 & H2 & H3 & H4 & H5 & H6 & H7);
    [apply NoDup_ListNoDup; exact Hvnd|exact Hq|].
  unfold MarkSweep. rewrite MarkSweep_visits. cbn [Table]. fold p.
  set (st := foldl (MarkVisit GetObjectFlags KeepFlags)
               (mkMark T (replicate (Z.to_nat NumThreads) []) [] [] 0) p) in *.
  split; [exact H1|]. split; [|split; [|split; [|split]]].
  - intros j. specialize (H2 (Z.of_nat j) ltac:(lia)). unfold TableAt, EntryAt in H2.
    replace (Z.of_nat j <? 0) with false in H2 by (symmetry; apply Z.ltb_ge; lia).
    rewrite Nat2Z.id in H2. rewrite H2.
    destruct (FirstGCIndex <=? Z.of_nat j) eqn:E;
      [apply Z.leb_le in E|apply Z.leb_gt in E].
    + destruct (T !! j) as [Item0|] eqn:HT.
      * rewrite bool_decide_eq_true_2; [reflexivity|].
        apply list_elem_of_In. apply Hvis. apply lookup_lt_Some in HT. lia.
      * destruct (bool_decide _); reflexivity.
    + rewrite bool_decide_eq_false_2; [reflexivity|].
      intros Hj. apply list_elem_of_In in Hj. apply Hvis in Hj. lia.
  - unfold InitialObjects.
    assert (Harr : ObjectsToSerializeArrays st
                   = map (fun t => flat_map (ObjectsOf GetObjectFlags KeepFlags T)
                                     (indices (Z.of_nat (length T)) FirstGCIndex
                                        NumThreads t))
                         (map Z.of_nat (seq 0 (Z.to_nat NumThreads)))).
    { apply list_eq. intros k. rewrite map_map.
      change (map ?f ?l !! k) with (fmap (M := list) f l !! k).
      rewrite list_lookup_fmap.
      destruct (decide (k < Z.to_nat NumThreads)%nat) as [Hk|Hk].
      - rewrite H4 by exact Hk. rewrite lookup_seq_lt by exact Hk. cbn.
        f_equal. unfold p. apply visits_of_thread; [exact Hnd|]. apply Hin. lia.
      - rewrite lookup_seq_ge by lia. cbn. apply lookup_ge_None. lia. }
    rewrite Harr. rewrite <- flat_map_concat_map.
    rewrite <- (stripes_in_order (Z.of_nat (length T)) FirstGCIndex NumThreads Hthreads HF).
    generalize (map Z.of_nat (seq 0 (Z.to_nat NumThreads))). intros l.
    induction l as [|t l IHl]; [reflexivity|]. cbn [flat_map].
    rewrite flat_map_app, IHl. reflexivity.
  - rewrite H5. apply Permutation_flat_map. exact Hperm.
  - rewrite H6. apply Permutation_flat_map. exact Hperm.
  - rewrite H7. apply sumZ_perm. apply Permutation_map. exact Hperm.
Qed.

End Canonical.

Section Sweep.

Context {F : EInternalObjectFlags}.
Variable GetObjectFlags : Z -> Z.
Variable KeepFlags : Z.
Variable FirstGCIndex : Z.

Lemma swept_flags f U R b :
  Z.land (if b : bool then Z.lor (Z.land f (Z.lnot R)) U else Z.land f (Z.lnot R))
         (Z.lnot (Z.lor U R))
  = Z.land f (Z.lnot (Z.lor U R)).
Proof.
  apply Z.bits_inj'. intros n Hn.
  destruct b; rewrite !Z.land_spec, ?Z.lor_spec, !Z.lnot_spec, ?Z.lor_spec,
    ?Z.land_spec, ?Z.lnot_spec by assumption;
    destruct (Z.testbit f n), (Z.testbit U n), (Z.testbit R n); reflexivity.
Qed.

(** The sweep writes the two flags only. *)
Lemma SweptItem_frame Item0 :
  Object (SweptItem GetObjectFlags KeepFlags Item0) = Object Item0
  /\ ClusterRootIndex (SweptItem GetObjectFlags KeepFlags Item0) = ClusterRootIndex Item0
  /\ Z.land (Flags (SweptItem GetObjectFlags KeepFlags Item0))
            (Z.lnot (Z.lor Unreachable ReachableInCluster))
     = Z.land (Flags Item0) (Z.lnot (Z.lor Unreachable ReachableInCluster)).
Proof.
  unfold SweptItem. destruct (negb (Object Item0 =? 0)); [|auto]. cbv zeta.
  destruct (IsRootSet _); [|destruct (0 <? _); [|destruct (fst _)]]; cbn;
    repeat split;
    first [apply (swept_flags _ _ _ true)|apply (swept_flags _ _ _ false)].
Qed.

(** The objects counted from the index [f] on. *)
Lemma count_from T : forall n f,
  (f + n = length T)%nat ->
  sumZ (map (CountOf T) (rangeZ (Z.of_nat f) n))
  = Z.of_nat (length (List.filter (fun Item => negb (Object Item =? 0)) (drop f T))).
Proof.
  induction n as [|n IH]; intros f Hf.
  - rewrite drop_ge by lia. reflexivity.
  - destruct (lookup_lt_is_Some_2 T f) as [x Hx]; [lia|].
    rewrite rangeZ_S, (drop_S _ _ _ Hx). cbn [map List.filter].
    replace (Z.of_nat f + 1) with (Z.of_nat (S f)) by lia.
    unfold sumZ in *. cbn [foldr]. rewrite IH by lia.
    unfold CountOf, EntryAt.
    replace (Z.of_nat f <? 0) with false by (symmetry; apply Z.ltb_ge; lia).
    rewrite Nat2Z.id, Hx. cbn [from_option]. unfold SweptCount.
    destruct (negb (Object x =? 0)); cbn [length]; lia.
Qed.

(** The mark sweep does not depend on how it is run: with any two numbers
    of workers, run in any two orders, MarkObjectsAsUnreachable leaves the
    same object table, appends the same objects to InitialObjects in the
    same order (the ascending order of their table indices), and counts the
    same number of objects; the two lock-free lists hold the same entries,
    possibly in another order. *)
Theorem mark_sweep_is_schedule_independent NumThreads schedule NumThreads' schedule' T :
  1 <= NumThreads -> is_schedule NumThreads schedule ->
  1 <= NumThreads' -> is_schedule NumThreads' schedule' ->
  0 <= FirstGCIndex <= Z.of_nat (length T) ->
  Table (MarkSweep GetObjectFlags KeepFlags FirstGCIndex NumThreads schedule T)
  = Table (MarkSweep GetObjectFlags KeepFlags FirstGCIndex NumThreads' schedule' T)
  /\ InitialObjects (MarkSweep GetObjectFlags KeepFlags FirstGCIndex NumThreads schedule T)
     = InitialObjects
         (MarkSweep GetObjectFlags KeepFlags FirstGCIndex NumThreads' schedule' T)
  /\ GObjectCountDuringLastMarkPhase
       (MarkSweep GetObjectFlags KeepFlags FirstGCIndex NumThreads schedule T)
     = GObjectCountDuringLastMarkPhase
         (MarkSweep GetObjectFlags KeepFlags FirstGCIndex NumThreads' schedule' T)
  /\ Permutation
       (ClustersToDissolveList
          (MarkSweep GetObjectFlags KeepFlags FirstGCIndex NumThreads schedule T))
       (ClustersToDissolveList
          (MarkSweep GetObjectFlags KeepFlags FirstGCIndex NumThreads' schedule' T))
  /\ Permutation
       (KeepClusterRefsList
          (MarkSweep GetObjectFlags KeepFlags FirstGCIndex NumThreads schedule T))
       (KeepClusterRefsList
          (MarkSweep GetObjectFlags KeepFlags FirstGCIndex NumThreads' schedule' T)).
Proof.
  intros HN Hs HN' Hs' HF.
  destruct (MarkSweep_canonical GetObjectFlags KeepFlags FirstGCIndex NumThreads HN
              schedule T Hs HF) as (_ & A2 & A3 & A4 & A5 & A6).
  destruct (MarkSweep_canonical GetObjectFlags KeepFlags FirstGCIndex NumThreads' HN'
              schedule' T Hs' HF) as (_ & B2 & B3 & B4 & B5 & B6).
  split; [|split; [|split; [|split]]].
  - apply list_eq. intros j. rewrite A2, B2. reflexivity.
  - rewrite A3, B3. reflexivity.
  - rewrite A6, B6. reflexivity.
  - rewrite A4, B4. reflexivity.
  - rewrite A5, B5. reflexivity.
Qed.

(** The sweep counts the objects from the first GC index on and writes
    nothing but the two flags: GObjectCountDuringLastMarkPhase is the number
    of slots from FirstGCIndex on that hold an object; the table keeps its
    length; a slot below FirstGCIndex or without an object is left as it
    was; and every entry keeps its object, its owner index and all flags
    other than Unreachable and ReachableInCluster. *)
Theorem mark_sweep_counts_and_frames NumThreads schedule T :
  1 <= NumThreads -> is_schedule NumThreads schedule ->
  0 <= FirstGCIndex <= Z.of_nat (length T) ->
  GObjectCountDuringLastMarkPhase
    (MarkSweep GetObjectFlags KeepFlags FirstGCIndex NumThreads schedule T)
  = Z.of_nat (length (List.filter (fun Item => negb (Object Item =? 0))
                                  (drop (Z.to_nat FirstGCIndex) T)))
  /\ length (Table (MarkSweep GetObjectFlags KeepFlags FirstGCIndex NumThreads schedule T))
     = length T
  /\ (forall (j : nat) Item0,
        T !! j = Some Item0 ->
        Z.of_nat j < FirstGCIndex \/ Object Item0 = 0 ->
        Table (MarkSweep GetObjectFlags KeepFlags FirstGCIndex NumThreads schedule T) !! j
        = Some Item0)
  /\ (forall (j : nat) Item,
        Table (MarkSweep GetObjectFlags KeepFlags FirstGCIndex NumThreads schedule T) !! j
        = Some Item ->
        exists Item0,
          T !! j = Some Item0
          /\ Object Item = Object Item0
          /\ ClusterRootIndex Item = ClusterRootIndex Item0
          /\ Z.land (Flags Item) (Z.lnot (Z.lor Unreachable ReachableInCluster))
             = Z.land (Flags Item0) (Z.lnot (Z.lor Unreachable ReachableInCluster))).
Proof.
  intros HN Hs HF.
  destruct (MarkSweep_canonical GetObjectFlags KeepFlags FirstGCIndex NumThreads HN
              schedule T Hs HF) as (A1 & A2 & _ & _ & _ & A6).
  split; [|split; [exact A1|split]].
  - rewrite A6. rewrite <- (Z2Nat.id FirstGCIndex) at 1 by lia.
    apply count_from. lia.
  - intros j Item0 Hj Hcase. rewrite A2, Hj.
    destruct (FirstGCIndex <=? Z.of_nat j) eqn:E; [|reflexivity].
    apply Z.leb_le in E. destruct Hcase as [Hlt|Hnull]; [lia|].
    cbn. unfold SweptItem. rewrite Hnull. reflexivity.
  - intros j Item Hj. rewrite A2 in Hj.
    destruct (T !! j) as [Item0|] eqn:HT;
      [|destruct (FirstGCIndex <=? Z.of_nat j); discriminate].
    exists Item0. split; [reflexivity|].
    destruct (FirstGCIndex <=? Z.of_nat j); cbn in Hj; injection Hj as <-; [|auto].
    apply SweptItem_frame.
Qed.

(** The sweep never marks an object of the root set or a member of a
    cluster unreachable.  For an entry from the first GC index on that
    holds an object and is in the root set or has a positive owner index,
    with any number of workers run in any order: the entry is left as it
    was with ReachableInCluster cleared; it is not listed for dissolution;
    it is listed in KeepClusterRefs exactly when it is in the root set and a
    cluster root or cluster member, or a cluster member outside the root
    set with one of the GarbageCollectionKeepFlags; and in the root set, or
    with one of those flags, its object is among the objects to
    serialize. *)
Theorem mark_sweep_keeps_roots_and_members NumThreads schedule T i Item0 :
  1 <= NumThreads -> is_schedule NumThreads schedule ->
  0 <= FirstGCIndex <= i ->
  T !! Z.to_nat i = Some Item0 ->
  Object Item0 <> 0 ->
  IsRootSet (ClearFlags ReachableInCluster Item0) = true \/ 0 < GetOwnerIndex Item0 ->
  Table (MarkSweep GetObjectFlags KeepFlags FirstGCIndex NumThreads schedule T)
    !! Z.to_nat i = Some (ClearFlags ReachableInCluster Item0)
  /\ ~ In i (ClustersToDissolveList
               (MarkSweep GetObjectFlags KeepFlags FirstGCIndex NumThreads schedule T))
  /\ (In i (KeepClusterRefsList
              (MarkSweep GetObjectFlags KeepFlags FirstGCIndex NumThreads schedule T))
      <-> (if IsRootSet (ClearFlags ReachableInCluster Item0)
           then HasAnyFlags (ClearFlags ReachableInCluster Item0) ClusterRoot
                || (0 <? GetOwnerIndex Item0)
           else HasAnyFlags (ClearFlags ReachableInCluster Item0)
                  GarbageCollectionKeepFlags) = true)
  /\ (IsRootSet (ClearFlags ReachableInCluster Item0) = true
      \/ HasAnyFlags (ClearFlags ReachableInCluster Item0) GarbageCollectionKeepFlags
         = true ->
      In (Object Item0)
         (InitialObjects
            (MarkSweep GetObjectFlags KeepFlags FirstGCIndex NumThreads schedule T))).
Proof.
  intros HN Hs HF Hi Hobj Hcase.
  assert (Hlen : i < Z.of_nat (length T)) by (apply lookup_lt_Some in Hi; lia).
  destruct (MarkSweep_canonical GetObjectFlags KeepFlags FirstGCIndex NumThreads HN
              schedule T Hs ltac:(lia)) as (_ & A2 & A3 & A4 & A5 & _).
  assert (HE : EntryAt T i = Some Item0).
  { unfold EntryAt. replace (i <? 0) with false by (symmetry; apply Z.ltb_ge; lia).
    exact Hi. }
  assert (Hin : In i (rangeZ FirstGCIndex (Z.to_nat (Z.of_nat (length T) - FirstGCIndex))))
    by (apply in_rangeZ; lia).
  assert (Hnn : negb (Object Item0 =? 0) = true).
  { apply negb_true_iff. apply Z.eqb_neq. exact Hobj. }
  assert (Hown : IsRootSet (ClearFlags ReachableInCluster Item0) = false ->
                 (0 <? GetOwnerIndex (ClearFlags ReachableInCluster Item0)) = true).
  { intros Hr. apply Z.ltb_lt. destruct Hcase as [Hc|Hc]; [congruence|exact Hc]. }
  split; [|split; [|split]].
  - rewrite A2, Hi.
    replace (FirstGCIndex <=? Z.of_nat (Z.to_nat i)) with true
      by (symmetry; apply Z.leb_le; lia).
    cbn. unfold SweptItem. rewrite Hnn. cbv zeta.
    destruct (IsRootSet (ClearFlags ReachableInCluster Item0)) eqn:Hr; [reflexivity|].
    rewrite (Hown eq_refl). reflexivity.
  - intros Hd. apply (Permutation_in _ A4) in Hd.
    apply (in_flat_map_if
             (fun j => from_option (SweptDissolve GetObjectFlags KeepFlags) false
                         (EntryAt T j))) in Hd.
    destruct Hd as [_ Hd]. rewrite HE in Hd. cbn [from_option] in Hd.
    unfold SweptDissolve in Hd. rewrite Hnn in Hd. cbv zeta in Hd. cbn [andb] in Hd.
    destruct (IsRootSet (ClearFlags ReachableInCluster Item0)) eqn:Hr; [discriminate|].
    rewrite (Hown eq_refl) in Hd. discriminate.
  - assert (Hk : In i (KeepClusterRefsList
                         (MarkSweep GetObjectFlags KeepFlags FirstGCIndex NumThreads
                            schedule T))
                 <-> SweptKeep GetObjectFlags KeepFlags Item0 = true).
    { split.
      - intros Hd. apply (Permutation_in _ A5) in Hd.
        apply (in_flat_map_if
                 (fun j => from_option (SweptKeep GetObjectFlags KeepFlags) false
                             (EntryAt T j))) in Hd.
        destruct Hd as [_ Hd]. rewrite HE in Hd. exact Hd.
      - intros Hd. apply (Permutation_in _ (Permutation_sym A5)).
        apply (in_flat_map_if
                 (fun j => from_option (SweptKeep GetObjectFlags KeepFlags) false
                             (EntryAt T j))).
        split; [exact Hin|]. rewrite HE. exact Hd. }
    rewrite Hk. unfold SweptKeep. rewrite Hnn. cbv zeta. cbn [andb].
    destruct (IsRootSet (ClearFlags ReachableInCluster Item0)) eqn:Hr; [reflexivity|].
    rewrite (Hown eq_refl). reflexivity.
  - intros Hkept. rewrite A3. apply in_flat_map. exists i. split; [exact Hin|].
    unfold ObjectsOf. rewrite HE. cbn [from_option]. unfold SweptObjects.
    rewrite Hnn. cbv zeta.
    destruct (IsRootSet (ClearFlags ReachableInCluster Item0)) eqn:Hr; [left; reflexivity|].
    rewrite (Hown eq_refl). destruct Hkept as [Hc|Hc]; [discriminate|].
    rewrite Hc. left. reflexivity.
Qed.

End Sweep.

(** The theorem at the sample table swept from its index 1 on: two workers
    with the second run first leave what one worker leaves. *)
Lemma mark_sweep_is_schedule_independent_witness :
  Table (MarkSweep (F := EngineFlags) (fun _ => 0) 0 1 2 [1; 0] rooted_table)
  = Table (MarkSweep (F := EngineFlags) (fun _ => 0) 0 1 1 [0] rooted_table)
  /\ InitialObjects (MarkSweep (F := EngineFlags) (fun _ => 0) 0 1 2 [1; 0] rooted_table)
     = [6001; 6002].
Proof.
  destruct (mark_sweep_is_schedule_independent (F := EngineFlags) (fun _ => 0) 0 1
              2 [1; 0] 1 [0] rooted_table) as (H1 & H2 & _).
  - lia.
  - unfold is_schedule. cbn. apply perm_swap.
  - lia.
  - unfold is_schedule. cbn. reflexivity.
  - cbn. lia.
  - split; [exact H1|]. rewrite H2. reflexivity.
Defined.

(** The theorem at the sample table: four objects are counted, and the
    empty slot at the index 0 is as it was. *)
Lemma mark_sweep_counts_and_frames_witness :
  GObjectCountDuringLastMarkPhase
    (MarkSweep (F := EngineFlags) (fun _ => 0) 0 1 2 [1; 0] rooted_table) = 4
  /\ Table (MarkSweep (F := EngineFlags) (fun _ => 0) 0 1 2 [1; 0] rooted_table) !! 0%nat
     = Some (mkItem 0 0 0).
Proof.
  destruct (mark_sweep_counts_and_frames (F := EngineFlags) (fun _ => 0) 0 1
              2 [1; 0] rooted_table) as (H1 & _ & H3 & _).
  - lia.
  - unfold is_schedule. cbn. apply perm_swap.
  - cbn. lia.
  - split; [rewrite H1; reflexivity|]. apply H3; [reflexivity|]. left. lia.
Defined.

(** The theorem at the cluster member with a keep flag: it is kept, listed
    in KeepClusterRefs and its object is to be serialized. *)
Lemma mark_sweep_keeps_roots_and_members_witness :
  Table (MarkSweep (F := EngineFlags) (fun _ => 0) 0 1 2 [1; 0] rooted_table) !! 2%nat
  = Some (mkItem 6002 (2^25) 1)
  /\ In 2 (KeepClusterRefsList
             (MarkSweep (F := EngineFlags) (fun _ => 0) 0 1 2 [1; 0] rooted_table))
  /\ In 6002 (InitialObjects
                (MarkSweep (F := EngineFlags) (fun _ => 0) 0 1 2 [1; 0] rooted_table)).
Proof.
  destruct (mark_sweep_keeps_roots_and_members (F := EngineFlags) (fun _ => 0) 0 1
              2 [1; 0] rooted_table 2 (mkItem 6002 (2^25 + 2^23) 1))
    as (H1 & _ & H3 & H4).
  - lia.
  - unfold is_schedule. cbn. apply perm_swap.
  - lia.
  - reflexivity.
  - cbn. lia.
  - right. cbn. lia.
  - split; [exact H1|]. split; [apply H3; reflexivity|]. apply H4. right. reflexivity.
Defined.

End SweepEffectProofs.

(* ===================================================================== *)
(** ** Cluster members and their roots *)
(* ===================================================================== *)

Module ClusterRootsProofs.
Import ObjectFlags Reachability Marking MarkingProofs ClusterRoots.

Section Live.

Context {F : EInternalObjectFlags}.

Hypothesis Hmasks : masks_separate F.

Lemma IndexToObject_other Index f T j :
  j <> Index -> IndexToObject (update_item Index f T) j = IndexToObject T j.
Proof.
  intros Hne. unfold IndexToObject, update_item.
  destruct (Index <? 0) eqn:E; [reflexivity|]. apply Z.ltb_ge in E.
  destruct (j <? 0) eqn:E'; [reflexivity|]. apply Z.ltb_ge in E'. cbn.
  apply list_lookup_alter_ne. lia.
Qed.

Lemma IndexToObject_touched Index f T j Item' :
  IndexToObject (update_item Index f T) j = Some Item' ->
  exists Item, IndexToObject T j = Some Item
               /\ (Item' = Item \/ (j = Index /\ Item' = f Item)).
Proof.
  intros H. destruct (Z.eq_dec j Index) as [->|Hne].
  - unfold IndexToObject, update_item in *.
    destruct (Index <? 0) eqn:E; [discriminate|].
    cbn in H. rewrite list_lookup_alter_eq in H.
    destruct (GUObjectArray T !! Z.to_nat Index) as [Item|]; [|discriminate].
    cbn in H. injection H as <-. eauto.
  - rewrite IndexToObject_other in H by exact Hne. eauto.
Qed.

Lemma is_live_mono st st' r :
  quietly_marked st st' -> is_live (Tables st) r -> is_live (Tables st') r.
Proof.
  intros Hq (Root & HR & HU). destruct (marked_lookup _ _ _ _ Hq HR) as (Root' & H1 & H2).
  exists Root'. split; [exact H1|]. destruct H2 as (_ & _ & _ & Hun & _).
  destruct (IsUnreachable Root'); [|reflexivity]. rewrite Hun in HU by reflexivity.
  discriminate.
Qed.

Lemma flags_live_refl st : flags_live st st.
Proof.
  split; [apply quietly_marked_refl|]. intros j Item Item' H1 H2 _ Hr.
  left. congruence.
Qed.

Lemma flags_live_trans A B C : flags_live A B -> flags_live B C -> flags_live A C.
Proof.
  intros [H1 H2] [G1 G2]. split; [eapply quietly_marked_trans; eassumption|].
  intros j Item Item'' HA HC Hown Hric.
  destruct (marked_lookup _ _ _ _ H1 HA) as (Item' & HB & Hm).
  destruct (marked_lookup _ _ _ _ G1 HB) as (Item2 & HC' & Hm').
  assert (Item2 = Item'') by congruence. subst Item2.
  destruct (G2 j Item' Item'' HB HC Hown Hric) as [Hb|Hlive]; [|right; exact Hlive].
  assert (Hown' : 0 < GetOwnerIndex Item').
  { destruct Hm' as (_ & Hidx & _). unfold GetOwnerIndex in *. lia. }
  destruct (H2 j Item Item' HA HB Hown' Hb) as [Ha|Hlive]; [left; exact Ha|].
  right. replace (GetOwnerIndex Item'') with (GetOwnerIndex Item')
    by (destruct Hm' as (_ & Hidx & _); unfold GetOwnerIndex; congruence).
  eapply is_live_mono; eassumption.
Qed.

(** A step that leaves the ReachableInCluster flags alone. *)
Lemma flags_live_same st st' :
  quietly_marked st st' ->
  (forall j Item Item',
     IndexToObject (Tables st) j = Some Item ->
     IndexToObject (Tables st') j = Some Item' ->
     HasAnyFlags Item' ReachableInCluster = HasAnyFlags Item ReachableInCluster) ->
  flags_live st st'.
Proof.
  intros Hq Hsame. split; [exact Hq|]. intros j Item Item' H1 H2 _ Hr. left.
  rewrite <- (Hsame j Item Item' H1 H2). exact Hr.
Qed.

Lemma ClearFlags_ric Item :
  HasAnyFlags (ClearFlags Unreachable Item) ReachableInCluster
  = HasAnyFlags Item ReachableInCluster.
Proof.
  destruct Hmasks as (_ & Hur & _). unfold HasAnyFlags, ClearFlags. cbn.
  rewrite (land_clear_other _ _ _ Hur). reflexivity.
Qed.

Lemma clear_live Index st :
  flags_live st (with_Tables (update_item Index (ClearFlags Unreachable) (Tables st)) st).
Proof.
  apply flags_live_same; [apply clear_marked; exact Hmasks|].
  intros j Item Item' H1 H2. cbn [Tables with_Tables] in H2.
  destruct (IndexToObject_touched _ _ _ _ _ H2) as (Item0 & H0 & [->|[_ ->]]);
    rewrite H0 in H1; injection H1 as ->; [reflexivity|apply ClearFlags_ric].
Qed.

Lemma AddObject_live Obj st : flags_live st (AddObject Obj st).
Proof.
  apply flags_live_same; [apply AddObject_marked|].
  intros j Item Item' H1 H2. cbn in H2. congruence.
Qed.

Lemma update_cluster_live ClusterIndex f st :
  (forall Cl, cluster_marked Cl (f Cl)) ->
  flags_live st (with_Tables (update_cluster ClusterIndex f (Tables st)) st).
Proof.
  intros Hf. apply flags_live_same;
    [apply with_Tables_marked, update_cluster_marked; exact Hf|].
  intros j Item Item' H1 H2. cbn in H2. unfold IndexToObject in *. cbn in H2. congruence.
Qed.

(** Flagging a member and making its root reachable. *)
Lemma flag_member_live Index Item Root st :
  IndexToObject (Tables st) Index = Some Item ->
  IndexToObject
    (Tables (with_Tables (update_item Index (SetFlags ReachableInCluster) (Tables st)) st))
    (GetOwnerIndex Item) = Some Root ->
  let st1 := with_Tables (update_item Index (SetFlags ReachableInCluster) (Tables st)) st in
  (IsUnreachable Root = false -> flags_live st st1)
  /\ flags_live st
       (with_Tables (update_item (GetOwnerIndex Item) (ClearFlags Unreachable) (Tables st1))
                    st1).
Proof.
  intros HItem HRoot st1.
  assert (Hq1 : quietly_marked st st1) by (apply set_marked; exact Hmasks).
  assert (Hnew : forall j Item0 Item1,
            IndexToObject (Tables st) j = Some Item0 ->
            IndexToObject (Tables st1) j = Some Item1 ->
            HasAnyFlags Item1 ReachableInCluster = true ->
            HasAnyFlags Item0 ReachableInCluster = true
            \/ (j = Index /\ GetOwnerIndex Item1 = GetOwnerIndex Item)).
  { intros j Item0 Item1 H0 H1 Hr. unfold st1 in H1. cbn [Tables with_Tables] in H1.
    destruct (IndexToObject_touched _ _ _ _ _ H1) as (Item0' & H0' & [->|[-> ->]]);
      rewrite H0 in H0'; injection H0' as <-.
    - left. exact Hr.
    - right. split; [reflexivity|]. rewrite HItem in H0. injection H0 as ->. reflexivity. }
  split.
  - intros HU. split; [exact Hq1|]. intros j Item0 Item1 H0 H1 _ Hr.
    destruct (Hnew j Item0 Item1 H0 H1 Hr) as [Hl|[_ Ho]]; [left; exact Hl|].
    right. rewrite Ho. exists Root. split; [exact HRoot|exact HU].
  - split; [eapply quietly_marked_trans; [exact Hq1|apply clear_marked; exact Hmasks]|].
    intros j Item0 Item2 H0 H2 _ Hr. cbn [Tables with_Tables] in H2.
    destruct (IndexToObject_touched _ _ _ _ _ H2) as (Item1 & H1 & Hcase).
    assert (Hsame : HasAnyFlags Item2 ReachableInCluster
                    = HasAnyFlags Item1 ReachableInCluster
                    /\ GetOwnerIndex Item2 = GetOwnerIndex Item1).
    { destruct Hcase as [->|[_ ->]]; [auto|]. split; [apply ClearFlags_ric|reflexivity]. }
    destruct Hsame as [Hs1 Hs2]. rewrite Hs1 in Hr.
    destruct (Hnew j Item0 Item1 H0 H1 Hr) as [Hl|[_ Ho]]; [left; exact Hl|].
    right. rewrite Hs2, Ho. exists (ClearFlags Unreachable Root). split.
    + apply IndexToObject_updated_entry. exact HRoot.
    + unfold IsUnreachable, HasAnyFlags, ClearFlags. cbn. rewrite land_cleared. reflexivity.
Qed.

Lemma MarkReferencedCluster_live ClusterIndex k acc acc' :
  MarkReferencedCluster ClusterIndex k acc = Some acc' ->
  flags_live acc.1 acc'.1.
Proof.
  destruct acc as [st bAdd]. unfold MarkReferencedCluster. cbn [fst].
  destruct (0 <=? _); [|intros [= <-]; apply flags_live_refl].
  destruct (IndexToObject _ _) as [Root|]; [|discriminate]. cbn [mbind option_bind].
  destruct (negb _).
  - destruct (IsUnreachable Root); intros [= <-]; cbn [fst];
      [apply clear_live|apply flags_live_refl].
  - intros [= <-]. cbn [fst]. apply update_cluster_live.
    intros Cl. unfold cluster_marked. cbn.
    auto using indices_dropped_refl, indices_dropped_insert.
Qed.

Lemma MarkMutableObject_live rec ClusterIndex k acc acc' :
  (forall C st st', rec C st = Some st' -> flags_live st st') ->
  MarkMutableObject rec ClusterIndex k acc = Some acc' ->
  flags_live acc.1 acc'.1.
Proof.
  intros Hrec. destruct acc as [st bAdd]. unfold MarkMutableObject. cbn [fst].
  destruct (0 <=? _); [|intros [= <-]; apply flags_live_refl].
  destruct (IndexToObject _ _) as [Item|] eqn:HItem; [|discriminate].
  cbn [mbind option_bind].
  destruct (negb (HasAnyFlags Item GarbageMask)).
  - destruct (IsUnreachable Item).
    + destruct (GetOwnerIndex Item <? 0).
      * destruct (rec _ _) as [st2|] eqn:Hr; [|discriminate].
        intros [= <-]. cbn [fst].
        eapply flags_live_trans; [apply clear_live|].
        eapply flags_live_trans; [apply AddObject_live|].
        eapply Hrec. exact Hr.
      * intros [= <-]. cbn [fst].
        eapply flags_live_trans; [apply clear_live|apply AddObject_live].
    + destruct (_ && _).
      * destruct (IndexToObject _ (GetOwnerIndex Item)) as [Root|] eqn:HRoot; [|discriminate].
        cbn [mbind option_bind].
        destruct (flag_member_live _ _ _ _ HItem HRoot) as [Hlive Hcleared].
        destruct (IsUnreachable Root).
        -- destruct (rec _ _) as [st2|] eqn:Hr; [|discriminate].
           intros [= <-]. cbn [fst].
           eapply flags_live_trans; [exact Hcleared|]. eapply Hrec. exact Hr.
        -- intros [= <-]. cbn [fst]. apply Hlive. reflexivity.
      * intros [= <-]. apply flags_live_refl.
  - intros [= <-]. cbn [fst]. apply update_cluster_live.
    intros Cl. unfold cluster_marked. cbn.
    auto using indices_dropped_refl, indices_dropped_insert.
Qed.

Lemma MarkReferencedClustersAsReachable_live fuel :
  forall ClusterIndex st st',
    MarkReferencedClustersAsReachable fuel ClusterIndex st = Some st' ->
    flags_live st st'.
Proof.
  induction fuel as [|fuel IH]; intros C st st' H; [discriminate|].
  pose proof H as H0.
  cbn [MarkReferencedClustersAsReachable] in H.
  match type of H with
  | context [foldl ?f (Some (st, false)) ?l] =>
      destruct (foldl f (Some (st, false)) l) as [acc1|] eqn:H1; [|discriminate]
  end.
  cbn [mbind option_bind] in H.
  match type of H with
  | context [foldl ?f (Some acc1) ?l] =>
      destruct (foldl f (Some acc1) l) as [[st2 bAdd]|] eqn:H2; [|discriminate]
  end.
  cbn [mbind option_bind] in H.
  assert (G1 : flags_live st acc1.1).
  { apply (foldl_bind_inv (MarkReferencedCluster C)
             (fun a b => flags_live a.1 b.1)) in H1; [exact H1| | |].
    - intros x. apply flags_live_refl.
    - intros x y z. apply flags_live_trans.
    - intros k x y. apply MarkReferencedCluster_live. }
  assert (G2 : flags_live acc1.1 st2).
  { apply (foldl_bind_inv
             (MarkMutableObject (MarkReferencedClustersAsReachable fuel) C)
             (fun a b => flags_live a.1 b.1)) in H2; [exact H2| | |].
    - intros x. apply flags_live_refl.
    - intros x y z. apply flags_live_trans.
    - intros k x y. apply MarkMutableObject_live. exact IH. }
  assert (G : flags_live st st2) by (eapply flags_live_trans; eassumption).
  destruct bAdd; [|injection H as <-; exact G].
  destruct (mapM _ _) as [Members|] eqn:HM; [|discriminate]. cbn [mbind option_bind] in H.
  assert (Hq : quietly_marked st st')
    by (apply (MarkReferencedClustersAsReachable_marked Hmasks (S fuel) C); exact H0).
  injection H as <-. split; [exact Hq|].
  intros j Item Item' HA HC Hown Hr. destruct G as [_ G'].
  destruct (G' j Item Item' HA HC Hown Hr) as [Hl|Hlive];
    [left; exact Hl|right; exact Hlive].
Qed.

Lemma flagged_members_live_step st st' :
  flags_live st st' ->
  flagged_members_live (Tables st) -> flagged_members_live (Tables st').
Proof.
  intros [Hq Hnew] Hinv. unfold flagged_members_live in *.
  apply Forall_lookup. intros k Item' Hk Hown Hric.
  assert (Hat : forall T, IndexToObject T (Z.of_nat k) = GUObjectArray T !! k).
  { intros T. unfold IndexToObject.
    replace (Z.of_nat k <? 0) with false by (symmetry; apply Z.ltb_ge; lia).
    rewrite Nat2Z.id. reflexivity. }
  assert (Hent : Forall2 entry_marked (GUObjectArray (Tables st))
                         (GUObjectArray (Tables st')))
    by (destruct Hq as [((Hent & _) & _) _]; exact Hent).
  destruct (Forall2_lookup_r _ _ _ _ _ Hent Hk) as (Item & HkT & Hm).
  assert (Heq : GetOwnerIndex Item' = GetOwnerIndex Item)
    by (destruct Hm as (_ & Hidx & _); exact Hidx).
  destruct (Hnew (Z.of_nat k) Item Item') as [Hold|Hlive];
    [rewrite Hat; exact HkT|rewrite Hat; exact Hk|exact Hown|exact Hric| |exact Hlive].
  rewrite Heq in *. eapply is_live_mono; [exact Hq|].
  exact (proj1 (Forall_lookup _ _) Hinv k Item HkT Hown Hold).
Qed.

Lemma KeepClusterRef_live fuel st Index st' :
  KeepClusterRef fuel st Index = Some st' -> flags_live st st'.
Proof.
  unfold KeepClusterRef.
  destruct (IndexToObject (Tables st) Index) as [Item|] eqn:HItem; [|discriminate].
  cbn [mbind option_bind].
  destruct (0 <? GetOwnerIndex Item).
  - cbv zeta. destruct (negb _); [|intros [= <-]; apply flags_live_refl].
    destruct (IndexToObject _ (GetOwnerIndex Item)) as [Root|] eqn:HRoot; [|discriminate].
    cbn [mbind option_bind].
    destruct (flag_member_live _ _ _ _ HItem HRoot) as [Hlive Hcleared].
    destruct (IsUnreachable Root).
    + intros Hr. eapply flags_live_trans; [exact Hcleared|].
      eapply MarkReferencedClustersAsReachable_live. exact Hr.
    + intros [= <-]. apply Hlive. reflexivity.
  - apply MarkReferencedClustersAsReachable_live.
Qed.

(** The loop over KeepClusterRefs keeps the clusters of the kept members
    alive.  Run on tables where every flagged member has a live root, the
    loop only marks (as the processor does) and leaves such tables; and
    every cluster member in the list ends flagged ReachableInCluster, with a
    root that is not marked unreachable. *)
Theorem keep_cluster_refs_keeps_roots_live fuel KeepClusterRefs st st' :
  ReachableInCluster <> 0 ->
  flagged_members_live (Tables st) ->
  KeepClusterRefsLoop fuel KeepClusterRefs st = Some st' ->
  marked st st'
  /\ Memory st' = Memory st
  /\ flagged_members_live (Tables st')
  /\ (forall Index Item,
        In Index KeepClusterRefs ->
        IndexToObject (Tables st) Index = Some Item ->
        0 < GetOwnerIndex Item ->
        exists Item',
          IndexToObject (Tables st') Index = Some Item'
          /\ HasAnyFlags Item' ReachableInCluster = true
          /\ is_live (Tables st') (GetOwnerIndex Item)).
Proof.
  intros Hric Hinv. unfold KeepClusterRefsLoop.
  assert (Hfold : forall l s s',
            foldl (fun acc Index => acc ≫= fun s => KeepClusterRef fuel s Index)
                  (Some s) l = Some s' ->
            flags_live s s'
            /\ (forall Index Item,
                  In Index l -> IndexToObject (Tables s) Index = Some Item ->
                  0 < GetOwnerIndex Item ->
                  exists Item', IndexToObject (Tables s') Index = Some Item'
                                /\ HasAnyFlags Item' ReachableInCluster = true)).
  { induction l as [|i l IH]; intros s s' H.
    - cbn in H. injection H as <-. split; [apply flags_live_refl|]. intros ? ? [].
    - cbn [foldl] in H. cbn [mbind option_bind] in H.
      destruct (KeepClusterRef fuel s i) as [s1|] eqn:H1.
      2: { rewrite (foldl_bind_None (fun Index s => KeepClusterRef fuel s Index)) in H.
           discriminate. }
      destruct (IH s1 s' H) as [G1 G2].
      assert (G0 := KeepClusterRef_live _ _ _ _ H1).
      split; [eapply flags_live_trans; eassumption|].
      intros Index Item [->|Hin] HItem Hown.
      + (* the member visited now is flagged when the visit ends *)
        assert (Hnow : exists Item1, IndexToObject (Tables s1) Index = Some Item1
                                     /\ HasAnyFlags Item1 ReachableInCluster = true).
        { unfold KeepClusterRef in H1. rewrite HItem in H1. cbn [mbind option_bind] in H1.
          replace (0 <? GetOwnerIndex Item) with true in H1
            by (symmetry; apply Z.ltb_lt; exact Hown).
          cbv zeta in H1.
          destruct (HasAnyFlags Item ReachableInCluster) eqn:Hr; cbn [negb] in H1.
          - injection H1 as <-. eauto.
          - set (s0 := with_Tables (update_item Index (SetFlags ReachableInCluster)
                                                (Tables s)) s) in *.
            assert (H0 : IndexToObject (Tables s0) Index
                         = Some (SetFlags ReachableInCluster Item))
              by (apply IndexToObject_updated_entry; exact HItem).
            assert (Hset : HasAnyFlags (SetFlags ReachableInCluster Item)
                             ReachableInCluster = true).
            { unfold HasAnyFlags, SetFlags. cbn. rewrite land_set_self.
              apply negb_true_iff. apply Z.eqb_neq. exact Hric. }
            assert (Hafter : forall s2, quietly_marked s0 s2 ->
                      exists Item1, IndexToObject (Tables s2) Index = Some Item1
                                    /\ HasAnyFlags Item1 ReachableInCluster = true).
            { intros s2 Hq. destruct (marked_lookup _ _ _ _ Hq H0) as (Item1 & Ha & Hb).
              exists Item1. split; [exact Ha|]. destruct Hb as (_ & _ & _ & _ & Hkeep).
              apply Hkeep. exact Hset. }
            destruct (IndexToObject (Tables s0) (GetOwnerIndex Item)) as [Root|];
              [|discriminate].
            cbn [mbind option_bind] in H1. destruct (IsUnreachable Root).
            + apply Hafter. eapply quietly_marked_trans; [apply clear_marked; exact Hmasks|].
              eapply MarkReferencedClustersAsReachable_marked; [exact Hmasks|exact H1].
            + injection H1 as <-. apply Hafter. apply quietly_marked_refl. }
        destruct Hnow as (Item1 & Ha & Hb).
        destruct (marked_lookup _ _ _ _ (proj1 G1) Ha) as (Item' & Hc & Hd).
        exists Item'. split; [exact Hc|]. destruct Hd as (_ & _ & _ & _ & Hkeep).
        apply Hkeep. exact Hb.
      + destruct (marked_lookup _ _ _ _ (proj1 G0) HItem) as (Item1 & Ha & Hb).
        apply (G2 Index Item1 Hin Ha).
        destruct Hb as (_ & Hidx & _). unfold GetOwnerIndex in *. lia. }
  intros H. destruct (Hfold _ _ _ H) as [G1 G2].
  assert (Hinv' := flagged_members_live_step _ _ G1 Hinv).
  destruct G1 as [[Hm Hmem] Hnew].
  split; [exact Hm|]. split; [exact Hmem|]. split; [exact Hinv'|].
  intros Index Item Hin HItem Hown.
  destruct (G2 Index Item Hin HItem Hown) as (Item' & Ha & Hb).
  exists Item'. split; [exact Ha|]. split; [exact Hb|].
  destruct (marked_lookup st st' _ _ (conj Hm Hmem) HItem) as (Item2 & Ha' & Hm2).
  assert (Item2 = Item') by congruence. subst Item2.
  assert (Heq : GetOwnerIndex Item' = GetOwnerIndex Item)
    by (destruct Hm2 as (_ & Hidx & _); exact Hidx).
  assert (Hk : exists k : nat, GUObjectArray (Tables st') !! k = Some Item').
  { unfold IndexToObject in Ha. destruct (Index <? 0); [discriminate|]. eauto. }
  destruct Hk as [k Hk]. rewrite <- Heq.
  apply (proj1 (Forall_lookup _ _) Hinv' k Item' Hk); [lia|exact Hb].
Qed.

End Live.

Section Processor.

Context {F : EInternalObjectFlags}.
Variable Options : EGCOptions.
Variable PermanentPoolContains : Z -> bool.
Variable IsObjectHandleResolved : Z -> bool.
Variable ObjectToIndex : Z -> Z.

Hypothesis Hmasks : masks_separate F.

Lemma DetectGarbageReference_live M st :
  flags_live st (DetectGarbageReference Options M st).
Proof.
  apply flags_live_same; [apply DetectGarbageReference_marked|].
  intros j Item Item' H1 H2. cbn in H2. congruence.
Qed.

Lemma HandleValidReference_live fuel RefObj M st r :
  HandleValidReference Options fuel RefObj M st = Some r ->
  flags_live st r.1.
Proof.
  unfold HandleValidReference.
  destruct (IndexToObject _ _) as [Item|] eqn:HItem; [|discriminate].
  cbn [mbind option_bind].
  destruct (IsUnreachable Item).
  - destruct (negb _).
    + intros [= <-]. cbn [fst].
      eapply flags_live_trans; [apply (clear_live Hmasks)|apply AddObject_live].
    + destruct (MarkReferencedClustersAsReachable _ _ _) as [st2|] eqn:Hr; [|discriminate].
      intros [= <-]. cbn [fst].
      eapply flags_live_trans; [apply (clear_live Hmasks)|].
      eapply (MarkReferencedClustersAsReachable_live Hmasks). exact Hr.
  - destruct (_ && _); [|intros [= <-]; apply flags_live_refl].
    destruct (IndexToObject _ (GetOwnerIndex Item)) as [Root|] eqn:HRoot; [|discriminate].
    cbn [mbind option_bind].
    set (st1 := with_Tables (update_item (ObjectIndex M) (SetFlags ReachableInCluster)
                                         (Tables st)) st).
    destruct (_ && IsUnreachable Root) eqn:Hdo.
    + destruct (MarkReferencedClustersAsReachable _ _ _) as [st2|] eqn:Hr; [|discriminate].
      intros [= <-]. cbn [fst].
      (* the root, read before the member is flagged, is cleared after *)
      eapply flags_live_trans; [|eapply (MarkReferencedClustersAsReachable_live Hmasks); exact Hr].
      destruct (marked_lookup st st1 _ _ (set_marked Hmasks _ _) HRoot)
        as (Root1 & HRoot1 & _).
      exact (proj2 (flag_member_live Hmasks _ _ _ _ HItem HRoot1)).
    + intros [= <-]. cbn [fst].
      destruct (marked_lookup st st1 _ _ (set_marked Hmasks _ _) HRoot)
        as (Root1 & HRoot1 & HRm).
      destruct (HasAnyFlags Item ReachableInCluster) eqn:Hric.
      * (* the member was flagged already *)
        apply flags_live_same; [apply set_marked; exact Hmasks|].
        intros j Item0 Item1 H0 H1. unfold st1 in H1. cbn [Tables with_Tables] in H1.
        destruct (IndexToObject_touched _ _ _ _ _ H1) as (Item0' & H0' & [->|[-> ->]]);
          rewrite H0 in H0'; injection H0' as <-; [reflexivity|].
        rewrite HItem in H0. injection H0 as ->. rewrite Hric.
        unfold HasAnyFlags, SetFlags in *. cbn. rewrite land_set_self.
        destruct (ReachableInCluster =? 0) eqn:E; [|reflexivity].
        apply Z.eqb_eq in E. rewrite E, Z.land_0_r in Hric. discriminate.
      * apply (proj1 (flag_member_live Hmasks _ _ _ _ HItem HRoot1)).
        (* bNeedsDoing holds, so the root is not unreachable *)
        assert (HU : IsUnreachable Root = false)
          by (destruct (Parallel Options); exact Hdo).
        destruct HRm as (_ & _ & _ & Hun & _).
        destruct (IsUnreachable Root1) eqn:E; [|reflexivity].
        specialize (Hun eq_refl). congruence.
Qed.

(** The processor keeps the roots of the members it flags alive.  On
    tables where every cluster member flagged ReachableInCluster has a root
    that is not marked unreachable, ProcessReferenceDirectly and both
    HandleBatchedReference leave such tables: whenever they flag a member,
    they clear Unreachable on its root. *)
Theorem processor_keeps_roots_live Killable fuel ReferencingObject Slot Reference RefObj
    M st :
  flagged_members_live (Tables st) ->
  (forall st',
     ProcessReferenceDirectly Options PermanentPoolContains IsObjectHandleResolved
       ObjectToIndex Killable fuel ReferencingObject Slot st = Some st' ->
     flagged_members_live (Tables st'))
  /\ (forall st',
        HandleBatchedMutableReference Options fuel Reference M st = Some st' ->
        flagged_members_live (Tables st'))
  /\ (forall st',
        HandleBatchedImmutableReference Options fuel RefObj M st = Some st' ->
        flagged_members_live (Tables st')).
Proof.
  intros Hinv. split; [|split].
  - intros st'. unfold ProcessReferenceDirectly.
    destruct (Memory st !! Slot) as [Obj|]; [|discriminate]. cbn [mbind option_bind].
    destruct (ValidateReference _ _ Obj); [|intros [= <-]; exact Hinv].
    destruct (MakeMetadata _ _) as [M0|]; [|discriminate]. cbn [mbind option_bind].
    destruct (Has M0 (KillFlag Options) && _);
      [destruct (negb _ || _); [intros [= <-]; exact Hinv|discriminate]|].
    destruct (HandleValidReference _ _ _ _ _) as [r|] eqn:HV; [|discriminate].
    intros [= <-]. apply (flagged_members_live_step st); [|exact Hinv].
    eapply flags_live_trans; [apply DetectGarbageReference_live|].
    eapply HandleValidReference_live. exact HV.
  - intros st'. unfold HandleBatchedMutableReference.
    destruct (Has M (KillFlag Options)); [intros [= <-]; exact Hinv|].
    destruct (HandleValidReference _ _ _ _ _) as [r|] eqn:HV; [|discriminate].
    intros [= <-]. apply (flagged_members_live_step st); [|exact Hinv].
    eapply HandleValidReference_live. exact HV.
  - intros st'. unfold HandleBatchedImmutableReference.
    destruct (HandleValidReference _ _ _ _ _) as [r|] eqn:HV; [|discriminate].
    intros [= <-]. apply (flagged_members_live_step st); [|exact Hinv].
    eapply flags_live_trans; [apply DetectGarbageReference_live|].
    eapply HandleValidReference_live. exact HV.
Qed.

End Processor.

(** The theorem at the reference to the member of the sample cluster: no
    member is flagged before, and after the member is flagged its root (the
    entry 1) is not unreachable. *)
Lemma processor_keeps_roots_live_witness :
  flagged_members_live (F := EngineFlags) (Tables clustered_heap_marked).
Proof.
  destruct (processor_keeps_roots_live (F := EngineFlags) (mkOptions false false)
              (fun _ => false) (fun _ => true) (fun Obj => Obj - 5000)
              ltac:(unfold masks_separate; cbn; repeat split; discriminate)
              KillableYes 1 0 100 (mkMutableRef 5002 100) 5002 (mkMetadata 0 2)
              clustered_heap) as [H _].
  - unfold flagged_members_live. cbn [clustered_heap Tables GUObjectArray].
    repeat (constructor;
            [intros Ho Hr; first [cbn in Ho; lia|vm_compute in Hr; discriminate Hr]|]).
    constructor.
  - apply (H clustered_heap_marked). reflexivity.
Defined.

(** The theorem at the sample cluster with its member (the entry 2) in
    KeepClusterRefs: the loop flags the member and clears Unreachable on
    the root and on the object the cluster references. *)
Lemma keep_cluster_refs_keeps_roots_live_witness :
  KeepClusterRefsLoop (F := EngineFlags) 1 [2] clustered_heap = Some clustered_heap_marked
  /\ is_live (F := EngineFlags) (Tables clustered_heap_marked) 1.
Proof.
  split; [reflexivity|].
  destruct (keep_cluster_refs_keeps_roots_live (F := EngineFlags)
              ltac:(unfold masks_separate; cbn; repeat split; discriminate)
              1 [2] clustered_heap clustered_heap_marked) as (_ & _ & _ & H).
  - discriminate.
  - unfold flagged_members_live. cbn [clustered_heap Tables GUObjectArray].
    repeat (constructor;
            [intros Ho Hr; first [cbn in Ho; lia|vm_compute in Hr; discriminate Hr]|]).
    constructor.
  - reflexivity.
  - destruct (H 2 (mkItem 5002 0 1)) as (Item' & _ & _ & Hlive);
      [left; reflexivity|reflexivity|cbn; lia|exact Hlive].
Defined.

End ClusterRootsProofs.

(* ===================================================================== *)
(** ** What GatherUnreachableObjects lists and what it writes *)
(* ===================================================================== *)

Module GatherSoundProofs.
Import ObjectFlags Stripes Gather GatherProofs GatherSound.

Lemma gather_flags_outside f U C b :
  Z.land (if b : bool then Z.lor f U else Z.land f (Z.lnot C)) (Z.lnot (Z.lor U C))
  = Z.land f (Z.lnot (Z.lor U C)).
Proof.
  apply Z.bits_inj'. intros n Hn.
  destruct b; rewrite !Z.land_spec, ?Z.lor_spec, !Z.lnot_spec, ?Z.lor_spec by assumption;
    destruct (Z.testbit f n), (Z.testbit U n), (Z.testbit C n); reflexivity.
Qed.

Section Sound.

Context {F : EInternalObjectFlags}.
Variable GExitPurge : bool.
Variable FirstGCIndex : Z.
Variable NumThreads : Z.

Hypothesis Hmasks : masks_separate F.

Lemma entry_gathered_refl Item : entry_gathered Item Item.
Proof. unfold entry_gathered. auto 10. Qed.

Lemma entry_gathered_trans A B C :
  entry_gathered A B -> entry_gathered B C -> entry_gathered A C.
Proof.
  intros (H1 & H2 & H3 & H4 & H5) (G1 & G2 & G3 & G4 & G5).
  unfold entry_gathered. split; [congruence|]. split; [congruence|].
  split; [auto|]. split; [auto|].
  destruct G5 as [G5|G5]; [rewrite G5; exact H5|right; exact G5].
Qed.

Lemma entries_gathered_refl l : Forall2 entry_gathered l l.
Proof. induction l; constructor; [apply entry_gathered_refl|assumption]. Qed.

Lemma entries_gathered_trans l1 l2 l3 :
  Forall2 entry_gathered l1 l2 -> Forall2 entry_gathered l2 l3 ->
  Forall2 entry_gathered l1 l3.
Proof.
  intros H. revert l3. induction H as [|a b l1 l2 Hab H IH]; intros l3 H3.
  - inversion H3. constructor.
  - inversion H3 as [|? c ? l3' Hbc H3']; subst. constructor.
    + eapply entry_gathered_trans; eassumption.
    + apply IH. assumption.
Qed.

Lemma SetOwnerIndex_gathered Item : entry_gathered Item (SetOwnerIndex 0 Item).
Proof. unfold entry_gathered, SetOwnerIndex. cbn. auto 10. Qed.

Lemma SetUnreachable_gathered Item : entry_gathered Item (SetFlags Unreachable Item).
Proof.
  destruct Hmasks as (_ & _ & Huc & _).
  unfold entry_gathered, SetFlags, IsUnreachable, HasAnyFlags. cbn.
  split; [reflexivity|]. split; [apply (gather_flags_outside _ _ _ true)|].
  split; [|split; [|left; reflexivity]].
  - intros _. apply (unr_SetUnreachable Hmasks Item).
  - rewrite (land_lor_apart _ _ _ Huc). auto.
Qed.

Lemma ClearRoot_gathered Item : entry_gathered Item (ClearFlags ClusterRoot Item).
Proof.
  unfold entry_gathered. split; [reflexivity|].
  split; [apply (gather_flags_outside _ _ _ false)|].
  split; [|split; [|left; reflexivity]].
  - rewrite (unr_ClearRoot Hmasks). auto.
  - unfold HasAnyFlags, ClearFlags. cbn. intros H. exfalso.
    rewrite <- Z.land_assoc, (Z.land_comm (Z.lnot ClusterRoot)), Z.land_lnot_diag,
      Z.land_0_r in H. discriminate.
Qed.

Lemma update_item_gathered Index f T :
  (forall Item, entry_gathered Item (f Item)) ->
  Forall2 entry_gathered (GUObjectArray T) (GUObjectArray (update_item Index f T)).
Proof.
  intros Hf. unfold update_item. destruct (Index <? 0); [apply entries_gathered_refl|].
  cbn. apply Forall2_alter_r; [apply entries_gathered_refl|].
  intros x y _ _ Hxy. eapply entry_gathered_trans; [exact Hxy|apply Hf].
Qed.

Lemma unreachable_at_mono T T' Index :
  Forall2 entry_gathered (GUObjectArray T) (GUObjectArray T') ->
  unreachable_at T Index = true -> unreachable_at T' Index = true.
Proof.
  intros Hent. unfold unreachable_at, IndexToObject.
  destruct (Index <? 0); [discriminate|].
  destruct (GUObjectArray T !! Z.to_nat Index) as [Item|] eqn:HI; [|discriminate].
  destruct (Forall2_lookup_l _ _ _ _ _ Hent HI) as (Item' & -> & Hm).
  destruct Hm as (_ & _ & Hun & _). exact Hun.
Qed.

Lemma gathered_refl st : gathered st st.
Proof. split; [apply entries_gathered_refl|auto]. Qed.

Lemma gathered_trans A B C : gathered A B -> gathered B C -> gathered A C.
Proof.
  intros [H1 H2] [G1 G2]. split; [eapply entries_gathered_trans; eassumption|auto].
Qed.

Lemma gathered_fold {A} (f : GatherState -> A -> GatherState) l :
  (forall st x, gathered st (f st x)) ->
  forall st, gathered st (foldl f st l).
Proof.
  intros Hf. induction l as [|x l IH]; intros st; [apply gathered_refl|].
  cbn [foldl]. eapply gathered_trans; [apply Hf|apply IH].
Qed.

(** A table written, with the same list. *)
Lemma gathered_table st T' :
  Forall2 entry_gathered (GUObjectArray (Tables st)) (GUObjectArray T') ->
  gathered st (mkGather T' (GUnreachableObjects st) (ClusterItemsToDestroy st)).
Proof.
  intros Hent. split; [exact Hent|]. unfold listed_unreachable. cbn.
  intros Hl. eapply Forall_impl; [exact Hl|]. intros i Hi.
  eapply unreachable_at_mono; eassumption.
Qed.

Lemma GatherClusterObject_gathered st m : gathered st (GatherClusterObject st m).
Proof.
  unfold GatherClusterObject.
  set (T1 := update_item m (SetOwnerIndex 0) (Tables st)).
  assert (H1 : Forall2 entry_gathered (GUObjectArray (Tables st)) (GUObjectArray T1))
    by (apply update_item_gathered; exact SetOwnerIndex_gathered).
  destruct (IndexToObject T1 m) as [Item|] eqn:HItem; [|apply gathered_table; exact H1].
  destruct (negb (HasAnyFlags Item ReachableInCluster)); [|apply gathered_table; exact H1].
  assert (H2 : Forall2 entry_gathered (GUObjectArray (Tables st))
                       (GUObjectArray (update_item m (SetFlags Unreachable) T1))).
  { eapply entries_gathered_trans; [exact H1|].
    apply update_item_gathered. exact SetUnreachable_gathered. }
  split; [exact H2|]. unfold listed_unreachable. cbn. intros Hl.
  apply Forall_app. split.
  - eapply Forall_impl; [exact Hl|]. intros i Hi.
    eapply unreachable_at_mono; eassumption.
  - constructor; [|constructor]. unfold unreachable_at.
    rewrite (IndexToObject_update m (SetFlags Unreachable) T1 m).
    rewrite decide_True by reflexivity. rewrite HItem. cbn.
    apply (unr_SetUnreachable Hmasks).
Qed.

Lemma DestroyCluster_gathered st r : gathered st (DestroyCluster st r).
Proof.
  unfold DestroyCluster.
  set (T1 := update_item r (ClearFlags ClusterRoot) (Tables st)).
  destruct (IndexToObject T1 r) as [Root|]; [|apply gathered_refl].
  set (sta := mkGather T1 (GUnreachableObjects st) (ClusterItemsToDestroy st)).
  assert (Ha : gathered st sta).
  { apply gathered_table. apply update_item_gathered. exact ClearRoot_gathered. }
  assert (Hb := gathered_fold GatherClusterObject
                  (Objects (cluster_at T1 (GetClusterIndex Root)))
                  GatherClusterObject_gathered sta).
  eapply gathered_trans; [exact Ha|]. eapply gathered_trans; [exact Hb|].
  split; [apply entries_gathered_refl|]. exact (fun H => H).
Qed.

(** GatherUnreachableObjects lists only entries that are flagged
    Unreachable when it returns, whatever the number of workers and the
    order of their stripes, and it writes little: on return every entry of
    GUnreachableObjects carries the Unreachable flag; the table has the same
    entries with the same objects and the same flags other than Unreachable
    and ClusterRoot; no entry has lost Unreachable or gained ClusterRoot;
    and an owner index is as before or reset to 0. *)
Theorem gather_lists_only_unreachable schedule T :
  listed_unreachable
    (GatherUnreachableObjects GExitPurge FirstGCIndex NumThreads schedule T)
  /\ Forall2 entry_gathered (GUObjectArray T)
       (GUObjectArray
          (Tables (GatherUnreachableObjects GExitPurge FirstGCIndex NumThreads schedule T))).
Proof.
  unfold GatherUnreachableObjects. rewrite stripes_gather. cbn [ClusterItemsToDestroy app].
  match goal with
  | |- context [foldl DestroyCluster ?s ?l] =>
      destruct (gathered_fold DestroyCluster l DestroyCluster_gathered s) as [H1 H2]
  end.
  split; [|exact H1]. apply H2. unfold listed_unreachable. cbn.
  apply Forall_forall. intros i Hi. apply list_elem_of_In in Hi.
  apply List.filter_In in Hi. exact (proj2 Hi).
Qed.

End Sound.

(** The theorem at the sample table: the root, and the member the
    gathering has marked, are listed and flagged. *)
Lemma gather_lists_only_unreachable_witness :
  GUnreachableObjects
    (GatherUnreachableObjects (F := EngineFlags) false 1 2 [1; 0] gathered_tables) = [1; 2]
  /\ listed_unreachable (F := EngineFlags)
       (GatherUnreachableObjects (F := EngineFlags) false 1 2 [1; 0] gathered_tables).
Proof.
  split; [reflexivity|].
  apply (gather_lists_only_unreachable (F := EngineFlags) false 1 2).
  unfold masks_separate. cbn. repeat split; discriminate.
Defined.

End GatherSoundProofs.

(* ===================================================================== *)
(** ** ProcessAsync: the worker contexts and their share of the initial work *)
(* ===================================================================== *)

Module AsyncSetupProofs.
Import WorkerContexts WorkerContextsProofs AsyncSetup.

Lemma wrap32_id x : - 2^31 <= x < 2^31 -> wrap32 x = x.
Proof.
  intros H. unfold wrap32. rewrite Z.mod_small by lia. lia.
Qed.

Lemma workers_range n : 1 <= GetNumCollectReferenceWorkers n <= MaxWorkers.
Proof. unfold GetNumCollectReferenceWorkers, Clamp, MaxWorkers. lia. Qed.

(** The share of a worker, without overflow. *)
Lemma PerWorker_small Num NumWorkers :
  0 <= Num -> 1 <= NumWorkers <= 16 -> Num + 16 < 2^31 ->
  PerWorker Num NumWorkers = (Num + NumWorkers - 1) / NumWorkers
  /\ 0 <= PerWorker Num NumWorkers
  /\ Num <= NumWorkers * PerWorker Num NumWorkers <= Num + NumWorkers - 1.
Proof.
  intros HNum HN Hsmall. unfold PerWorker.
  rewrite (wrap32_id (Num + NumWorkers)) by lia.
  rewrite wrap32_id by lia. rewrite Z.quot_div_nonneg by lia.
  split; [reflexivity|].
  assert (H1 := Z.mul_div_le (Num + NumWorkers - 1) NumWorkers ltac:(lia)).
  assert (H2 := Z.mul_succ_div_gt (Num + NumWorkers - 1) NumWorkers ltac:(lia)).
  assert (H3 : 0 <= (Num + NumWorkers - 1) / NumWorkers) by (apply Z.div_pos; lia).
  lia.
Qed.

(** Consecutive slices of one length are a prefix. *)
Lemma slices_concat {A} (l : list A) (c k : nat) :
  flat_map (fun i => take c (drop (i * c) l)) (seq 0 k) = take (k * c) l.
Proof.
  induction k as [|k IH]; [reflexivity|].
  rewrite seq_S, flat_map_app, IH. cbn [flat_map Nat.add]. rewrite app_nil_r.
  rewrite take_take_drop. f_equal. lia.
Qed.

(** The views of the workers, taken in the order of the worker indices, are
    the whole view. *)
Lemma Mid_slices {A} (l : list A) NumWorkers :
  1 <= NumWorkers <= 16 -> Z.of_nat (length l) + 16 < 2^31 ->
  flat_map (fun Idx => Mid (wrap32 (Idx * PerWorker (Z.of_nat (length l)) NumWorkers))
                           (PerWorker (Z.of_nat (length l)) NumWorkers) l)
           (map Z.of_nat (seq 0 (Z.to_nat NumWorkers)))
  = l.
Proof.
  intros HN Hsmall.
  destruct (PerWorker_small (Z.of_nat (length l)) NumWorkers ltac:(lia) HN Hsmall)
    as (_ & HP0 & HP1 & HP2).
  set (P := PerWorker (Z.of_nat (length l)) NumWorkers) in *.
  rewrite flat_map_concat_map, map_map.
  rewrite (map_ext_in _ (fun i => take (Z.to_nat P) (drop (i * Z.to_nat P) l))).
  - rewrite <- flat_map_concat_map, slices_concat. apply take_ge. nia.
  - intros i Hi. apply in_seq in Hi. unfold Mid.
    rewrite wrap32_id by nia. do 2 f_equal. nia.
Qed.

(** The contexts allocated on top of those in use get indices below [N]
    while there are at most [N] contexts. *)
Lemma AllocateContexts_indices fuel NewAddress N : forall n InUse Pool,
  pool_ok InUse Pool ->
  Forall (fun C => WorkerIndex C < N) InUse ->
  (length InUse + n <= Z.to_nat N)%nat -> N <= 16 ->
  exists Others Pool',
    AllocateContexts (S fuel) NewAddress n Pool = Some (Others, Pool')
    /\ pool_ok (InUse ++ Others) Pool'
    /\ Forall (fun C => WorkerIndex C < N) Others
    /\ length Others = n.
Proof.
  induction n as [|n IH]; intros InUse Pool Hok Hlow Hlen HN.
  - exists [], Pool. rewrite app_nil_r. auto.
  - destruct (AllocateFromPool_step fuel (NewAddress n) InUse Pool Hok ltac:(lia))
      as (Out & Pool1 & Halloc & Hok1 & Hidx & Hfresh & Hlowest).
    assert (Hout : WorkerIndex Out < N).
    { destruct (Z_lt_ge_dec (WorkerIndex Out) N) as [H|H]; [exact H|]. exfalso.
      assert (Hincl : incl (map Z.of_nat (seq 0 (Z.to_nat N))) (map WorkerIndex InUse)).
      { intros i Hi. apply in_map_iff in Hi. destruct Hi as (k & <- & Hk).
        apply in_seq in Hk. apply Hlowest. lia. }
      assert (Hnd : List.NoDup (map Z.of_nat (seq 0 (Z.to_nat N)))).
      { apply NoDup_ListNoDup. apply NoDup_fmap_2; [|apply NoDup_seq].
        intros a b Hab. lia. }
      pose proof (List.NoDup_incl_length Hnd Hincl) as Hle.
      rewrite !length_map, length_seq in Hle. lia. }
    destruct (IH (InUse ++ [Out]) Pool1 Hok1) as (Rest & Pool2 & Hrest & Hok2 & Hlow2 & Hlen2).
    + apply Forall_app. split; [exact Hlow|]. constructor; [exact Hout|constructor].
    + rewrite length_app. cbn [length]. lia.
    + exact HN.
    + exists (Out :: Rest), Pool2. cbn [AllocateContexts]. rewrite Halloc.
      cbn [mbind option_bind]. rewrite Hrest. cbn [mbind option_bind].
      split; [reflexivity|]. split; [|split; [|cbn; lia]].
      * rewrite <- app_assoc in Hok2. exact Hok2.
      * constructor; assumption.
Qed.

(** Distinct indices below [N], [N] of them, are the indices [0 .. N-1]. *)
Lemma indices_are_all (l : list Z) N :
  NoDup l -> Forall (fun i => 0 <= i < N) l -> Z.of_nat (length l) = N ->
  Permutation l (map Z.of_nat (seq 0 (Z.to_nat N))).
Proof.
  intros Hnd Hr Hlen.
  assert (Hsub : incl l (map Z.of_nat (seq 0 (Z.to_nat N)))).
  { intros i Hi. apply list_elem_of_In in Hi.
    pose proof (proj1 (Forall_forall _ _) Hr i Hi) as Hi'. cbn in Hi'.
    apply in_map_iff. exists (Z.to_nat i). split; [lia|]. apply in_seq. lia. }
  assert (Hsup : incl (map Z.of_nat (seq 0 (Z.to_nat N))) l).
  { apply List.NoDup_length_incl; [apply NoDup_ListNoDup; exact Hnd| |exact Hsub].
    rewrite length_map, length_seq. lia. }
  apply NoDup_Permutation; [exact Hnd| |].
  - apply NoDup_fmap_2; [|apply NoDup_seq]. intros a b Hab. lia.
  - intros i. rewrite !list_elem_of_In. split; [apply Hsub|apply Hsup].
Qed.

(** The setup passes its checks: the contexts, and what each is given. *)
Lemma ProcessAsyncSetup_contexts fuel NumTaskgraphWorkers NewAddress InContext Use
    Objects References Pool :
  passes_entry_checks InContext Use ->
  pool_ok [InContext] Pool ->
  WorkerIndex InContext < GetNumCollectReferenceWorkers NumTaskgraphWorkers ->
  Z.of_nat (length Objects) + 16 < 2^31 ->
  Z.of_nat (length References) + 16 < 2^31 ->
  let N := GetNumCollectReferenceWorkers NumTaskgraphWorkers in
  let PO := PerWorker (Z.of_nat (length Objects)) N in
  let PR := PerWorker (Z.of_nat (length References)) N in
  exists Others Pool',
    ProcessAsyncSetup (S fuel) NumTaskgraphWorkers NewAddress InContext Use Objects
                      References Pool
    = Some (map (fun C => mkWorker C (Mid (WorkerIndex C * PO) PO Objects)
                                     (Mid (WorkerIndex C * PR) PR References))
                (InContext :: Others), Pool')
    /\ pool_ok (InContext :: Others) Pool'
    /\ Forall (fun C => 0 <= WorkerIndex C < N) (InContext :: Others)
    /\ Z.of_nat (length (InContext :: Others)) = N.
Proof.
  intros (Hunused & Hobjects & Hrefs & Hgarbage) Hok Hin HO HR. cbv zeta.
  pose proof (workers_range NumTaskgraphWorkers) as HN. unfold MaxWorkers in HN.
  set (N := GetNumCollectReferenceWorkers NumTaskgraphWorkers) in *.
  destruct (PerWorker_small (Z.of_nat (length Objects)) N ltac:(lia) HN HO)
    as (_ & HPO0 & HPO1 & HPO2).
  destruct (PerWorker_small (Z.of_nat (length References)) N ltac:(lia) HN HR)
    as (_ & HPR0 & HPR1 & HPR2).
  set (PO := PerWorker (Z.of_nat (length Objects)) N) in *.
  set (PR := PerWorker (Z.of_nat (length References)) N) in *.
  pose proof Hok as (Hnum & _ & _ & _ & Hrange0 & _).
  assert (Hidx0 : 0 <= WorkerIndex InContext).
  { inversion Hrange0 as [|? ? H0 _]; subst. lia. }
  destruct (AllocateContexts_indices fuel NewAddress N (Z.to_nat (N - 1)) [InContext] Pool
              Hok) as (Others & Pool' & Halloc & Hok' & Hlow & Hlen);
    [constructor; [exact Hin|constructor]|cbn [length]; lia|lia|].
  cbn [app] in Hok'.
  pose proof Hok' as (_ & _ & Hnd & _ & Hrange & _).
  assert (Hall : Forall (fun C => 0 <= WorkerIndex C < N) (InContext :: Others)).
  { constructor; [lia|]. inversion Hrange as [|? ? _ Hrange']; subst.
    apply Forall_forall. intros C HC.
    pose proof (proj1 (Forall_forall _ _) Hrange' C HC) as H1.
    pose proof (proj1 (Forall_forall _ _) Hlow C HC) as H2. cbn in H1, H2. lia. }
  exists Others, Pool'.
  split; [|split; [exact Hok'|split; [exact Hall|cbn [length]; lia]]].
  unfold ProcessAsyncSetup. rewrite Hunused, Hobjects, Hrefs, Hgarbage.
  cbn [Z.eqb andb negb]. fold (GetNumCollectReferenceWorkers NumTaskgraphWorkers).
  fold N. fold PO. fold PR.
  replace (NumAllocated Pool =? 1) with true
    by (symmetry; apply Z.eqb_eq; rewrite Hnum; reflexivity).
  rewrite Halloc. cbn [mbind option_bind].
  match goal with
  | |- context [Some (map ?g ?l, _)] => rewrite (mapM_Some_2 _ _ (map g l))
  end; [reflexivity|].
  apply Forall2_fmap_r. apply Forall_Forall2_diag.
  eapply Forall_impl; [exact Hall|]. intros C HC. cbn beta in HC. cbn.
  unfold Distribute. cbv zeta.
  replace (0 <=? WorkerIndex C) with true by (symmetry; apply Z.leb_le; lia).
  replace (WorkerIndex C <? N) with true by (symmetry; apply Z.ltb_lt; lia).
  cbn [andb]. rewrite !wrap32_id by nia. reflexivity.
Qed.

(** ProcessAsync gives every initial object and every initial reference to
    exactly one worker.  Called with one context in use that passes the two
    entry checks (nothing added to its ObjectsToSerialize, statistics
    cleared) and whose worker index is below the number of workers, and
    with views short enough for the int32 arithmetic, it passes its checks:
    it has NumWorkers =
    GetNumCollectReferenceWorkers contexts, between 1 and 16, whose worker
    indices are 0 .. NumWorkers-1 in some order; the worker with the index
    Idx gets the view Mid(Idx * PerWorker, PerWorker), of at most PerWorker
    elements; these views, in the order of the indices, are the initial
    objects (and references) split into consecutive pieces, so nothing is
    dropped and nothing is given twice. *)
Theorem ProcessAsync_splits_initial_work fuel NumTaskgraphWorkers NewAddress InContext
    Use Objects References Pool :
  passes_entry_checks InContext Use ->
  pool_ok [InContext] Pool ->
  WorkerIndex InContext < GetNumCollectReferenceWorkers NumTaskgraphWorkers ->
  Z.of_nat (length Objects) + 16 < 2^31 ->
  Z.of_nat (length References) + 16 < 2^31 ->
  let NumWorkers := GetNumCollectReferenceWorkers NumTaskgraphWorkers in
  let ObjPerWorker := PerWorker (Z.of_nat (length Objects)) NumWorkers in
  let RefPerWorker := PerWorker (Z.of_nat (length References)) NumWorkers in
  exists Workers Pool',
    ProcessAsyncSetup (S fuel) NumTaskgraphWorkers NewAddress InContext Use Objects
                      References Pool = Some (Workers, Pool')
    /\ 1 <= NumWorkers <= 16
    /\ Z.of_nat (length Workers) = NumWorkers
    /\ pool_ok (map Context Workers) Pool'
    /\ Permutation (map (fun W => WorkerIndex (Context W)) Workers)
                   (map Z.of_nat (seq 0 (Z.to_nat NumWorkers)))
    /\ Forall (fun W =>
                 InitialObjects W
                 = Mid (WorkerIndex (Context W) * ObjPerWorker) ObjPerWorker Objects
                 /\ InitialNativeReferences W
                    = Mid (WorkerIndex (Context W) * RefPerWorker) RefPerWorker References
                 /\ Z.of_nat (length (InitialObjects W)) <= ObjPerWorker
                 /\ Z.of_nat (length (InitialNativeReferences W)) <= RefPerWorker)
              Workers
    /\ flat_map (fun Idx => Mid (Idx * ObjPerWorker) ObjPerWorker Objects)
                (map Z.of_nat (seq 0 (Z.to_nat NumWorkers))) = Objects
    /\ flat_map (fun Idx => Mid (Idx * RefPerWorker) RefPerWorker References)
                (map Z.of_nat (seq 0 (Z.to_nat NumWorkers))) = References
    /\ Permutation (flat_map InitialObjects Workers) Objects
    /\ Permutation (flat_map InitialNativeReferences Workers) References.
Proof.
  intros Hentry Hok Hin HO HR. cbv zeta.
  destruct (ProcessAsyncSetup_contexts fuel NumTaskgraphWorkers NewAddress InContext
              Use Objects References Pool Hentry Hok Hin HO HR)
    as (Others & Pool' & Hsetup & Hok' & Hall & Hlen).
  cbv zeta in Hsetup.
  pose proof (workers_range NumTaskgraphWorkers) as HN. unfold MaxWorkers in HN.
  set (N := GetNumCollectReferenceWorkers NumTaskgraphWorkers) in *.
  destruct (PerWorker_small (Z.of_nat (length Objects)) N ltac:(lia) HN HO)
    as (_ & HPO0 & HPO1 & HPO2).
  destruct (PerWorker_small (Z.of_nat (length References)) N ltac:(lia) HN HR)
    as (_ & HPR0 & HPR1 & HPR2).
  set (PO := PerWorker (Z.of_nat (length Objects)) N) in *.
  set (PR := PerWorker (Z.of_nat (length References)) N) in *.
  set (give := fun C => mkWorker C (Mid (WorkerIndex C * PO) PO Objects)
                                   (Mid (WorkerIndex C * PR) PR References)) in *.
  pose proof Hok' as (_ & _ & Hnd & _).
  exists (map give (InContext :: Others)), Pool'.
  assert (Hctx : map Context (map give (InContext :: Others)) = InContext :: Others).
  { rewrite map_map. apply map_id. }
  assert (Hidx : map (fun W => WorkerIndex (Context W)) (map give (InContext :: Others))
                 = map WorkerIndex (InContext :: Others)).
  { rewrite map_map. reflexivity. }
  assert (Hperm : Permutation (map WorkerIndex (InContext :: Others))
                              (map Z.of_nat (seq 0 (Z.to_nat N)))).
  { apply indices_are_all; [exact Hnd|apply Forall_map; exact Hall|].
    rewrite length_map. exact Hlen. }
  assert (HmidO := Mid_slices Objects N HN HO).
  assert (HmidR := Mid_slices References N HN HR).
  fold PO in HmidO. fold PR in HmidR.
  assert (Hnowrap : forall (A : Type) P (l : list A),
            0 <= P -> N * P < 2^31 ->
            flat_map (fun Idx => Mid (wrap32 (Idx * P)) P l)
                     (map Z.of_nat (seq 0 (Z.to_nat N)))
            = flat_map (fun Idx => Mid (Idx * P) P l) (map Z.of_nat (seq 0 (Z.to_nat N)))).
  { intros A P l HP0 HP. rewrite !flat_map_concat_map. f_equal. apply map_ext_in.
    intros i Hi. apply in_map_iff in Hi. destruct Hi as (k & <- & Hk).
    apply in_seq in Hk. rewrite wrap32_id by nia. reflexivity. }
  rewrite Hnowrap in HmidO, HmidR by lia.
  split; [exact Hsetup|].
  split; [exact HN|split; [|split; [|split; [|split; [|split; [|split; [|split]]]]]]].
  - rewrite length_map. exact Hlen.
  - rewrite Hctx. exact Hok'.
  - rewrite Hidx. exact Hperm.
  - apply Forall_map. apply Forall_forall. intros C _. cbn.
    split; [reflexivity|]. split; [reflexivity|].
    unfold Mid. rewrite !length_take. lia.
  - exact HmidO.
  - exact HmidR.
  - assert (E : flat_map InitialObjects (map give (InContext :: Others))
                = flat_map (fun Idx => Mid (Idx * PO) PO Objects)
                           (map WorkerIndex (InContext :: Others))).
    { rewrite !flat_map_concat_map, !map_map. reflexivity. }
    rewrite E, Hperm, HmidO. reflexivity.
  - assert (E : flat_map InitialNativeReferences (map give (InContext :: Others))
                = flat_map (fun Idx => Mid (Idx * PR) PR References)
                           (map WorkerIndex (InContext :: Others))).
    { rewrite !flat_map_concat_map, !map_map. reflexivity. }
    rewrite E, Hperm, HmidR. reflexivity.
Qed.

(** The contexts handed out last go back to the pool. *)
Lemma return_contexts InUse : forall Others Pool,
  pool_ok (InUse ++ Others) Pool ->
  exists Pool'',
    foldl (fun acc C => acc ≫= ReturnToPool C) (Some Pool) Others = Some Pool''
    /\ pool_ok InUse Pool''
    /\ length (Reusable Pool'') = (length (Reusable Pool) + length Others)%nat.
Proof.
  induction Others as [|C Others IH]; intros Pool Hok.
  - exists Pool. rewrite app_nil_r in Hok. cbn. auto.
  - destruct (ReturnToPool_step InUse C Others Pool Hok) as (Pool1 & Hret & Hok1 & _).
    destruct (IH Pool1 Hok1) as (Pool2 & Hfold & Hok2 & Hlen).
    exists Pool2. cbn [foldl mbind option_bind]. rewrite Hret.
    split; [exact Hfold|]. split; [exact Hok2|]. rewrite Hlen.
    unfold ReturnToPool in Hret. destruct (1 <=? NumAllocated Pool); [|discriminate].
    destruct (FreeWorkerIndex C (GWorkerIndices Pool)) as [[C' U']|]; [|discriminate].
    cbn in Hret. injection Hret as <-. cbn [Reusable]. rewrite length_app. cbn [length]. lia.
Qed.

(** ProcessAsync leaves the pool of contexts as it found it.  Called as in
    the theorem before (one context in use that passes the entry checks,
    its worker index below the number of workers, views short enough for
    the int32 arithmetic): after the
    setup and the loops that tear it down, the contexts ProcessAsync
    allocated are back in the pool, without a worker index; the one context
    of the caller is the only one in use, NumAllocated is 1 again and the
    word of worker indices is the one ProcessAsync started with. *)
Theorem ProcessAsync_returns_contexts fuel NumTaskgraphWorkers NewAddress InContext
    Use Objects References Pool :
  passes_entry_checks InContext Use ->
  pool_ok [InContext] Pool ->
  WorkerIndex InContext < GetNumCollectReferenceWorkers NumTaskgraphWorkers ->
  Z.of_nat (length Objects) + 16 < 2^31 ->
  Z.of_nat (length References) + 16 < 2^31 ->
  exists Workers Pool' Pool'',
    ProcessAsyncSetup (S fuel) NumTaskgraphWorkers NewAddress InContext Use Objects
                      References Pool = Some (Workers, Pool')
    /\ ProcessAsyncTeardown Workers Pool' = Some Pool''
    /\ pool_ok [InContext] Pool''
    /\ NumAllocated Pool'' = 1
    /\ GWorkerIndices Pool'' = GWorkerIndices Pool
    /\ Forall (fun C => WorkerIndex C = INDEX_NONE) (Reusable Pool'')
    /\ Z.of_nat (length (Reusable Pool''))
       = Z.of_nat (length (Reusable Pool'))
         + (GetNumCollectReferenceWorkers NumTaskgraphWorkers - 1).
Proof.
  intros Hentry Hok Hin HO HR.
  destruct (ProcessAsyncSetup_contexts fuel NumTaskgraphWorkers NewAddress InContext
              Use Objects References Pool Hentry Hok Hin HO HR)
    as (Others & Pool' & Hsetup & Hok' & Hall & Hlen).
  cbv zeta in Hsetup.
  destruct (return_contexts [InContext] Others Pool' Hok') as (Pool2 & Hfold & Hok2 & Hre).
  eexists _, Pool', Pool2. split; [exact Hsetup|].
  split; [|split; [exact Hok2|split; [|split; [|split]]]].
  - unfold ProcessAsyncTeardown. cbn [map tail].
    rewrite <- Hfold. generalize (Some Pool'). clear.
    induction Others as [|C Others IH]; intros acc; [reflexivity|].
    cbn [map foldl]. apply IH.
  - destruct Hok2 as (Hn & _). exact Hn.
  - destruct Hok2 as (_ & HU2 & _ & Hb2 & _). destruct Hok as (_ & HU & _ & Hb & _).
    apply Z.bits_inj'. intros n Hn.
    destruct (Z.testbit (GWorkerIndices Pool) n) eqn:E.
    + apply Hb2. apply Hb. exact E.
    + destruct (Z.testbit (GWorkerIndices Pool2) n) eqn:E2; [|reflexivity].
      apply Hb2 in E2. apply Hb in E2. congruence.
  - destruct Hok2 as (_ & _ & _ & _ & _ & Hre2). exact Hre2.
  - rewrite Hre. cbn [length] in Hlen. lia.
Qed.

Lemma waiting_pool_ok : pool_ok [first_context] waiting_pool.
Proof.
  unfold pool_ok. cbn. split; [reflexivity|]. split; [lia|].
  split; [apply NoDup_singleton|]. split; [|split; [|repeat constructor]].
  - intros i. split.
    + intros H. destruct (Z.eq_dec i 0) as [->|Hne]; [left; reflexivity|]. exfalso.
      destruct (Z_lt_ge_dec i 0) as [Hneg|Hpos].
      * rewrite Z.testbit_neg_r in H by lia. discriminate.
      * rewrite Z.bits_above_log2 in H by (cbn; lia). discriminate.
    + intros [<-|[]]. reflexivity.
  - constructor; [unfold MaxWorkers; cbn; lia|constructor].
Qed.

(** The theorem at four task-graph workers and ten initial objects: the
    four contexts get three objects each, but the last, which gets one. *)
Lemma ProcessAsync_splits_initial_work_witness :
  exists Workers Pool',
    ProcessAsyncSetup 1 4 (fun _ => 0) first_context first_context_use
      [11; 12; 13; 14; 15; 16; 17; 18; 19; 20] [] waiting_pool = Some (Workers, Pool')
    /\ map InitialObjects Workers = [[11; 12; 13]; [14; 15; 16]; [17; 18; 19]; [20]].
Proof.
  destruct (ProcessAsync_splits_initial_work 0 4 (fun _ => 0) first_context
              first_context_use [11; 12; 13; 14; 15; 16; 17; 18; 19; 20] [] waiting_pool)
    as (Workers & Pool' & Hsetup & _).
  - repeat split.
  - exact waiting_pool_ok.
  - reflexivity.
  - cbn. lia.
  - cbn. lia.
  - exists Workers, Pool'. split; [exact Hsetup|].
    vm_compute in Hsetup. injection Hsetup as <- _. reflexivity.
Defined.

(** The theorem at the same call: the three contexts taken from the pool
    are back in it. *)
Lemma ProcessAsync_returns_contexts_witness :
  exists Workers Pool' Pool'',
    ProcessAsyncSetup 1 4 (fun _ => 0) first_context first_context_use
      [11; 12; 13; 14; 15; 16; 17; 18; 19; 20] [] waiting_pool = Some (Workers, Pool')
    /\ ProcessAsyncTeardown Workers Pool' = Some Pool''
    /\ NumAllocated Pool'' = 1
    /\ GWorkerIndices Pool'' = 1.
Proof.
  destruct (ProcessAsync_returns_contexts 0 4 (fun _ => 0) first_context
              first_context_use [11; 12; 13; 14; 15; 16; 17; 18; 19; 20] [] waiting_pool)
    as (Workers & Pool' & Pool2 & Hsetup & Htear & _ & Hnum & Hbits & _).
  - repeat split.
  - exact waiting_pool_ok.
  - reflexivity.
  - cbn. lia.
  - cbn. lia.
  - exists Workers, Pool', Pool2. auto.
Defined.

End AsyncSetupProofs.

(* ===================================================================== *)
(** ** TReferenceBatcher: the unvalidated and the validated queue *)
(* ===================================================================== *)

Module ReferenceBatcherProofs.
Import WorkStealing WorkStealingProofs ReferenceBatcher.

(** *** The bitmask *)

Lemma shifted_bit (b : bool) i j :
  0 <= i < 64 -> 0 <= j ->
  Z.testbit (WorkerContexts.uint64 (Z.shiftl (if b then 1 else 0) i)) j = b && (j =? i).
Proof.
  intros Hi Hj. unfold WorkerContexts.uint64. destruct b.
  - rewrite Z.mod_small.
    + rewrite Z.shiftl_1_l. destruct (Z.eqb_spec j i) as [->|Hne].
      * apply Z.pow2_bits_true. lia.
      * apply Z.pow2_bits_false. lia.
    + rewrite Z.shiftl_1_l. split; [apply Z.pow_nonneg; lia|].
      apply Z.pow_lt_mono_r; lia.
  - rewrite Z.shiftl_0_l. cbn. apply Z.bits_0.
Qed.

(** The word that the loops of DrainUnvalidated build for the bits [bs]. *)
Lemma mask_built (bs : Z -> bool) (n : nat) :
  (n <= 64)%nat ->
  exists w,
    foldl (fun M Idx => BitmaskSet Idx (bs Idx) M) EmptyBitmask (map Z.of_nat (seq 0 n)) = [w]
    /\ forall j, 0 <= j -> Z.testbit w j = (j <? Z.of_nat n) && bs j.
Proof.
  induction n as [|n IH]; intros Hn.
  - exists 0. split; [reflexivity|]. intros j Hj. rewrite Z.bits_0.
    replace (j <? Z.of_nat 0) with false by (symmetry; apply Z.ltb_ge; lia). reflexivity.
  - destruct IH as (w & Hw & Hbits); [lia|].
    rewrite seq_S, map_app, foldl_app, Hw. cbn [Nat.add map foldl].
    unfold BitmaskSet.
    replace (Z.to_nat (Z.of_nat n / 64)) with 0%nat
      by (rewrite Z.div_small by lia; reflexivity).
    rewrite Z.mod_small by lia. cbn [alter list_alter].
    eexists. split; [reflexivity|]. intros j Hj.
    rewrite Z.lor_spec, Hbits, shifted_bit by lia.
    destruct (Z.ltb_spec j (Z.of_nat n)), (Z.ltb_spec j (Z.of_nat (S n))),
      (Z.eqb_spec j (Z.of_nat n)); try lia; subst;
      destruct (bs _); try reflexivity; destruct (bs _); reflexivity.
Qed.

Lemma BitmaskGet_bit w j :
  0 <= j < 64 -> (BitmaskGet j [w] =? 0) = negb (Z.testbit w j).
Proof.
  intros Hj. unfold BitmaskGet.
  replace (Z.to_nat (j / 64)) with 0%nat by (rewrite Z.div_small by lia; reflexivity).
  rewrite Z.mod_small by lia. cbn [nth].
  destruct (Z.testbit w j) eqn:E; cbn [negb].
  - apply Z.eqb_neq. intros H0.
    assert (Hb : Z.testbit (Z.land (WorkerContexts.uint64 (Z.shiftl 1 j)) w) j = true).
    { rewrite Z.land_spec, (shifted_bit true), E by lia. rewrite Z.eqb_refl. reflexivity. }
    rewrite H0, Z.bits_0 in Hb. discriminate.
  - apply Z.eqb_eq. apply Z.bits_inj'. intros k Hk.
    rewrite Z.land_spec, (shifted_bit true), Z.bits_0 by lia. cbn [andb].
    destruct (Z.eqb_spec k j) as [->|_]; [exact E|reflexivity].
Qed.

Lemma BitmaskAnd_word a b : BitmaskAnd [a] [b] = [Z.land a b].
Proof. reflexivity. Qed.

Lemma count_filter_le {A} (f : A -> bool) l : (length (List.filter f l) <= length l)%nat.
Proof. induction l as [|x l IH]; cbn; [lia|]. destruct (f x); cbn; lia. Qed.

Lemma BitmaskCountBits_word w :
  BitmaskCountBits [w]
  = Z.of_nat (length (List.filter (Z.testbit w) (map Z.of_nat (seq 0 64)))).
Proof.
  unfold BitmaskCountBits, CountBits64. cbn [foldl]. unfold uint32.
  pose proof (count_filter_le (Z.testbit w) (map Z.of_nat (seq 0 64))) as H.
  rewrite length_map, length_seq in H. rewrite Z.mod_small; [lia|].
  change (2 ^ 32) with 4294967296. lia.
Qed.

Lemma valid_bit w i :
  (i < 64)%nat -> negb (BitmaskGet (Z.of_nat i) [w] =? 0) = Z.testbit w (Z.of_nat i).
Proof. intros Hi. rewrite BitmaskGet_bit by lia. apply negb_involutive. Qed.

(** The valid entries are the entries whose bit is set. *)
Lemma ValidEntries_filter (P : Z -> bool) w l i :
  (i + length l <= 64)%nat ->
  (forall k, (k < length l)%nat -> Z.testbit w (Z.of_nat (i + k)) = P (nth k l 0)) ->
  ValidEntries [w] (Z.of_nat i) l = List.filter P l.
Proof.
  revert i. induction l as [|r l IH]; intros i Hlen Hbits; [reflexivity|].
  cbn [length] in Hlen. cbn [ValidEntries List.filter].
  rewrite valid_bit by lia.
  pose proof (Hbits 0%nat ltac:(cbn; lia)) as H0. rewrite Nat.add_0_r in H0. cbn [nth] in H0.
  rewrite H0. replace (Z.of_nat i + 1) with (Z.of_nat (S i)) by lia.
  rewrite (IH (S i)); [reflexivity|lia|].
  intros k Hk. specialize (Hbits (S k) ltac:(cbn; lia)).
  replace (S i + k)%nat with (i + S k)%nat by lia. exact Hbits.
Qed.

Lemma ValidEntries_app M l1 l2 i :
  ValidEntries M (Z.of_nat i) (l1 ++ l2)
  = ValidEntries M (Z.of_nat i) l1 ++ ValidEntries M (Z.of_nat (i + length l1)) l2.
Proof.
  revert i. induction l1 as [|r l1 IH]; intros i.
  - cbn. rewrite Nat.add_0_r. reflexivity.
  - cbn [app ValidEntries length]. replace (Z.of_nat i + 1) with (Z.of_nat (S i)) by lia.
    rewrite (IH (S i)). replace (S i + length l1)%nat with (i + S (length l1))%nat by lia.
    destruct (negb _); reflexivity.
Qed.

Lemma filter_false {A} (l : list A) : List.filter (fun _ => false) l = [].
Proof. induction l; [reflexivity|assumption]. Qed.

(** The number of bits set is the number of valid entries. *)
Lemma count_ValidEntries w l i :
  (i + length l <= 64)%nat ->
  length (List.filter (Z.testbit w) (map Z.of_nat (seq i (length l))))
  = length (ValidEntries [w] (Z.of_nat i) l).
Proof.
  revert i. induction l as [|r l IH]; intros i Hlen; [reflexivity|].
  cbn [length] in Hlen. cbn [length seq map List.filter ValidEntries].
  rewrite valid_bit by lia. replace (Z.of_nat i + 1) with (Z.of_nat (S i)) by lia.
  destruct (Z.testbit w (Z.of_nat i)); cbn [length]; rewrite (IH (S i)) by lia; reflexivity.
Qed.

Lemma foldl_zip_map {A B C} (h : A -> B -> C -> C) (g : A -> B) l W :
  foldl (fun W1 RM => h RM.1 RM.2 W1) W (zip l (map g l))
  = foldl (fun W1 R => h R (g R) W1) W l.
Proof. revert W. induction l as [|R l IH]; intros W; [reflexivity|]. cbn. apply IH. Qed.

Section Batcher.

Context {World Resolved Metadata : Type}.
Variable GetObject : World -> Z -> Z.
Variable ToResolvedReference : World -> Z -> Resolved.
Variable PermanentContains : Z -> bool.
Variable IsObjectHandleResolved : Z -> bool.

Local Abbreviation Valid := (ValidReference GetObject PermanentContains IsObjectHandleResolved).
Local Abbreviation Validations W u n :=
  (BitmaskAnd (ValidsA GetObject PermanentContains W u n)
              (ValidsB GetObject IsObjectHandleResolved W u n)).

(** The mask of DrainUnvalidated has the bit of an entry set when the
    entry is one of the first [n] and needs processing. *)
Lemma Validations_built W u (n : nat) :
  (n <= 64)%nat ->
  exists w,
    Validations W u (Z.of_nat n) = [w]
    /\ forall j, 0 <= j ->
         Z.testbit w j = (j <? Z.of_nat n) && Valid W (nth (Z.to_nat j) u 0).
Proof.
  intros Hn. unfold ValidsA, ValidsB. rewrite Nat2Z.id.
  destruct (mask_built
              (fun Idx => negb (PermanentContains (GetObject W (nth (Z.to_nat Idx) u 0)))) n Hn)
    as (a & -> & Ha).
  destruct (mask_built
              (fun Idx => negb (GetObject W (nth (Z.to_nat Idx) u 0) =? 0)
                          && IsObjectHandleResolved (GetObject W (nth (Z.to_nat Idx) u 0))) n Hn)
    as (b & -> & Hb).
  rewrite BitmaskAnd_word. eexists. split; [reflexivity|]. intros j Hj.
  rewrite Z.land_spec, Ha, Hb by lia.
  unfold ValidReference, Reachability.ValidateReference.
  destruct (j <? Z.of_nat n); [|reflexivity]. cbn [andb].
  rewrite andb_assoc. reflexivity.
Qed.

(** The valid entries of a queue of 32 of which the first [n] are in use,
    and their number. *)
Lemma Validations_entries W u (n : nat) :
  (n <= length u)%nat -> (length u <= 32)%nat ->
  ValidEntries (Validations W u (Z.of_nat n)) 0 u = List.filter (Valid W) (take n u)
  /\ BitmaskCountBits (Validations W u (Z.of_nat n))
     = Z.of_nat (length (List.filter (Valid W) (take n u))).
Proof.
  intros Hn Hu. destruct (Validations_built W u n ltac:(lia)) as (w & -> & Hw).
  assert (Hfront : ValidEntries [w] (Z.of_nat 0) (take n u) = List.filter (Valid W) (take n u)).
  { apply ValidEntries_filter; [rewrite length_take; lia|].
    intros k Hk. rewrite length_take in Hk. rewrite Hw by lia.
    replace (Z.of_nat (0 + k) <? Z.of_nat n) with true by (symmetry; apply Z.ltb_lt; lia).
    cbn [andb]. rewrite Nat2Z.id. cbn [Nat.add].
    f_equal. rewrite <- (take_drop n u) at 1. rewrite app_nth1; [reflexivity|].
    rewrite length_take. lia. }
  assert (Hback : forall l, (n + length l <= 64)%nat ->
                   ValidEntries [w] (Z.of_nat (0 + length (take n u))) l = []).
  { intros l Hl. rewrite length_take, Nat.min_l by lia. cbn [Nat.add].
    rewrite (ValidEntries_filter (fun _ => false)); [apply filter_false|lia|].
    intros k Hk. rewrite Hw by lia.
    replace (Z.of_nat (n + k) <? Z.of_nat n) with false by (symmetry; apply Z.ltb_ge; lia).
    reflexivity. }
  split.
  - rewrite <- (take_drop n u) at 1. change 0 with (Z.of_nat 0).
    rewrite ValidEntries_app, Hfront, Hback, app_nil_r; [reflexivity|].
    rewrite length_drop. lia.
  - rewrite BitmaskCountBits_word. f_equal.
    pose proof (count_ValidEntries w (take n u ++ replicate (64 - n) 0) 0) as Hc.
    rewrite length_app, length_take, length_replicate, Nat.min_l in Hc by lia.
    replace (n + (64 - n))%nat with 64%nat in Hc by lia.
    rewrite Hc by lia. rewrite ValidEntries_app, Hfront, Hback, app_nil_r; [reflexivity|].
    rewrite length_replicate. lia.
Qed.

(** The loop of QueueValidReferences appends the next [k] valid entries,
    resolved, in their order, and stops behind the last of them. *)
Lemma QueueValidLoop_spec M W u :
  Z.of_nat (length u) < 2^32 ->
  forall n i q k E fuel,
    (i + n = length u)%nat ->
    (k <= length (ValidEntries M (Z.of_nat i) (drop i u)))%nat ->
    (q + k <= length E)%nat -> Z.of_nat (length E) < 2^32 -> (n < fuel)%nat ->
    exists E' i',
      QueueValidLoop ToResolvedReference fuel (Z.of_nat (q + k)) M W u
                     (Z.of_nat q) (Z.of_nat i) E = Some (E', Z.of_nat i')
      /\ length E' = length E
      /\ take q E' = take q E
      /\ take k (drop q E')
         = map (ToResolvedReference W) (take k (ValidEntries M (Z.of_nat i) (drop i u)))
      /\ (i <= i' <= length u)%nat
      /\ ValidEntries M (Z.of_nat i') (drop i' u)
         = drop k (ValidEntries M (Z.of_nat i) (drop i u)).
Proof.
  intros Hu. induction n as [|n IH]; intros i q k E fuel Hin Hk Hq HE Hfuel;
    (destruct fuel as [|fuel]; [lia|]); cbn [QueueValidLoop].
  - rewrite drop_ge in Hk by lia. cbn in Hk. assert (k = 0)%nat as -> by lia.
    rewrite Nat.add_0_r, Z.ltb_irrefl. exists E, i.
    rewrite drop_0. repeat split; try reflexivity; lia.
  - destruct k as [|k].
    { rewrite Nat.add_0_r, Z.ltb_irrefl. exists E, i.
      rewrite drop_0. repeat split; try reflexivity; lia. }
    replace (Z.of_nat q <? Z.of_nat (q + S k)) with true by (symmetry; apply Z.ltb_lt; lia).
    rewrite !Nat2Z.id.
    destruct (u !! i) as [r|] eqn:Hlook;
      [|apply lookup_ge_None in Hlook; lia].
    cbn [mbind option_bind].
    replace (Z.of_nat q <? Z.of_nat (length E)) with true by (symmetry; apply Z.ltb_lt; lia).
    rewrite (drop_S _ _ _ Hlook) in *. cbn [ValidEntries] in *.
    replace (Z.of_nat i + 1) with (Z.of_nat (S i)) in * by lia.
    rewrite (uint32_small (Z.of_nat (S i))) by lia.
    set (E1 := <[q := ToResolvedReference W r]> E).
    assert (HE1 : length E1 = length E) by apply length_insert.
    destruct (negb (BitmaskGet (Z.of_nat i) M =? 0)) eqn:Hv.
    + cbn [length] in Hk.
      replace (uint32 (Z.of_nat q + 1)) with (Z.of_nat (S q)) by (rewrite uint32_small; lia).
      replace (q + S k)%nat with (S q + k)%nat by lia.
      destruct (IH (S i) (S q) k E1 fuel) as (E' & i' & Hrun & Hlen & Htake & Hnew & Hi & Hrest);
        [lia|lia|lia|lia|lia|].
      exists E', i'. split; [exact Hrun|]. split; [congruence|].
      assert (Hq' : E' !! q = Some (ToResolvedReference W r)).
      { rewrite <- (lookup_take_lt E' (S q) q) by lia. rewrite Htake.
        rewrite lookup_take_lt by lia. apply list_lookup_insert_eq. lia. }
      split; [|split; [|split; [lia|exact Hrest]]].
      * assert (Hmin : forall l : list Resolved, take q l = take q (take (S q) l)).
        { intros l. rewrite take_take. f_equal. lia. }
        rewrite (Hmin E'), Htake, <- Hmin. apply take_insert_ge. lia.
      * rewrite (drop_S _ _ _ Hq'). cbn [take map]. rewrite Hnew. reflexivity.
    + replace (uint32 (Z.of_nat q + 0)) with (Z.of_nat q) by (rewrite uint32_small; lia).
      destruct (IH (S i) q (S k) E1 fuel) as (E' & i' & Hrun & Hlen & Htake & Hnew & Hi & Hrest);
        [lia|lia|lia|lia|lia|].
      exists E', i'. split; [exact Hrun|]. split; [congruence|].
      split; [|split; [exact Hnew|split; [lia|exact Hrest]]].
      rewrite Htake. apply take_insert_ge. lia.
Qed.

Variable ResolvedObject : Resolved -> Z.
Variable MakeMetadata : World -> Z -> Metadata.
Variable HandleBatchedReference : Resolved -> Metadata -> World -> World.
Variable Zeroed : Resolved.

Local Abbreviation Run := (RunBatch ResolvedObject MakeMetadata HandleBatchedReference).
Local Abbreviation DrainV := (DrainValidated ResolvedObject MakeMetadata HandleBatchedReference).
Local Abbreviation DrainU :=
  (DrainUnvalidated GetObject ToResolvedReference ResolvedObject MakeMetadata
     HandleBatchedReference PermanentContains IsObjectHandleResolved).
Local Abbreviation Push :=
  (PushReference GetObject ToResolvedReference ResolvedObject MakeMetadata
     HandleBatchedReference PermanentContains IsObjectHandleResolved).
Local Abbreviation Flush :=
  (FlushQueues GetObject ToResolvedReference ResolvedObject MakeMetadata
     HandleBatchedReference PermanentContains IsObjectHandleResolved).
Local Abbreviation Pushes :=
  (PushReferences GetObject ToResolvedReference ResolvedObject MakeMetadata
     HandleBatchedReference PermanentContains IsObjectHandleResolved).
Local Abbreviation Batching :=
  (batching GetObject ToResolvedReference ResolvedObject MakeMetadata
     HandleBatchedReference PermanentContains IsObjectHandleResolved).

(** QueueValidReferences on a batcher whose validated queue holds [q]. *)
Lemma QueueValidReferences_spec M W (B : FBatcher (Resolved := Resolved)) (i q k : nat) :
  length (UnvalidatedEntries B) = 32%nat ->
  length (ValidatedEntries B) = 1088%nat ->
  ValidatedNum B = Z.of_nat q ->
  (k <= length (ValidEntries M (Z.of_nat i) (drop i (UnvalidatedEntries B))))%nat ->
  (q + k <= 1024)%nat -> (i <= 32)%nat ->
  exists E' i',
    QueueValidReferences ToResolvedReference (Z.of_nat k) M (Z.of_nat i) B W
    = Some (mkBatcher (UnvalidatedNum B) (UnvalidatedEntries B) (Z.of_nat (q + k)) E'
                      (ReferencesAdded B), Z.of_nat i')
    /\ length E' = 1088%nat
    /\ take (q + k) E'
       = take q (ValidatedEntries B)
         ++ map (ToResolvedReference W)
              (take k (ValidEntries M (Z.of_nat i) (drop i (UnvalidatedEntries B))))
    /\ (i' <= 32)%nat
    /\ ValidEntries M (Z.of_nat i') (drop i' (UnvalidatedEntries B))
       = drop k (ValidEntries M (Z.of_nat i) (drop i (UnvalidatedEntries B))).
Proof.
  intros HU HV Hq Hk Hqk Hi. unfold QueueValidReferences. rewrite Hq.
  rewrite uint32_small by (change (2 ^ 32) with 4294967296; lia).
  replace (Z.of_nat q + Z.of_nat k) with (Z.of_nat (q + k)) by lia.
  destruct (QueueValidLoop_spec M W (UnvalidatedEntries B)
              ltac:(rewrite HU; reflexivity) (32 - i) i q k (ValidatedEntries B)
              (S (length (UnvalidatedEntries B))))
    as (E' & i' & Hrun & Hlen & Htake & Hnew & Hi' & Hrest);
    [lia|exact Hk|lia|rewrite HV; reflexivity|lia|].
  rewrite Hrun. cbn [mbind option_bind]. exists E', i'.
  split; [reflexivity|]. split; [congruence|]. split; [|split; [lia|exact Hrest]].
  rewrite <- take_take_drop, Htake, Hnew. reflexivity.
Qed.

(** DrainValidated handles the batch as [RunBatch] says. *)
Lemma DrainValidated_spec (B : FBatcher (Resolved := Resolved)) W (q : nat) :
  (q <= 1024)%nat ->
  DrainV (Z.of_nat q) B W
  = Some (mkBatcher (UnvalidatedNum B) (UnvalidatedEntries B) 0 (ValidatedEntries B)
                    (ReferencesAdded B),
          Run W (take q (ValidatedEntries B))).
Proof.
  intros Hq. unfold DrainValidated.
  replace (Z.of_nat q <=? ValidatedBatchSize) with true
    by (symmetry; apply Z.leb_le; unfold ValidatedBatchSize; lia).
  rewrite Nat2Z.id. do 2 f_equal.
  exact (foldl_zip_map HandleBatchedReference (fun R => MakeMetadata W (ResolvedObject R))
           (take q (ValidatedEntries B)) W).
Qed.

Hypothesis Hobj : forall R M W Reference,
  GetObject (HandleBatchedReference R M W) Reference = GetObject W Reference.
Hypothesis Hres : forall R M W Reference,
  ToResolvedReference (HandleBatchedReference R M W) Reference
  = ToResolvedReference W Reference.

Lemma Run_stable W Batch :
  (forall Reference, GetObject (Run W Batch) Reference = GetObject W Reference)
  /\ (forall Reference,
        ToResolvedReference (Run W Batch) Reference = ToResolvedReference W Reference).
Proof.
  unfold RunBatch.
  generalize (fun R => MakeMetadata W (ResolvedObject R)) as g. intros g.
  induction Batch as [|R l IH] using rev_ind; [split; reflexivity|].
  rewrite foldl_app. cbn [foldl]. destruct IH as [H1 H2].
  split; intros r; [rewrite Hobj; apply H1|rewrite Hres; apply H2].
Qed.

Lemma Runs_stable W Done :
  (forall Reference, GetObject (foldl Run W Done) Reference = GetObject W Reference)
  /\ (forall Reference,
        ToResolvedReference (foldl Run W Done) Reference = ToResolvedReference W Reference).
Proof.
  induction Done as [|b l IH] using rev_ind; [split; reflexivity|].
  rewrite foldl_app. cbn [foldl]. destruct IH as [H1 H2].
  destruct (Run_stable (foldl Run W l) b) as [G1 G2].
  split; intros r; [rewrite G1; apply H1|rewrite G2; apply H2].
Qed.

Lemma Valid_ext W W' :
  (forall Reference, GetObject W' Reference = GetObject W Reference) ->
  forall l, List.filter (Valid W') l = List.filter (Valid W) l.
Proof.
  intros H l. induction l as [|r l IH]; [reflexivity|]. cbn [List.filter].
  replace (Valid W' r) with (Valid W r) by (unfold ValidReference; rewrite H; reflexivity).
  rewrite IH. reflexivity.
Qed.

Lemma Resolve_ext W W' :
  (forall Reference, ToResolvedReference W' Reference = ToResolvedReference W Reference) ->
  forall l, map (ToResolvedReference W') l = map (ToResolvedReference W) l.
Proof. intros H l. apply map_ext. exact H. Qed.

Lemma DrainLoop_stop fuel Slack NumValid Idx M (B : FBatcher (Resolved := Resolved)) W :
  NumValid < Slack ->
  DrainLoop ToResolvedReference ResolvedObject MakeMetadata HandleBatchedReference
            (S fuel) Slack NumValid Idx M B W
  = Some (NumValid, Idx, B, W).
Proof.
  intros H. cbn [DrainLoop].
  replace (Slack <=? NumValid) with false by (symmetry; apply Z.leb_gt; exact H).
  reflexivity.
Qed.

(** DrainUnvalidated validates what the unvalidated queue holds: the
    references that need processing go to the validated queue, which is
    handled once when they fill it. *)
Lemma DrainUnvalidated_spec (B : FBatcher (Resolved := Resolved)) W Pending Queued :
  batcher_ok B Pending Queued ->
  exists B' Done Queued',
    DrainU (UnvalidatedNum B) B W = Some (B', foldl Run W Done)
    /\ batcher_ok B' [] Queued'
    /\ ReferencesAdded B' = ReferencesAdded B ++ [Z.of_nat (length Pending)]
    /\ concat Done ++ Queued'
       = Queued ++ map (ToResolvedReference W) (List.filter (Valid W) Pending)
    /\ Forall (fun Batch => length Batch = Z.to_nat ValidatedBatchSize) Done.
Proof.
  intros (HU & HV & HnU & HP & HnV & HQ & Hq).
  change (Z.to_nat UnvalidatedBatchSize) with 32%nat in *.
  change (Z.to_nat ValidatedBatchSize) with 1024%nat in *.
  change (Z.to_nat (ValidatedBatchSize + ValidatedPrefetchAhead)) with 1088%nat in *.
  assert (Hn : (length Pending <= 32)%nat).
  { rewrite <- HP, length_take. lia. }
  unfold DrainUnvalidated. rewrite HnU.
  replace (Z.of_nat (length Pending) <=? UnvalidatedBatchSize) with true
    by (symmetry; apply Z.leb_le; unfold UnvalidatedBatchSize; lia).
  cbn [ValidatedNum UnvalidatedEntries].
  destruct (Validations_entries W (UnvalidatedEntries B) (length Pending)
              ltac:(lia) ltac:(lia)) as [Hval Hcount].
  rewrite HP in Hval, Hcount. rewrite Hcount.
  set (M := Validations W (UnvalidatedEntries B) (Z.of_nat (length Pending))) in *.
  set (v := List.filter (Valid W) Pending) in *.
  assert (Hv : (length v <= 32)%nat).
  { pose proof (count_filter_le (Valid W) Pending). unfold v. lia. }
  rewrite HnV.
  rewrite (uint32_small (ValidatedBatchSize - Z.of_nat (length Queued)))
    by (unfold ValidatedBatchSize; change (2 ^ 32) with 4294967296; lia).
  set (B0 := mkBatcher (Z.of_nat (length Pending)) (UnvalidatedEntries B)
                       (Z.of_nat (length Queued)) (ValidatedEntries B)
                       (ReferencesAdded B ++ [Z.of_nat (length Pending)])).
  cbn [DrainLoop Z.to_nat Pos.to_nat Pos.iter_op Nat.add].
  destruct (Z.leb_spec (ValidatedBatchSize - Z.of_nat (length Queued)) (Z.of_nat (length v)))
    as [Hfull|Hroom].
  - (* the validated queue fills up *)
    unfold ValidatedBatchSize in Hfull.
    set (slack := (1024 - length Queued)%nat).
    replace (ValidatedBatchSize - Z.of_nat (length Queued)) with (Z.of_nat slack)
      by (unfold slack, ValidatedBatchSize; lia).
    destruct (QueueValidReferences_spec M W B0 0 (length Queued) slack)
      as (E1 & i1 & Hrun1 & HE1 & Htake1 & Hi1 & Hrest1);
      [exact HU|exact HV|reflexivity| |unfold slack; lia|lia|].
    { rewrite drop_0. change (Z.of_nat 0) with 0.
      cbn [UnvalidatedEntries B0]. rewrite Hval. lia. }
    change (Z.of_nat 0) with 0 in Hrun1. rewrite Hrun1.
    cbn [mbind option_bind ValidatedNum].
    replace (length Queued + slack)%nat with 1024%nat in * by (unfold slack; lia).
    change (Z.of_nat 1024 =? ValidatedBatchSize) with true. cbv iota.
    change (DrainV ValidatedBatchSize) with (DrainV (Z.of_nat 1024)).
    rewrite DrainValidated_spec by lia. cbn [mbind option_bind ValidatedEntries].
    cbn [UnvalidatedEntries B0 ValidatedEntries] in Htake1, Hrest1.
    rewrite drop_0 in Htake1, Hrest1. change (Z.of_nat 0) with 0 in Htake1, Hrest1.
    rewrite Hval in Htake1, Hrest1. rewrite HQ in Htake1. rewrite Htake1.
    set (Batch := Queued ++ map (ToResolvedReference W) (take slack v)).
    set (W2 := Run W Batch).
    rewrite (uint32_small (Z.of_nat (length v) - Z.of_nat slack))
      by (change (2 ^ 32) with 4294967296; lia).
    cbn [UnvalidatedNum UnvalidatedEntries ReferencesAdded ValidatedEntries B0].
    set (B2 := mkBatcher _ _ 0 E1 _).
    set (k := (length v - slack)%nat).
    replace (Z.of_nat (length v) - Z.of_nat slack) with (Z.of_nat k) by (unfold k; lia).
    change (Z.to_nat UnvalidatedBatchSize) with (S 31).
    rewrite DrainLoop_stop by (unfold ValidatedBatchSize, k; lia).
    cbn [mbind option_bind].
    destruct (QueueValidReferences_spec M W2 B2 i1 0 k)
      as (E2 & i2 & Hrun2 & HE2 & Htake2 & Hi2 & Hrest2);
      [exact HU|exact HE1|reflexivity| |unfold k; lia|lia|].
    { cbn [UnvalidatedEntries B2]. rewrite Hrest1, length_drop. unfold k. lia. }
    rewrite Hrun2. cbn [mbind option_bind ValidatedNum Nat.add].
    replace (Z.of_nat k =? ValidatedBatchSize) with false
      by (symmetry; apply Z.eqb_neq; unfold ValidatedBatchSize, k; lia).
    cbn [negb UnvalidatedEntries ValidatedEntries ReferencesAdded B2 B0 UnvalidatedNum].
    cbn [Nat.add] in Htake2. cbn [UnvalidatedEntries B2] in Htake2.
    rewrite Hrest1, take_0 in Htake2. cbn [app] in Htake2.
    rewrite (take_ge (drop slack v)) in Htake2 by (rewrite length_drop; unfold k; lia).
    rewrite (Resolve_ext W W2 (proj2 (Run_stable W Batch))) in Htake2.
    exists (mkBatcher 0 (UnvalidatedEntries B) (Z.of_nat k) E2
                      (ReferencesAdded B ++ [Z.of_nat (length Pending)])),
           [Batch], (map (ToResolvedReference W) (drop slack v)).
    split; [reflexivity|]. split; [|split; [reflexivity|split]].
    + unfold batcher_ok. cbn.
      change (Z.to_nat UnvalidatedBatchSize) with 32%nat.
      change (Z.to_nat ValidatedBatchSize) with 1024%nat.
      change (Z.to_nat (ValidatedBatchSize + ValidatedPrefetchAhead)) with 1088%nat.
      rewrite length_map, length_drop. fold k.
      split; [exact HU|]. split; [exact HE2|]. split; [reflexivity|].
      split; [apply take_0|]. split; [reflexivity|]. split; [exact Htake2|]. unfold k. lia.
    + cbn [concat]. rewrite app_nil_r. unfold Batch. rewrite <- app_assoc, <- map_app.
      rewrite take_drop. reflexivity.
    + constructor; [|constructor]. unfold Batch.
      rewrite length_app, length_map, length_take. unfold slack. lia.
  - (* the validated queue has room for all of them *)
    unfold ValidatedBatchSize in Hroom.
    replace (ValidatedBatchSize - Z.of_nat (length Queued) <=? Z.of_nat (length v)) with false
      by (symmetry; apply Z.leb_gt; unfold ValidatedBatchSize; lia).
    cbn [mbind option_bind].
    destruct (QueueValidReferences_spec M W B0 0 (length Queued) (length v))
      as (E1 & i1 & Hrun1 & HE1 & Htake1 & Hi1 & Hrest1);
      [exact HU|exact HV|reflexivity| |lia|lia|].
    { rewrite drop_0. change (Z.of_nat 0) with 0.
      cbn [UnvalidatedEntries B0]. rewrite Hval. lia. }
    change (Z.of_nat 0) with 0 in Hrun1. rewrite Hrun1.
    cbn [mbind option_bind ValidatedNum].
    replace (Z.of_nat (length Queued + length v) =? ValidatedBatchSize) with false
      by (symmetry; apply Z.eqb_neq; unfold ValidatedBatchSize; lia).
    cbn [negb UnvalidatedEntries ValidatedEntries ReferencesAdded B0 UnvalidatedNum].
    cbn [UnvalidatedEntries B0 ValidatedEntries] in Htake1.
    rewrite drop_0 in Htake1. change (Z.of_nat 0) with 0 in Htake1.
    rewrite Hval, HQ in Htake1. rewrite (take_ge v) in Htake1 by lia.
    exists (mkBatcher 0 (UnvalidatedEntries B) (Z.of_nat (length Queued + length v)) E1
                      (ReferencesAdded B ++ [Z.of_nat (length Pending)])),
           [], (Queued ++ map (ToResolvedReference W) v).
    split; [reflexivity|]. split; [|split; [reflexivity|split; [reflexivity|constructor]]].
    unfold batcher_ok. cbn.
    change (Z.to_nat UnvalidatedBatchSize) with 32%nat.
    change (Z.to_nat ValidatedBatchSize) with 1024%nat.
    change (Z.to_nat (ValidatedBatchSize + ValidatedPrefetchAhead)) with 1088%nat.
    rewrite length_app, length_map.
    split; [exact HU|]. split; [exact HE1|]. split; [reflexivity|].
    split; [apply take_0|]. split; [reflexivity|]. split; [exact Htake1|]. lia.
Qed.

Lemma Batching_new W0 : Batching W0 [] (NewBatcher Zeroed) W0.
Proof.
  exists [], [], [], []. unfold batcher_ok, NewBatcher. cbn -[replicate].
  rewrite !length_replicate. repeat split; try reflexivity; try constructor.
  all: change (Z.to_nat UnvalidatedBatchSize) with 32%nat;
       change (Z.to_nat ValidatedBatchSize) with 1024%nat; lia.
Qed.

(** A push keeps the batcher and the world in step with the references
    pushed. *)
Lemma PushReference_batching W0 Pushed B W Reference :
  Batching W0 Pushed B W ->
  exists B' W', Push Reference B W = Some (B', W')
                /\ Batching W0 (Pushed ++ [Reference]) B' W'.
Proof.
  intros (Validated & Pending & Queued & Done & Hok & Hlt & HP & Hcat & Hall & HW & Hsum).
  pose proof Hok as (HU & HV & HnU & HPe & HnV & HQ & Hq).
  change (Z.to_nat UnvalidatedBatchSize) with 32%nat in *.
  unfold PushReference. rewrite HnU, HU.
  replace ((0 <=? Z.of_nat (length Pending)) && (Z.of_nat (length Pending) <? Z.of_nat 32))
    with true by (symmetry; apply andb_true_iff; split; [apply Z.leb_le|apply Z.ltb_lt]; lia).
  rewrite Nat2Z.id.
  rewrite (uint32_small (Z.of_nat (length Pending) + 1))
    by (change (2 ^ 32) with 4294967296; lia).
  cbn [UnvalidatedNum].
  set (B1 := mkBatcher _ _ _ _ _).
  assert (Hok1 : batcher_ok B1 (Pending ++ [Reference]) Queued).
  { unfold batcher_ok, B1. cbn [UnvalidatedNum UnvalidatedEntries ValidatedNum ValidatedEntries].
    rewrite length_insert, length_app. cbn [length].
    split; [exact HU|]. split; [exact HV|]. split; [lia|].
    split; [|split; [exact HnV|split; [exact HQ|exact Hq]]].
    replace (length Pending + 1)%nat with (S (length Pending)) by lia.
    rewrite (take_S_r _ _ Reference) by (apply list_lookup_insert_eq; lia).
    rewrite take_insert_ge by lia. rewrite HPe. reflexivity. }
  destruct (Z.eqb_spec (Z.of_nat (length Pending) + 1) UnvalidatedBatchSize) as [Hfull|Hroom].
  - destruct (DrainUnvalidated_spec B1 W _ _ Hok1)
      as (B' & Done' & Queued' & Hrun & Hok' & Hadd & Hcat' & Hall').
    change (UnvalidatedNum B1) with (Z.of_nat (length Pending) + 1) in Hrun.
    rewrite Hfull in Hrun. rewrite Hrun.
    exists B', (foldl Run W Done'). split; [reflexivity|].
    exists (Validated ++ Pending ++ [Reference]), [], Queued', (Done ++ Done').
    split; [exact Hok'|]. split; [cbn; lia|]. split; [rewrite HP, app_nil_r, app_assoc; reflexivity|].
    destruct (Runs_stable W0 Done) as [Hg Hr]. rewrite <- HW in Hg, Hr.
    split; [|split; [apply Forall_app; split; assumption|split]].
    + rewrite concat_app, <- app_assoc, Hcat', app_assoc, Hcat.
      rewrite (Valid_ext W0 W Hg), (Resolve_ext W0 W Hr).
      rewrite <- map_app, <- List.filter_app. reflexivity.
    + rewrite HW, foldl_app. reflexivity.
    + rewrite Hadd. cbn [ReferencesAdded B1]. rewrite SweepEffectProofs.sumZ_app, Hsum.
      cbn. rewrite !length_app. cbn [length]. lia.
  - exists B1, W. split; [reflexivity|].
    exists Validated, (Pending ++ [Reference]), Queued, Done.
    split; [exact Hok1|]. unfold UnvalidatedBatchSize in Hroom.
    split; [change (Z.to_nat UnvalidatedBatchSize) with 32%nat;
            rewrite length_app; cbn [length]; lia|].
    split; [rewrite HP, app_assoc; reflexivity|].
    split; [exact Hcat|]. split; [exact Hall|]. split; [exact HW|exact Hsum].
Qed.

Lemma PushReferences_batching W0 References :
  forall Pushed B W,
    Batching W0 Pushed B W ->
    exists B' W', Pushes References B W = Some (B', W')
                  /\ Batching W0 (Pushed ++ References) B' W'.
Proof.
  unfold PushReferences.
  induction References as [|r l IH]; intros Pushed B W HB.
  - exists B, W. rewrite app_nil_r. split; [reflexivity|exact HB].
  - cbn [foldl mbind option_bind].
    destruct (PushReference_batching W0 Pushed B W r HB) as (B1 & W1 & -> & HB1).
    destruct (IH _ _ _ HB1) as (B' & W' & Hrun & HB').
    exists B', W'. split; [exact Hrun|]. rewrite <- app_assoc in HB'. exact HB'.
Qed.

(** Pushed into a new batcher and flushed, the references that need
    processing (not null, not in the permanent object pool, resolved), and
    no others, are handled, each once and in the order of the pushes:
    the pushes and the flush fail no check, the two queues are empty at the
    end, the references counted in the statistics are the references
    pushed, and the world at the end is the world after a sequence of
    batches, none empty and none of more than 1024 references, that
    together are the resolved references in need of processing; the
    metadata of a batch is read when the batch starts.  This holds for a
    handler that changes no object pointer that a queued reference
    reads. *)
Theorem batcher_handles_what_needs_processing W0 References :
  exists B' W' Batches,
    (Pushes References (NewBatcher Zeroed) W0 ≫= fun '(B, W) => Flush B W) = Some (B', W')
    /\ UnvalidatedNum B' = 0 /\ ValidatedNum B' = 0
    /\ SweepEffect.sumZ (ReferencesAdded B') = Z.of_nat (length References)
    /\ concat Batches = map (ToResolvedReference W0) (List.filter (Valid W0) References)
    /\ Forall (fun Batch => (0 < length Batch <= 1024)%nat) Batches
    /\ W' = foldl Run W0 Batches.
Proof.
  destruct (PushReferences_batching W0 References [] _ _ (Batching_new W0))
    as (B & W & -> & HB). cbn [app mbind option_bind].
  destruct HB as (Validated & Pending & Queued & Done & Hok & Hlt & HP & Hcat & Hall & HW & Hsum).
  cbn [app] in HP. unfold FlushQueues.
  destruct (DrainUnvalidated_spec B W _ _ Hok)
    as (B1 & Done' & Queued' & -> & Hok' & Hadd & Hcat' & Hall').
  cbn [mbind option_bind].
  destruct Hok' as (HU & HV & HnU & HPe & HnV & HQ & Hq).
  change (Z.to_nat ValidatedBatchSize) with 1024%nat in *.
  rewrite HnV, DrainValidated_spec by lia. rewrite HQ.
  destruct (Runs_stable W0 Done) as [Hg Hr]. rewrite <- HW in Hg, Hr.
  assert (Hall2 : Forall (fun Batch : list Resolved => (0 < length Batch <= 1024)%nat)
                         (Done ++ Done')).
  { apply Forall_app. split; (eapply Forall_impl; [eassumption|]); cbn; intros b Hb; lia. }
  assert (Hcat2 : concat (Done ++ Done') ++ Queued'
                  = map (ToResolvedReference W0) (List.filter (Valid W0) References)).
  { rewrite concat_app, <- app_assoc, Hcat', app_assoc, Hcat.
    rewrite (Valid_ext W0 W Hg), (Resolve_ext W0 W Hr).
    rewrite <- map_app, <- List.filter_app, <- HP. reflexivity. }
  eexists _, _, (Done ++ Done' ++ match Queued' with [] => [] | _ => [Queued'] end).
  split; [reflexivity|]. cbn [UnvalidatedNum ValidatedNum ReferencesAdded].
  split; [exact HnU|]. split; [reflexivity|].
  split; [|split; [|split]].
  - rewrite Hadd, SweepEffectProofs.sumZ_app, Hsum, HP, length_app. cbn. lia.
  - rewrite <- Hcat2, app_assoc, (concat_app (Done ++ Done')). f_equal.
    destruct Queued'; [reflexivity|]. cbn [concat]. rewrite app_nil_r. reflexivity.
  - rewrite app_assoc. apply Forall_app. split; [exact Hall2|].
    destruct Queued' as [|R Q]; [constructor|].
    constructor; [|constructor]. cbn [length] in *. lia.
  - rewrite HW, app_assoc, (foldl_app _ (Done ++ Done')), foldl_app.
    destruct Queued'; reflexivity.
Qed.

End Batcher.

(** The theorem at an immutable batcher whose handler logs the objects it
    is given: of a null reference, a reference into the permanent pool and
    two others, the two others are handled, in their order. *)
Lemma batcher_handles_what_needs_processing_witness :
  exists B' W',
    (PushReferences (fun _ r => r) (fun _ r => r) (fun R => R) (fun _ _ => tt)
       (fun R _ W => W ++ [R]) (fun Object => Object <? 1000) (fun _ => true)
       [5000; 0; 17; 6000] (NewBatcher 0) []
     ≫= fun '(B, W) =>
          FlushQueues (fun _ r => r) (fun _ r => r) (fun R => R) (fun _ _ => tt)
            (fun R _ W => W ++ [R]) (fun Object => Object <? 1000) (fun _ => true) B W)
    = Some (B', W')
    /\ W' = [5000; 6000]
    /\ ReferencesAdded B' = [4].
Proof.
  destruct (batcher_handles_what_needs_processing
              (World := list Z) (Resolved := Z) (Metadata := unit)
              (fun _ r => r) (fun _ r => r) (fun Object => Object <? 1000) (fun _ => true)
              (fun R => R) (fun _ _ => tt) (fun R _ W => W ++ [R]) 0
              ltac:(reflexivity) ltac:(reflexivity) [] [5000; 0; 17; 6000])
    as (B' & W' & Batches & Hrun & _).
  exists B', W'. split; [exact Hrun|].
  vm_compute in Hrun. injection Hrun as HB' HW'. subst B' W'. split; reflexivity.
Defined.

End ReferenceBatcherProofs.
